(** * A shallow embedding of the compiler's type system, IR, optimizer,
      lexer and IR builder, with the properties checked against them.

    Go pointers with identity ([*ir.Value], [*ir.BasicBlock]) are modelled
    as addresses; mutable blocks live in a store keyed by address. *)

From stdpp Require Import gmap strings list fin_maps.
From Stdlib Require Import ZArith Lia Bool Ascii.

Local Open Scope string_scope.
Local Open Scope list_scope.

(** ** internal/semantic/types/types.go *)

Module types.
Local Open Scope Z_scope.

(** [types.Type]: one constructor per Go struct implementing the
    interface.  [ArrayType] carries [ElementType] and [Size];
    [StructType] a [Name] and the ordered [Fields]; [FunctionType] the
    [Parameters] and the [ReturnType]. *)
#[local] Unset Elimination Schemes.
Inductive Type_ : Type :=
| InvalidType
| VoidType
| IntType
| FloatType
| BoolType
| StringType
| CharType
| NilType
| ArrayType (ElementType : Type_) (Size : Z)
| StructType (Name : string) (Fields : list (string * Type_))
| FunctionType (Parameters : list Type_) (ReturnType : Type_).
#[local] Set Elimination Schemes.

(** Induction over [Type_] that reaches the types nested in field and
    parameter lists. *)
Section Type_induction.
Variable P : Type_ -> Prop.
Hypothesis HInvalid : P InvalidType.
Hypothesis HVoid : P VoidType.
Hypothesis HInt : P IntType.
Hypothesis HFloat : P FloatType.
Hypothesis HBool : P BoolType.
Hypothesis HString : P StringType.
Hypothesis HChar : P CharType.
Hypothesis HNil : P NilType.
Hypothesis HArray : forall elem size, P elem -> P (ArrayType elem size).
Hypothesis HStruct : forall name fields,
    Forall (fun f => P (snd f)) fields -> P (StructType name fields).
Hypothesis HFunction : forall params ret,
    Forall P params -> P ret -> P (FunctionType params ret).

Fixpoint Type_induction (t : Type_) : P t :=
  match t with
  | InvalidType => HInvalid
  | VoidType => HVoid
  | IntType => HInt
  | FloatType => HFloat
  | BoolType => HBool
  | StringType => HString
  | CharType => HChar
  | NilType => HNil
  | ArrayType elem size => HArray elem size (Type_induction elem)
  | StructType name fields =>
      HStruct name fields
        ((fix go (fs : list (string * Type_)) : Forall (fun f => P (snd f)) fs :=
            match fs with
            | [] => @List.Forall_nil _ _
            | f :: fs' => @List.Forall_cons _ _ f fs' (Type_induction (snd f)) (go fs')
            end) fields)
  | FunctionType params ret =>
      HFunction params ret
        ((fix go (ps : list Type_) : Forall P ps :=
            match ps with
            | [] => @List.Forall_nil _ _
            | p :: ps' => @List.Forall_cons _ _ p ps' (Type_induction p) (go ps')
            end) params)
        (Type_induction ret)
  end.
End Type_induction.

(** The predefined singletons. *)
Definition Invalid := InvalidType.
Definition Void := VoidType.
Definition Int := IntType.
Definition Float := FloatType.
Definition Bool := BoolType.
Definition String := StringType.
Definition Char := CharType.
Definition Nil := NilType.

Definition NewArray (elementType : Type_) (size : Z) : Type_ :=
  ArrayType elementType size.
Definition NewStruct (name : string) (fields : list (string * Type_)) : Type_ :=
  StructType name fields.
Definition NewFunction (parameters : list Type_) (returnType : Type_) : Type_ :=
  FunctionType parameters returnType.

(** [Equals].  The two range loops walk the receiver's list and index the
    other list at the same position; they run only after the lengths have
    been compared, so the index is always in range (the [_ :: _, []] case
    is never reached from [Equals]). *)
Fixpoint Equals (t other : Type_) {struct t} : bool :=
  match t with
  | InvalidType => false
  | VoidType => match other with VoidType => true | _ => false end
  | IntType => match other with IntType => true | _ => false end
  | FloatType => match other with FloatType => true | _ => false end
  | BoolType => match other with BoolType => true | _ => false end
  | StringType => match other with StringType => true | _ => false end
  | CharType => match other with CharType => true | _ => false end
  | NilType => match other with NilType => true | _ => false end
  | ArrayType elem size =>
      match other with
      | ArrayType oelem osize => Z.eqb size osize && Equals elem oelem
      | _ => false
      end
  | StructType name fields =>
      match other with
      | StructType oname ofields =>
          if negb (String.eqb name "") && negb (String.eqb oname "")
          then String.eqb name oname
          else if negb (Nat.eqb (length fields) (length ofields)) then false
          else
            (fix loop (fs os : list (string * Type_)) {struct fs} : bool :=
               match fs, os with
               | [], _ => true
               | (fname, ftype) :: fs', (oname', otype) :: os' =>
                   if negb (String.eqb fname oname') || negb (Equals ftype otype)
                   then false
                   else loop fs' os'
               | _ :: _, [] => false
               end) fields ofields
      | _ => false
      end
  | FunctionType params ret =>
      match other with
      | FunctionType oparams oret =>
          if negb (Equals ret oret) then false
          else if negb (Nat.eqb (length params) (length oparams)) then false
          else
            (fix loop (ps os : list Type_) {struct ps} : bool :=
               match ps, os with
               | [], _ => true
               | param :: ps', oparam :: os' =>
                   if negb (Equals param oparam) then false else loop ps' os'
               | _ :: _, [] => false
               end) params oparams
      | _ => false
      end
  end.

(** The field loop and the parameter loop of [Equals], named. *)
Fixpoint fields_equal (fs os : list (string * Type_)) : bool :=
  match fs, os with
  | [], _ => true
  | (fname, ftype) :: fs', (oname', otype) :: os' =>
      if negb (String.eqb fname oname') || negb (Equals ftype otype)
      then false
      else fields_equal fs' os'
  | _ :: _, [] => false
  end.

Fixpoint params_equal (ps os : list Type_) : bool :=
  match ps, os with
  | [], _ => true
  | param :: ps', oparam :: os' =>
      if negb (Equals param oparam) then false else params_equal ps' os'
  | _ :: _, [] => false
  end.

Definition AssignableTo (t other : Type_) : bool :=
  match t with
  | InvalidType => false
  | VoidType => false
  | NilType =>
      match other with
      | ArrayType _ _ | StructType _ _ => true
      | _ => false
      end
  | _ => Equals t other
  end.

Definition IsNumeric (t : Type_) : bool :=
  match t with IntType | FloatType => true | _ => false end.
Definition IsComparable (t : Type_) : bool :=
  match t with
  | IntType | FloatType | BoolType | StringType | CharType => true
  | _ => false
  end.
Definition IsOrdered (t : Type_) : bool :=
  match t with
  | IntType | FloatType | StringType | CharType => true
  | _ => false
  end.
Definition IsBooleanType (t : Type_) : bool :=
  match t with BoolType => true | _ => false end.
Definition IsIntegerType (t : Type_) : bool :=
  match t with IntType => true | _ => false end.

(** [valid t]: no [Invalid] occurs in a position that [Equals t t]
    inspects (the fields of a named struct are never inspected). *)
Fixpoint valid (t : Type_) : bool :=
  match t with
  | InvalidType => false
  | ArrayType elem _ => valid elem
  | StructType name fields =>
      if negb (String.eqb name "") then true
      else forallb (fun f => valid (snd f)) fields
  | FunctionType params ret => valid ret && forallb valid params
  | _ => true
  end.

(** [nominal t]: every struct that [Equals] can reach in [t] is named. *)
Fixpoint nominal (t : Type_) : bool :=
  match t with
  | ArrayType elem _ => nominal elem
  | StructType name _ => negb (String.eqb name "")
  | FunctionType params ret => nominal ret && forallb nominal params
  | _ => true
  end.

(** [structural t]: no struct occurring anywhere in [t] is named. *)
Fixpoint structural (t : Type_) : bool :=
  match t with
  | ArrayType elem _ => structural elem
  | StructType name fields =>
      String.eqb name "" && forallb (fun f => structural (snd f)) fields
  | FunctionType params ret => structural ret && forallb structural params
  | _ => true
  end.

End types.

(** ** internal/ir: values, instructions, basic blocks, functions, modules *)

Module ir.

Inductive ValueKind : Set :=
| ValueVariable
| ValueTemporary
| ValueConstant
| ValueParameter.

(** The dynamic payload of [Value.Constant] (a Go [interface{}]): the
    parser stores [int64], [float64] (kept as its bit pattern), [string],
    [rune], [bool] or nothing. *)
Inductive ConstantPayload : Set :=
| PayloadNone
| PayloadInt64 (n : Z)
| PayloadFloat64 (bits : Z)
| PayloadString (s : string)
| PayloadRune (r : Z)
| PayloadBool (b : bool).

(** [*ir.Value].  A value is never mutated after its creation, so the
    pointer is modelled by the record together with its address
    [v_addr]; pointer comparison and map keys use the address. *)
Record Value : Type := mkValue {
  v_addr : nat;
  ID : Z;
  Name : string;
  VType : types.Type_;
  Kind : ValueKind;
  Constant : ConstantPayload
}.

Definition IsConstant (v : Value) : bool :=
  match Kind v with ValueConstant => true | _ => false end.

(** Pointer equality on values. *)
Definition same_value (v w : Value) : bool := Nat.eqb (v_addr v) (v_addr w).

Inductive BinaryOperator : Set :=
| OpAdd | OpSub | OpMul | OpDiv | OpMod
| OpEq | OpNeq | OpLt | OpLe | OpGt | OpGe
| OpAnd | OpOr
| OpBitAnd | OpBitOr | OpBitXor | OpShl | OpShr.

Inductive UnaryOperator : Set :=
| OpNeg | OpNot | OpBitNot.

(** Block pointers are addresses into the block store. *)
Abbreviation BlockPtr := nat (only parsing).

(** The instruction structs.  [Call.Dest] and [Return.Value] are the two
    value pointers documented as possibly nil. *)
Inductive Instruction : Type :=
| BinaryOp (Op : BinaryOperator) (Dest Left Right : Value)
| UnaryOp (Op : UnaryOperator) (Dest Operand : Value)
| Copy (Dest Val : Value)
| Load (Dest Address : Value)
| Store (Address Val : Value)
| GetElementPtr (Dest Base Index : Value)
| GetFieldPtr (Dest Base : Value) (FieldIndex : Z)
| Jump (Target : BlockPtr)
| Branch (Condition : Value) (TrueBlock FalseBlock : BlockPtr)
| Call (Dest : option Value) (Function : Value) (Args : list Value)
| Return (Val : option Value)
| Phi (Dest : Value) (Incomig : list (Value * BlockPtr))
| Alloca (Dest : Value) (AllocType : types.Type_).

Definition Operands (i : Instruction) : list Value :=
  match i with
  | BinaryOp _ _ l r => [l; r]
  | UnaryOp _ _ o => [o]
  | Copy _ v => [v]
  | Load _ a => [a]
  | Store a v => [a; v]
  | GetElementPtr _ b ix => [b; ix]
  | GetFieldPtr _ b _ => [b]
  | Jump _ => []
  | Branch c _ _ => [c]
  | Call _ f args => f :: args
  | Return (Some v) => [v]
  | Return None => []
  | Phi _ inc => map fst inc
  | Alloca _ _ => []
  end.

Definition Result (i : Instruction) : option Value :=
  match i with
  | BinaryOp _ d _ _ => Some d
  | UnaryOp _ d _ => Some d
  | Copy d _ => Some d
  | Load d _ => Some d
  | Store _ _ => None
  | GetElementPtr d _ _ => Some d
  | GetFieldPtr d _ _ => Some d
  | Jump _ => None
  | Branch _ _ _ => None
  | Call d _ _ => d
  | Return _ => None
  | Phi d _ => Some d
  | Alloca d _ => Some d
  end.

Record BasicBlock : Type := mkBasicBlock {
  Label : string;
  Instructions : list Instruction;
  Successors : list BlockPtr;
  Predecessors : list BlockPtr;
  Dominated : list BlockPtr;
  Index : Z
}.

(** [NewBasicBlock]: the object a fresh block pointer refers to. *)
Definition NewBasicBlock (label : string) : BasicBlock :=
  mkBasicBlock label [] [] [] [] 0%Z.

(** The block store.  An address with no entry reads as the zero
    [BasicBlock]; every pointer the program holds has an entry. *)
Abbreviation BlockStore := (gmap nat BasicBlock) (only parsing).

Definition zeroBlock : BasicBlock := mkBasicBlock "" [] [] [] [] 0%Z.

Definition blk (h : BlockStore) (p : BlockPtr) : BasicBlock :=
  default zeroBlock (h !! p).

Definition set_Instructions (l : list Instruction) (bb : BasicBlock) : BasicBlock :=
  mkBasicBlock (Label bb) l (Successors bb) (Predecessors bb) (Dominated bb) (Index bb).
Definition set_Successors (l : list BlockPtr) (bb : BasicBlock) : BasicBlock :=
  mkBasicBlock (Label bb) (Instructions bb) l (Predecessors bb) (Dominated bb) (Index bb).
Definition set_Predecessors (l : list BlockPtr) (bb : BasicBlock) : BasicBlock :=
  mkBasicBlock (Label bb) (Instructions bb) (Successors bb) l (Dominated bb) (Index bb).
Definition set_Index (i : Z) (bb : BasicBlock) : BasicBlock :=
  mkBasicBlock (Label bb) (Instructions bb) (Successors bb) (Predecessors bb) (Dominated bb) i.

(** [bb.AddInstruction(instr)] *)
Definition AddInstruction (h : BlockStore) (bb : BlockPtr) (instr : Instruction)
  : BlockStore :=
  <[bb := set_Instructions (Instructions (blk h bb) ++ [instr]) (blk h bb)]> h.

(** [bb.AddSuccessor(succ)]: return early when [succ] is already among the
    successors; otherwise append to both lists, [bb]'s first.  When
    [bb = succ] both appends hit the same object. *)
Definition AddSuccessor (h : BlockStore) (bb succ : BlockPtr) : BlockStore :=
  if existsb (Nat.eqb succ) (Successors (blk h bb)) then h
  else
    let h1 := <[bb := set_Successors (Successors (blk h bb) ++ [succ]) (blk h bb)]> h in
    <[succ := set_Predecessors (Predecessors (blk h1 succ) ++ [bb]) (blk h1 succ)]> h1.

(** The instruction kinds [Terminator]'s type switch accepts. *)
Definition is_terminator (i : Instruction) : bool :=
  match i with
  | Jump _ | Branch _ _ _ | Return _ => true
  | _ => false
  end.

(** [bb.Terminator()]: the last instruction when it is of such a kind. *)
Definition Terminator (bb : BasicBlock) : option Instruction :=
  match last (Instructions bb) with
  | Some (Jump t) => Some (Jump t)
  | Some (Branch c t f) => Some (Branch c t f)
  | Some (Return v) => Some (Return v)
  | _ => None
  end.

Definition IsTerminated (bb : BasicBlock) : bool :=
  match Terminator bb with Some _ => true | None => false end.

(** [*ir.Function].  Function objects are reached only through
    [Module.Functions]; each is modelled by its record. *)
Record Function : Type := mkFunction {
  FuncName : string;
  Parameters : list Value;
  ReturnType : types.Type_;
  Blocks : list BlockPtr;
  Entry : BlockPtr;
  Locals : list Value;
  nextValueID : Z
}.

Definition set_Blocks (l : list BlockPtr) (f : Function) : Function :=
  mkFunction (FuncName f) (Parameters f) (ReturnType f) l (Entry f) (Locals f)
    (nextValueID f).
Definition set_Locals (l : list Value) (f : Function) : Function :=
  mkFunction (FuncName f) (Parameters f) (ReturnType f) (Blocks f) (Entry f) l
    (nextValueID f).
Definition set_nextValueID (n : Z) (f : Function) : Function :=
  mkFunction (FuncName f) (Parameters f) (ReturnType f) (Blocks f) (Entry f)
    (Locals f) n.

Record Module : Type := mkModule {
  ModName : string;
  Functions : list Function;
  Globals : list Value
}.

Definition NewModule (name : string) : Module := mkModule name [] [].

Definition AddFunction (m : Module) (fn : Function) : Module :=
  mkModule (ModName m) (Functions m ++ [fn]) (Globals m).

(** [Module.Verify]: for each function, one error per block of its block
    list that is not terminated, then one error when the entry block has
    predecessors. *)
Definition Verify (h : BlockStore) (m : Module) : list string :=
  flat_map
    (fun fn =>
       flat_map
         (fun block =>
            if negb (IsTerminated (blk h block))
            then ["block " +:+ Label (blk h block) +:+ " in function "
                    +:+ FuncName fn +:+ " has no terminator"]
            else [])
         (Blocks fn)
       ++ (if Nat.ltb 0 (length (Predecessors (blk h (Entry fn))))
           then ["entry block of function " +:+ FuncName fn +:+ " has predecessors"]
           else []))
    (Functions m).

End ir.

(** ** internal/optimizer: constant folding, dead-code elimination, pass manager *)

Module optimizer.
Import ir.
Local Open Scope Z_scope.

(** Go's [int64] arithmetic wraps around. *)
Definition wrap64 (z : Z) : Z := (z + 2 ^ 63) mod 2 ^ 64 - 2 ^ 63.

(** [leftVal << uint(rightVal)] and [leftVal >> uint(rightVal)] with a
    64-bit [uint]: the count is the operand read as unsigned; a count of
    64 or more shifts every bit out. *)
Definition shl64 (leftVal rightVal : Z) : Z :=
  let count := rightVal mod 2 ^ 64 in
  if 64 <=? count then 0 else wrap64 (Z.shiftl leftVal count).
Definition shr64 (leftVal rightVal : Z) : Z :=
  let count := rightVal mod 2 ^ 64 in
  if 64 <=? count then (if leftVal <? 0 then -1 else 0) else Z.shiftr leftVal count.

(** *** ConstantFoldingPass *)

(** [constants : map[*ir.Value]interface{}], keyed by value address. *)
Definition getConstantValue (v : Value) (constants : gmap nat ConstantPayload)
  : option ConstantPayload :=
  if IsConstant v then Some (Constant v) else constants !! v_addr v.

(** The constant values the pass allocates; [fresh] is the address of the
    new object. *)
Definition newIntConstant (fresh : nat) (result : Z) : Value :=
  mkValue fresh (-1) "" types.Int ValueConstant (PayloadInt64 result).

Definition createBoolCopy (fresh : nat) (dest : Value) (value : bool) : Instruction :=
  Copy dest (mkValue fresh (-1) "" types.Bool ValueConstant (PayloadBool value)).

Definition foldBinaryOpWithConstants (fresh : nat)
    (Op : BinaryOperator) (Dest Left Right : Value)
    (constants : gmap nat ConstantPayload) : option Instruction :=
  match getConstantValue Left constants, getConstantValue Right constants with
  | Some leftConst, Some rightConst =>
      match leftConst, rightConst with
      | PayloadInt64 leftVal, PayloadInt64 rightVal =>
          let copyInt (result : Z) := Some (Copy Dest (newIntConstant fresh result)) in
          match Op with
          | OpAdd => copyInt (wrap64 (leftVal + rightVal))
          | OpSub => copyInt (wrap64 (leftVal - rightVal))
          | OpMul => copyInt (wrap64 (leftVal * rightVal))
          | OpDiv =>
              if rightVal =? 0 then None
              else copyInt (wrap64 (Z.quot leftVal rightVal))
          | OpMod =>
              if rightVal =? 0 then None
              else copyInt (wrap64 (Z.rem leftVal rightVal))
          | OpEq => Some (createBoolCopy fresh Dest (leftVal =? rightVal))
          | OpNeq => Some (createBoolCopy fresh Dest (negb (leftVal =? rightVal)))
          | OpLt => Some (createBoolCopy fresh Dest (leftVal <? rightVal))
          | OpLe => Some (createBoolCopy fresh Dest (leftVal <=? rightVal))
          | OpGt => Some (createBoolCopy fresh Dest (leftVal >? rightVal))
          | OpGe => Some (createBoolCopy fresh Dest (leftVal >=? rightVal))
          | OpBitAnd => copyInt (Z.land leftVal rightVal)
          | OpBitOr => copyInt (Z.lor leftVal rightVal)
          | OpBitXor => copyInt (Z.lxor leftVal rightVal)
          | OpShl => copyInt (shl64 leftVal rightVal)
          | OpShr => copyInt (shr64 leftVal rightVal)
          | OpAnd | OpOr => None
          end
      | _, _ => None
      end
  | _, _ => None
  end.

Definition foldUnaryOpWithConstants (fresh : nat)
    (Op : UnaryOperator) (Dest Operand : Value)
    (constants : gmap nat ConstantPayload) : option Instruction :=
  match getConstantValue Operand constants with
  | None => None
  | Some (PayloadInt64 intVal) =>
      match Op with
      | OpNeg => Some (Copy Dest (newIntConstant fresh (wrap64 (- intVal))))
      | OpBitNot => Some (Copy Dest (newIntConstant fresh (Z.lnot intVal)))
      | OpNot => None
      end
  | Some (PayloadBool boolVal) =>
      match Op with
      | OpNot => Some (createBoolCopy fresh Dest (negb boolVal))
      | _ => None
      end
  | Some _ => None
  end.

Definition foldInstructionWithConstants (fresh : nat) (instr : Instruction)
    (constants : gmap nat ConstantPayload) : option Instruction :=
  match instr with
  | BinaryOp op dest l r => foldBinaryOpWithConstants fresh op dest l r constants
  | UnaryOp op dest o => foldUnaryOpWithConstants fresh op dest o constants
  | _ => None
  end.

(** [constants[copy.Dest] = copy.Value.Constant] when the instruction is a
    Copy of a constant. *)
Definition recordConstant (instr : Instruction) (constants : gmap nat ConstantPayload)
  : gmap nat ConstantPayload :=
  match instr with
  | Copy dest v =>
      if IsConstant v then <[v_addr dest := Constant v]> constants else constants
  | _ => constants
  end.

(** All instructions of the function, block after block. *)
Definition all_instructions (h : gmap nat BasicBlock) (fn : Function)
  : list Instruction :=
  flat_map (fun p => Instructions (blk h p)) (Blocks fn).

(** The state the folding loop threads: the block store, the next free
    value address and the constants map. *)
Record FoldState : Type := mkFoldState {
  fs_store : gmap nat BasicBlock;
  fs_alloc : nat;
  fs_constants : gmap nat ConstantPayload
}.

(** The body of the second pass's inner loop at index [i] of [block]: a
    folded instruction is written in place and, being a Copy of a
    constant, recorded in the constants map. *)
Definition foldStep (block : nat) (i : nat) (instr : Instruction) (st : FoldState)
  : FoldState :=
  match foldInstructionWithConstants (fs_alloc st) instr (fs_constants st) with
  | Some folded =>
      let h := fs_store st in
      mkFoldState
        (<[block := set_Instructions (<[i := folded]> (Instructions (blk h block)))
                      (blk h block)]> h)
        (S (fs_alloc st))
        (recordConstant folded (fs_constants st))
  | None => st
  end.

(** The inner loop over one block: [instrs] is the part of the slice
    still to visit, [i] the index of its head. *)
Fixpoint foldBlock (block : nat) (i : nat) (instrs : list Instruction)
    (st : FoldState) : FoldState :=
  match instrs with
  | [] => st
  | instr :: rest => foldBlock block (S i) rest (foldStep block i instr st)
  end.

Definition ConstantFolding_Run (h : gmap nat BasicBlock) (alloc : nat) (fn : Function)
  : gmap nat BasicBlock * nat :=
  let constants :=
    fold_left (fun cs instr => recordConstant instr cs) (all_instructions h fn) ∅ in
  let st :=
    fold_left
      (fun st block => foldBlock block 0 (Instructions (blk (fs_store st) block)) st)
      (Blocks fn) (mkFoldState h alloc constants) in
  (fs_store st, fs_alloc st).

(** *** DeadCodeEliminationPass *)

Definition isCritical (instr : Instruction) : bool :=
  match instr with
  | Store _ _ | Call _ _ _ | Return _ | Branch _ _ _ | Jump _ => true
  | _ => false
  end.

(** The search of [markValue] for the instruction defining [v]: the first
    instruction, in block order, whose result is the same pointer. *)
Definition definingInstruction (h : gmap nat BasicBlock) (fn : Function) (v : Value)
  : option Instruction :=
  find (fun instr =>
          match Result instr with
          | Some r => same_value r v
          | None => false
          end)
       (all_instructions h fn).

(** Marking the values of a list one after the other. *)
Fixpoint markAll (mark : Value -> gset nat -> option (gset nat))
    (vs : list Value) (used : gset nat) : option (gset nat) :=
  match vs with
  | [] => Some used
  | v :: vs' =>
      match mark v used with
      | Some used' => markAll mark vs' used'
      | None => None
      end
  end.

(** [markValue]; [used : map[*ir.Value]bool] is the set of marked
    addresses.  The recursion depth is bounded by [fuel]; [None] means the
    bound was too small. *)
Fixpoint markValue (fuel : nat) (h : gmap nat BasicBlock) (fn : Function)
    (v : Value) (used : gset nat) : option (gset nat) :=
  match fuel with
  | O => None
  | S fuel' =>
      if bool_decide (v_addr v ∈ used) then Some used
      else if IsConstant v then Some used
      else
        let used' := {[v_addr v]} ∪ used in
        match definingInstruction h fn v with
        | Some instr => markAll (markValue fuel' h fn) (Operands instr) used'
        | None => Some used'
        end
  end.

Definition markUsedValues (h : gmap nat BasicBlock) (fn : Function)
  : option (gset nat) :=
  markAll (markValue (S (length (all_instructions h fn))) h fn)
    (flat_map (fun instr => if isCritical instr then Operands instr else [])
       (all_instructions h fn))
    ∅.

(** The test of the forward sweep: critical, or defining a used value. *)
Definition keepInstruction (used : gset nat) (instr : Instruction) : bool :=
  isCritical instr
  || match Result instr with
     | Some result => bool_decide (v_addr result ∈ used)
     | None => false
     end.

(** The body of the sweep for one block: build the new slice, note
    whether anything was dropped, assign it to the block. *)
Definition sweepBlock (used : gset nat) (acc : gmap nat BasicBlock * bool) (block : nat)
  : gmap nat BasicBlock * bool :=
  let instrs := Instructions (blk acc.1 block) in
  let newInstructions := List.filter (keepInstruction used) instrs in
  (<[block := set_Instructions newInstructions (blk acc.1 block)]> acc.1,
   acc.2 || existsb (fun instr => negb (keepInstruction used instr)) instrs).

Definition removeUnusedInstructions (h : gmap nat BasicBlock) (fn : Function)
    (used : gset nat) : gmap nat BasicBlock * bool :=
  fold_left (sweepBlock used) (Blocks fn) (h, false).

(** The explicit-stack search.  The Go slice is kept with its top (its
    last element) at the head of the list. *)
Fixpoint reachableFrom (fuel : nat) (h : gmap nat BasicBlock)
    (stack : list nat) (reachable : gset nat) : option (gset nat) :=
  match fuel with
  | O => None
  | S fuel' =>
      match stack with
      | [] => Some reachable
      | current :: stack' =>
          if bool_decide (current ∈ reachable) then reachableFrom fuel' h stack' reachable
          else
            let reachable' := {[current]} ∪ reachable in
            let stack'' :=
              fold_left
                (fun st succ =>
                   if bool_decide (succ ∈ reachable') then st else succ :: st)
                (Successors (blk h current)) stack' in
            reachableFrom fuel' h stack'' reachable'
      end
  end.

(** A bound on the number of iterations of the search: every push is a
    successor edge of some block of the store. *)
Definition searchBound (h : gmap nat BasicBlock) : nat :=
  S (S (sum_list (map (fun p => length (Successors (blk h p))) (elements (dom h))))).

(** [block.Index = i] for the blocks of the new list, in order. *)
Fixpoint renumber (h : gmap nat BasicBlock) (i : Z) (blocks : list nat)
  : gmap nat BasicBlock :=
  match blocks with
  | [] => h
  | block :: rest => renumber (<[block := set_Index i (blk h block)]> h) (i + 1) rest
  end.

Definition removeUnreachableBlocks (h : gmap nat BasicBlock) (fn : Function)
  : option (gmap nat BasicBlock * Function * bool) :=
  match reachableFrom (searchBound h) h [Entry fn] ∅ with
  | None => None
  | Some reachable =>
      let newBlocks := List.filter (fun block => bool_decide (block ∈ reachable)) (Blocks fn) in
      let modified :=
        existsb (fun block => negb (bool_decide (block ∈ reachable))) (Blocks fn) in
      if modified
      then Some (renumber h 0 newBlocks, set_Blocks newBlocks fn, true)
      else Some (h, fn, false)
  end.

(** One round of the [for modified] loop of [Run]. *)
Definition runOnce (h : gmap nat BasicBlock) (fn : Function)
  : option (gmap nat BasicBlock * Function * bool) :=
  match markUsedValues h fn with
  | None => None
  | Some usedValues =>
      let '(h1, m1) := removeUnusedInstructions h fn usedValues in
      match removeUnreachableBlocks h1 fn with
      | None => None
      | Some (h2, fn2, m2) => Some (h2, fn2, m1 || m2)
      end
  end.

Fixpoint runLoop (fuel : nat) (h : gmap nat BasicBlock) (fn : Function)
  : option (gmap nat BasicBlock * Function) :=
  match fuel with
  | O => None
  | S fuel' =>
      match runOnce h fn with
      | None => None
      | Some (h', fn', modified) =>
          if modified then runLoop fuel' h' fn' else Some (h', fn')
      end
  end.

(** Every round that modifies the function removes an instruction or a
    block, which bounds the number of rounds. *)
Definition runBound (h : gmap nat BasicBlock) (fn : Function) : nat :=
  S (length (all_instructions h fn) + length (Blocks fn)).

Definition DeadCodeElimination_Run (h : gmap nat BasicBlock) (fn : Function)
  : option (gmap nat BasicBlock * Function) :=
  runLoop (runBound h fn) h fn.

(** *** Optimizer *)

(** What a pass runs on: the block store, the next free value address
    and the function. *)
Record PassState : Type := mkPassState {
  ps_store : gmap nat BasicBlock;
  ps_alloc : nat;
  ps_func : Function
}.

(** The [Pass] interface.  [Run] yields [None] only when a bounded loop
    of the model ran out of fuel; the Go passes never return an error. *)
Record Pass : Type := mkPass {
  PassName : string;
  Run : PassState -> option PassState
}.

Definition ConstantFoldingPass : Pass :=
  mkPass "ConstantFolding"
    (fun st =>
       let '(h, alloc) := ConstantFolding_Run (ps_store st) (ps_alloc st) (ps_func st) in
       Some (mkPassState h alloc (ps_func st))).

Definition DeadCodeEliminationPass : Pass :=
  mkPass "DeadCodeElimination"
    (fun st =>
       match DeadCodeElimination_Run (ps_store st) (ps_func st) with
       | Some (h, fn) => Some (mkPassState h (ps_alloc st) fn)
       | None => None
       end).

Record Optimizer : Type := mkOptimizer {
  passes : list Pass;
  maxIterations : Z;
  verbose : bool
}.

Definition NewOptimizer : Optimizer :=
  mkOptimizer [ConstantFoldingPass; DeadCodeEliminationPass] 10 false.

(** [OptimizeFunction]: each pass once, in order. *)
Definition OptimizeFunction (o : Optimizer) (st : PassState) : option PassState :=
  fold_left
    (fun acc pass => match acc with Some st' => Run pass st' | None => None end)
    (passes o) (Some st).

End optimizer.

(** ** internal/lexer: positions, tokens, the lexer *)

Module lexer.
Local Open Scope Z_scope.

Record Position : Type := mkPosition {
  Filename : string;
  Line : Z;
  Column : Z;
  Offset : Z
}.

Inductive TokenType : Set :=
| TokenEOF | TokenInvalid | TokenComment
| TokenNumber | TokenString | TokenChar | TokenTrue | TokenFalse | TokenNil
| TokenIdentifier
| TokenIf | TokenElse | TokenFor | TokenWhile | TokenBreak | TokenContinue
| TokenReturn | TokenSwitch | TokenCase | TokenDefault
| TokenFunc | TokenVar | TokenConst | TokenTypeKeyword | TokenStruct
| TokenInterface | TokenImport | TokenPackage
| TokenPlus | TokenMinus | TokenStar | TokenSlash | TokenPercent | TokenStarStar
| TokenEqual | TokenNotEqual | TokenLess | TokenLessEqual | TokenGreater
| TokenGreaterEqual
| TokenAnd | TokenOr | TokenNot
| TokenBitAnd | TokenBitOr | TokenBitXor | TokenBitNot | TokenShl | TokenShr
| TokenAssign | TokenPlusEq | TokenMinusEq | TokenStarEq | TokenSlashEq
| TokenPercentEq | TokenAndEq | TokenOrEq | TokenXorEq | TokenShlEq | TokenShrEq
| TokenPlusPlus | TokenMinusMinus
| TokenDot | TokenArrow | TokenQuestion | TokenColon | TokenColonColon
| TokenLeftParen | TokenRightParen | TokenLeftBrace | TokenRightBrace
| TokenLeftBracket | TokenRightBracket | TokenSemicolon | TokenComma
| TokenEllipsis.

Record Token : Type := mkToken {
  Type_ : TokenType;
  Lexeme : string;
  Pos : Position;
  Length : Z
}.

(** The [keywords] map. *)
Definition keywords : gmap string TokenType :=
  list_to_map
    [("if", TokenIf); ("else", TokenElse); ("for", TokenFor); ("while", TokenWhile);
     ("break", TokenBreak); ("continue", TokenContinue); ("return", TokenReturn);
     ("switch", TokenSwitch); ("case", TokenCase); ("default", TokenDefault);
     ("func", TokenFunc); ("var", TokenVar); ("const", TokenConst);
     ("type", TokenTypeKeyword); ("struct", TokenStruct);
     ("interface", TokenInterface); ("import", TokenImport);
     ("package", TokenPackage); ("true", TokenTrue); ("false", TokenFalse);
     ("nil", TokenNil)].

Definition LookupKeyword (identifier : string) : TokenType :=
  match keywords !! identifier with
  | Some tokenType => tokenType
  | None => TokenIdentifier
  end.

(** *** Strings as byte sequences *)

(** [len(s)] and [s[i]]; the index is in range wherever the lexer reads. *)
Definition len (s : string) : Z := Z.of_nat (String.length s).

Definition byteAt (s : string) (i : Z) : Z :=
  match String.get (Z.to_nat i) s with
  | Some c => Z.of_nat (nat_of_ascii c)
  | None => 0
  end.

(** [s[from:to]] *)
Definition slice (s : string) (from to : Z) : string :=
  String.substring (Z.to_nat from) (Z.to_nat (to - from)) s.

(** A rune literal. *)
Definition rune (c : ascii) : Z := Z.of_nat (nat_of_ascii c).

(** The rune of the double quote character. *)
Definition doubleQuote : Z := 34.

Definition RuneError : Z := 65533.

(** [utf8.DecodeRuneInString(s[i:])]: the rune and its width in bytes.
    An empty rest gives [(RuneError, 0)], an invalid or truncated
    encoding [(RuneError, 1)].  The ranges for the second byte are the
    standard library's accept ranges (no overlong forms, no surrogates,
    nothing above U+10FFFF). *)
Definition DecodeRuneInString (s : string) (i : Z) : Z * Z :=
  let n := len s - i in
  if n <? 1 then (RuneError, 0)
  else
    let s0 := byteAt s i in
    if s0 <? 128 then (s0, 1)
    else if (s0 <? 194) || (244 <? s0) then (RuneError, 1)
    else
      let sz := if s0 <? 224 then 2 else if s0 <? 240 then 3 else 4 in
      let lo := if s0 =? 224 then 160 else if s0 =? 240 then 144 else 128 in
      let hi := if s0 =? 237 then 159 else if s0 =? 244 then 143 else 191 in
      if n <? sz then (RuneError, 1)
      else
        let s1 := byteAt s (i + 1) in
        if (s1 <? lo) || (hi <? s1) then (RuneError, 1)
        else if sz <=? 2
        then (Z.lor (Z.shiftl (Z.land s0 31) 6) (Z.land s1 63), 2)
        else
          let s2 := byteAt s (i + 2) in
          if (s2 <? 128) || (191 <? s2) then (RuneError, 1)
          else if sz <=? 3
          then (Z.lor (Z.lor (Z.shiftl (Z.land s0 15) 12) (Z.shiftl (Z.land s1 63) 6))
                  (Z.land s2 63), 3)
          else
            let s3 := byteAt s (i + 3) in
            if (s3 <? 128) || (191 <? s3) then (RuneError, 1)
            else (Z.lor
                    (Z.lor
                       (Z.lor (Z.shiftl (Z.land s0 7) 18) (Z.shiftl (Z.land s1 63) 12))
                       (Z.shiftl (Z.land s2 63) 6))
                    (Z.land s3 63), 4).

(** A [for] loop with a bound on its iterations: [body] answers [inl]
    with the next state to go round again and [inr] with the result to
    leave.  [None] means the bound was too small. *)
Fixpoint loop {S R : Type} (fuel : nat) (body : S -> S + R) (s : S) : option R :=
  match fuel with
  | O => None
  | Datatypes.S fuel' =>
      match body s with
      | inl s' => loop fuel' body s'
      | inr r => Some r
      end
  end.

(** [runeCount(s)]: [for range s] decodes one rune per iteration and
    steps over at least one byte. *)
Definition runeCount (s : string) : option Z :=
  loop (Datatypes.S (String.length s))
    (fun st : Z * Z =>
       let '(i, count) := st in
       if len s <=? i then inr count
       else
         let '(_, size) := DecodeRuneInString s i in
         inl (i + size, count + 1))
    (0, 0).

(** *** The lexer *)

Record Lexer : Type := mkLexer {
  source : string;
  filename : string;
  start : Z;
  current : Z;
  line : Z;
  lineStart : Z
}.

Definition New (source filename : string) : Lexer :=
  mkLexer source filename 0 0 1 0.

Definition set_start (v : Z) (l : Lexer) : Lexer :=
  mkLexer (source l) (filename l) v (current l) (line l) (lineStart l).
Definition set_current (v : Z) (l : Lexer) : Lexer :=
  mkLexer (source l) (filename l) (start l) v (line l) (lineStart l).
Definition set_line (v : Z) (l : Lexer) : Lexer :=
  mkLexer (source l) (filename l) (start l) (current l) v (lineStart l).
Definition set_lineStart (v : Z) (l : Lexer) : Lexer :=
  mkLexer (source l) (filename l) (start l) (current l) (line l) v.

(** What [Lexer.error] reports: the current position and a message. *)
Inductive ErrorMessage : Type :=
| UnexpectedCharacter (ch : Z)
| UnterminatedString
| UnterminatedCharacter
| UnterminatedBlockComment.

Record LexError : Type := mkLexError {
  err_pos : Position;
  err_message : ErrorMessage
}.

Definition currentPosition (l : Lexer) : Position :=
  mkPosition (filename l) (line l) (start l - lineStart l + 1) (start l).

Definition makeToken (l : Lexer) (tokenType : TokenType) (lexeme : string) : Token :=
  mkToken tokenType lexeme (currentPosition l) (current l - start l).

Definition error (l : Lexer) (message : ErrorMessage) : LexError :=
  mkLexError (currentPosition l) message.

Definition isAtEnd (l : Lexer) : bool := len (source l) <=? current l.

Definition advance (l : Lexer) : (Z * Z) * Lexer :=
  if isAtEnd l then ((0, 0), l)
  else
    let '(ch, size) := DecodeRuneInString (source l) (current l) in
    ((ch, size), set_current (current l + size) l).

Definition peek (l : Lexer) : Z :=
  if isAtEnd l then 0 else (DecodeRuneInString (source l) (current l)).1.

Definition peekNext (l : Lexer) : Z :=
  if len (source l) <=? current l + 1 then 0
  else
    let '(_, size) := DecodeRuneInString (source l) (current l) in
    (DecodeRuneInString (source l) (current l + size)).1.

Definition match_ (expected : Z) (l : Lexer) : bool * Lexer :=
  if isAtEnd l then (false, l)
  else
    let '(ch, size) := DecodeRuneInString (source l) (current l) in
    if negb (ch =? expected) then (false, l)
    else (true, set_current (current l + size) l).

Definition isDigit (ch : Z) : bool := (rune "0" <=? ch) && (ch <=? rune "9").

(** The bound given to every loop of the lexer: each iteration consumes
    at least one byte of the source. *)
Definition fuel (l : Lexer) : nat := Datatypes.S (String.length (source l)).

(** The result of a scanning function: the token, the error if any, and
    the lexer afterwards. *)
Definition Scanned : Type := Token * option LexError * Lexer.

Definition token (l : Lexer) (tokenType : TokenType) (lexeme : string) : Scanned :=
  (makeToken l tokenType lexeme, None, l).

Definition invalid (l : Lexer) (message : ErrorMessage) : Scanned :=
  (makeToken l TokenInvalid "", Some (error l message), l).

Definition skipWhitespace (l : Lexer) : option Lexer :=
  loop (fuel l)
    (fun l : Lexer =>
       if isAtEnd l then inr l
       else
         let ch := peek l in
         if (ch =? rune " ") || (ch =? 13) || (ch =? 9) then inl (advance l).2
         else if ch =? 10
         then
           let l1 := (advance l).2 in
           let l2 := set_line (line l1 + 1) l1 in
           inl (set_lineStart (current l2) l2)
         else inr l)
    l.

(** [for !l.isAtEnd() && isDigit(l.peek()) { l.advance() }] *)
Definition scanDigits (l : Lexer) : option Lexer :=
  loop (fuel l)
    (fun l : Lexer =>
       if negb (isAtEnd l) && isDigit (peek l) then inl (advance l).2 else inr l)
    l.

Section with_unicode.

(** [unicode.IsLetter], the standard library's table of the Unicode
    letter categories. *)
Variable IsLetter : Z -> bool.

Definition isLetter (ch : Z) : bool := IsLetter ch || (ch =? rune "_").

Definition scanIdentifier (l : Lexer) : option Scanned :=
  match
    loop (fuel l)
      (fun l : Lexer =>
         if isAtEnd l then inr l
         else
           let ch := peek l in
           if isLetter ch || isDigit ch then inl (advance l).2 else inr l)
      l
  with
  | None => None
  | Some l =>
      let text := slice (source l) (start l) (current l) in
      Some (token l (LookupKeyword text) text)
  end.

Definition scanNumber (l : Lexer) : option Scanned :=
  match scanDigits l with
  | None => None
  | Some l =>
      let fraction :=
        if negb (isAtEnd l) && (peek l =? rune ".")
        then
          if negb (peekNext l =? rune ".") && isDigit (peekNext l)
          then scanDigits (advance l).2
          else Some l
        else Some l in
      match fraction with
      | None => None
      | Some l =>
          let exponent :=
            if negb (isAtEnd l) && ((peek l =? rune "e") || (peek l =? rune "E"))
            then
              let savedCurrent := current l in
              let l := (advance l).2 in
              let l :=
                if negb (isAtEnd l) && ((peek l =? rune "+") || (peek l =? rune "-"))
                then (advance l).2 else l in
              if isAtEnd l || negb (isDigit (peek l))
              then Some (set_current savedCurrent l)
              else scanDigits l
            else Some l in
          match exponent with
          | None => None
          | Some l =>
              Some (token l TokenNumber (slice (source l) (start l) (current l)))
          end
      end
  end.

Definition scanString (l : Lexer) : option Scanned :=
  loop (fuel l)
    (fun l : Lexer =>
       if isAtEnd l then inr (invalid l UnterminatedString)
       else
         let ch := peek l in
         if ch =? doubleQuote
         then
           let l := (advance l).2 in
           inr (token l TokenString (slice (source l) (start l) (current l)))
         else if ch =? 10 then inr (invalid l UnterminatedString)
         else if ch =? rune "\"
         then
           let l := (advance l).2 in
           inl (if negb (isAtEnd l) then (advance l).2 else l)
         else inl (advance l).2)
    l.

Definition scanChar (l : Lexer) : Scanned :=
  if isAtEnd l then invalid l UnterminatedCharacter
  else
    let ch := peek l in
    if ch =? 10 then invalid l UnterminatedCharacter
    else
      let l :=
        if ch =? rune "\"
        then
          let l := (advance l).2 in
          if negb (isAtEnd l) then (advance l).2 else l
        else (advance l).2 in
      if isAtEnd l || negb (peek l =? rune "'") then invalid l UnterminatedCharacter
      else
        let l := (advance l).2 in
        token l TokenChar (slice (source l) (start l) (current l)).

Definition scanLineComment (l : Lexer) : option Scanned :=
  match
    loop (fuel l)
      (fun l : Lexer =>
         if negb (isAtEnd l) && negb (peek l =? 10) then inl (advance l).2 else inr l)
      l
  with
  | None => None
  | Some l => Some (token l TokenComment (slice (source l) (start l) (current l)))
  end.

Definition scanBlockComment (l : Lexer) : option Scanned :=
  match
    loop (fuel l)
      (fun st : Lexer * Z =>
         let '(l, depth) := st in
         if negb (isAtEnd l) && (0 <? depth)
         then
           let ch := peek l in
           if (ch =? rune "/") && (peekNext l =? rune "*")
           then inl ((advance (advance l).2).2, depth + 1)
           else if (ch =? rune "*") && (peekNext l =? rune "/")
           then inl ((advance (advance l).2).2, depth - 1)
           else
             let l :=
               if ch =? 10
               then set_lineStart (current l + 1) (set_line (line l + 1) l)
               else l in
             inl ((advance l).2, depth)
         else inr st)
      (l, 1)
  with
  | None => None
  | Some (l, depth) =>
      if 0 <? depth then Some (invalid l UnterminatedBlockComment)
      else Some (token l TokenComment (slice (source l) (start l) (current l)))
  end.

(** [NextToken]: skip whitespace, mark the start, then dispatch on the
    first character; [match] extends an operator by maximal munch. *)
Definition NextToken (l : Lexer) : option Scanned :=
  match skipWhitespace l with
  | None => None
  | Some l =>
      let l := set_start (current l) l in
      if isAtEnd l then Some (token l TokenEOF "")
      else
        let '((ch, size), l) := advance l in
        if isLetter ch then scanIdentifier l
        else if isDigit ch then scanNumber l
        else if ch =? rune "(" then Some (token l TokenLeftParen "(")
        else if ch =? rune ")" then Some (token l TokenRightParen ")")
        else if ch =? rune "{" then Some (token l TokenLeftBrace "{")
        else if ch =? rune "}" then Some (token l TokenRightBrace "}")
        else if ch =? rune "[" then Some (token l TokenLeftBracket "[")
        else if ch =? rune "]" then Some (token l TokenRightBracket "]")
        else if ch =? rune ";" then Some (token l TokenSemicolon ";")
        else if ch =? rune "," then Some (token l TokenComma ",")
        else if ch =? rune "~" then Some (token l TokenBitNot "~")
        else if ch =? rune "?" then Some (token l TokenQuestion "?")
        else if ch =? rune "+" then
          let '(m, l) := match_ (rune "+") l in
          if m then Some (token l TokenPlusPlus "++")
          else
            let '(m, l) := match_ (rune "=") l in
            if m then Some (token l TokenPlusEq "+=")
            else Some (token l TokenPlus "+")
        else if ch =? rune "-" then
          let '(m, l) := match_ (rune "-") l in
          if m then Some (token l TokenMinusMinus "--")
          else
            let '(m, l) := match_ (rune "=") l in
            if m then Some (token l TokenMinusEq "-=")
            else
              let '(m, l) := match_ (rune ">") l in
              if m then Some (token l TokenArrow "->")
              else Some (token l TokenMinus "-")
        else if ch =? rune "*" then
          let '(m, l) := match_ (rune "*") l in
          if m then Some (token l TokenStarStar "**")
          else
            let '(m, l) := match_ (rune "=") l in
            if m then Some (token l TokenStarEq "*=")
            else Some (token l TokenStar "*")
        else if ch =? rune "/" then
          let '(m, l) := match_ (rune "/") l in
          if m then scanLineComment l
          else
            let '(m, l) := match_ (rune "*") l in
            if m then scanBlockComment l
            else
              let '(m, l) := match_ (rune "=") l in
              if m then Some (token l TokenSlashEq "/=")
              else Some (token l TokenSlash "/")
        else if ch =? rune "%" then
          let '(m, l) := match_ (rune "=") l in
          if m then Some (token l TokenPercentEq "%=")
          else Some (token l TokenPercent "%")
        else if ch =? rune "&" then
          let '(m, l) := match_ (rune "&") l in
          if m then Some (token l TokenAnd "&&")
          else
            let '(m, l) := match_ (rune "=") l in
            if m then Some (token l TokenAndEq "&=")
            else Some (token l TokenBitAnd "&")
        else if ch =? rune "|" then
          let '(m, l) := match_ (rune "|") l in
          if m then Some (token l TokenOr "||")
          else
            let '(m, l) := match_ (rune "=") l in
            if m then Some (token l TokenOrEq "|=")
            else Some (token l TokenBitOr "|")
        else if ch =? rune "^" then
          let '(m, l) := match_ (rune "=") l in
          if m then Some (token l TokenXorEq "^=")
          else Some (token l TokenBitXor "^")
        else if ch =? rune "=" then
          let '(m, l) := match_ (rune "=") l in
          if m then Some (token l TokenEqual "==")
          else Some (token l TokenAssign "=")
        else if ch =? rune "!" then
          let '(m, l) := match_ (rune "=") l in
          if m then Some (token l TokenNotEqual "!=")
          else Some (token l TokenNot "!")
        else if ch =? rune "<" then
          let '(m, l) := match_ (rune "<") l in
          if m then
            let '(m, l) := match_ (rune "=") l in
            if m then Some (token l TokenShlEq "<<=")
            else Some (token l TokenShl "<<")
          else
            let '(m, l) := match_ (rune "=") l in
            if m then Some (token l TokenLessEqual "<=")
            else Some (token l TokenLess "<")
        else if ch =? rune ">" then
          let '(m, l) := match_ (rune ">") l in
          if m then
            let '(m, l) := match_ (rune "=") l in
            if m then Some (token l TokenShrEq ">>=")
            else Some (token l TokenShr ">>")
          else
            let '(m, l) := match_ (rune "=") l in
            if m then Some (token l TokenGreaterEqual ">=")
            else Some (token l TokenGreater ">")
        else if ch =? rune ":" then
          let '(m, l) := match_ (rune ":") l in
          if m then Some (token l TokenColonColon "::")
          else Some (token l TokenColon ":")
        else if ch =? rune "." then
          let '(m, l) := match_ (rune ".") l in
          if m then
            let '(m, l) := match_ (rune ".") l in
            if m then Some (token l TokenEllipsis "...")
            else Some (token l TokenDot ".")
          else Some (token l TokenDot ".")
        else if ch =? doubleQuote then scanString l
        else if ch =? rune "'" then Some (scanChar l)
        else Some (invalid l (UnexpectedCharacter ch))
  end.

End with_unicode.

End lexer.

(** ** internal/lexer: token classification, position and span helpers *)

Module token.
Import lexer.
Local Open Scope Z_scope.

(** The value [iota] gives each [TokenType] constant. *)
Definition ordinal (tt : TokenType) : Z :=
  match tt with
  | TokenEOF => 0 | TokenInvalid => 1 | TokenComment => 2
  | TokenNumber => 3 | TokenString => 4 | TokenChar => 5
  | TokenTrue => 6 | TokenFalse => 7 | TokenNil => 8
  | TokenIdentifier => 9
  | TokenIf => 10 | TokenElse => 11 | TokenFor => 12 | TokenWhile => 13
  | TokenBreak => 14 | TokenContinue => 15 | TokenReturn => 16
  | TokenSwitch => 17 | TokenCase => 18 | TokenDefault => 19
  | TokenFunc => 20 | TokenVar => 21 | TokenConst => 22
  | TokenTypeKeyword => 23 | TokenStruct => 24 | TokenInterface => 25
  | TokenImport => 26 | TokenPackage => 27
  | TokenPlus => 28 | TokenMinus => 29 | TokenStar => 30 | TokenSlash => 31
  | TokenPercent => 32 | TokenStarStar => 33
  | TokenEqual => 34 | TokenNotEqual => 35 | TokenLess => 36
  | TokenLessEqual => 37 | TokenGreater => 38 | TokenGreaterEqual => 39
  | TokenAnd => 40 | TokenOr => 41 | TokenNot => 42
  | TokenBitAnd => 43 | TokenBitOr => 44 | TokenBitXor => 45
  | TokenBitNot => 46 | TokenShl => 47 | TokenShr => 48
  | TokenAssign => 49 | TokenPlusEq => 50 | TokenMinusEq => 51
  | TokenStarEq => 52 | TokenSlashEq => 53 | TokenPercentEq => 54
  | TokenAndEq => 55 | TokenOrEq => 56 | TokenXorEq => 57
  | TokenShlEq => 58 | TokenShrEq => 59
  | TokenPlusPlus => 60 | TokenMinusMinus => 61
  | TokenDot => 62 | TokenArrow => 63 | TokenQuestion => 64
  | TokenColon => 65 | TokenColonColon => 66
  | TokenLeftParen => 67 | TokenRightParen => 68 | TokenLeftBrace => 69
  | TokenRightBrace => 70 | TokenLeftBracket => 71 | TokenRightBracket => 72
  | TokenSemicolon => 73 | TokenComma => 74 | TokenEllipsis => 75
  end.

Definition IsKeyword (tt : TokenType) : bool :=
  (ordinal TokenIf <=? ordinal tt) && (ordinal tt <=? ordinal TokenPackage).

Definition IsOperator (tt : TokenType) : bool :=
  (ordinal TokenPlus <=? ordinal tt) && (ordinal tt <=? ordinal TokenColonColon).

Definition IsLiteral (tt : TokenType) : bool :=
  (ordinal TokenNumber <=? ordinal tt) && (ordinal tt <=? ordinal TokenNil).

(** *** [itoa]

    The three loops of [itoa]: the digits of [n], least significant
    first; then the sign; then the reversal of the buffer in place. *)
Definition digitsLoop (n : Z) : option (list ascii) :=
  loop 20
    (fun st : Z * list ascii =>
       let '(n, buf) := st in
       if 0 <? n
       then inl (Z.quot n 10,
                 buf ++ [ascii_of_nat (Z.to_nat ((48 + Z.rem n 10) mod 256))])
       else inr buf)
    (n, []).

(** [for i, j := 0, len(buf)-1; i < j; i, j = i+1, j-1 { swap }] *)
Definition reverseLoop (buf : list ascii) : option (list ascii) :=
  loop (S (length buf))
    (fun st : Z * Z * list ascii =>
       let '(i, j, buf) := st in
       if i <? j
       then
         match buf !! Z.to_nat i, buf !! Z.to_nat j with
         | Some bi, Some bj =>
             inl (i + 1, j - 1, <[Z.to_nat j := bi]> (<[Z.to_nat i := bj]> buf))
         | _, _ => inr buf
         end
       else inr buf)
    (0, Z.of_nat (length buf) - 1, buf).

(** [itoa(n)] for a 64-bit [int]: [-n] wraps around for the least
    integer. *)
Definition itoa (n : Z) : option string :=
  if n =? 0 then Some "0"
  else
    let negative := n <? 0 in
    let n := if negative then optimizer.wrap64 (- n) else n in
    match digitsLoop n with
    | None => None
    | Some buf =>
        let buf := if negative then buf ++ ["-"%char] else buf in
        match reverseLoop buf with
        | None => None
        | Some buf => Some (String.string_of_list_ascii buf)
        end
    end.

(** *** [Position] and [Span] *)

(** [Position.String]: ["filename:line:column"]. *)
Definition Position_String (p : Position) : option string :=
  match itoa (Line p), itoa (Column p) with
  | Some line, Some column => Some (Filename p +:+ ":" +:+ line +:+ ":" +:+ column)
  | _, _ => None
  end.

Definition Position_IsValid (p : Position) : bool := 0 <? Line p.

Definition Before (p other : Position) : bool := Offset p <? Offset other.

Definition After (p other : Position) : bool := Offset other <? Offset p.

Record Span : Type := mkSpan {
  Start : Position;
  End_ : Position
}.

Definition Span_IsValid (s : Span) : bool :=
  Position_IsValid (Start s) && Position_IsValid (End_ s)
  && negb (Before (End_ s) (Start s)).

Definition Contains (s : Span) (pos : Position) : bool :=
  negb (Before pos (Start s)) && negb (After pos (End_ s)).

Definition Span_Length (s : Span) : Z :=
  if negb (Span_IsValid s) then 0 else Offset (End_ s) - Offset (Start s).

(** [Token.Span]: from the token's position to the position
    [runeCount(Lexeme)] columns and [Length] bytes further on the same
    line. *)
Definition Token_Span (t : Token) : option Span :=
  match runeCount (Lexeme t) with
  | None => None
  | Some count =>
      Some (mkSpan (Pos t)
              (mkPosition (Filename (Pos t)) (Line (Pos t))
                 (Column (Pos t) + count) (Offset (Pos t) + Length t)))
  end.

End token.

(** ** internal/parser: precedence table, string literal *)

Module parser.
Import lexer.
Local Open Scope Z_scope.

Inductive Precedence : Set :=
| PrecNone | PrecAssignment | PrecOr | PrecAnd | PrecEquality | PrecComparison
| PrecBitOr | PrecBitXor | PrecBitAnd | PrecShift | PrecTerm | PrecFactor
| PrecExponent | PrecUnary | PrecCall | PrecPrimary.

(** The value [iota] gives each level; levels are compared as integers. *)
Definition level (p : Precedence) : Z :=
  match p with
  | PrecNone => 0 | PrecAssignment => 1 | PrecOr => 2 | PrecAnd => 3
  | PrecEquality => 4 | PrecComparison => 5 | PrecBitOr => 6 | PrecBitXor => 7
  | PrecBitAnd => 8 | PrecShift => 9 | PrecTerm => 10 | PrecFactor => 11
  | PrecExponent => 12 | PrecUnary => 13 | PrecCall => 14 | PrecPrimary => 15
  end.

Definition getPrecedence (tokenType : TokenType) : Precedence :=
  match tokenType with
  | TokenAssign | TokenPlusEq | TokenMinusEq | TokenStarEq | TokenSlashEq
  | TokenPercentEq | TokenAndEq | TokenOrEq | TokenXorEq | TokenShlEq
  | TokenShrEq => PrecAssignment
  | TokenOr => PrecOr
  | TokenAnd => PrecAnd
  | TokenEqual | TokenNotEqual => PrecEquality
  | TokenLess | TokenLessEqual | TokenGreater | TokenGreaterEqual => PrecComparison
  | TokenBitOr => PrecBitOr
  | TokenBitXor => PrecBitXor
  | TokenBitAnd => PrecBitAnd
  | TokenShl | TokenShr => PrecShift
  | TokenPlus | TokenMinus => PrecTerm
  | TokenStar | TokenSlash | TokenPercent => PrecFactor
  | TokenStarStar => PrecExponent
  | TokenDot | TokenLeftBracket | TokenLeftParen => PrecCall
  | _ => PrecNone
  end.

Definition isRightAssociative (tokenType : TokenType) : bool :=
  match tokenType with
  | TokenAssign | TokenPlusEq | TokenMinusEq | TokenStarEq | TokenSlashEq
  | TokenPercentEq | TokenAndEq | TokenOrEq | TokenXorEq | TokenShlEq
  | TokenShrEq | TokenStarStar => true
  | _ => false
  end.

(** [string(b)] for a byte [b]: the UTF-8 encoding of the code point
    with that number, two bytes long from 128 on. *)
Definition stringOfByte (b : Z) : string :=
  if b <? 128 then String (ascii_of_nat (Z.to_nat b)) ""
  else String (ascii_of_nat (Z.to_nat (Z.lor 192 (Z.shiftr b 6))))
         (String (ascii_of_nat (Z.to_nat (Z.lor 128 (Z.land b 63)))) "").

(** [parseStringLiteral]: drop the quotes, then replace each escape
    sequence; the character after a backslash that is not [n], [t], [r], a
    backslash or a double quote stands for itself, and a backslash that ends the text is
    kept. *)
Definition parseStringLiteral (lexeme : string) : option string :=
  if len lexeme <? 2 then Some ""
  else
    let s := slice lexeme 1 (len lexeme - 1) in
    loop (S (String.length s))
      (fun st : Z * string =>
         let '(i, result) := st in
         if i <? len s
         then
           if (byteAt s i =? rune "\") && (i + 1 <? len s)
           then
             let c := byteAt s (i + 1) in
             let r :=
               if c =? rune "n" then String (ascii_of_nat 10) ""
               else if c =? rune "t" then String (ascii_of_nat 9) ""
               else if c =? rune "r" then String (ascii_of_nat 13) ""
               else if c =? rune "\" then "\"
               else if c =? doubleQuote then String (ascii_of_nat 34) ""
               else stringOfByte c in
             inl (i + 1 + 1, result +:+ r)
           else inl (i + 1, result +:+ stringOfByte (byteAt s i))
         else inr result)
      (0, "").

End parser.

(** ** internal/ir/builder.go: lowering of the analysed AST to IR *)

Module builder.
Import ir.

(** *** The part of [ast] the builder reads

    Tokens are reduced to the one field the builder inspects, the
    operator's [Type]; source positions are left out (the builder uses them
    only as the prefix of its error messages). *)
Inductive Expr : Type :=
| BinaryExpr (Left : Expr) (Operator : lexer.TokenType) (Right : Expr)
| UnaryExpr (Operator : lexer.TokenType) (Operand : Expr) (IsPostfix : bool)
| LiteralExpr (Val : ConstantPayload)
| IdentifierExpr (Name : string)
| CallExpr (Callee : Expr) (Args : list Expr)
| IndexExpr (Object Index : Expr)
| MemberExpr (Object : Expr) (Member : string)
| AssignmentExpr (Target : Expr) (Operator : lexer.TokenType) (Val : Expr)
| LogicalExpr (Left : Expr) (Operator : lexer.TokenType) (Right : Expr)
| GroupingExpr (Expression : Expr)
| ArrayLiteralExpr (ElementType : option Expr) (Elements : list Expr)
| StructLiteralExpr (TypeName : string) (Fields : list (string * Expr)).

(** Statements.  A [*BlockStmt] field ([ThenBranch], [Body]) is the list of
    the block's statements; a field that may be nil is an [option].  The
    declarations other than [VarDecl] also implement [Stmt]; [buildStmt] has
    no case for them, as it has none for [SwitchStmt]. *)
Inductive Stmt : Type :=
| ExprStmt (Expression : Expr)
| BlockStmt (Statements : list Stmt)
| IfStmt (Condition : Expr) (ThenBranch : list Stmt) (ElseBranch : option Stmt)
| WhileStmt (Condition : Expr) (Body : list Stmt)
| ForStmt (Init : option Stmt) (Condition : option Expr) (Post : option Stmt)
    (Body : list Stmt)
| ReturnStmt (Val : option Expr)
| BreakStmt
| ContinueStmt
| SwitchStmt (Val : Expr) (Cases : list (list Expr * list Stmt * bool))
| VarDecl (Names : list string) (VarType : option Expr) (Initializer : option Expr).

Record ParameterDecl : Type := mkParameterDecl {
  ParamName : string;
  ParamType : Expr
}.

Record FuncDecl : Type := mkFuncDecl {
  DeclName : string;
  Params : list ParameterDecl;
  DeclReturnType : option Expr;
  Body : option (list Stmt)
}.

(** Top-level declarations: [buildDecl] distinguishes functions and
    variables; struct and type declarations generate no IR. *)
Inductive Decl : Type :=
| DeclFunc (d : FuncDecl)
| DeclVar (Names : list string) (VarType : option Expr) (Initializer : option Expr)
| DeclStruct (Name : string)
| DeclType (Name : string).

Record File : Type := mkFile {
  Package : string;
  Decls : list Decl
}.

(** *** The part of [symtab] the builder reads *)
Inductive SymbolKind : Set :=
| SymbolVariable | SymbolFunction | SymbolParameter | SymbolType
| SymbolStruct | SymbolField | SymbolPackage.

(** [*symtab.Symbol]; [sym_addr] is the pointer, the key of
    [Builder.variables]. *)
Record Symbol : Type := mkSymbol {
  sym_addr : nat;
  SymName : string;
  SymKind : SymbolKind;
  SymType : types.Type_
}.

(** *** The builder's state

    The Go fields of [Builder], together with the heap the builder
    allocates in: the block store and the next free block and value
    addresses.  [currentFunc] holds the function under construction; it is
    copied into the module by [AddFunction] once its body is built, after
    which the builder no longer touches it. *)
Record Builder : Type := mkBuilder {
  store : BlockStore;
  nextBlockAddr : nat;
  nextValueAddr : nat;
  module : Module;
  currentFunc : option Function;
  currentBlock : option BlockPtr;
  variables : gmap nat Value;
  namedValues : gmap string Value;
  breakTarget : option BlockPtr;
  continueTarget : option BlockPtr;
  errors : list string
}.

Definition set_store (x : BlockStore) (b : Builder) : Builder :=
  mkBuilder x (nextBlockAddr b) (nextValueAddr b) (module b) (currentFunc b)
    (currentBlock b) (variables b) (namedValues b) (breakTarget b)
    (continueTarget b) (errors b).
Definition set_nextBlockAddr (x : nat) (b : Builder) : Builder :=
  mkBuilder (store b) x (nextValueAddr b) (module b) (currentFunc b)
    (currentBlock b) (variables b) (namedValues b) (breakTarget b)
    (continueTarget b) (errors b).
Definition set_nextValueAddr (x : nat) (b : Builder) : Builder :=
  mkBuilder (store b) (nextBlockAddr b) x (module b) (currentFunc b)
    (currentBlock b) (variables b) (namedValues b) (breakTarget b)
    (continueTarget b) (errors b).
Definition set_module (x : Module) (b : Builder) : Builder :=
  mkBuilder (store b) (nextBlockAddr b) (nextValueAddr b) x (currentFunc b)
    (currentBlock b) (variables b) (namedValues b) (breakTarget b)
    (continueTarget b) (errors b).
Definition set_currentFunc (x : option Function) (b : Builder) : Builder :=
  mkBuilder (store b) (nextBlockAddr b) (nextValueAddr b) (module b) x
    (currentBlock b) (variables b) (namedValues b) (breakTarget b)
    (continueTarget b) (errors b).
Definition set_currentBlock (x : option BlockPtr) (b : Builder) : Builder :=
  mkBuilder (store b) (nextBlockAddr b) (nextValueAddr b) (module b)
    (currentFunc b) x (variables b) (namedValues b) (breakTarget b)
    (continueTarget b) (errors b).
Definition set_variables (x : gmap nat Value) (b : Builder) : Builder :=
  mkBuilder (store b) (nextBlockAddr b) (nextValueAddr b) (module b)
    (currentFunc b) (currentBlock b) x (namedValues b) (breakTarget b)
    (continueTarget b) (errors b).
Definition set_namedValues (x : gmap string Value) (b : Builder) : Builder :=
  mkBuilder (store b) (nextBlockAddr b) (nextValueAddr b) (module b)
    (currentFunc b) (currentBlock b) (variables b) x (breakTarget b)
    (continueTarget b) (errors b).
Definition set_breakTarget (x : option BlockPtr) (b : Builder) : Builder :=
  mkBuilder (store b) (nextBlockAddr b) (nextValueAddr b) (module b)
    (currentFunc b) (currentBlock b) (variables b) (namedValues b) x
    (continueTarget b) (errors b).
Definition set_continueTarget (x : option BlockPtr) (b : Builder) : Builder :=
  mkBuilder (store b) (nextBlockAddr b) (nextValueAddr b) (module b)
    (currentFunc b) (currentBlock b) (variables b) (namedValues b)
    (breakTarget b) x (errors b).
Definition set_errors (x : list string) (b : Builder) : Builder :=
  mkBuilder (store b) (nextBlockAddr b) (nextValueAddr b) (module b)
    (currentFunc b) (currentBlock b) (variables b) (namedValues b)
    (breakTarget b) (continueTarget b) x.

(** [NewBuilder]: empty maps, everything else nil, on an empty heap. *)
Definition NewBuilder : Builder :=
  mkBuilder ∅ 0 0 (NewModule "") None None ∅ ∅ None None [].

(** *** The builder monad

    A method of [*Builder] is a state transformer on [Builder] that may
    stop with a Go panic ([None]): a nil dereference, a failed type
    assertion, an index out of range. *)
Definition M (A : Type) : Type := Builder -> option (A * Builder).

#[global] Instance M_ret : MRet M := fun A a b => Some (a, b).
#[global] Instance M_bind : MBind M := fun A B f m b =>
  match m b with
  | Some (a, b') => f a b'
  | None => None
  end.
#[global] Instance M_fmap : FMap M := fun A B f m b =>
  match m b with
  | Some (a, b') => Some (f a, b')
  | None => None
  end.

Definition get : M Builder := fun b => Some (b, b).
Definition modify (f : Builder -> Builder) : M unit := fun b => Some (tt, f b).
Definition panic {A : Type} : M A := fun _ => None.
Definition skip : M unit := mret tt.

(** Dereference of a pointer that may be nil. *)
Definition deref {A : Type} (p : option A) : M A :=
  match p with
  | Some a => mret a
  | None => panic
  end.

(** An instruction operand.  Go stores a nil [*Value] in the instruction;
    [ir.Instruction] has no nil operands, so the model stops there. *)
Definition operand (v : option Value) : M Value := deref v.

(** [&Value{...}]: a value at a fresh address. *)
Definition allocValue (id : Z) (name : string) (typ : types.Type_)
    (kind : ValueKind) (c : ConstantPayload) : M Value :=
  b ← get;
  modify (set_nextValueAddr (S (nextValueAddr b)));;
  mret (mkValue (nextValueAddr b) id name typ kind c).

(** [NewFunction(name, params, returnType)], allocating the entry block at
    the fresh address [p]. *)
Definition NewFunction (h : BlockStore) (p : BlockPtr) (name : string)
    (params : list Value) (returnType : types.Type_) : BlockStore * Function :=
  (<[p := NewBasicBlock "entry"]> h,
   mkFunction name params returnType [p] p [] (Z.of_nat (length params))).

(** [b.currentFunc.NewBasicBlockInFunc(label)]. *)
Definition NewBasicBlockInFunc (label : string) : M BlockPtr :=
  b ← get;
  f ← deref (currentFunc b);
  let bb := nextBlockAddr b in
  modify (set_nextBlockAddr (S bb));;
  modify (fun b => set_store
    (<[bb := set_Index (Z.of_nat (length (Blocks f))) (NewBasicBlock label)]>
       (store b)) b);;
  modify (set_currentFunc (Some (set_Blocks (Blocks f ++ [bb]) f)));;
  mret bb.

(** [b.currentFunc.NewValue(name, typ, kind)]. *)
Definition NewValue (name : string) (typ : types.Type_) (kind : ValueKind)
  : M Value :=
  b ← get;
  f ← deref (currentFunc b);
  v ← allocValue (nextValueID f) name typ kind PayloadNone;
  modify (set_currentFunc (Some (set_nextValueID (nextValueID f + 1)%Z f)));;
  mret v.

(** [b.currentFunc.NewTemp(typ)]. *)
Definition NewTemp (typ : types.Type_) : M Value :=
  NewValue "" typ ValueTemporary.

(** [b.currentBlock.AddInstruction(instr)]. *)
Definition emit (instr : Instruction) : M unit :=
  b ← get;
  bb ← deref (currentBlock b);
  modify (set_store (AddInstruction (store b) bb instr)).

(** [b.currentBlock.AddSuccessor(succ)]. *)
Definition link (succ : BlockPtr) : M unit :=
  b ← get;
  bb ← deref (currentBlock b);
  modify (set_store (AddSuccessor (store b) bb succ)).

(** [if !b.currentBlock.IsTerminated() { ... }]. *)
Definition unlessTerminated (m : M unit) : M unit :=
  b ← get;
  bb ← deref (currentBlock b);
  if IsTerminated (blk (store b) bb) then skip else m.

(** [b.error(pos, message)], without the position prefix. *)
Definition error (message : string) : M unit :=
  modify (fun b => set_errors (errors b ++ [message]) b).

(** The operator switches of [buildBinary] and [buildUnary]. *)
Definition binaryOperator (t : lexer.TokenType) : option BinaryOperator :=
  match t with
  | lexer.TokenPlus => Some OpAdd
  | lexer.TokenMinus => Some OpSub
  | lexer.TokenStar => Some OpMul
  | lexer.TokenSlash => Some OpDiv
  | lexer.TokenPercent => Some OpMod
  | lexer.TokenEqual => Some OpEq
  | lexer.TokenNotEqual => Some OpNeq
  | lexer.TokenLess => Some OpLt
  | lexer.TokenLessEqual => Some OpLe
  | lexer.TokenGreater => Some OpGt
  | lexer.TokenGreaterEqual => Some OpGe
  | lexer.TokenBitAnd => Some OpBitAnd
  | lexer.TokenBitOr => Some OpBitOr
  | lexer.TokenBitXor => Some OpBitXor
  | lexer.TokenShl => Some OpShl
  | lexer.TokenShr => Some OpShr
  | _ => None
  end.

Definition unaryOperator (t : lexer.TokenType) : option UnaryOperator :=
  match t with
  | lexer.TokenMinus => Some OpNeg
  | lexer.TokenNot => Some OpNot
  | lexer.TokenBitNot => Some OpBitNot
  | _ => None
  end.

Section with_analyzer.

(** The analyzer the builder was created with: the expression types it
    recorded, and the lookup in its global scope. *)
Variable GetExprType : Expr -> types.Type_.
Variable Lookup : string -> option Symbol.

(** [buildBinary], given the values of the two operands. *)
Definition buildBinary (left right : option Value) (op : lexer.TokenType)
    (resultType : types.Type_) : M (option Value) :=
  result ← NewTemp resultType;
  match binaryOperator op with
  | None => error "unsupported binary operator";; mret (Some result)
  | Some o =>
      l ← operand left;
      r ← operand right;
      emit (BinaryOp o result l r);;
      mret (Some result)
  end.

(** [buildUnary], given the value of the operand. *)
Definition buildUnary (operand_ : option Value) (op : lexer.TokenType)
    (resultType : types.Type_) : M (option Value) :=
  result ← NewTemp resultType;
  match unaryOperator op with
  | None => error "unsupported unary operator";; mret (Some result)
  | Some o =>
      v ← operand operand_;
      emit (UnaryOp o result v);;
      mret (Some result)
  end.

Definition buildLiteral (value : ConstantPayload) (exprType : types.Type_)
  : M (option Value) :=
  Some <$> allocValue (-1) "" exprType ValueConstant value.

Definition buildIdentifier (name : string) : M (option Value) :=
  b ← get;
  match namedValues b !! name with
  | Some val => mret (Some val)
  | None =>
      match Lookup name with
      | Some symbol =>
          match SymKind symbol with
          | SymbolFunction =>
              Some <$> allocValue (-1) name (SymType symbol) ValueVariable
                         PayloadNone
          | _ =>
              match variables b !! sym_addr symbol with
              | Some val => mret (Some val)
              | None =>
                  error "variable not mapped to IR value";;
                  Some <$> NewTemp types.Invalid
              end
          end
      | None =>
          error "undefined variable";;
          Some <$> NewTemp types.Invalid
      end
  end.

(** [buildCall], given the values of the callee and of the arguments. *)
Definition buildCall (function : option Value) (args : list (option Value))
    (resultType : types.Type_) : M (option Value) :=
  result ← (if types.Equals resultType types.Void then mret None
            else Some <$> NewTemp resultType);
  f ← operand function;
  a ← mapM operand args;
  emit (Call result f a);;
  mret result.

(** [buildAssignment], given the value of the right-hand side. *)
Definition buildAssignment (target : Expr) (value : option Value)
  : M (option Value) :=
  match target with
  | IdentifierExpr name =>
      b ← get;
      match namedValues b !! name with
      | Some t =>
          v ← operand value;
          emit (Copy t v);;
          mret (Some t)
      | None =>
          match Lookup name ≫= fun symbol => variables b !! sym_addr symbol with
          | Some t =>
              v ← operand value;
              emit (Copy t v);;
              mret (Some t)
          | None => mret value
          end
      end
  | _ => mret value
  end.

(** [buildExpr]; the result is nil for a call of a [Void] function. *)
Fixpoint buildExpr (expr : Expr) : M (option Value) :=
  let exprType := GetExprType expr in
  match expr with
  | BinaryExpr l op r =>
      left ← buildExpr l;
      right ← buildExpr r;
      buildBinary left right op exprType
  | UnaryExpr op e _ =>
      v ← buildExpr e;
      buildUnary v op exprType
  | LiteralExpr value => buildLiteral value exprType
  | IdentifierExpr name => buildIdentifier name
  | CallExpr callee args =>
      function ← buildExpr callee;
      vs ← (fix buildArgs (l : list Expr) : M (list (option Value)) :=
              match l with
              | [] => mret []
              | a :: l' =>
                  v ← buildExpr a;
                  vs ← buildArgs l';
                  mret (v :: vs)
              end) args;
      buildCall function vs exprType
  | AssignmentExpr target _ value =>
      v ← buildExpr value;
      buildAssignment target v
  | _ =>
      error "unsupported expression type";;
      Some <$> NewTemp types.Invalid
  end.

(** [buildIf]; [thenBranch] and [elseBranch] are the recursive
    [b.buildStmt] calls on the two branches. *)
Definition buildIf (condition : Expr) (thenBranch : M unit)
    (elseBranch : option (M unit)) : M unit :=
  cond ← buildExpr condition;
  thenBlock ← NewBasicBlockInFunc "if.then";
  endBlock ← NewBasicBlockInFunc "if.end";
  elseBlock ← (match elseBranch with
               | Some _ => NewBasicBlockInFunc "if.else"
               | None => mret endBlock
               end);
  c ← operand cond;
  emit (Branch c thenBlock elseBlock);;
  link thenBlock;;
  link elseBlock;;
  modify (set_currentBlock (Some thenBlock));;
  thenBranch;;
  unlessTerminated (emit (Jump endBlock);; link endBlock);;
  (match elseBranch with
   | Some build =>
       modify (set_currentBlock (Some elseBlock));;
       build;;
       unlessTerminated (emit (Jump endBlock);; link endBlock)
   | None => skip
   end);;
  modify (set_currentBlock (Some endBlock)).

(** [buildWhile]; [body] is [b.buildStmt(stmt.Body)]. *)
Definition buildWhile (condition : Expr) (body : M unit) : M unit :=
  condBlock ← NewBasicBlockInFunc "while.cond";
  bodyBlock ← NewBasicBlockInFunc "while.body";
  endBlock ← NewBasicBlockInFunc "while.end";
  b ← get;
  let oldBreak := breakTarget b in
  let oldContinue := continueTarget b in
  modify (set_breakTarget (Some endBlock));;
  modify (set_continueTarget (Some condBlock));;
  emit (Jump condBlock);;
  link condBlock;;
  modify (set_currentBlock (Some condBlock));;
  cond ← buildExpr condition;
  c ← operand cond;
  emit (Branch c bodyBlock endBlock);;
  link bodyBlock;;
  link endBlock;;
  modify (set_currentBlock (Some bodyBlock));;
  body;;
  unlessTerminated (emit (Jump condBlock);; link condBlock);;
  modify (set_breakTarget oldBreak);;
  modify (set_continueTarget oldContinue);;
  modify (set_currentBlock (Some endBlock)).

(** [buildFor]; [init], [post] and [body] are the recursive [b.buildStmt]
    calls. *)
Definition buildFor (init : option (M unit)) (condition : option Expr)
    (post : option (M unit)) (body : M unit) : M unit :=
  (match init with Some build => build | None => skip end);;
  condBlock ← NewBasicBlockInFunc "for.cond";
  bodyBlock ← NewBasicBlockInFunc "for.body";
  postBlock ← NewBasicBlockInFunc "for.post";
  endBlock ← NewBasicBlockInFunc "for.end";
  b ← get;
  let oldBreak := breakTarget b in
  let oldContinue := continueTarget b in
  modify (set_breakTarget (Some endBlock));;
  modify (set_continueTarget (Some postBlock));;
  emit (Jump condBlock);;
  link condBlock;;
  modify (set_currentBlock (Some condBlock));;
  (match condition with
   | Some e =>
       cond ← buildExpr e;
       c ← operand cond;
       emit (Branch c bodyBlock endBlock)
   | None => emit (Jump bodyBlock)
   end);;
  link bodyBlock;;
  link endBlock;;
  modify (set_currentBlock (Some bodyBlock));;
  body;;
  unlessTerminated (emit (Jump postBlock);; link postBlock);;
  modify (set_currentBlock (Some postBlock));;
  (match post with Some build => build | None => skip end);;
  emit (Jump condBlock);;
  link condBlock;;
  modify (set_breakTarget oldBreak);;
  modify (set_continueTarget oldContinue);;
  modify (set_currentBlock (Some endBlock)).

Definition buildReturn (value : option Expr) : M unit :=
  match value with
  | Some e =>
      v ← buildExpr e;
      r ← operand v;
      emit (Return (Some r))
  | None => emit (Return None)
  end.

(** [buildLocalVar]: every local is given the type [Int]. *)
Fixpoint buildLocalVar (names : list string) (initializer : option Expr)
  : M unit :=
  match names with
  | [] => skip
  | name :: names' =>
      alloca ← NewValue name types.Int ValueVariable;
      b ← get;
      f ← deref (currentFunc b);
      modify (set_currentFunc (Some (set_Locals (Locals f ++ [alloca]) f)));;
      modify (fun b => set_namedValues (<[name := alloca]> (namedValues b)) b);;
      (match initializer with
       | Some e =>
           initValue ← buildExpr e;
           v ← operand initValue;
           emit (Copy alloca v)
       | None => skip
       end);;
      buildLocalVar names' initializer
  end.

(** [buildStmt].  The [BlockStmt] case builds the statements one after the
    other into whatever the current block is. *)
Fixpoint buildStmt (stmt : Stmt) : M unit :=
  let buildBlock :=
    fix buildBlock (l : list Stmt) : M unit :=
      match l with
      | [] => skip
      | inner :: l' => buildStmt inner;; buildBlock l'
      end in
  match stmt with
  | ExprStmt e => _ ← buildExpr e; skip
  | BlockStmt l => buildBlock l
  | IfStmt c th el =>
      buildIf c (buildBlock th)
        (match el with Some s => Some (buildStmt s) | None => None end)
  | WhileStmt c body => buildWhile c (buildBlock body)
  | ForStmt init c post body =>
      buildFor (match init with Some s => Some (buildStmt s) | None => None end)
        c (match post with Some s => Some (buildStmt s) | None => None end)
        (buildBlock body)
  | ReturnStmt v => buildReturn v
  | BreakStmt =>
      b ← get;
      match breakTarget b with
      | Some target => emit (Jump target)
      | None => skip
      end
  | ContinueStmt =>
      b ← get;
      match continueTarget b with
      | Some target => emit (Jump target)
      | None => skip
      end
  | SwitchStmt _ _ => skip
  | VarDecl names _ init => buildLocalVar names init
  end.

(** The parameter values of [buildFunction]: the [i]-th has ID [i] and the
    [i]-th parameter type of the function's type. *)
Fixpoint buildParams (i : nat) (ps : list ParameterDecl)
    (paramTypes : list types.Type_) : M (list Value) :=
  match ps with
  | [] => mret []
  | p :: ps' =>
      t ← deref (paramTypes !! i);
      v ← allocValue (Z.of_nat i) (ParamName p) t ValueParameter PayloadNone;
      vs ← buildParams (S i) ps' paramTypes;
      mret (v :: vs)
  end.

Definition buildFunction (decl : FuncDecl) : M unit :=
  match Lookup (DeclName decl) with
  | None => error "function symbol not found"
  | Some symbol =>
      match SymType symbol with
      | types.FunctionType paramTypes returnType =>
          params ← buildParams 0 (Params decl) paramTypes;
          b ← get;
          let '(h, f) := NewFunction (store b) (nextBlockAddr b)
                           (DeclName decl) params returnType in
          modify (set_nextBlockAddr (S (nextBlockAddr b)));;
          modify (set_store h);;
          modify (set_currentFunc (Some f));;
          modify (set_currentBlock (Some (Entry f)));;
          modify (set_namedValues
            (fold_left (fun m pv => <[ParamName pv.1 := pv.2]> m)
               (zip (Params decl) params) ∅));;
          (match Body decl with
           | Some body =>
               buildStmt (BlockStmt body);;
               if types.Equals returnType types.Void
               then unlessTerminated (emit (Return None))
               else skip
           | None => skip
           end);;
          b ← get;
          f ← deref (currentFunc b);
          modify (set_module (AddFunction (module b) f));;
          modify (set_currentFunc None);;
          modify (set_currentBlock None)
      | _ => panic
      end
  end.

Fixpoint buildGlobalVar (names : list string) : M unit :=
  match names with
  | [] => skip
  | name :: names' =>
      (match Lookup name with
       | Some symbol =>
           b ← get;
           global ← allocValue (Z.of_nat (length (Globals (module b)))) name
                      (SymType symbol) ValueVariable PayloadNone;
           modify (set_module
             (mkModule (ModName (module b)) (Functions (module b))
                (Globals (module b) ++ [global])));;
           modify (fun b =>
             set_variables (<[sym_addr symbol := global]> (variables b)) b)
       | None => skip
       end);;
      buildGlobalVar names'
  end.

Definition buildDecl (decl : Decl) : M unit :=
  match decl with
  | DeclFunc d => buildFunction d
  | DeclVar names _ _ => buildGlobalVar names
  | DeclStruct _ => skip
  | DeclType _ => skip
  end.

(** [Build]: the module and the errors, together with the block store the
    module's block pointers refer to. *)
Definition Build (file : File) : option (Module * list string * BlockStore) :=
  let run :=
    modify (set_module (NewModule (Package file)));;
    (fix loop (ds : list Decl) : M unit :=
       match ds with
       | [] => skip
       | d :: ds' => buildDecl d;; loop ds'
       end) (Decls file) in
  match run NewBuilder with
  | Some (_, b) => Some (module b, errors b, store b)
  | None => None
  end.

End with_analyzer.

End builder.

(** ** internal/optimizer: the optimizer on a whole module *)

Module optimizer_module.
Import ir optimizer.

(** The loop of [Optimizer.Optimize] over [module.Functions]:
    [OptimizeFunction] on one function after the other, all in the one
    block store.  The function objects, distinct from one another, are
    updated in place. *)
Fixpoint optimizeFunctions (o : Optimizer) (h : BlockStore) (alloc : nat)
    (fns : list Function) : option (BlockStore * nat * list Function) :=
  match fns with
  | [] => Some (h, alloc, [])
  | fn :: rest =>
      match OptimizeFunction o (mkPassState h alloc fn) with
      | None => None
      | Some st =>
          match optimizeFunctions o (ps_store st) (ps_alloc st) rest with
          | None => None
          | Some (h', alloc', rest') => Some (h', alloc', ps_func st :: rest')
          end
      end
  end.

(** [Optimizer.Optimize(module)]. *)
Definition Optimize (o : Optimizer) (h : BlockStore) (alloc : nat) (m : Module)
  : option (BlockStore * nat * Module) :=
  match optimizeFunctions o h alloc (Functions m) with
  | None => None
  | Some (h', alloc', fns) => Some (h', alloc', mkModule (ModName m) fns (Globals m))
  end.

End optimizer_module.

(** ** internal/symtab: symbols and scopes *)

Module symtab.
Import builder.
Local Open Scope Z_scope.

Inductive ScopeKind : Set :=
| ScopeGlobal | ScopeFunction | ScopeBlock | ScopeLoop | ScopeSwitch | ScopeStruct.

Definition ScopeKind_eqb (a b : ScopeKind) : bool :=
  match a, b with
  | ScopeGlobal, ScopeGlobal | ScopeFunction, ScopeFunction
  | ScopeBlock, ScopeBlock | ScopeLoop, ScopeLoop
  | ScopeSwitch, ScopeSwitch | ScopeStruct, ScopeStruct => true
  | _, _ => false
  end.

(** [*Symbol] and [*Scope] are addresses into the two stores of the
    heap.  The object of a symbol: all the fields of the Go struct;
    [Value] is the [interface{}] of a constant's value. *)
Record Symbol : Type := mkSymbol {
  Name : string;
  Kind : SymbolKind;
  Type_ : types.Type_;
  Pos : lexer.Position;
  Scope_ : option nat;
  Constant : bool;
  Used : bool;
  Value : ir.ConstantPayload;
  Fields : gmap string nat;
  Index : Z
}.

Record Scope : Type := mkScope {
  ScopeKind_ : ScopeKind;
  Parent : option nat;
  Symbols : gmap string nat;
  Children : list nat;
  Function : option nat;
  Depth : Z
}.

Record Heap : Type := mkHeap {
  scopes : gmap nat Scope;
  symbols : gmap nat Symbol
}.

Definition set_Symbols (x : gmap string nat) (s : Scope) : Scope :=
  mkScope (ScopeKind_ s) (Parent s) x (Children s) (Function s) (Depth s).
Definition set_Children (x : list nat) (s : Scope) : Scope :=
  mkScope (ScopeKind_ s) (Parent s) (Symbols s) x (Function s) (Depth s).
Definition set_Used (x : bool) (s : Symbol) : Symbol :=
  mkSymbol (Name s) (Kind s) (Type_ s) (Pos s) (Scope_ s) (Constant s) x (Value s)
    (Fields s) (Index s).
Definition set_Scope_Index (scope : option nat) (index : Z) (s : Symbol) : Symbol :=
  mkSymbol (Name s) (Kind s) (Type_ s) (Pos s) scope (Constant s) (Used s) (Value s)
    (Fields s) index.

(** [NewScope(kind, parent)]; [fresh] is the address of the new object.
    A dereference of a pointer without an object in the heap is [None]. *)
Definition NewScope (hp : Heap) (fresh : nat) (kind : ScopeKind) (parent : option nat)
  : option (nat * Heap) :=
  match parent with
  | None =>
      Some (fresh, mkHeap (<[fresh := mkScope kind None ∅ [] None 0]> (scopes hp))
                     (symbols hp))
  | Some p =>
      match scopes hp !! p with
      | None => None
      | Some ps =>
          let depth := optimizer.wrap64 (Depth ps + 1) in
          let function :=
            if ScopeKind_eqb kind ScopeFunction then None else Function ps in
          let scope := mkScope kind (Some p) ∅ [] function depth in
          Some (fresh,
                mkHeap (<[fresh := scope]>
                          (<[p := set_Children (Children ps ++ [fresh]) ps]> (scopes hp)))
                  (symbols hp))
      end
  end.

(** The error of [Define], by the two values its message is formatted
    from: the name and the position of the existing symbol. *)
Inductive DefineError : Type :=
| AlreadyDeclared (name : string) (pos : lexer.Position).

(** [s.Define(symbol)]: the error, or nil, and the heap afterwards. *)
Definition Define (hp : Heap) (s symbol : nat) : option (option DefineError * Heap) :=
  match scopes hp !! s, symbols hp !! symbol with
  | Some sc, Some sym =>
      match Symbols sc !! Name sym with
      | Some existing =>
          match symbols hp !! existing with
          | Some ex => Some (Some (AlreadyDeclared (Name sym) (Pos ex)), hp)
          | None => None
          end
      | None =>
          let table := <[Name sym := symbol]> (Symbols sc) in
          let index := Z.of_nat (size table) - 1 in
          Some (None,
                mkHeap (<[s := set_Symbols table sc]> (scopes hp))
                  (<[symbol := set_Scope_Index (Some s) index sym]> (symbols hp)))
      end
  | _, _ => None
  end.

(** [symbol.MarkUsed()] *)
Definition MarkUsed (hp : Heap) (symbol : nat) : option Heap :=
  match symbols hp !! symbol with
  | Some sym => Some (mkHeap (scopes hp) (<[symbol := set_Used true sym]> (symbols hp)))
  | None => None
  end.

(** [s.Lookup(name)]: the symbol found, or nil, and the heap afterwards.
    The recursion along the parent pointers is bounded by [fuel]; [None]
    also when the bound is too small. *)
Fixpoint Lookup (fuel : nat) (hp : Heap) (s : nat) (name : string)
  : option (option nat * Heap) :=
  match fuel with
  | O => None
  | S fuel' =>
      match scopes hp !! s with
      | None => None
      | Some sc =>
          match Symbols sc !! name with
          | Some symbol =>
              match MarkUsed hp symbol with
              | Some hp' => Some (Some symbol, hp')
              | None => None
              end
          | None =>
              match Parent sc with
              | Some p => Lookup fuel' hp p name
              | None => Some (None, hp)
              end
          end
      end
  end.

(** [s.LookupLocal(name)] *)
Definition LookupLocal (hp : Heap) (s : nat) (name : string) : option (option nat) :=
  match scopes hp !! s with
  | Some sc => Some (Symbols sc !! name)
  | None => None
  end.

Definition IsGlobal (sc : Scope) : bool := ScopeKind_eqb (ScopeKind_ sc) ScopeGlobal.
Definition IsFunction (sc : Scope) : bool := ScopeKind_eqb (ScopeKind_ sc) ScopeFunction.
Definition IsLoop (sc : Scope) : bool := ScopeKind_eqb (ScopeKind_ sc) ScopeLoop.
Definition IsSwitch (sc : Scope) : bool := ScopeKind_eqb (ScopeKind_ sc) ScopeSwitch.

(** The three searches [FindEnclosingFunction], [FindEnclosingLoop] and
    [FindEnclosingLoopOrSwitch] differ in their test only. *)
Fixpoint findEnclosing (test : Scope -> bool) (fuel : nat) (hp : Heap) (s : nat)
  : option (option nat) :=
  match fuel with
  | O => None
  | S fuel' =>
      match scopes hp !! s with
      | None => None
      | Some sc =>
          if test sc then Some (Some s)
          else
            match Parent sc with
            | Some p => findEnclosing test fuel' hp p
            | None => Some None
            end
      end
  end.

Definition FindEnclosingFunction := findEnclosing IsFunction.
Definition FindEnclosingLoop := findEnclosing IsLoop.
Definition FindEnclosingLoopOrSwitch :=
  findEnclosing (fun sc => IsLoop sc || IsSwitch sc).

(** [symbol.CanAssign()] *)
Definition CanAssign (sym : Symbol) : bool :=
  if Constant sym then false
  else
    match Kind sym with
    | SymbolVariable | SymbolParameter => true
    | _ => false
    end.

(** [symbol.LookupField(name)] *)
Definition LookupField (sym : Symbol) (name : string) : option nat :=
  match Kind sym with
  | SymbolStruct => Fields sym !! name
  | _ => None
  end.

End symtab.

(** ** internal/parser/ast: the syntax tree the parser builds *)

Module ast.
Import lexer.

(** [*IdentifierExpr] where the field has that static type. *)
Record Ident : Type := mkIdent {
  IdToken : Token;
  IdName : string
}.

(** [ast.Expr].  [NilExpr] is the nil interface value, which the parser
    stores where an operand could not be parsed.  The [Value] of a
    literal is the payload the builder later copies into the IR. *)
Inductive Expr : Type :=
| NilExpr
| BinaryExpr (Left : Expr) (Operator : Token) (Right : Expr)
| UnaryExpr (Operator : Token) (Operand : Expr) (IsPostfix : bool)
| LiteralExpr (Tok : Token) (Val : ir.ConstantPayload)
| IdentifierExpr (id : Ident)
| CallExpr (Callee : Expr) (LeftParen : Token) (Args : list Expr) (RightParen : Token)
| IndexExpr (Object : Expr) (LeftBracket : Token) (Index : Expr) (RightBracket : Token)
| MemberExpr (Object : Expr) (Dot : Token) (Member : Ident)
| AssignmentExpr (Target : Expr) (Operator : Token) (Val : Expr)
| LogicalExpr (Left : Expr) (Operator : Token) (Right : Expr)
| GroupingExpr (LeftParen : Token) (Expression : Expr) (RightParen : Token)
| ArrayLiteralExpr (LeftBracket : Token) (ElementType : Expr) (Elements : list Expr)
    (RightBrace : Token)
| StructLiteralExpr (TypeName : Ident) (LeftBrace : Token)
    (Fields : list (Ident * Token * Expr)) (RightBrace : Token).

(** [*VarDecl]: a declaration and a statement. *)
Record VarDecl : Type := mkVarDecl {
  VarPos : Position;
  Names : list Ident;
  VarType : Expr;
  Initializer : Expr
}.

(** [ast.Stmt]; [NilStmt] is the nil interface value.  [Block] is
    [*BlockStmt] and [CaseClause] is [*CaseClause], which may be nil in
    the list of a switch. *)
Inductive Stmt : Type :=
| NilStmt
| ExprStmt (Expression : Expr)
| BlockStmt (b : Block)
| IfStmt (IfPos : Position) (Condition : Expr) (ThenBranch : Block) (ElseBranch : Stmt)
| WhileStmt (WhilePos : Position) (Condition : Expr) (Body : Block)
| ForStmt (ForPos : Position) (Init : Stmt) (Condition : Expr) (Post : Stmt) (Body : Block)
| ReturnStmt (ReturnPos : Position) (Val : Expr)
| BreakStmt (BreakPos : Position)
| ContinueStmt (ContinuePos : Position)
| SwitchStmt (SwitchPos : Position) (Val : Expr) (Cases : list (option CaseClause))
| VarDeclStmt (d : VarDecl)
with Block : Type :=
| mkBlock (LeftBrace : Token) (Statements : list Stmt) (RightBrace : Token)
with CaseClause : Type :=
| mkCaseClause (CasePos : Position) (Values : list Expr) (Colon : Token)
    (Body : list Stmt) (IsDefault : bool).

Record ParameterDecl : Type := mkParameterDecl {
  ParamName : Ident;
  ParamType : Expr
}.

Record FuncDecl : Type := mkFuncDecl {
  FuncPos : Position;
  FuncName : Ident;
  Params : list ParameterDecl;
  ReturnType : Expr;
  FuncBody : option Block
}.

Record TypeDecl : Type := mkTypeDecl {
  TypePos : Position;
  TypeName_ : Ident;
  DeclaredType : Expr
}.

Record FieldDecl : Type := mkFieldDecl {
  FieldName : Ident;
  FieldType : Expr
}.

Record StructDecl : Type := mkStructDecl {
  StructPos : Position;
  StructName : Ident;
  StructLeftBrace : Token;
  StructFields : list FieldDecl;
  StructRightBrace : Token
}.

(** [ast.Decl]; the nil interface value is [None] of [option Decl]. *)
Inductive Decl : Type :=
| DeclVar (d : VarDecl)
| DeclFunc (d : FuncDecl)
| DeclType (d : TypeDecl)
| DeclStruct (d : StructDecl).

Record PackageDecl : Type := mkPackageDecl {
  PackagePos : Position;
  PackageName : Ident
}.

Record ImportDecl : Type := mkImportDecl {
  ImportPos : Position;
  ImportName : option Ident;
  Path : Token * ir.ConstantPayload
}.

Record Comment : Type := mkComment {
  CommentPos : Position;
  Text : string;
  IsBlock : bool
}.

Record File : Type := mkFile {
  Package : option PackageDecl;
  Imports : list (option ImportDecl);
  Decls : list Decl;
  Comments : list Comment;
  Filename_ : string
}.

End ast.

(** ** internal/parser: the recursive-descent parser *)

Module parsing.
Import lexer parser ast.
Local Open Scope Z_scope.

(** [a == b] on token types, which are integers. *)
Definition sameType (a b : TokenType) : bool := token.ordinal a =? token.ordinal b.

(** What an error of the parser is formatted from: the position of the
    current token and the message, itself formatted from the token type
    or the lexeme it names. *)
Inductive Message : Type :=
| Plain (text : string)
| FromLexer (e : LexError)
| ExpectedExpression (got : TokenType)
| ExpectedDeclaration (got : TokenType)
| InvalidNumberLiteral (lexeme : string).

Record ParseError : Type := mkParseError {
  at_ : Position;
  message : Message
}.

Record Parser : Type := mkParser {
  lex : Lexer;
  current : Token;
  previous : Token;
  errors : list ParseError;
  panicMode : bool
}.

Definition set_lex (x : Lexer) (p : Parser) : Parser :=
  mkParser x (current p) (previous p) (errors p) (panicMode p).
Definition set_current (x : Token) (p : Parser) : Parser :=
  mkParser (lex p) x (previous p) (errors p) (panicMode p).
Definition set_previous (x : Token) (p : Parser) : Parser :=
  mkParser (lex p) (current p) x (errors p) (panicMode p).
Definition set_errors (x : list ParseError) (p : Parser) : Parser :=
  mkParser (lex p) (current p) (previous p) x (panicMode p).
Definition set_panicMode (x : bool) (p : Parser) : Parser :=
  mkParser (lex p) (current p) (previous p) (errors p) x.

(** The zero value of [lexer.Token]. *)
Definition zeroToken : Token := mkToken TokenEOF "" (mkPosition "" 0 0 0) 0.

(** [lexer.Token{Type: lexer.TokenInvalid}] *)
Definition invalidToken : Token := mkToken TokenInvalid "" (mkPosition "" 0 0 0) 0.

(** *** The parser monad

    A method of [*Parser] is a state transformer on [Parser] that returns
    a value, stops with a Go panic (which carries the state on to the
    deferred [recover]), or exceeds the bound of the model. *)
Inductive Result (A : Type) : Type :=
| Ok (a : A) (p : Parser)
| Panic (p : Parser)
| OutOfFuel.
Arguments Ok {A} a p.
Arguments Panic {A} p.
Arguments OutOfFuel {A}.

Definition P (A : Type) : Type := Parser -> Result A.

Definition ret {A : Type} (a : A) : P A := fun p => Ok a p.

Definition bind {A B : Type} (m : P A) (f : A -> P B) : P B := fun p =>
  match m p with
  | Ok a p' => f a p'
  | Panic p' => Panic p'
  | OutOfFuel => OutOfFuel
  end.

#[local] Notation "x ← y ; z" := (bind y (fun x => z))
  (at level 20, y at level 100, z at level 200, only parsing).
#[local] Notation "x ;; z" := (bind x (fun _ => z))
  (at level 100, z at level 200, only parsing, right associativity).

Definition get : P Parser := fun p => Ok p p.
Definition modify (f : Parser -> Parser) : P unit := fun p => Ok tt (f p).
Definition panic {A : Type} : P A := fun p => Panic p.
Definition outOfFuel {A : Type} : P A := fun _ => OutOfFuel.

(** [defer func() { if r := recover(); r != nil { handler } }()] around a
    body whose result is [nil] after a panic. *)
Definition recover {A : Type} (body : P A) (handler : P A) : P A := fun p =>
  match body p with
  | Panic p' => handler p'
  | r => r
  end.

(** A [for] loop in the monad: [body] answers [inl] with the next state
    to go round again and [inr] with the result to leave. *)
Fixpoint loopP {S R : Type} (fuel : nat) (body : S -> P (S + R)) (s : S) : P R :=
  match fuel with
  | O => outOfFuel
  | Datatypes.S fuel' =>
      x ← body s;
      match x with
      | inl s' => loopP fuel' body s'
      | inr r => ret r
      end
  end.

Definition ident (t : Token) : Ident := mkIdent t (Lexeme t).

Section with_library.

(** [unicode.IsLetter], and [strconv.ParseInt(s, 0, 64)] and
    [strconv.ParseFloat(s, 64)] with [None] for an error; a [float64] is
    kept as its bit pattern. *)
Variable IsLetter : Z -> bool.
Variable ParseInt : string -> option Z.
Variable ParseFloat : string -> option Z.

(** *** Helper methods *)

Definition error (m : Message) : P unit := fun p =>
  if panicMode p then Ok tt p
  else Ok tt (set_errors (errors p ++ [mkParseError (Pos (current p)) m])
                (set_panicMode true p)).

Definition advance : P unit := fun p =>
  let p := set_previous (current p) p in
  match NextToken IsLetter (lex p) with
  | None => OutOfFuel
  | Some (token, err, l) =>
      let p := set_lex l p in
      match err with
      | Some e =>
          match error (FromLexer e) p with
          | Ok _ p => Ok tt (set_current invalidToken p)
          | r => r
          end
      | None => Ok tt (set_current token p)
      end
  end.

Definition check (tokenType : TokenType) : P bool := fun p =>
  Ok (sameType (Type_ (current p)) tokenType) p.

Fixpoint match_ (tokenTypes : list TokenType) : P bool :=
  match tokenTypes with
  | [] => ret false
  | tokenType :: rest =>
      b ← check tokenType;
      if b then advance;; ret true else match_ rest
  end.

Definition consume (tokenType : TokenType) (m : string) : P unit :=
  b ← check tokenType;
  if b then advance else (error (Plain m);; panic).

Definition isAtEnd : P bool := fun p => Ok (sameType (Type_ (current p)) TokenEOF) p.

(** [synchronize]: leave panic mode and skip tokens up to a statement
    boundary. *)
Definition synchronize (fuel : nat) : P unit := fun p =>
  loopP fuel
    (fun _ : unit =>
       atEnd ← isAtEnd;
       if atEnd then ret (inr tt)
       else
         p ← get;
         if sameType (Type_ (previous p)) TokenSemicolon then ret (inr tt)
         else
           match Type_ (current p) with
           | TokenFunc | TokenVar | TokenFor | TokenIf | TokenWhile | TokenReturn
           | TokenStruct | TokenTypeKeyword => ret (inr tt)
           | _ => advance;; ret (inl tt)
           end)
    tt (set_panicMode false p).

(** *** Literals *)

Definition parseNumberLiteral : P Expr :=
  p ← get;
  let token := current p in
  advance;;
  match ParseInt (Lexeme token) with
  | Some value => ret (LiteralExpr token (ir.PayloadInt64 value))
  | None =>
      match ParseFloat (Lexeme token) with
      | None =>
          error (InvalidNumberLiteral (Lexeme token));;
          ret (LiteralExpr token (ir.PayloadFloat64 0))
      | Some value => ret (LiteralExpr token (ir.PayloadFloat64 value))
      end
  end.

(** The method [parseStringLiteral] as a step of the monad. *)
Definition unquote (lexeme : string) : P string := fun p =>
  match parseStringLiteral lexeme with
  | Some s => Ok s p
  | None => OutOfFuel
  end.

Definition parseStringLiteralExpr : P Expr :=
  p ← get;
  let token := current p in
  advance;;
  value ← unquote (Lexeme token);
  ret (LiteralExpr token (ir.PayloadString value)).

Definition parseCharLiteral : P Expr :=
  p ← get;
  let token := current p in
  advance;;
  if len (Lexeme token) <? 3
  then error (Plain "invalid character literal");;
       ret (LiteralExpr token (ir.PayloadRune 0))
  else
    let s := slice (Lexeme token) 1 (len (Lexeme token) - 1) in
    if byteAt s 0 =? rune "\"
    then
      if len s <? 2
      then error (Plain "invalid escape sequence");;
           ret (LiteralExpr token (ir.PayloadRune 0))
      else
        let c := byteAt s 1 in
        if c =? rune "n" then ret (LiteralExpr token (ir.PayloadRune 10))
        else if c =? rune "t" then ret (LiteralExpr token (ir.PayloadRune 9))
        else if c =? rune "r" then ret (LiteralExpr token (ir.PayloadRune 13))
        else if c =? rune "\" then ret (LiteralExpr token (ir.PayloadRune (rune "\")))
        else if c =? rune "'" then ret (LiteralExpr token (ir.PayloadRune (rune "'")))
        else ret (LiteralExpr token (ir.PayloadRune c))
    else ret (LiteralExpr token (ir.PayloadRune (DecodeRuneInString s 0).1)).

Definition parseBoolLiteral : P Expr :=
  p ← get;
  let token := current p in
  advance;;
  ret (LiteralExpr token (ir.PayloadBool (sameType (Type_ token) TokenTrue))).

Definition parseNilLiteral : P Expr :=
  p ← get;
  let token := current p in
  advance;;
  ret (LiteralExpr token ir.PayloadNone).

(** *** Expressions

    The methods that call [parsePrecedence] take it as [parsePrecedence]
    below; [parsePrecedence] itself then closes the recursion.  The
    precedence is the integer of the level, as [parseBinary] computes
    with it. *)
Section expressions.

Variable fuel : nat.
Variable parsePrecedence : Z -> P Expr.

Definition parseExpression : P Expr := parsePrecedence (level PrecAssignment).

(** [for { elements = append(elements, p.parseExpression());
           if !p.match(lexer.TokenComma) { break } }] *)
Definition expressionList (elements : list Expr) : P (list Expr) :=
  loopP fuel
    (fun elements : list Expr =>
       e ← parseExpression;
       let elements := elements ++ [e] in
       more ← match_ [TokenComma];
       if more then ret (inl elements) else ret (inr elements))
    elements.

Definition parseStructLiteral (typeName : Ident) : P Expr :=
  p ← get;
  let leftBrace := current p in
  consume TokenLeftBrace "expected '{'";;
  closed ← check TokenRightBrace;
  fields ←
    (if closed then ret []
     else
       loopP fuel
         (fun fields : list (Ident * Token * Expr) =>
            isName ← check TokenIdentifier;
            if negb isName
            then error (Plain "expected field name");; ret (inr fields)
            else
              p ← get;
              let fieldName := ident (current p) in
              advance;;
              consume TokenColon "expected ':' after field name";;
              p ← get;
              let colon := previous p in
              value ← parseExpression;
              let fields := fields ++ [(fieldName, colon, value)] in
              more ← match_ [TokenComma];
              if more then ret (inl fields) else ret (inr fields))
         []);
  consume TokenRightBrace "expected '}' after struct fields";;
  p ← get;
  let rightBrace := previous p in
  ret (StructLiteralExpr typeName leftBrace fields rightBrace).

Definition parseIdentifier : P Expr :=
  p ← get;
  let token := current p in
  advance;;
  isLiteral ← check TokenLeftBrace;
  if isLiteral then parseStructLiteral (ident token)
  else ret (IdentifierExpr (ident token)).

Definition parseGrouping : P Expr :=
  p ← get;
  let leftParen := current p in
  advance;;
  expr ← parseExpression;
  consume TokenRightParen "expected ')' after expression";;
  p ← get;
  let rightParen := previous p in
  ret (GroupingExpr leftParen expr rightParen).

Definition parseArrayLiteral : P Expr :=
  p ← get;
  let leftBracket := current p in
  advance;;
  closed ← check TokenRightBracket;
  elements ← (if closed then ret [] else expressionList []);
  consume TokenRightBracket "expected ']' after array elements";;
  p ← get;
  let rightBrace := previous p in
  ret (ArrayLiteralExpr leftBracket NilExpr elements rightBrace).

Definition parseUnary : P Expr :=
  p ← get;
  let operator := current p in
  advance;;
  operand ← parsePrecedence (level PrecUnary);
  ret (UnaryExpr operator operand false).

Definition parseBinary (left : Expr) : P Expr :=
  p ← get;
  let operator := current p in
  let precedence := level (getPrecedence (Type_ operator)) in
  advance;;
  let precedence :=
    if isRightAssociative (Type_ operator) then precedence - 1 else precedence in
  right ← parsePrecedence (precedence + 1);
  ret (BinaryExpr left operator right).

Definition parseLogical (left : Expr) : P Expr :=
  p ← get;
  let operator := current p in
  let precedence := level (getPrecedence (Type_ operator)) in
  advance;;
  right ← parsePrecedence (precedence + 1);
  ret (LogicalExpr left operator right).

Definition parseAssignment (left : Expr) : P Expr :=
  p ← get;
  let operator := current p in
  advance;;
  right ← parsePrecedence (level PrecAssignment);
  ret (AssignmentExpr left operator right).

Definition parseMember (left : Expr) : P Expr :=
  p ← get;
  let dot := current p in
  advance;;
  isName ← check TokenIdentifier;
  if negb isName
  then error (Plain "expected property name after '.'");; ret left
  else
    p ← get;
    let member := ident (current p) in
    advance;;
    ret (MemberExpr left dot member).

Definition parseCall (left : Expr) : P Expr :=
  p ← get;
  let leftParen := current p in
  advance;;
  closed ← check TokenRightParen;
  args ← (if closed then ret [] else expressionList []);
  consume TokenRightParen "expected ')' after arguments";;
  p ← get;
  let rightParen := previous p in
  ret (CallExpr left leftParen args rightParen).

Definition parseIndex (left : Expr) : P Expr :=
  p ← get;
  let leftBracket := current p in
  advance;;
  index ← parseExpression;
  consume TokenRightBracket "expected ']' after index";;
  p ← get;
  let rightBracket := previous p in
  ret (IndexExpr left leftBracket index rightBracket).

(** [parsePrefix]; the [default] case returns nil. *)
Definition parsePrefix : P Expr :=
  p ← get;
  match Type_ (current p) with
  | TokenNumber => parseNumberLiteral
  | TokenString => parseStringLiteralExpr
  | TokenChar => parseCharLiteral
  | TokenTrue | TokenFalse => parseBoolLiteral
  | TokenNil => parseNilLiteral
  | TokenIdentifier => parseIdentifier
  | TokenLeftParen => parseGrouping
  | TokenLeftBracket => parseArrayLiteral
  | TokenMinus | TokenNot | TokenBitNot | TokenPlusPlus | TokenMinusMinus => parseUnary
  | _ => ret NilExpr
  end.

(** [parseInfix]; the [default] case returns [left]. *)
Definition parseInfix (left : Expr) : P Expr :=
  p ← get;
  match Type_ (current p) with
  | TokenPlus | TokenMinus | TokenStar | TokenSlash | TokenPercent | TokenStarStar
  | TokenEqual | TokenNotEqual | TokenLess | TokenLessEqual | TokenGreater
  | TokenGreaterEqual | TokenBitAnd | TokenBitOr | TokenBitXor | TokenShl
  | TokenShr => parseBinary left
  | TokenAnd | TokenOr => parseLogical left
  | TokenAssign | TokenPlusEq | TokenMinusEq | TokenStarEq | TokenSlashEq
  | TokenPercentEq | TokenAndEq | TokenOrEq | TokenXorEq | TokenShlEq
  | TokenShrEq => parseAssignment left
  | TokenDot => parseMember left
  | TokenLeftParen => parseCall left
  | TokenLeftBracket => parseIndex left
  | TokenPlusPlus | TokenMinusMinus =>
      let operator := current p in
      advance;;
      ret (UnaryExpr operator left true)
  | _ => ret left
  end.

(** The body of [parsePrecedence]. *)
Definition parsePrecedenceBody (precedence : Z) : P Expr :=
  left ← parsePrefix;
  match left with
  | NilExpr =>
      p ← get;
      error (ExpectedExpression (Type_ (current p)));;
      ret NilExpr
  | _ =>
      loopP fuel
        (fun left : Expr =>
           p ← get;
           if precedence <=? level (getPrecedence (Type_ (current p)))
           then left ← parseInfix left; ret (inl left)
           else ret (inr left))
        left
  end.

End expressions.

(** [parsePrecedence(precedence)]; the bound limits the depth of the
    recursion and the iterations of each loop. *)
Fixpoint parsePrecedence (fuel : nat) (precedence : Z) : P Expr :=
  match fuel with
  | O => outOfFuel
  | S fuel' => parsePrecedenceBody fuel' (parsePrecedence fuel') precedence
  end.

(** *** Types and variables *)

Definition parseType : P Expr :=
  isName ← check TokenIdentifier;
  if negb isName then error (Plain "expected type name");; ret NilExpr
  else
    p ← get;
    let typeExpr := IdentifierExpr (ident (current p)) in
    advance;;
    ret typeExpr.

Definition parseVarDecl (fuel : nat) : P VarDecl :=
  p ← get;
  let varPos := Pos (previous p) in
  names ←
    loopP fuel
      (fun names : list Ident =>
         isName ← check TokenIdentifier;
         if negb isName then error (Plain "expected variable name");; panic
         else
           p ← get;
           let names := names ++ [ident (current p)] in
           advance;;
           more ← match_ [TokenComma];
           if more then ret (inl names) else ret (inr names))
      [];
  isAssign ← check TokenAssign;
  isSemicolon ← check TokenSemicolon;
  typeExpr ← (if negb isAssign && negb isSemicolon then parseType else ret NilExpr);
  hasInitializer ← match_ [TokenAssign];
  initializer ←
    (if hasInitializer then parseExpression (parsePrecedence fuel) else ret NilExpr);
  match typeExpr, initializer with
  | NilExpr, NilExpr =>
      error (Plain "variable declaration must have either type or initializer")
  | _, _ => ret tt
  end;;
  consume TokenSemicolon "expected ';' after variable declaration";;
  ret (mkVarDecl varPos names typeExpr initializer).

(** *** Statements *)

Definition parseExprStmt (fuel : nat) : P Stmt :=
  expr ← parseExpression (parsePrecedence fuel);
  consume TokenSemicolon "expected ';' after expression";;
  ret (ExprStmt expr).

Definition parseReturnStmt (fuel : nat) : P Stmt :=
  p ← get;
  let returnPos := Pos (previous p) in
  isSemicolon ← check TokenSemicolon;
  value ←
    (if negb isSemicolon then parseExpression (parsePrecedence fuel) else ret NilExpr);
  consume TokenSemicolon "expected ';' after return statement";;
  ret (ReturnStmt returnPos value).

Definition parseBreakStmt : P Stmt :=
  p ← get;
  let breakPos := Pos (previous p) in
  consume TokenSemicolon "expected ';' after 'break'";;
  ret (BreakStmt breakPos).

Definition parseContinueStmt : P Stmt :=
  p ← get;
  let continuePos := Pos (previous p) in
  consume TokenSemicolon "expected ';' after 'continue'";;
  ret (ContinueStmt continuePos).

Section statements.

Variable fuel : nat.
Variable parseStmt : P Stmt.

(** [for <none of the closing tokens> && !p.isAtEnd()
         { statements = append(statements, p.parseStmt()) }] *)
Definition statementList (closing : list TokenType) : P (list Stmt) :=
  loopP fuel
    (fun statements : list Stmt =>
       p ← get;
       if existsb (sameType (Type_ (current p))) closing
          || sameType (Type_ (current p)) TokenEOF
       then ret (inr statements)
       else s ← parseStmt; ret (inl (statements ++ [s])))
    [].

Definition parseBlockStmt : P Block :=
  consume TokenLeftBrace "expected '{'";;
  p ← get;
  let leftBrace := previous p in
  statements ← statementList [TokenRightBrace];
  consume TokenRightBrace "expected '}'";;
  p ← get;
  let rightBrace := previous p in
  ret (mkBlock leftBrace statements rightBrace).

(** [parseIfStmt]; the recursion follows the chain of [else if]. *)
Fixpoint parseIfStmt (depth : nat) : P Stmt :=
  match depth with
  | O => outOfFuel
  | S depth' =>
      p ← get;
      let ifPos := Pos (previous p) in
      consume TokenLeftParen "expected '(' after 'if'";;
      condition ← parseExpression (parsePrecedence fuel);
      consume TokenRightParen "expected ')' after condition";;
      thenBranch ← parseBlockStmt;
      hasElse ← match_ [TokenElse];
      elseBranch ←
        (if hasElse
         then
           isIf ← check TokenIf;
           if isIf then advance;; parseIfStmt depth'
           else b ← parseBlockStmt; ret (BlockStmt b)
         else ret NilStmt);
      ret (IfStmt ifPos condition thenBranch elseBranch)
  end.

Definition parseWhileStmt : P Stmt :=
  p ← get;
  let whilePos := Pos (previous p) in
  consume TokenLeftParen "expected '(' after 'while'";;
  condition ← parseExpression (parsePrecedence fuel);
  consume TokenRightParen "expected ')' after condition";;
  body ← parseBlockStmt;
  ret (WhileStmt whilePos condition body).

Definition parseForStmt : P Stmt :=
  p ← get;
  let forPos := Pos (previous p) in
  consume TokenLeftParen "expected '(' after 'for'";;
  empty ← match_ [TokenSemicolon];
  init ←
    (if empty then ret NilStmt
     else
       isVar ← match_ [TokenVar];
       if isVar then d ← parseVarDecl fuel; ret (VarDeclStmt d)
       else parseExprStmt fuel);
  isSemicolon ← check TokenSemicolon;
  condition ←
    (if negb isSemicolon then parseExpression (parsePrecedence fuel) else ret NilExpr);
  consume TokenSemicolon "expected ';' after loop condition";;
  closed ← check TokenRightParen;
  post ←
    (if negb closed
     then e ← parseExpression (parsePrecedence fuel); ret (ExprStmt e)
     else ret NilStmt);
  consume TokenRightParen "expected ')' after for clauses";;
  body ← parseBlockStmt;
  ret (ForStmt forPos init condition post body).

Definition parseCaseClause : P (option CaseClause) :=
  isCase ← match_ [TokenCase];
  header ←
    (if isCase
     then
       p ← get;
       let casePos := Pos (previous p) in
       values ← expressionList fuel (parsePrecedence fuel) [];
       ret (Some (casePos, values, false))
     else
       isDefault ← match_ [TokenDefault];
       if isDefault
       then p ← get; ret (Some (Pos (previous p), [], true))
       else error (Plain "expected 'case' or 'default'");; ret None);
  match header with
  | None => ret None
  | Some (casePos, values, isDefault) =>
      consume TokenColon "expected ':' after case";;
      p ← get;
      let colon := previous p in
      body ← statementList [TokenCase; TokenDefault; TokenRightBrace];
      ret (Some (mkCaseClause casePos values colon body isDefault))
  end.

(** [for !p.check(lexer.TokenRightBrace) && !p.isAtEnd()
         { cases = append(cases, p.parseCaseClause()) }] *)
Definition caseClauses : P (list (option CaseClause)) :=
  loopP fuel
    (fun cases : list (option CaseClause) =>
       p ← get;
       if sameType (Type_ (current p)) TokenRightBrace
          || sameType (Type_ (current p)) TokenEOF
       then ret (inr cases)
       else c ← parseCaseClause; ret (inl (cases ++ [c])))
    [].

Definition parseSwitchStmt : P Stmt :=
  p ← get;
  let switchPos := Pos (previous p) in
  consume TokenLeftParen "expected '(' after 'switch'";;
  value ← parseExpression (parsePrecedence fuel);
  consume TokenRightParen "expected ')' after switch value";;
  consume TokenLeftBrace "expected '{' before switch body";;
  cases ← caseClauses;
  consume TokenRightBrace "expected '}' after switch body";;
  ret (SwitchStmt switchPos value cases).

(** The body of [parseStmt], under its deferred [recover]. *)
Definition parseStmtBody : P Stmt :=
  recover
    (isBlock ← check TokenLeftBrace;
     if isBlock then b ← parseBlockStmt; ret (BlockStmt b)
     else
       isIf ← match_ [TokenIf];
       if isIf then parseIfStmt (S fuel)
       else
         isWhile ← match_ [TokenWhile];
         if isWhile then parseWhileStmt
         else
           isFor ← match_ [TokenFor];
           if isFor then parseForStmt
           else
             isReturn ← match_ [TokenReturn];
             if isReturn then parseReturnStmt fuel
             else
               isBreak ← match_ [TokenBreak];
               if isBreak then parseBreakStmt
               else
                 isContinue ← match_ [TokenContinue];
                 if isContinue then parseContinueStmt
                 else
                   isSwitch ← match_ [TokenSwitch];
                   if isSwitch then parseSwitchStmt
                   else
                     isVar ← match_ [TokenVar];
                     if isVar then d ← parseVarDecl fuel; ret (VarDeclStmt d)
                     else parseExprStmt fuel)
    (synchronize fuel;; ret NilStmt).

End statements.

Fixpoint parseStmt (fuel : nat) : P Stmt :=
  match fuel with
  | O => outOfFuel
  | S fuel' => parseStmtBody fuel' (parseStmt fuel')
  end.

(** *** Declarations *)

Definition parseParameters (fuel : nat) : P (list ParameterDecl) :=
  closed ← check TokenRightParen;
  if closed then ret []
  else
    loopP fuel
      (fun params : list ParameterDecl =>
         isName ← check TokenIdentifier;
         if negb isName
         then error (Plain "expected parameter name");; ret (inr params)
         else
           p ← get;
           let name := ident (current p) in
           advance;;
           typeExpr ← parseType;
           let params := params ++ [mkParameterDecl name typeExpr] in
           more ← match_ [TokenComma];
           if more then ret (inl params) else ret (inr params))
      [].

Definition parseFuncDecl (fuel : nat) : P FuncDecl :=
  p ← get;
  let funcPos := Pos (previous p) in
  isName ← check TokenIdentifier;
  if negb isName then error (Plain "expected function name");; panic
  else
    p ← get;
    let name := ident (current p) in
    advance;;
    consume TokenLeftParen "expected '(' after function name";;
    params ← parseParameters fuel;
    consume TokenRightParen "expected ')' after parameters";;
    hasBody ← check TokenLeftBrace;
    returnType ← (if negb hasBody then parseType else ret NilExpr);
    hasBody ← check TokenLeftBrace;
    body ←
      (if hasBody then b ← parseBlockStmt fuel (parseStmt fuel); ret (Some b)
       else error (Plain "expected function body");; ret None);
    ret (mkFuncDecl funcPos name params returnType body).

Definition parseTypeDecl : P TypeDecl :=
  p ← get;
  let typePos := Pos (previous p) in
  isName ← check TokenIdentifier;
  if negb isName then error (Plain "expected type name");; panic
  else
    p ← get;
    let name := ident (current p) in
    advance;;
    consume TokenAssign "expected '=' in type declaration";;
    typeExpr ← parseType;
    consume TokenSemicolon "expected ';' after type declaration";;
    ret (mkTypeDecl typePos name typeExpr).

Definition parseStructDecl (fuel : nat) : P StructDecl :=
  p ← get;
  let structPos := Pos (previous p) in
  isName ← check TokenIdentifier;
  if negb isName then error (Plain "expected struct name");; panic
  else
    p ← get;
    let name := ident (current p) in
    advance;;
    consume TokenLeftBrace "expected '{' before struct body";;
    p ← get;
    let leftBrace := previous p in
    fields ←
      loopP fuel
        (fun fields : list FieldDecl =>
           p ← get;
           if sameType (Type_ (current p)) TokenRightBrace
              || sameType (Type_ (current p)) TokenEOF
           then ret (inr fields)
           else
             isName ← check TokenIdentifier;
             if negb isName
             then error (Plain "expected field name");; ret (inr fields)
             else
               p ← get;
               let fieldName := ident (current p) in
               advance;;
               fieldType ← parseType;
               let fields := fields ++ [mkFieldDecl fieldName fieldType] in
               consume TokenSemicolon "expected ';' after field declaration";;
               ret (inl fields))
        [];
    consume TokenRightBrace "expected '}' after struct body";;
    p ← get;
    let rightBrace := previous p in
    ret (mkStructDecl structPos name leftBrace fields rightBrace).

(** [parseDecl], under its deferred [recover]; nil after a panic. *)
Definition parseDecl (fuel : nat) : P (option Decl) :=
  recover
    (isVar ← match_ [TokenVar];
     if isVar then d ← parseVarDecl fuel; ret (Some (DeclVar d))
     else
       isFunc ← match_ [TokenFunc];
       if isFunc then d ← parseFuncDecl fuel; ret (Some (DeclFunc d))
       else
         isType ← match_ [TokenTypeKeyword];
         if isType then d ← parseTypeDecl; ret (Some (DeclType d))
         else
           isStruct ← match_ [TokenStruct];
           if isStruct then d ← parseStructDecl fuel; ret (Some (DeclStruct d))
           else
             p ← get;
             error (ExpectedDeclaration (Type_ (current p)));;
             panic)
    (synchronize fuel;; ret None).

Definition parsePackageDecl : P (option PackageDecl) :=
  p ← get;
  let packagePos := Pos (previous p) in
  isName ← check TokenIdentifier;
  if negb isName then error (Plain "expected package name");; ret None
  else
    p ← get;
    let name := ident (current p) in
    advance;;
    ret (Some (mkPackageDecl packagePos name)).

Definition parseImportDecl : P (option ImportDecl) :=
  p ← get;
  let importPos := Pos (previous p) in
  isName ← check TokenIdentifier;
  name ←
    (if isName then p ← get; advance;; ret (Some (ident (current p)))
     else ret None);
  isPath ← check TokenString;
  if negb isPath then error (Plain "expected import path (string)");; ret None
  else
    p ← get;
    value ← unquote (Lexeme (current p));
    let path := (current p, ir.PayloadString value) in
    advance;;
    ret (Some (mkImportDecl importPos name path)).

(** The comment [ParseFile] records for the comment token just read;
    [Lexeme[1]] panics on a lexeme shorter than two bytes. *)
Definition comment : P Comment :=
  p ← get;
  let lexeme := Lexeme (previous p) in
  if len lexeme <=? 1 then panic
  else ret (mkComment (Pos (previous p)) lexeme (byteAt lexeme 1 =? rune "*")).

(** The loop of [ParseFile] over the top-level declarations. *)
Definition declarations (fuel : nat) (file : File) : P File :=
  loopP fuel
    (fun file : File =>
       atEnd ← isAtEnd;
       if atEnd then ret (inr file)
       else
         isComment ← match_ [TokenComment];
         if isComment
         then
           c ← comment;
           ret (inl (mkFile (Package file) (Imports file) (Decls file)
                        (Comments file ++ [c]) (Filename_ file)))
         else
           decl ← parseDecl fuel;
           match decl with
           | Some d =>
               ret (inl (mkFile (Package file) (Imports file) (Decls file ++ [d])
                            (Comments file) (Filename_ file)))
           | None => ret (inl file)
           end)
    file.

Definition ParseFile (fuel : nat) (filename : string) : P (File * list ParseError) :=
  comments ←
    loopP fuel
      (fun comments : list Comment =>
         isComment ← match_ [TokenComment];
         if isComment then c ← comment; ret (inl (comments ++ [c]))
         else ret (inr comments))
      [];
  isPackage ← match_ [TokenPackage];
  package ←
    (if isPackage then parsePackageDecl
     else error (Plain "expected 'package' declaration at start of file");; ret None);
  imports ←
    loopP fuel
      (fun imports : list (option ImportDecl) =>
         isImport ← match_ [TokenImport];
         if isImport then i ← parseImportDecl; ret (inl (imports ++ [i]))
         else ret (inr imports))
      [];
  file ← declarations fuel (mkFile package imports [] comments filename);
  p ← get;
  ret (file, errors p).

(** [New(l)]: the parser primed with the first token. *)
Definition New (l : Lexer) : Result Parser :=
  (advance;; get) (mkParser l zeroToken zeroToken [] false).

End with_library.

End parsing.

(** ** internal/semantic: the semantic analyzer *)

Module semantic.
Import lexer ast.
Local Open Scope Z_scope.

(** What the message of an error is formatted from: a fixed text, the
    error of [Define], or the names, lexemes, counts and types that
    [fmt.Sprintf] puts into the text. *)
Inductive Message : Type :=
| Plain (text : string)
| DefineFailed (e : symtab.DefineError)
| RequiresNumericOperands (lexeme : string)
| MismatchedTypes (left right : types.Type_)
| CannotCompare (left right : types.Type_)
| UnknownBinaryOperator (lexeme : string)
| RequiresNumericOperand (lexeme : string)
| CannotModify (name : string)
| UnknownUnaryOperator (lexeme : string)
| Undefined (name : string)
| IsTypeNotValue (name : string)
| ExpectedArguments (expected got : nat)
| NoField (structName field : string)
| CannotAssignTo (name : string)
| UndefinedStruct (name : string)
| NotStruct (name : string)
| DuplicateField (name : string)
| MissingField (name : string)
| ExpectedReturnValue (expected : types.Type_)
| UndefinedType (name : string)
| NotType (name : string)
| CannotAssign (value target : types.Type_).

(** An error of the analyzer: the message, after the position where
    that one is valid. *)
Record SemanticError : Type := mkSemanticError {
  at_ : option Position;
  message : Message
}.

(** [*Analyzer].  The scopes and symbols are objects of the heap of the
    symbol table; [nextScope] and [nextSymbol] are the addresses the next
    allocations get.  [exprTypes] is keyed by the identity of the nodes,
    which the tree does not have: it is kept as the sequence of its
    stores. *)
Record Analyzer : Type := mkAnalyzer {
  heap : symtab.Heap;
  nextScope : nat;
  nextSymbol : nat;
  currentScope : nat;
  globalScope : nat;
  errors : list SemanticError;
  exprTypes : list (Expr * types.Type_);
  currentFunction : option nat
}.

Definition set_heap (x : symtab.Heap) (a : Analyzer) : Analyzer :=
  mkAnalyzer x (nextScope a) (nextSymbol a) (currentScope a) (globalScope a) (errors a)
    (exprTypes a) (currentFunction a).
Definition set_nextScope (x : nat) (a : Analyzer) : Analyzer :=
  mkAnalyzer (heap a) x (nextSymbol a) (currentScope a) (globalScope a) (errors a)
    (exprTypes a) (currentFunction a).
Definition set_nextSymbol (x : nat) (a : Analyzer) : Analyzer :=
  mkAnalyzer (heap a) (nextScope a) x (currentScope a) (globalScope a) (errors a)
    (exprTypes a) (currentFunction a).
Definition set_currentScope (x : nat) (a : Analyzer) : Analyzer :=
  mkAnalyzer (heap a) (nextScope a) (nextSymbol a) x (globalScope a) (errors a)
    (exprTypes a) (currentFunction a).
Definition set_errors (x : list SemanticError) (a : Analyzer) : Analyzer :=
  mkAnalyzer (heap a) (nextScope a) (nextSymbol a) (currentScope a) (globalScope a) x
    (exprTypes a) (currentFunction a).
Definition set_exprTypes (x : list (Expr * types.Type_)) (a : Analyzer) : Analyzer :=
  mkAnalyzer (heap a) (nextScope a) (nextSymbol a) (currentScope a) (globalScope a)
    (errors a) x (currentFunction a).
Definition set_currentFunction (x : option nat) (a : Analyzer) : Analyzer :=
  mkAnalyzer (heap a) (nextScope a) (nextSymbol a) (currentScope a) (globalScope a)
    (errors a) (exprTypes a) x.

(** Assignments to the fields [Type] and [Fields] of a symbol and
    [Function] of a scope. *)
Definition set_Type (x : types.Type_) (s : symtab.Symbol) : symtab.Symbol :=
  symtab.mkSymbol (symtab.Name s) (symtab.Kind s) x (symtab.Pos s) (symtab.Scope_ s)
    (symtab.Constant s) (symtab.Used s) (symtab.Value s) (symtab.Fields s)
    (symtab.Index s).
Definition set_Fields (x : gmap string nat) (s : symtab.Symbol) : symtab.Symbol :=
  symtab.mkSymbol (symtab.Name s) (symtab.Kind s) (symtab.Type_ s) (symtab.Pos s)
    (symtab.Scope_ s) (symtab.Constant s) (symtab.Used s) (symtab.Value s) x
    (symtab.Index s).
Definition set_Function (x : option nat) (s : symtab.Scope) : symtab.Scope :=
  symtab.mkScope (symtab.ScopeKind_ s) (symtab.Parent s) (symtab.Symbols s)
    (symtab.Children s) x (symtab.Depth s).

(** [&symtab.Symbol{Name: ..., Kind: ..., Type: ..., Pos: ...}]: the
    other fields have their zero values. *)
Definition newSymbolValue (name : string) (kind : builder.SymbolKind) (type : types.Type_)
    (pos : Position) : symtab.Symbol :=
  symtab.mkSymbol name kind type pos None false false ir.PayloadNone ∅ 0.

(** *** The analyzer monad

    A method of [*Analyzer] is a state transformer that returns a value,
    stops with a Go panic (which nothing recovers), or is stuck: at the
    dereference of an address without object, or beyond the bound of a
    search along the parent pointers. *)
Inductive Outcome (A : Type) : Type :=
| Done (a : A) (st : Analyzer)
| Panics
| Stuck.
Arguments Done {A} a st.
Arguments Panics {A}.
Arguments Stuck {A}.

Definition M (A : Type) : Type := Analyzer -> Outcome A.

Definition ret {A : Type} (x : A) : M A := fun a => Done x a.

Definition bind {A B : Type} (m : M A) (f : A -> M B) : M B := fun a =>
  match m a with
  | Done x a' => f x a'
  | Panics => Panics
  | Stuck => Stuck
  end.

#[local] Notation "x ← y ; z" := (bind y (fun x => z))
  (at level 20, y at level 100, z at level 200, only parsing).
#[local] Notation "x ;; z" := (bind x (fun _ => z))
  (at level 100, z at level 200, only parsing, right associativity).

Definition get : M Analyzer := fun a => Done a a.
Definition modify (f : Analyzer -> Analyzer) : M unit := fun a => Done tt (f a).
Definition panic {A : Type} : M A := fun _ => Panics.
Definition stuck {A : Type} : M A := fun _ => Stuck.

(** [for _, x := range l { f(x) }] *)
Fixpoint forEach {A : Type} (f : A -> M unit) (l : list A) : M unit :=
  match l with
  | [] => ret tt
  | x :: l' => f x;; forEach f l'
  end.

(** [for i, x := range l { f(i, x) }] from index [i] on. *)
Fixpoint forEachIndexed {A : Type} (f : nat -> A -> M unit) (i : nat) (l : list A) : M unit :=
  match l with
  | [] => ret tt
  | x :: l' => f i x;; forEachIndexed f (S i) l'
  end.

(** *** The heap *)

Definition symbolAt (x : nat) : M symtab.Symbol := fun a =>
  match symtab.symbols (heap a) !! x with
  | Some sym => Done sym a
  | None => Stuck
  end.

Definition scopeAt (s : nat) : M symtab.Scope := fun a =>
  match symtab.scopes (heap a) !! s with
  | Some sc => Done sc a
  | None => Stuck
  end.

(** The allocation of a symbol. *)
Definition newSymbol (sym : symtab.Symbol) : M nat := fun a =>
  let x := nextSymbol a in
  Done x (set_nextSymbol (S x)
            (set_heap (symtab.mkHeap (symtab.scopes (heap a))
                         (<[x := sym]> (symtab.symbols (heap a)))) a)).

(** An assignment to fields of the symbol at [x]. *)
Definition updateSymbol (x : nat) (f : symtab.Symbol -> symtab.Symbol) : M unit := fun a =>
  match symtab.symbols (heap a) !! x with
  | Some sym =>
      Done tt (set_heap (symtab.mkHeap (symtab.scopes (heap a))
                           (<[x := f sym]> (symtab.symbols (heap a)))) a)
  | None => Stuck
  end.

Definition updateScope (s : nat) (f : symtab.Scope -> symtab.Scope) : M unit := fun a =>
  match symtab.scopes (heap a) !! s with
  | Some sc =>
      Done tt (set_heap (symtab.mkHeap (<[s := f sc]> (symtab.scopes (heap a)))
                           (symtab.symbols (heap a))) a)
  | None => Stuck
  end.

Definition Define (s symbol : nat) : M (option symtab.DefineError) := fun a =>
  match symtab.Define (heap a) s symbol with
  | Some (err, hp) => Done err (set_heap hp a)
  | None => Stuck
  end.

(** [a.currentScope.Lookup(name)]; no chain of parents is longer than the
    number of scopes allocated. *)
Definition Lookup (name : string) : M (option nat) := fun a =>
  match symtab.Lookup (nextScope a) (heap a) (currentScope a) name with
  | Some (symbol, hp) => Done symbol (set_heap hp a)
  | None => Stuck
  end.

Definition LookupLocal (s : nat) (name : string) : M (option nat) := fun a =>
  match symtab.LookupLocal (heap a) s name with
  | Some symbol => Done symbol a
  | None => Stuck
  end.

Definition FindEnclosingLoop : M (option nat) := fun a =>
  match symtab.FindEnclosingLoop (nextScope a) (heap a) (currentScope a) with
  | Some s => Done s a
  | None => Stuck
  end.

Definition FindEnclosingLoopOrSwitch : M (option nat) := fun a =>
  match symtab.FindEnclosingLoopOrSwitch (nextScope a) (heap a) (currentScope a) with
  | Some s => Done s a
  | None => Stuck
  end.

(** *** Positions of nodes *)

(** [ident.Pos()] *)
Definition IdentPos (id : Ident) : Position := Pos (IdToken id).

(** [expr.Pos()]; [None] where the method is called on a nil interface
    value, which panics. *)
Fixpoint ExprPos (e : Expr) : option Position :=
  match e with
  | NilExpr => None
  | BinaryExpr l _ _ => ExprPos l
  | UnaryExpr op operand postfix => if postfix then ExprPos operand else Some (Pos op)
  | LiteralExpr tok _ => Some (Pos tok)
  | IdentifierExpr id => Some (IdentPos id)
  | CallExpr callee _ _ _ => ExprPos callee
  | IndexExpr object _ _ _ => ExprPos object
  | MemberExpr object _ _ => ExprPos object
  | AssignmentExpr target _ _ => ExprPos target
  | LogicalExpr l _ _ => ExprPos l
  | GroupingExpr lp _ _ => Some (Pos lp)
  | ArrayLiteralExpr lb _ _ _ => Some (Pos lb)
  | StructLiteralExpr name _ _ _ => Some (IdentPos name)
  end.

Definition posOf (e : Expr) : M Position :=
  match ExprPos e with
  | Some pos => ret pos
  | None => panic
  end.

(** [e != nil] *)
Definition present (e : Expr) : bool :=
  match e with NilExpr => false | _ => true end.

(** *** Helper functions *)

(** [enterScope] *)
Definition enterScope (kind : symtab.ScopeKind) : M unit := fun a =>
  match symtab.NewScope (heap a) (nextScope a) kind (Some (currentScope a)) with
  | Some (s, hp) =>
      Done tt (set_currentScope s (set_nextScope (S (nextScope a)) (set_heap hp a)))
  | None => Stuck
  end.

(** [exitScope] *)
Definition exitScope : M unit :=
  a ← get;
  sc ← scopeAt (currentScope a);
  match symtab.Parent sc with
  | Some p => modify (set_currentScope p)
  | None => ret tt
  end.

(** [error] *)
Definition error (pos : Position) (m : Message) : M unit :=
  modify (fun a =>
    set_errors
      (errors a ++
       [mkSemanticError (if token.Position_IsValid pos then Some pos else None) m]) a).

(** [assignable] *)
Definition assignable (valueType targetType : types.Type_) (pos : Position) : M bool :=
  if types.AssignableTo valueType targetType then ret true
  else error pos (CannotAssign valueType targetType);; ret false.

(** [resolveType] *)
Definition resolveType (typeExpr : Expr) : M types.Type_ :=
  match typeExpr with
  | IdentifierExpr ident =>
      let name := IdName ident in
      if String.eqb name "int" then ret types.Int
      else if String.eqb name "float" then ret types.Float
      else if String.eqb name "bool" then ret types.Bool
      else if String.eqb name "string" then ret types.String
      else if String.eqb name "char" then ret types.Char
      else if String.eqb name "void" then ret types.Void
      else
        symbol ← Lookup name;
        match symbol with
        | None => error (IdentPos ident) (UndefinedType name);; ret types.Invalid
        | Some x =>
            sym ← symbolAt x;
            match symtab.Kind sym with
            | builder.SymbolType | builder.SymbolStruct => ret (symtab.Type_ sym)
            | _ => error (IdentPos ident) (NotType name);; ret types.Invalid
            end
        end
  | _ =>
      pos ← posOf typeExpr;
      error pos (Plain "invalid type expression");;
      ret types.Invalid
  end.

(** [a.exprTypes[expr] = t] *)
Definition record (e : Expr) (t : types.Type_) : M unit :=
  modify (fun a => set_exprTypes (exprTypes a ++ [(e, t)]) a).

(** [structType.LookupField(name)]: the type of the first field with
    that name. *)
Fixpoint LookupField (fields : list (string * types.Type_)) (name : string)
  : option types.Type_ :=
  match fields with
  | [] => None
  | (fname, ftype) :: fields' =>
      if String.eqb fname name then Some ftype else LookupField fields' name
  end.

(** *** Expressions *)

(** The switch of [VisitBinaryExpr]. *)
Definition binaryResult (op : Token) (left right : types.Type_) : M types.Type_ :=
  match Type_ op with
  | TokenPlus | TokenMinus | TokenStar | TokenSlash | TokenPercent =>
      if negb (types.IsNumeric left) || negb (types.IsNumeric right)
      then error (Pos op) (RequiresNumericOperands (Lexeme op));; ret types.Invalid
      else if negb (types.Equals left right)
      then error (Pos op) (MismatchedTypes left right);; ret types.Invalid
      else ret left
  | TokenEqual | TokenNotEqual =>
      if negb (types.IsComparable left) || negb (types.IsComparable right)
      then error (Pos op) (Plain "operands must be comparable");; ret types.Invalid
      else if negb (types.Equals left right)
      then error (Pos op) (CannotCompare left right);; ret types.Invalid
      else ret types.Bool
  | TokenLess | TokenLessEqual | TokenGreater | TokenGreaterEqual =>
      if negb (types.IsOrdered left) || negb (types.IsOrdered right)
      then error (Pos op) (Plain "operands must be ordered");; ret types.Invalid
      else if negb (types.Equals left right)
      then error (Pos op) (CannotCompare left right);; ret types.Invalid
      else ret types.Bool
  | TokenBitAnd | TokenBitOr | TokenBitXor | TokenShl | TokenShr =>
      if negb (types.IsIntegerType left) || negb (types.IsIntegerType right)
      then error (Pos op) (Plain "bitwise operators require integer operands");;
           ret types.Invalid
      else ret types.Int
  | _ => error (Pos op) (UnknownBinaryOperator (Lexeme op));; ret types.Invalid
  end.

(** The switch of [VisitUnaryExpr]. *)
Definition unaryResult (op : Token) (operand : Expr) (opType : types.Type_)
  : M types.Type_ :=
  match Type_ op with
  | TokenMinus =>
      if negb (types.IsNumeric opType)
      then error (Pos op) (Plain "unary - requires numeric operand");; ret types.Invalid
      else ret opType
  | TokenNot =>
      if negb (types.IsBooleanType opType)
      then error (Pos op) (Plain "unary ! requires boolean operand");; ret types.Invalid
      else ret types.Bool
  | TokenBitNot =>
      if negb (types.IsIntegerType opType)
      then error (Pos op) (Plain "unary ~ requires integer operand");; ret types.Invalid
      else ret types.Int
  | TokenPlusPlus | TokenMinusMinus =>
      if negb (types.IsNumeric opType)
      then error (Pos op) (RequiresNumericOperand (Lexeme op));; ret types.Invalid
      else
        match operand with
        | IdentifierExpr ident =>
            symbol ← Lookup (IdName ident);
            match symbol with
            | Some x =>
                sym ← symbolAt x;
                if negb (symtab.CanAssign sym)
                then error (Pos op) (CannotModify (IdName ident))
                else ret tt
            | None => ret tt
            end
        | _ => ret tt
        end;;
        ret opType
  | _ => error (Pos op) (UnknownUnaryOperator (Lexeme op));; ret types.Invalid
  end.

(** The switch of [VisitLiteralExpr]. *)
Definition literalResult (tok : Token) (value : ir.ConstantPayload) : M types.Type_ :=
  match Type_ tok with
  | TokenNumber =>
      match value with
      | ir.PayloadInt64 _ => ret types.Int
      | ir.PayloadFloat64 _ => ret types.Float
      | _ => ret types.Invalid
      end
  | TokenString => ret types.String
  | TokenChar => ret types.Char
  | TokenTrue | TokenFalse => ret types.Bool
  | TokenNil => ret types.Nil
  | _ => error (Pos tok) (Plain "unknown literal type");; ret types.Invalid
  end.

(** The switch of [VisitAssignmentExpr] on the target. *)
Definition checkTarget (target : Expr) : M unit :=
  match target with
  | IdentifierExpr ident =>
      symbol ← Lookup (IdName ident);
      match symbol with
      | Some x =>
          sym ← symbolAt x;
          if negb (symtab.CanAssign sym)
          then pos ← posOf target; error pos (CannotAssignTo (IdName ident))
          else ret tt
      | None => ret tt
      end
  | IndexExpr _ _ _ _ | MemberExpr _ _ _ => ret tt
  | _ => pos ← posOf target; error pos (Plain "invalid assignment target")
  end.

(** [providedFields[name]] *)
Definition provided (providedFields : gmap string bool) (name : string) : bool :=
  default false (providedFields !! name).

(** The last loop of [VisitStructLiteralExpr]. *)
Definition missingFields (e : Expr) (fields : list (string * types.Type_))
    (providedFields : gmap string bool) : M unit :=
  forEach
    (fun structField : string * types.Type_ =>
       if negb (provided providedFields (fst structField))
       then pos ← posOf e; error pos (MissingField (fst structField))
       else ret tt)
    fields.

(** [expr.Accept(a)]: the method of the analyzer for the node, and a
    panic for the nil interface value. *)
Fixpoint VisitExpr (e : Expr) : M types.Type_ :=
  match e with
  | NilExpr => panic
  | BinaryExpr l op r =>
      left ← VisitExpr l;
      right ← VisitExpr r;
      resultType ← binaryResult op left right;
      record e resultType;;
      ret resultType
  | UnaryExpr op operand _ =>
      opType ← VisitExpr operand;
      resultType ← unaryResult op operand opType;
      record e resultType;;
      ret resultType
  | LogicalExpr l _ r =>
      left ← VisitExpr l;
      right ← VisitExpr r;
      (if negb (types.IsBooleanType left)
       then pos ← posOf l; error pos (Plain "left operand must be boolean")
       else ret tt);;
      (if negb (types.IsBooleanType right)
       then pos ← posOf r; error pos (Plain "right operand must be boolean")
       else ret tt);;
      record e types.Bool;;
      ret types.Bool
  | LiteralExpr tok value =>
      resultType ← literalResult tok value;
      record e resultType;;
      ret resultType
  | IdentifierExpr ident =>
      symbol ← Lookup (IdName ident);
      match symbol with
      | None =>
          error (IdentPos ident) (Undefined (IdName ident));;
          record e types.Invalid;;
          ret types.Invalid
      | Some x =>
          sym ← symbolAt x;
          match symtab.Kind sym with
          | builder.SymbolType =>
              error (IdentPos ident) (IsTypeNotValue (IdName ident));;
              record e types.Invalid;;
              ret types.Invalid
          | _ =>
              record e (symtab.Type_ sym);;
              ret (symtab.Type_ sym)
          end
      end
  | CallExpr callee leftParen args _ =>
      calleeType ← VisitExpr callee;
      match calleeType with
      | types.FunctionType parameters returnType =>
          if negb (Nat.eqb (length args) (length parameters))
          then
            error (Pos leftParen) (ExpectedArguments (length parameters) (length args));;
            record e returnType;;
            ret returnType
          else
            (fix arguments (l : list Expr) (i : nat) : M unit :=
               match l with
               | [] => ret tt
               | arg :: l' =>
                   argType ← VisitExpr arg;
                   match parameters !! i with
                   | Some expectedType =>
                       pos ← posOf arg;
                       assignable argType expectedType pos;;
                       arguments l' (S i)
                   | None => panic
                   end
               end) args O;;
            record e returnType;;
            ret returnType
      | _ =>
          pos ← posOf callee;
          error pos (Plain "expression is not a function");;
          record e types.Invalid;;
          ret types.Invalid
      end
  | IndexExpr object _ index _ =>
      objectType ← VisitExpr object;
      match objectType with
      | types.ArrayType elementType _ =>
          indexType ← VisitExpr index;
          (if negb (types.IsIntegerType indexType)
           then pos ← posOf index; error pos (Plain "array index must be integer")
           else ret tt);;
          record e elementType;;
          ret elementType
      | _ =>
          pos ← posOf object;
          error pos (Plain "expression is not an array");;
          record e types.Invalid;;
          ret types.Invalid
      end
  | MemberExpr object _ member =>
      objectType ← VisitExpr object;
      match objectType with
      | types.StructType structName fields =>
          match LookupField fields (IdName member) with
          | None =>
              error (IdentPos member) (NoField structName (IdName member));;
              record e types.Invalid;;
              ret types.Invalid
          | Some fieldType =>
              record e fieldType;;
              ret fieldType
          end
      | _ =>
          pos ← posOf object;
          error pos (Plain "expression is not a struct");;
          record e types.Invalid;;
          ret types.Invalid
      end
  | AssignmentExpr target _ value =>
      targetType ← VisitExpr target;
      valueType ← VisitExpr value;
      checkTarget target;;
      pos ← posOf value;
      assignable valueType targetType pos;;
      record e targetType;;
      ret targetType
  | GroupingExpr _ inner _ =>
      innerType ← VisitExpr inner;
      record e innerType;;
      ret innerType
  | ArrayLiteralExpr _ elementTypeExpr elements _ =>
      elementType ←
        (if present elementTypeExpr then resolveType elementTypeExpr
         else
           match elements with
           | first :: _ => VisitExpr first
           | [] =>
               pos ← posOf e;
               error pos (Plain "cannot infer array type from empty literal");;
               ret types.Invalid
           end);
      (fix check (l : list Expr) : M unit :=
         match l with
         | [] => ret tt
         | elem :: l' =>
             elemType ← VisitExpr elem;
             pos ← posOf elem;
             assignable elemType elementType pos;;
             check l'
         end) elements;;
      let arrayType := types.NewArray elementType (Z.of_nat (length elements)) in
      record e arrayType;;
      ret arrayType
  | StructLiteralExpr typeName _ fields _ =>
      symbol ← Lookup (IdName typeName);
      match symbol with
      | None =>
          error (IdentPos typeName) (UndefinedStruct (IdName typeName));;
          record e types.Invalid;;
          ret types.Invalid
      | Some x =>
          sym ← symbolAt x;
          match symtab.Kind sym with
          | builder.SymbolStruct =>
              match symtab.Type_ sym with
              | types.StructType structName structFields =>
                  providedFields ←
                    (fix check (l : list (Ident * Token * Expr))
                         (providedFields : gmap string bool) : M (gmap string bool) :=
                       match l with
                       | [] => ret providedFields
                       | (fieldName, _, fieldValue) :: l' =>
                           match LookupField structFields (IdName fieldName) with
                           | None =>
                               error (IdentPos fieldName)
                                 (NoField structName (IdName fieldName));;
                               check l' providedFields
                           | Some fieldType =>
                               if provided providedFields (IdName fieldName)
                               then
                                 error (IdentPos fieldName)
                                   (DuplicateField (IdName fieldName));;
                                 check l' providedFields
                               else
                                 let providedFields :=
                                   <[IdName fieldName := true]> providedFields in
                                 valueType ← VisitExpr fieldValue;
                                 pos ← posOf fieldValue;
                                 assignable valueType fieldType pos;;
                                 check l' providedFields
                           end
                       end) fields ∅;
                  missingFields e structFields providedFields;;
                  record e (symtab.Type_ sym);;
                  ret (symtab.Type_ sym)
              | _ => panic
              end
          | _ =>
              error (IdentPos typeName) (NotStruct (IdName typeName));;
              record e types.Invalid;;
              ret types.Invalid
          end
      end
  end.

(** *** Declarations of variables *)

(** [symbol := &symtab.Symbol{...}] and
    [if err := a.currentScope.Define(symbol); err != nil { a.error(pos, err.Error()) }] *)
Definition defineSymbol (sym : symtab.Symbol) (pos : Position) : M unit :=
  a ← get;
  x ← newSymbol sym;
  err ← Define (currentScope a) x;
  match err with
  | Some e => error pos (DefineFailed e)
  | None => ret tt
  end.

(** The body of the loop of [VisitVarDecl] over the names. *)
Definition declareName (varType : types.Type_) (name : Ident) : M unit :=
  a ← get;
  symbol ← LookupLocal (currentScope a) (IdName name);
  match symbol with
  | Some x => updateSymbol x (set_Type varType)
  | None =>
      defineSymbol
        (newSymbolValue (IdName name) builder.SymbolVariable varType (IdentPos name))
        (IdentPos name)
  end.

(** The type [VisitVarDecl] gives the names. *)
Definition declaredType (decl : VarDecl) : M types.Type_ :=
  initType ←
    (if present (Initializer decl) then VisitExpr (Initializer decl)
     else ret types.Invalid);
  if present (VarType decl)
  then
    varType ← resolveType (VarType decl);
    (if present (Initializer decl)
     then pos ← posOf (Initializer decl); assignable initType varType pos;; ret tt
     else ret tt);;
    ret varType
  else if present (Initializer decl) then ret initType
  else
    error (VarPos decl) (Plain "variable declaration must have type or initializer");;
    ret types.Invalid.

Definition VisitVarDecl (decl : VarDecl) : M unit :=
  varType ← declaredType decl;
  forEach (declareName varType) (Names decl).

(** *** Statements *)

(** The check of a condition in [VisitIfStmt], [VisitWhileStmt] and
    [VisitForStmt]. *)
Definition checkCondition (condition : Expr) : M unit :=
  condType ← VisitExpr condition;
  if negb (types.IsBooleanType condType)
  then pos ← posOf condition; error pos (Plain "condition must be boolean")
  else ret tt.

Definition VisitReturnStmt (returnPos : Position) (value : Expr) : M unit :=
  a ← get;
  match currentFunction a with
  | None => error returnPos (Plain "return outside function")
  | Some f =>
      sym ← symbolAt f;
      match symtab.Type_ sym with
      | types.FunctionType _ expectedType =>
          if present value
          then
            returnType ← VisitExpr value;
            pos ← posOf value;
            assignable returnType expectedType pos;;
            ret tt
          else if negb (types.Equals expectedType types.Void)
          then error returnPos (ExpectedReturnValue expectedType)
          else ret tt
      | _ => panic
      end
  end.

Definition VisitBreakStmt (breakPos : Position) : M unit :=
  found ← FindEnclosingLoopOrSwitch;
  match found with
  | None => error breakPos (Plain "break outside loop or switch")
  | Some _ => ret tt
  end.

Definition VisitContinueStmt (continuePos : Position) : M unit :=
  found ← FindEnclosingLoop;
  match found with
  | None => error continuePos (Plain "continue outside loop")
  | Some _ => ret tt
  end.

(** The values of a case in [VisitSwitchStmt]. *)
Definition caseValues (valueType : types.Type_) (values : list Expr) : M unit :=
  forEach
    (fun val : Expr =>
       caseType ← VisitExpr val;
       pos ← posOf val;
       assignable caseType valueType pos;;
       ret tt)
    values.

(** [stmt.Accept(a)], with [VisitBlockStmt] for a [*BlockStmt] and the
    body of the loop of [VisitSwitchStmt] for a case. *)
Fixpoint VisitStmt (s : Stmt) : M unit :=
  match s with
  | NilStmt => panic
  | ExprStmt expression => VisitExpr expression;; ret tt
  | BlockStmt b => VisitBlockStmt b
  | IfStmt _ condition thenBranch elseBranch =>
      checkCondition condition;;
      VisitBlockStmt thenBranch;;
      match elseBranch with
      | NilStmt => ret tt
      | _ => VisitStmt elseBranch
      end
  | WhileStmt _ condition body =>
      checkCondition condition;;
      enterScope symtab.ScopeLoop;;
      VisitBlockStmt body;;
      exitScope
  | ForStmt _ init condition post body =>
      enterScope symtab.ScopeLoop;;
      match init with
      | NilStmt => ret tt
      | _ => VisitStmt init
      end;;
      (if present condition then checkCondition condition else ret tt);;
      match post with
      | NilStmt => ret tt
      | _ => VisitStmt post
      end;;
      VisitBlockStmt body;;
      exitScope
  | ReturnStmt returnPos value => VisitReturnStmt returnPos value
  | BreakStmt breakPos => VisitBreakStmt breakPos
  | ContinueStmt continuePos => VisitContinueStmt continuePos
  | SwitchStmt _ value cases =>
      valueType ← VisitExpr value;
      enterScope symtab.ScopeSwitch;;
      (fix clauses (l : list (option CaseClause)) : M unit :=
         match l with
         | [] => ret tt
         | c :: l' =>
             match c with
             | None => panic
             | Some c => visitCase valueType c
             end;;
             clauses l'
         end) cases;;
      exitScope
  | VarDeclStmt d => VisitVarDecl d
  end
with VisitBlockStmt (b : Block) : M unit :=
  match b with
  | mkBlock _ statements _ =>
      enterScope symtab.ScopeBlock;;
      (fix each (l : list Stmt) : M unit :=
         match l with
         | [] => ret tt
         | s :: l' => VisitStmt s;; each l'
         end) statements;;
      exitScope
  end
with visitCase (valueType : types.Type_) (c : CaseClause) : M unit :=
  match c with
  | mkCaseClause _ values _ body isDefault =>
      (if negb isDefault then caseValues valueType values else ret tt);;
      (fix each (l : list Stmt) : M unit :=
         match l with
         | [] => ret tt
         | s :: l' => VisitStmt s;; each l'
         end) body
  end.

(** *** Declarations *)

(** [declareDecl] *)
Definition declare (name : string) (kind : builder.SymbolKind) (pos errorPos : Position)
  : M unit :=
  defineSymbol (newSymbolValue name kind types.Invalid pos) errorPos.

Definition declareDecl (decl : Decl) : M unit :=
  match decl with
  | DeclVar d =>
      forEach
        (fun name : Ident =>
           declare (IdName name) builder.SymbolVariable (IdentPos name) (IdentPos name))
        (Names d)
  | DeclFunc d =>
      declare (IdName (FuncName d)) builder.SymbolFunction (FuncPos d)
        (IdentPos (FuncName d))
  | DeclStruct d =>
      declare (IdName (StructName d)) builder.SymbolStruct (StructPos d)
        (IdentPos (StructName d))
  | DeclType d =>
      declare (IdName (TypeName_ d)) builder.SymbolType (TypePos d)
        (IdentPos (TypeName_ d))
  end.

(** The first loop of [VisitFuncDecl]. *)
Fixpoint parameterTypes (params : list ParameterDecl) : M (list types.Type_) :=
  match params with
  | [] => ret []
  | param :: params' =>
      t ← resolveType (ParamType param);
      ts ← parameterTypes params';
      ret (t :: ts)
  end.

(** The second loop of [VisitFuncDecl]; [Define] overwrites the index
    that the literal gives the symbol. *)
Definition defineParameters (paramTypes : list types.Type_) (params : list ParameterDecl)
  : M unit :=
  forEachIndexed
    (fun (i : nat) (param : ParameterDecl) =>
       match paramTypes !! i with
       | None => panic
       | Some paramType =>
           defineSymbol
             (symtab.mkSymbol (IdName (ParamName param)) builder.SymbolParameter
                paramType (IdentPos (ParamName param)) None false false
                ir.PayloadNone ∅ (Z.of_nat i))
             (IdentPos (ParamName param))
       end)
    O params.

Definition VisitFuncDecl (decl : FuncDecl) : M unit :=
  paramTypes ← parameterTypes (Params decl);
  returnType ←
    (if present (ReturnType decl) then resolveType (ReturnType decl) else ret types.Void);
  let funcType := types.NewFunction paramTypes returnType in
  a ← get;
  symbol ← LookupLocal (globalScope a) (IdName (FuncName decl));
  match symbol with
  | Some x => updateSymbol x (set_Type funcType)
  | None => ret tt
  end;;
  enterScope symtab.ScopeFunction;;
  a ← get;
  updateScope (currentScope a) (set_Function symbol);;
  modify (set_currentFunction symbol);;
  defineParameters paramTypes (Params decl);;
  match FuncBody decl with
  | Some body => VisitBlockStmt body
  | None => ret tt
  end;;
  exitScope;;
  modify (set_currentFunction None).

(** The loop of [VisitStructDecl]: the fields of the type and the map
    of the field symbols. *)
Fixpoint structFields (fields : list FieldDecl) (i : nat) (fieldSymbols : gmap string nat)
  : M (list (string * types.Type_) * gmap string nat) :=
  match fields with
  | [] => ret ([], fieldSymbols)
  | field :: fields' =>
      fieldType ← resolveType (FieldType field);
      x ← newSymbol
            (symtab.mkSymbol (IdName (FieldName field)) builder.SymbolField fieldType
               (IdentPos (FieldName field)) None false false ir.PayloadNone ∅
               (Z.of_nat i));
      rest ← structFields fields' (S i) (<[IdName (FieldName field) := x]> fieldSymbols);
      ret ((IdName (FieldName field), fieldType) :: fst rest, snd rest)
  end.

Definition VisitStructDecl (decl : StructDecl) : M unit :=
  built ← structFields (StructFields decl) O ∅;
  let structType := types.NewStruct (IdName (StructName decl)) (fst built) in
  a ← get;
  symbol ← LookupLocal (globalScope a) (IdName (StructName decl));
  match symbol with
  | Some x => updateSymbol x (fun sym => set_Fields (snd built) (set_Type structType sym))
  | None => ret tt
  end.

Definition VisitTypeDecl (decl : TypeDecl) : M unit :=
  aliasedType ← resolveType (DeclaredType decl);
  a ← get;
  symbol ← LookupLocal (globalScope a) (IdName (TypeName_ decl));
  match symbol with
  | Some x => updateSymbol x (set_Type aliasedType)
  | None => ret tt
  end.

(** [decl.Accept(a)] *)
Definition VisitDecl (decl : Decl) : M unit :=
  match decl with
  | DeclVar d => VisitVarDecl d
  | DeclFunc d => VisitFuncDecl d
  | DeclStruct d => VisitStructDecl d
  | DeclType d => VisitTypeDecl d
  end.

(** [processImport]; the import is a pointer, which may be nil. *)
Definition processImport (imp : option ImportDecl) : M unit :=
  match imp with
  | None => panic
  | Some imp =>
      match snd (Path imp) with
      | ir.PayloadString path =>
          let name :=
            match ImportName imp with
            | Some alias => IdName alias
            | None => path
            end in
          declare name builder.SymbolPackage (ImportPos imp) (ImportPos imp)
      | _ => panic
      end
  end.

(** [New]: the global scope is the first object. *)
Definition New : option Analyzer :=
  match symtab.NewScope (symtab.mkHeap ∅ ∅) O symtab.ScopeGlobal None with
  | Some (globalScope, hp) => Some (mkAnalyzer hp 1 O globalScope globalScope [] [] None)
  | None => None
  end.

(** [Analyze] *)
Definition Analyze (file : File) : M (list SemanticError) :=
  modify (fun a => set_currentScope (globalScope a) (set_exprTypes [] (set_errors [] a)));;
  match Package file with
  | None =>
      error (mkPosition "" 0 0 0) (Plain "missing package declaration");;
      a ← get;
      ret (errors a)
  | Some _ =>
      forEach processImport (Imports file);;
      forEach declareDecl (Decls file);;
      forEach VisitDecl (Decls file);;
      a ← get;
      ret (errors a)
  end.

End semantic.
(** ** Properties of the type system *)

Module types_spec.
Import types.
Local Open Scope Z_scope.

Lemma Equals_struct name fields oname ofields :
  Equals (StructType name fields) (StructType oname ofields) =
  if negb (String.eqb name "") && negb (String.eqb oname "")
  then String.eqb name oname
  else if negb (Nat.eqb (length fields) (length ofields)) then false
       else fields_equal fields ofields.
Proof. reflexivity. Qed.

Lemma Equals_function params ret oparams oret :
  Equals (FunctionType params ret) (FunctionType oparams oret) =
  if negb (Equals ret oret) then false
  else if negb (Nat.eqb (length params) (length oparams)) then false
       else params_equal params oparams.
Proof. reflexivity. Qed.

Lemma Equals_Invalid_r t : Equals t InvalidType = false.
Proof. destruct t; reflexivity. Qed.

(** *** Symmetry *)

Lemma fields_equal_sym fs :
  Forall (fun f => forall o, Equals (snd f) o = Equals o (snd f)) fs ->
  forall os, length fs = length os -> fields_equal fs os = fields_equal os fs.
Proof.
  induction 1 as [|[fname ftype] fs Hf _ IH]; intros [|[oname otype] os] Hlen;
    simpl in *; try discriminate; try reflexivity.
  rewrite (Hf otype), (String.eqb_sym fname oname).
  rewrite IH by congruence. reflexivity.
Qed.

Lemma params_equal_sym ps :
  Forall (fun p => forall o, Equals p o = Equals o p) ps ->
  forall os, length ps = length os -> params_equal ps os = params_equal os ps.
Proof.
  induction 1 as [|p ps Hp _ IH]; intros [|o os] Hlen;
    simpl in *; try discriminate; try reflexivity.
  rewrite (Hp o), IH by congruence. reflexivity.
Qed.

Lemma Equals_sym t : forall other, Equals t other = Equals other t.
Proof.
  induction t using Type_induction; intros other;
    try (destruct other; reflexivity).
  - destruct other; try reflexivity. simpl.
    rewrite IHt, (Z.eqb_sym size). reflexivity.
  - destruct other as [| | | | | | | | |oname ofields|]; try reflexivity.
    rewrite !Equals_struct.
    rewrite (andb_comm (negb (String.eqb name ""))), (String.eqb_sym name oname).
    rewrite (Nat.eqb_sym (length fields)).
    destruct (negb (String.eqb oname "") && negb (String.eqb name "")); [reflexivity|].
    destruct (Nat.eqb (length ofields) (length fields)) eqn:Hlen; [|reflexivity].
    apply Nat.eqb_eq in Hlen. simpl.
    apply fields_equal_sym; [assumption|congruence].
  - destruct other as [| | | | | | | | | |oparams oret]; try reflexivity.
    rewrite !Equals_function, IHt, (Nat.eqb_sym (length params)).
    destruct (Equals oret t); [|reflexivity]. simpl.
    destruct (Nat.eqb (length oparams) (length params)) eqn:Hlen; [|reflexivity].
    apply Nat.eqb_eq in Hlen. simpl.
    apply params_equal_sym; [assumption|congruence].
Qed.

(** *** Reflexivity, exactly on the valid types *)

Lemma fields_equal_refl fs :
  Forall (fun f => Equals (snd f) (snd f) = valid (snd f)) fs ->
  fields_equal fs fs = forallb (fun f => valid (snd f)) fs.
Proof.
  induction 1 as [|[fname ftype] fs Hf _ IH]; simpl in *; [reflexivity|].
  rewrite String.eqb_refl, Hf, IH. simpl. destruct (valid ftype); reflexivity.
Qed.

Lemma params_equal_refl ps :
  Forall (fun p => Equals p p = valid p) ps ->
  params_equal ps ps = forallb valid ps.
Proof.
  induction 1 as [|p ps Hp _ IH]; simpl in *; [reflexivity|].
  rewrite Hp, IH. destruct (valid p); reflexivity.
Qed.

Lemma Equals_refl_valid t : Equals t t = valid t.
Proof.
  induction t using Type_induction; try reflexivity.
  - simpl. rewrite Z.eqb_refl, IHt. reflexivity.
  - rewrite Equals_struct. simpl valid.
    rewrite andb_diag, Nat.eqb_refl, String.eqb_refl. simpl.
    destruct (negb (String.eqb name "")); [reflexivity|].
    apply fields_equal_refl; assumption.
  - rewrite Equals_function, IHt, Nat.eqb_refl. simpl.
    destruct (valid t); simpl; [|reflexivity].
    apply params_equal_refl; assumption.
Qed.

(** *** Transitivity, on types whose structs are all named and on types
        whose structs are all anonymous *)

Lemma params_equal_trans (Q : Type_ -> bool) ps :
  Forall (fun p => forall b c, Q p = true -> Q b = true -> Q c = true ->
                   Equals p b = true -> Equals b c = true -> Equals p c = true) ps ->
  forall bs cs,
    forallb Q ps = true -> forallb Q bs = true -> forallb Q cs = true ->
    length ps = length bs -> length bs = length cs ->
    params_equal ps bs = true -> params_equal bs cs = true ->
    params_equal ps cs = true.
Proof.
  induction 1 as [|p ps Hp _ IH]; intros [|b bs] [|c cs]; simpl;
    try discriminate; try reflexivity.
  intros Ha Hb Hc Hl1 Hl2 H1 H2.
  apply andb_prop in Ha as [Ha Has]. apply andb_prop in Hb as [Hb Hbs].
  apply andb_prop in Hc as [Hc Hcs].
  destruct (Equals p b) eqn:Epb; [|discriminate].
  destruct (Equals b c) eqn:Ebc; [|discriminate].
  rewrite (Hp b c Ha Hb Hc Epb Ebc). simpl in *.
  apply (IH bs cs); auto.
Qed.

Lemma fields_equal_trans fs :
  Forall (fun f => forall b c,
              structural (snd f) = true -> structural b = true -> structural c = true ->
              Equals (snd f) b = true -> Equals b c = true -> Equals (snd f) c = true) fs ->
  forall bs cs,
    forallb (fun f => structural (snd f)) fs = true ->
    forallb (fun f => structural (snd f)) bs = true ->
    forallb (fun f => structural (snd f)) cs = true ->
    length fs = length bs -> length bs = length cs ->
    fields_equal fs bs = true -> fields_equal bs cs = true ->
    fields_equal fs cs = true.
Proof.
  induction 1 as [|[fname ftype] fs Hf _ IH];
    intros [|[bname btype] bs] [|[cname ctype] cs]; simpl;
    try discriminate; try reflexivity.
  intros Ha Hb Hc Hl1 Hl2 H1 H2.
  apply andb_prop in Ha as [Ha Has]. apply andb_prop in Hb as [Hb Hbs].
  apply andb_prop in Hc as [Hc Hcs].
  destruct (String.eqb fname bname) eqn:En1; [|discriminate].
  destruct (String.eqb bname cname) eqn:En2; [|discriminate].
  destruct (Equals ftype btype) eqn:E1; [|discriminate].
  destruct (Equals btype ctype) eqn:E2; [|discriminate].
  apply String.eqb_eq in En1, En2. subst. simpl in Hf, Ha, Hb, Hc.
  rewrite String.eqb_refl, (Hf btype ctype Ha Hb Hc E1 E2). simpl in *.
  apply (IH bs cs); auto.
Qed.

Lemma Equals_trans_nominal a : forall b c,
  nominal a = true -> nominal b = true -> nominal c = true ->
  Equals a b = true -> Equals b c = true -> Equals a c = true.
Proof.
  induction a using Type_induction; intros b c Ha Hb Hc Hab Hbc;
    try (destruct b; try discriminate; exact Hbc).
  - destruct b as [| | | | | | | |belem bsize| |]; try discriminate.
    destruct c as [| | | | | | | |celem csize| |]; try discriminate.
    simpl in *.
    apply andb_prop in Hab as [Hs1 He1]. apply andb_prop in Hbc as [Hs2 He2].
    apply Z.eqb_eq in Hs1, Hs2. subst.
    rewrite Z.eqb_refl, (IHa belem celem); auto.
  - destruct b as [| | | | | | | | |bname bfields|]; try discriminate.
    destruct c as [| | | | | | | | |cname cfields|]; try discriminate.
    rewrite Equals_struct in *. simpl in Ha, Hb, Hc.
    rewrite Ha, Hb in Hab. rewrite Hb, Hc in Hbc. rewrite Ha, Hc.
    simpl in *. apply String.eqb_eq in Hab, Hbc. subst. apply String.eqb_refl.
  - destruct b as [| | | | | | | | | |bparams bret]; try discriminate.
    destruct c as [| | | | | | | | | |cparams cret]; try discriminate.
    rewrite Equals_function in *. simpl in Ha, Hb, Hc.
    apply andb_prop in Ha as [Ha Has]. apply andb_prop in Hb as [Hb Hbs].
    apply andb_prop in Hc as [Hc Hcs].
    destruct (Equals a bret) eqn:E1; [|discriminate].
    destruct (Equals bret cret) eqn:E2; [|discriminate].
    rewrite (IHa bret cret Ha Hb Hc E1 E2). simpl in *.
    destruct (Nat.eqb (length params) (length bparams)) eqn:L1; [|discriminate].
    destruct (Nat.eqb (length bparams) (length cparams)) eqn:L2; [|discriminate].
    apply Nat.eqb_eq in L1, L2. rewrite L1, L2, Nat.eqb_refl. simpl in *.
    apply (params_equal_trans nominal params H bparams cparams); auto.
Qed.

Lemma Equals_trans_structural a : forall b c,
  structural a = true -> structural b = true -> structural c = true ->
  Equals a b = true -> Equals b c = true -> Equals a c = true.
Proof.
  induction a using Type_induction; intros b c Ha Hb Hc Hab Hbc;
    try (destruct b; try discriminate; exact Hbc).
  - destruct b as [| | | | | | | |belem bsize| |]; try discriminate.
    destruct c as [| | | | | | | |celem csize| |]; try discriminate.
    simpl in *.
    apply andb_prop in Hab as [Hs1 He1]. apply andb_prop in Hbc as [Hs2 He2].
    apply Z.eqb_eq in Hs1, Hs2. subst.
    rewrite Z.eqb_refl, (IHa belem celem); auto.
  - destruct b as [| | | | | | | | |bname bfields|]; try discriminate.
    destruct c as [| | | | | | | | |cname cfields|]; try discriminate.
    rewrite Equals_struct in *. simpl in Ha, Hb, Hc.
    apply andb_prop in Ha as [Ha Has]. apply andb_prop in Hb as [Hb Hbs].
    apply andb_prop in Hc as [Hc Hcs].
    rewrite Ha, Hb in Hab. rewrite Hb, Hc in Hbc. rewrite Ha, Hc.
    simpl in *.
    destruct (Nat.eqb (length fields) (length bfields)) eqn:L1; [|discriminate].
    destruct (Nat.eqb (length bfields) (length cfields)) eqn:L2; [|discriminate].
    apply Nat.eqb_eq in L1, L2. rewrite L1, L2, Nat.eqb_refl. simpl in *.
    apply (fields_equal_trans fields H bfields cfields); auto.
  - destruct b as [| | | | | | | | | |bparams bret]; try discriminate.
    destruct c as [| | | | | | | | | |cparams cret]; try discriminate.
    rewrite Equals_function in *. simpl in Ha, Hb, Hc.
    apply andb_prop in Ha as [Ha Has]. apply andb_prop in Hb as [Hb Hbs].
    apply andb_prop in Hc as [Hc Hcs].
    destruct (Equals a bret) eqn:E1; [|discriminate].
    destruct (Equals bret cret) eqn:E2; [|discriminate].
    rewrite (IHa bret cret Ha Hb Hc E1 E2). simpl in *.
    destruct (Nat.eqb (length params) (length bparams)) eqn:L1; [|discriminate].
    destruct (Nat.eqb (length bparams) (length cparams)) eqn:L2; [|discriminate].
    apply Nat.eqb_eq in L1, L2. rewrite L1, L2, Nat.eqb_refl. simpl in *.
    apply (params_equal_trans structural params H bparams cparams); auto.
Qed.

(** *** Assignability *)

Lemma AssignableTo_refl t :
  AssignableTo t t =
  valid t && negb (Equals t VoidType) && negb (Equals t NilType).
Proof.
  destruct t; cbv [AssignableTo]; rewrite ?Equals_refl_valid;
    try reflexivity; simpl; rewrite ?andb_true_r; reflexivity.
Qed.

Lemma AssignableTo_Invalid_r t : AssignableTo t InvalidType = false.
Proof. destruct t; reflexivity. Qed.

(** C5, as stated, fails: [Void] is a type other than [Invalid], and it is
    not assignable to itself. *)
Lemma C5_counterexample :
  Void <> Invalid /\ AssignableTo Void Void = false.
Proof. split; [discriminate|reflexivity]. Qed.

(** C5 (amended).  [Equals] is symmetric on all types; it is reflexive on
    every type that contains no [Invalid] where the comparison looks
    ([valid]); it is transitive on types whose structs are all named and
    on types whose structs are all anonymous.  [AssignableTo] is reflexive
    on the valid types other than [Void] and [Nil].  [Invalid] is neither
    equal nor assignable to any type, and no type is equal or assignable
    to it. *)
Theorem C5_type_laws :
  (forall a b, Equals a b = Equals b a) /\
  (forall t, valid t = true -> Equals t t = true) /\
  (forall a b c,
      nominal a = true -> nominal b = true -> nominal c = true ->
      Equals a b = true -> Equals b c = true -> Equals a c = true) /\
  (forall a b c,
      structural a = true -> structural b = true -> structural c = true ->
      Equals a b = true -> Equals b c = true -> Equals a c = true) /\
  (forall t, valid t = true -> t <> Void -> t <> Nil -> AssignableTo t t = true) /\
  (forall t, Equals Invalid t = false /\ Equals t Invalid = false /\
             AssignableTo Invalid t = false /\ AssignableTo t Invalid = false).
Proof.
  split; [exact Equals_sym|].
  split; [intros t Ht; rewrite Equals_refl_valid; exact Ht|].
  split; [exact Equals_trans_nominal|].
  split; [exact Equals_trans_structural|].
  split.
  - intros t Hv Hvoid Hnil. rewrite AssignableTo_refl, Hv.
    destruct t; try reflexivity; contradiction.
  - intros t. repeat split.
    + apply Equals_Invalid_r.
    + apply AssignableTo_Invalid_r.
Qed.

(** The laws at concrete types: a named struct, an array of it and a
    function type over both. *)
Lemma C5_type_laws_witness :
  let point := NewStruct "Point" [("x", Int); ("y", Int)] in
  let arr := NewArray point 3 in
  let fn := NewFunction [point; arr] Bool in
  Equals fn fn = true /\ AssignableTo arr arr = true /\
  (Equals point point = true -> Equals point point = true -> Equals point point = true).
Proof.
  intros point arr fn.
  destruct C5_type_laws as (Hsym & Hrefl & Hnom & Hstr & Hassign & Hinv).
  split; [apply Hrefl; reflexivity|].
  split; [apply Hassign; [reflexivity|discriminate|discriminate]|].
  apply Hnom; reflexivity.
Defined.

End types_spec.

(** ** Properties of basic blocks and of the IR verifier *)

Module ir_spec.
Import ir.

(** *** Reading the store after a write *)

Lemma blk_insert (h : gmap nat BasicBlock) p q bb :
  blk (<[p := bb]> h) q = if decide (p = q) then bb else blk h q.
Proof.
  unfold blk. rewrite lookup_insert. destruct (decide (p = q)); reflexivity.
Qed.

Lemma blk_empty p : blk ∅ p = zeroBlock.
Proof. unfold blk. rewrite lookup_empty. reflexivity. Qed.

Lemma existsb_eqb_false s l :
  existsb (Nat.eqb s) l = false -> count_occ Nat.eq_dec l s = 0.
Proof.
  intros H. apply count_occ_not_In. intros Hin.
  assert (existsb (Nat.eqb s) l = true) as Ht.
  { apply existsb_exists. exists s. split; [exact Hin|apply Nat.eqb_refl]. }
  congruence.
Qed.

Lemma existsb_eqb_true s l :
  existsb (Nat.eqb s) l = true -> 0 < count_occ Nat.eq_dec l s.
Proof.
  intros H. apply existsb_exists in H as (x & Hin & Hx).
  apply Nat.eqb_eq in Hx. subst x. apply count_occ_In. exact Hin.
Qed.

Lemma count_occ_snoc (l : list nat) x y :
  count_occ Nat.eq_dec (l ++ [x]) y =
  count_occ Nat.eq_dec l y + (if decide (x = y) then 1 else 0).
Proof.
  rewrite count_occ_app. simpl.
  destruct (Nat.eq_dec x y), (decide (x = y)); try contradiction; reflexivity.
Qed.

(** *** The effect of [AddSuccessor] on the two edge lists *)

Lemma AddSuccessor_present h b s :
  existsb (Nat.eqb s) (Successors (blk h b)) = true -> AddSuccessor h b s = h.
Proof. intros H. unfold AddSuccessor. rewrite H. reflexivity. Qed.

Lemma AddSuccessor_Successors h b s q :
  existsb (Nat.eqb s) (Successors (blk h b)) = false ->
  Successors (blk (AddSuccessor h b s) q) =
  if decide (q = b) then Successors (blk h b) ++ [s] else Successors (blk h q).
Proof.
  intros H. unfold AddSuccessor. rewrite H. cbv zeta.
  rewrite !blk_insert.
  destruct (decide (s = q)) as [->|Hsq], (decide (b = q)) as [->|Hbq];
    simpl; repeat (rewrite ?blk_insert; case_decide; subst; simpl);
    try reflexivity; try congruence.
Qed.

Lemma AddSuccessor_Predecessors h b s q :
  existsb (Nat.eqb s) (Successors (blk h b)) = false ->
  Predecessors (blk (AddSuccessor h b s) q) =
  if decide (q = s) then Predecessors (blk h s) ++ [b] else Predecessors (blk h q).
Proof.
  intros H. unfold AddSuccessor. rewrite H. cbv zeta.
  rewrite !blk_insert.
  destruct (decide (s = q)) as [->|Hsq], (decide (b = q)) as [->|Hbq];
    simpl; repeat (rewrite ?blk_insert; case_decide; subst; simpl);
    try reflexivity; try congruence.
Qed.

Lemma AddSuccessor_other_fields h b s q :
  Label (blk (AddSuccessor h b s) q) = Label (blk h q) /\
  Instructions (blk (AddSuccessor h b s) q) = Instructions (blk h q) /\
  Index (blk (AddSuccessor h b s) q) = Index (blk h q).
Proof.
  unfold AddSuccessor.
  destruct (existsb (Nat.eqb s) (Successors (blk h b))); [auto|]. cbv zeta.
  rewrite !blk_insert.
  repeat (case_decide; subst; simpl; rewrite ?blk_insert); auto.
Qed.

(** *** Stores the program can build

    A block is created with empty edge lists ([NewBasicBlock]) and the
    edge lists are written by [AddSuccessor] only; every other write to a
    block (appending or replacing instructions, setting [Index]) leaves
    both lists as they are. *)
Inductive cfg_built : gmap nat BasicBlock -> Prop :=
| built_empty : cfg_built ∅
| built_new h p label :
    cfg_built h -> h !! p = None -> cfg_built (<[p := NewBasicBlock label]> h)
| built_edge h b s :
    cfg_built h -> cfg_built (AddSuccessor h b s)
| built_write h p bb :
    cfg_built h ->
    Successors bb = Successors (blk h p) ->
    Predecessors bb = Predecessors (blk h p) ->
    cfg_built (<[p := bb]> h).

(** Mutual consistency and absence of duplicates, by counting: [s] occurs
    in [b]'s successors as often as [b] occurs in [s]'s predecessors, and
    at most once. *)
Definition edges_consistent (h : gmap nat BasicBlock) : Prop :=
  forall b s,
    count_occ Nat.eq_dec (Successors (blk h b)) s =
    count_occ Nat.eq_dec (Predecessors (blk h s)) b /\
    count_occ Nat.eq_dec (Successors (blk h b)) s <= 1.

Lemma AddSuccessor_consistent h b s :
  edges_consistent h -> edges_consistent (AddSuccessor h b s).
Proof.
  intros Hc.
  destruct (existsb (Nat.eqb s) (Successors (blk h b))) eqn:Hin.
  - rewrite AddSuccessor_present by exact Hin. exact Hc.
  - intros x y.
    rewrite (AddSuccessor_Successors h b s x Hin).
    rewrite (AddSuccessor_Predecessors h b s y Hin).
    pose proof (existsb_eqb_false _ _ Hin) as Hzero.
    destruct (Hc x y) as [Heq Hle]. destruct (Hc b s) as [Hbs _].
    destruct (decide (x = b)) as [->|Hx], (decide (y = s)) as [->|Hy];
      rewrite ?count_occ_snoc; repeat case_decide; subst; try congruence; lia.
Qed.

Lemma cfg_built_consistent h : cfg_built h -> edges_consistent h.
Proof.
  induction 1 as [|h p label _ IH Hfresh|h b s _ IH|h p bb _ IH Hs Hp].
  - intros b s. rewrite !blk_empty. simpl. lia.
  - intros b s. rewrite !blk_insert.
    assert (blk h p = zeroBlock) as Hz by (unfold blk; rewrite Hfresh; reflexivity).
    specialize (IH b s). pose proof (IH' := IH).
    repeat case_decide; subst; simpl; rewrite ?Hz in *; simpl in *; lia.
  - apply AddSuccessor_consistent. exact IH.
  - intros b s. rewrite !blk_insert.
    specialize (IH b s).
    repeat case_decide; subst; rewrite ?Hs, ?Hp; exact IH.
Qed.

Lemma AddSuccessor_idempotent h b s :
  AddSuccessor (AddSuccessor h b s) b s = AddSuccessor h b s.
Proof.
  destruct (existsb (Nat.eqb s) (Successors (blk h b))) eqn:Hin.
  - rewrite (AddSuccessor_present h b s Hin). apply AddSuccessor_present. exact Hin.
  - apply AddSuccessor_present.
    rewrite (AddSuccessor_Successors h b s b Hin).
    rewrite decide_True by reflexivity.
    rewrite existsb_app. simpl. rewrite Nat.eqb_refl.
    apply orb_true_iff. right. reflexivity.
Qed.

Lemma AddSuccessor_iter h b s n :
  Nat.iter (S n) (fun h' => AddSuccessor h' b s) h = AddSuccessor h b s.
Proof.
  induction n as [|n IH]; [reflexivity|].
  change (Nat.iter (S (S n)) (fun h' => AddSuccessor h' b s) h)
    with (AddSuccessor (Nat.iter (S n) (fun h' => AddSuccessor h' b s) h) b s).
  rewrite IH. apply AddSuccessor_idempotent.
Qed.

Lemma AddSuccessor_counts h b s :
  edges_consistent h ->
  count_occ Nat.eq_dec (Successors (blk (AddSuccessor h b s) b)) s = 1 /\
  count_occ Nat.eq_dec (Predecessors (blk (AddSuccessor h b s) s)) b = 1.
Proof.
  intros Hc.
  destruct (existsb (Nat.eqb s) (Successors (blk h b))) eqn:Hin.
  - rewrite AddSuccessor_present by exact Hin.
    apply existsb_eqb_true in Hin. destruct (Hc b s) as [Heq Hle]. lia.
  - rewrite (AddSuccessor_Successors h b s b Hin).
    rewrite (AddSuccessor_Predecessors h b s s Hin).
    rewrite !decide_True by reflexivity. rewrite !count_occ_snoc.
    rewrite !decide_True by reflexivity.
    apply existsb_eqb_false in Hin. destruct (Hc b s) as [Heq Hle]. lia.
Qed.

(** C9.  In a store built by the program, after one or more calls
    [b.AddSuccessor(s)] the block [s] occurs exactly once among [b]'s
    successors and [b] exactly once among [s]'s predecessors; a further
    call changes nothing, and the two edge lists of all blocks stay
    mutually consistent and free of duplicates. *)
Theorem C9_AddSuccessor_exactly_once (h : gmap nat BasicBlock) b s n :
  cfg_built h ->
  let h' := Nat.iter (S n) (fun h0 => AddSuccessor h0 b s) h in
  count_occ Nat.eq_dec (Successors (blk h' b)) s = 1 /\
  count_occ Nat.eq_dec (Predecessors (blk h' s)) b = 1 /\
  AddSuccessor h' b s = h' /\
  edges_consistent h'.
Proof.
  intros Hb h'. subst h'. rewrite AddSuccessor_iter.
  pose proof (cfg_built_consistent h Hb) as Hc.
  destruct (AddSuccessor_counts h b s Hc) as [H1 H2].
  split; [exact H1|]. split; [exact H2|].
  split; [apply AddSuccessor_idempotent|].
  apply AddSuccessor_consistent. exact Hc.
Qed.

(** Two fresh blocks, linked three times; and a self loop. *)
Lemma C9_AddSuccessor_exactly_once_witness :
  let h := <[1 := NewBasicBlock "if.then"]> (<[0 := NewBasicBlock "entry"]> ∅) in
  let h' := Nat.iter 3 (fun h0 => AddSuccessor h0 0 1) h in
  cfg_built h /\
  count_occ Nat.eq_dec (Successors (blk h' 0)) 1 = 1 /\
  count_occ Nat.eq_dec (Predecessors (blk h' 1)) 0 = 1.
Proof.
  intros h h'.
  assert (cfg_built h) as Hb.
  { apply built_new; [apply built_new; [apply built_empty|reflexivity]|reflexivity]. }
  split; [exact Hb|].
  destruct (C9_AddSuccessor_exactly_once h 0 1 2 Hb) as (H1 & H2 & _).
  split; [exact H1|exact H2].
Defined.

(** *** The verifier *)

Lemma IsTerminated_last bb :
  IsTerminated bb =
  match last (Instructions bb) with Some i => is_terminator i | None => false end.
Proof.
  unfold IsTerminated, Terminator.
  destruct (last (Instructions bb)) as [[]|]; reflexivity.
Qed.

Definition no_terminator_error (h : gmap nat BasicBlock) (fn : Function) (block : nat)
  : string :=
  "block " +:+ Label (blk h block) +:+ " in function "
    +:+ FuncName fn +:+ " has no terminator".

Definition entry_predecessors_error (fn : Function) : string :=
  "entry block of function " +:+ FuncName fn +:+ " has predecessors".

(** The errors [Verify] reports for one function. *)
Definition verify_function (h : gmap nat BasicBlock) (fn : Function) : list string :=
  flat_map
    (fun block =>
       if negb (IsTerminated (blk h block)) then [no_terminator_error h fn block]
       else [])
    (Blocks fn)
  ++ (if Nat.ltb 0 (length (Predecessors (blk h (Entry fn))))
      then [entry_predecessors_error fn] else []).

Lemma Verify_flat_map h m : Verify h m = flat_map (verify_function h) (Functions m).
Proof. reflexivity. Qed.

Lemma flat_map_nil {A B} (f : A -> list B) l :
  flat_map f l = [] <-> forall x, In x l -> f x = [].
Proof.
  induction l as [|a l IH]; simpl.
  - split; [intros _ x []|reflexivity].
  - split.
    + intros H x [->|Hx]; apply app_eq_nil in H as [Ha Hl]; [exact Ha|].
      apply IH; assumption.
    + intros H. rewrite (H a) by (left; reflexivity). simpl.
      apply IH. intros x Hx. apply H. right. exact Hx.
Qed.

(** From the specification's words: a Call's destination is absent iff
    its callee's return type is Void. *)
Definition spec_call_destination_ok (i : Instruction) : bool :=
  match i with
  | Call dest callee _ =>
      match VType callee with
      | types.FunctionType _ ret =>
          Bool.eqb (match dest with None => true | Some _ => false end)
                   (types.Equals ret types.Void)
      | _ => true
      end
  | _ => true
  end.

(** C1, as stated, fails: the verifier accepts a module whose only block
    calls a function returning Void into a destination. *)
Lemma C1_counterexample :
  let callee :=
    mkValue 0 (-1) "g" (types.FunctionType [] types.Void) ValueVariable PayloadNone in
  let dest := mkValue 1 0 "" types.Int ValueTemporary PayloadNone in
  let call := Call (Some dest) callee [] in
  let h : gmap nat BasicBlock :=
    {[ 0 := mkBasicBlock "entry" [call; Return None] [] [] [] 0 ]} in
  let m := mkModule "p" [mkFunction "f" [] types.Void [0] 0 [] 1] [] in
  spec_call_destination_ok call = false /\ Verify h m = [].
Proof. split; reflexivity. Qed.

(** C1 (amended).  The verifier reports one failure for every block of a
    function's block list whose last instruction is not a Jump, Branch or
    Return (an empty block included) and one for every function whose
    entry block has a predecessor; it accepts the module only when
    neither occurs.  Its verdict depends on nothing else in the
    instruction lists: instructions before the last one of a block,
    whatever they are (further terminators, Phi, Call), are not
    inspected. *)
Theorem C1_Verify_checks (h : gmap nat BasicBlock) (m : Module) :
  (forall fn block,
      In fn (Functions m) -> In block (Blocks fn) ->
      match last (Instructions (blk h block)) with
      | Some i => is_terminator i
      | None => false
      end = false ->
      In (no_terminator_error h fn block) (Verify h m)) /\
  (forall fn,
      In fn (Functions m) -> Predecessors (blk h (Entry fn)) <> [] ->
      In (entry_predecessors_error fn) (Verify h m)) /\
  (Verify h m = [] ->
   forall fn, In fn (Functions m) ->
     (forall block, In block (Blocks fn) ->
        exists front i,
          Instructions (blk h block) = front ++ [i] /\ is_terminator i = true) /\
     Predecessors (blk h (Entry fn)) = []) /\
  (forall h' : gmap nat BasicBlock,
      (forall p, Label (blk h' p) = Label (blk h p) /\
                 last (Instructions (blk h' p)) = last (Instructions (blk h p)) /\
                 Successors (blk h' p) = Successors (blk h p) /\
                 Predecessors (blk h' p) = Predecessors (blk h p)) ->
      Verify h' m = Verify h m).
Proof.
  repeat split.
  - intros fn block Hfn Hblock Hlast.
    rewrite Verify_flat_map. apply in_flat_map. exists fn. split; [exact Hfn|].
    unfold verify_function. apply in_or_app. left.
    apply in_flat_map. exists block. split; [exact Hblock|].
    rewrite IsTerminated_last, Hlast. simpl. left. reflexivity.
  - intros fn Hfn Hpred.
    rewrite Verify_flat_map. apply in_flat_map. exists fn. split; [exact Hfn|].
    unfold verify_function. apply in_or_app. right.
    destruct (Predecessors (blk h (Entry fn))); [contradiction|].
    simpl. left. reflexivity.
  - intros block Hblock.
    rewrite Verify_flat_map in H. rewrite flat_map_nil in H.
    specialize (H fn H0). unfold verify_function in H.
    apply app_eq_nil in H as [Hblocks _]. rewrite flat_map_nil in Hblocks.
    specialize (Hblocks block Hblock).
    rewrite IsTerminated_last in Hblocks.
    destruct (last (Instructions (blk h block))) as [i|] eqn:Hlast;
      [|discriminate].
    destruct (is_terminator i) eqn:Hi; [|discriminate].
    apply last_Some in Hlast as [front Hfront].
    exists front, i. split; assumption.
  - rewrite Verify_flat_map in H. rewrite flat_map_nil in H.
    specialize (H fn H0). unfold verify_function in H.
    apply app_eq_nil in H as [_ Hentry].
    destruct (Predecessors (blk h (Entry fn))); [reflexivity|discriminate].
  - intros h' Hsame. rewrite !Verify_flat_map.
    apply flat_map_ext. intros fn. unfold verify_function.
    f_equal.
    + apply flat_map_ext. intros block.
      destruct (Hsame block) as (Hl & Hi & _ & _).
      rewrite !IsTerminated_last, Hi. unfold no_terminator_error. rewrite Hl.
      reflexivity.
    + destruct (Hsame (Entry fn)) as (_ & _ & _ & Hp). rewrite Hp. reflexivity.
Qed.

(** A module with an empty block and an entry block that has a
    predecessor: both failures are reported. *)
Lemma C1_Verify_checks_witness :
  let h : gmap nat BasicBlock :=
    {[ 0 := mkBasicBlock "entry" [] [] [0] [] 0 ]} in
  let fn := mkFunction "f" [] types.Void [0] 0 [] 0 in
  let m := mkModule "p" [fn] [] in
  In (no_terminator_error h fn 0) (Verify h m) /\
  In (entry_predecessors_error fn) (Verify h m).
Proof.
  intros h fn m.
  destruct (C1_Verify_checks h m) as (Hblock & Hentry & _).
  split.
  - apply Hblock; [left; reflexivity|left; reflexivity|reflexivity].
  - apply Hentry; [left; reflexivity|discriminate].
Defined.

End ir_spec.

(** ** Properties of the optimizer passes *)

Module optimizer_spec.
Import ir optimizer.
Import ir_spec.

(** *** Constant folding of integer arithmetic *)

Section folding.
Local Open Scope Z_scope.

Definition is_arithmetic (op : BinaryOperator) : bool :=
  match op with
  | OpAdd | OpSub | OpMul | OpDiv | OpMod => true
  | _ => false
  end.

Definition is_division (op : BinaryOperator) : bool :=
  match op with
  | OpDiv | OpMod => true
  | _ => false
  end.

(** What Go computes on [int64] for the five arithmetic operators:
    two's-complement results, quotient truncated towards zero, remainder
    with the sign of the dividend. *)
Definition int64_arithmetic (op : BinaryOperator) (leftVal rightVal : Z) : Z :=
  match op with
  | OpAdd => wrap64 (leftVal + rightVal)
  | OpSub => wrap64 (leftVal - rightVal)
  | OpMul => wrap64 (leftVal * rightVal)
  | OpDiv => wrap64 (Z.quot leftVal rightVal)
  | OpMod => wrap64 (Z.rem leftVal rightVal)
  | _ => 0
  end.

Lemma wrap64_in_range z : - 2 ^ 63 <= z < 2 ^ 63 -> wrap64 z = z.
Proof.
  intros Hz. unfold wrap64. rewrite Z.mod_small; lia.
Qed.

Lemma wrap64_range z : - 2 ^ 63 <= wrap64 z < 2 ^ 63.
Proof.
  unfold wrap64. pose proof (Z.mod_pos_bound (z + 2 ^ 63) (2 ^ 64)). lia.
Qed.

Lemma foldBinaryOp_arithmetic fresh op dest l r constants lv rv :
  getConstantValue l constants = Some (PayloadInt64 lv) ->
  getConstantValue r constants = Some (PayloadInt64 rv) ->
  is_arithmetic op = true ->
  foldBinaryOpWithConstants fresh op dest l r constants =
  if is_division op && (rv =? 0) then None
  else Some (Copy dest (newIntConstant fresh (int64_arithmetic op lv rv))).
Proof.
  intros Hl Hr Hop. unfold foldBinaryOpWithConstants. rewrite Hl, Hr.
  destruct op; try discriminate; simpl; try reflexivity;
    destruct (rv =? 0); reflexivity.
Qed.

(** C4, as stated, fails: with a zero left operand and a non-zero right
    operand the division is folded, and the pass rewrites the block. *)
Lemma C4_counterexample :
  let zero := mkValue 10 (-1) "" types.Int ValueConstant (PayloadInt64 0) in
  let five := mkValue 11 (-1) "" types.Int ValueConstant (PayloadInt64 5) in
  let dest := mkValue 12 0 "" types.Int ValueTemporary PayloadNone in
  let division := BinaryOp OpDiv dest zero five in
  let h : gmap nat BasicBlock :=
    {[ 0%nat := mkBasicBlock "entry" [division; Return (Some dest)] [] [] [] 0 ]} in
  let fn := mkFunction "f" [] types.Int [0%nat] 0%nat [] 1 in
  foldBinaryOpWithConstants 13 OpDiv dest zero five ∅ =
    Some (Copy dest (newIntConstant 13 0)) /\
  Instructions (blk (ConstantFolding_Run h 13 fn).1 0%nat) =
    [Copy dest (newIntConstant 13 0); Return (Some dest)].
Proof. split; reflexivity. Qed.

(** C4 (amended).  A BinaryOp with operator +, -, *, / or % whose two
    operands resolve to integer constants is folded to a Copy of the
    computed constant, typed Int, into the same destination, and the loop
    writes that Copy over the instruction; except that for / and % it is
    not folded when the right operand (the divisor) is zero, and then the
    loop leaves the store, the allocator and the constants map as they
    were. *)
Theorem C4_fold_integer_arithmetic
    fresh op dest l r (constants : gmap nat ConstantPayload) lv rv
    (h : gmap nat BasicBlock) block i :
  getConstantValue l constants = Some (PayloadInt64 lv) ->
  getConstantValue r constants = Some (PayloadInt64 rv) ->
  is_arithmetic op = true ->
  let st := mkFoldState h fresh constants in
  let st' := foldStep block i (BinaryOp op dest l r) st in
  let folded := Copy dest (newIntConstant fresh (int64_arithmetic op lv rv)) in
  if is_division op && (rv =? 0)
  then foldBinaryOpWithConstants fresh op dest l r constants = None /\ st' = st
  else foldBinaryOpWithConstants fresh op dest l r constants = Some folded /\
       VType (newIntConstant fresh (int64_arithmetic op lv rv)) = types.Int /\
       IsConstant (newIntConstant fresh (int64_arithmetic op lv rv)) = true /\
       Instructions (blk (fs_store st') block) =
         <[i := folded]> (Instructions (blk h block)) /\
       fs_constants st' !! v_addr dest = Some (PayloadInt64 (int64_arithmetic op lv rv)).
Proof.
  intros Hl Hr Hop st st' folded.
  pose proof (foldBinaryOp_arithmetic fresh op dest l r constants lv rv Hl Hr Hop) as Hfold.
  subst st'. unfold foldStep. simpl.
  destruct (is_division op && (rv =? 0)).
  - rewrite Hfold. split; reflexivity.
  - rewrite Hfold. simpl. repeat split.
    + rewrite blk_insert, decide_True by reflexivity. reflexivity.
    + apply lookup_insert_eq.
Qed.

(** [7 / 2], [-7 % 2] and a division by zero. *)
Lemma C4_fold_integer_arithmetic_witness :
  let seven := mkValue 10 (-1) "" types.Int ValueConstant (PayloadInt64 7) in
  let two := mkValue 11 (-1) "" types.Int ValueConstant (PayloadInt64 2) in
  let zero := mkValue 14 (-1) "" types.Int ValueConstant (PayloadInt64 0) in
  let dest := mkValue 12 0 "" types.Int ValueTemporary PayloadNone in
  foldBinaryOpWithConstants 13 OpDiv dest seven two ∅ =
    Some (Copy dest (newIntConstant 13 3)) /\
  foldBinaryOpWithConstants 13 OpMod dest seven zero ∅ = None.
Proof.
  intros seven two zero dest.
  pose proof (C4_fold_integer_arithmetic 13 OpDiv dest seven two ∅ 7 2 ∅ 0%nat 0%nat
                eq_refl eq_refl eq_refl) as H1.
  pose proof (C4_fold_integer_arithmetic 13 OpMod dest seven zero ∅ 7 0 ∅ 0%nat 0%nat
                eq_refl eq_refl eq_refl) as H2.
  simpl in H1, H2.
  split; [exact (proj1 H1)|exact (proj1 H2)].
Defined.

End folding.


(** *** Unreachable-block removal *)

Section unreachable.

(** The successor edges not yet explored: the sum of the successor counts
    of the listed blocks that are not marked. *)
Definition unexplored (h : gmap nat BasicBlock) (reachable : gset nat) (ps : list nat)
  : nat :=
  sum_list
    (map (fun p => if bool_decide (p ∈ reachable) then 0
                   else length (Successors (blk h p))) ps).

Lemma push_length (reachable : gset nat) succs stack :
  length
    (fold_left (fun st succ => if bool_decide (succ ∈ reachable) then st else succ :: st)
       succs stack)
  <= length stack + length succs.
Proof.
  revert stack. induction succs as [|s succs IH]; intros stack; simpl; [lia|].
  destruct (bool_decide (s ∈ reachable)).
  - specialize (IH stack). lia.
  - specialize (IH (s :: stack)). simpl in IH. lia.
Qed.

Lemma unexplored_mono h (R R' : gset nat) ps :
  R ⊆ R' -> unexplored h R' ps <= unexplored h R ps.
Proof.
  intros Hsub. unfold unexplored.
  induction ps as [|p ps IH]; simpl; [lia|].
  destruct (bool_decide (p ∈ R)) eqn:HR.
  - apply bool_decide_eq_true in HR.
    rewrite bool_decide_eq_true_2 by set_solver. lia.
  - destruct (bool_decide (p ∈ R')); lia.
Qed.

Lemma unexplored_mark h (R : gset nat) c ps :
  c ∈ ps -> c ∉ R ->
  unexplored h ({[c]} ∪ R) ps + length (Successors (blk h c)) <= unexplored h R ps.
Proof.
  intros Hin HnR. unfold unexplored.
  induction ps as [|p ps IH]; [inversion Hin|].
  simpl. destruct (decide (p = c)) as [->|Hne].
  - rewrite bool_decide_eq_true_2 by set_solver.
    rewrite (bool_decide_eq_false_2 (c ∈ R)) by exact HnR.
    pose proof (unexplored_mono h R ({[c]} ∪ R) ps ltac:(set_solver)) as Hm.
    unfold unexplored in Hm. lia.
  - assert (c ∈ ps) as Hin' by (apply elem_of_cons in Hin as [->|]; [contradiction|auto]).
    specialize (IH Hin').
    destruct (bool_decide (p ∈ R)) eqn:HR.
    + apply bool_decide_eq_true in HR.
      rewrite bool_decide_eq_true_2 by set_solver. lia.
    + apply bool_decide_eq_false in HR.
      rewrite bool_decide_eq_false_2 by set_solver. lia.
Qed.

Lemma blk_unallocated (h : gmap nat BasicBlock) p : p ∉ dom h -> blk h p = zeroBlock.
Proof.
  intros Hp. apply not_elem_of_dom in Hp. unfold blk. rewrite Hp. reflexivity.
Qed.

(** Enough fuel: the search returns as soon as the fuel exceeds the
    stack length plus the unexplored edges. *)
Lemma reachableFrom_total (h : gmap nat BasicBlock) fuel :
  forall stack (reachable : gset nat),
    length stack + unexplored h reachable (elements (dom h)) < fuel ->
    is_Some (reachableFrom fuel h stack reachable).
Proof.
  induction fuel as [|fuel IH]; intros stack R Hlt; [lia|].
  destruct stack as [|c stack]; simpl; [eauto|].
  destruct (bool_decide (c ∈ R)) eqn:HR.
  - apply IH. simpl in Hlt. lia.
  - apply bool_decide_eq_false in HR. apply IH.
    pose proof (push_length ({[c]} ∪ R) (Successors (blk h c)) stack) as Hpush.
    simpl in Hlt.
    destruct (decide (c ∈ dom h)) as [Hdom|Hdom].
    + pose proof (unexplored_mark h R c (elements (dom h))
                    ltac:(apply elem_of_elements; exact Hdom) HR). lia.
    + rewrite (blk_unallocated h c Hdom) in *. simpl in *.
      pose proof (unexplored_mono h R ({[c]} ∪ R) (elements (dom h)) ltac:(set_solver)).
      lia.
Qed.

Lemma unexplored_empty h ps :
  unexplored h ∅ ps = sum_list (map (fun p => length (Successors (blk h p))) ps).
Proof.
  unfold unexplored. induction ps as [|p ps IH]; simpl; [reflexivity|].
  rewrite IH. reflexivity.
Qed.

Lemma reachable_search_total (h : gmap nat BasicBlock) entry :
  is_Some (reachableFrom (searchBound h) h [entry] ∅).
Proof.
  apply reachableFrom_total. rewrite unexplored_empty. unfold searchBound. simpl. lia.
Qed.

(** [renumber] writes [Index] only. *)
Lemma renumber_frame blocks : forall (h : gmap nat BasicBlock) i p,
  Label (blk (renumber h i blocks) p) = Label (blk h p) /\
  Instructions (blk (renumber h i blocks) p) = Instructions (blk h p) /\
  Successors (blk (renumber h i blocks) p) = Successors (blk h p) /\
  Predecessors (blk (renumber h i blocks) p) = Predecessors (blk h p) /\
  Dominated (blk (renumber h i blocks) p) = Dominated (blk h p).
Proof.
  induction blocks as [|b blocks IH]; intros h i p; simpl; [auto|].
  destruct (IH (<[b := set_Index i (blk h b)]> h) (i + 1)%Z p) as (H1 & H2 & H3 & H4 & H5).
  rewrite H1, H2, H3, H4, H5, !blk_insert.
  destruct (decide (b = p)) as [->|]; simpl; auto.
Qed.

Lemma renumber_other blocks : forall (h : gmap nat BasicBlock) i p,
  ~ In p blocks -> blk (renumber h i blocks) p = blk h p.
Proof.
  induction blocks as [|b blocks IH]; intros h i p Hp; simpl; [reflexivity|].
  rewrite IH by (intros H; apply Hp; right; exact H).
  rewrite blk_insert, decide_False; [reflexivity|].
  intros ->. apply Hp. left. reflexivity.
Qed.

Lemma renumber_dom blocks : forall (h : gmap nat BasicBlock) i p,
  is_Some (h !! p) -> is_Some (renumber h i blocks !! p).
Proof.
  induction blocks as [|b blocks IH]; intros h i p Hp; simpl; [exact Hp|].
  apply IH. rewrite lookup_insert. destruct (decide (b = p)); eauto.
Qed.

Lemma filter_sublist {A} (f : A -> bool) (l : list A) : sublist (List.filter f l) l.
Proof.
  induction l as [|a l IH]; simpl; [constructor|].
  destruct (f a); [apply sublist_skip|apply sublist_cons]; exact IH.
Qed.

(** The result of [removeUnreachableBlocks], spelled out. *)
Lemma removeUnreachableBlocks_result (h : gmap nat BasicBlock) fn :
  exists reachable : gset nat,
    reachableFrom (searchBound h) h [Entry fn] ∅ = Some reachable /\
    let keep := fun block => bool_decide (block ∈ reachable) in
    removeUnreachableBlocks h fn =
    if existsb (fun block => negb (keep block)) (Blocks fn)
    then Some (renumber h 0 (List.filter keep (Blocks fn)),
               set_Blocks (List.filter keep (Blocks fn)) fn, true)
    else Some (h, fn, false).
Proof.
  destruct (reachable_search_total h (Entry fn)) as [R HR].
  exists R. split; [exact HR|]. unfold removeUnreachableBlocks. rewrite HR. reflexivity.
Qed.

(** C10.  [removeUnreachableBlocks] always returns; it leaves the label,
    the instructions, the successors, the predecessors and the dominated
    list of every block as they were, touches no field at all of a block
    that does not survive and no field of the function other than its
    block list, which becomes a sublist of the old one.  And a surviving
    block can keep a predecessor that was deleted from the function. *)
Theorem C10_removeUnreachableBlocks_frame :
  (forall (h : gmap nat BasicBlock) (fn : Function),
      exists h' fn' modified,
        removeUnreachableBlocks h fn = Some (h', fn', modified) /\
        (forall p,
            Label (blk h' p) = Label (blk h p) /\
            Instructions (blk h' p) = Instructions (blk h p) /\
            Successors (blk h' p) = Successors (blk h p) /\
            Predecessors (blk h' p) = Predecessors (blk h p) /\
            Dominated (blk h' p) = Dominated (blk h p)) /\
        (forall p, ~ In p (Blocks fn') -> blk h' p = blk h p) /\
        fn' = set_Blocks (Blocks fn') fn /\
        sublist (Blocks fn') (Blocks fn)) /\
  (exists (h : gmap nat BasicBlock) (fn : Function) h' fn' survivor deleted,
      removeUnreachableBlocks h fn = Some (h', fn', true) /\
      In survivor (Blocks fn') /\
      In deleted (Blocks fn) /\ ~ In deleted (Blocks fn') /\
      In deleted (Predecessors (blk h' survivor))).
Proof.
  split.
  - intros h fn.
    destruct (removeUnreachableBlocks_result h fn) as (R & _ & Hres).
    cbv beta zeta in Hres.
    destruct (existsb (fun block => negb (bool_decide (block ∈ R))) (Blocks fn)).
    + eexists _, _, _. split; [exact Hres|].
      split; [intros p; apply renumber_frame|].
      split; [intros p Hp; apply renumber_other; exact Hp|].
      split; [reflexivity|].
      simpl. apply filter_sublist.
    + exists h, fn, false. split; [exact Hres|].
      split; [auto|]. split; [auto|].
      split; [destruct fn; reflexivity|reflexivity].
  - exists
      (<[2 := mkBasicBlock "dead" [Jump 1] [1] [] [] 2]>
         (<[1 := mkBasicBlock "exit" [Return None] [] [0; 2] [] 1]>
            {[0 := mkBasicBlock "entry" [Jump 1] [1] [] [] 0]})),
      (mkFunction "f" [] types.Void [0; 2; 1] 0 [] 0).
    eexists _, _, 1, 2.
    split; [vm_compute; reflexivity|].
    vm_compute. repeat split; auto.
    intros [H|[H|[]]]; discriminate.
Qed.

End unreachable.

(** *** Dead-code elimination *)

Section dce.

Lemma set_Instructions_same bb : set_Instructions (Instructions bb) bb = bb.
Proof. destruct bb; reflexivity. Qed.

Lemma filter_filter {A} (f : A -> bool) (l : list A) :
  List.filter f (List.filter f l) = List.filter f l.
Proof.
  induction l as [|a l IH]; simpl; [reflexivity|].
  destruct (f a) eqn:Hfa; simpl; rewrite ?Hfa, IH; reflexivity.
Qed.

Lemma filter_all {A} (f : A -> bool) (l : list A) :
  existsb (fun a => negb (f a)) l = false -> List.filter f l = l.
Proof.
  induction l as [|a l IH]; simpl; [reflexivity|].
  intros H. apply orb_false_iff in H as [Ha Hl].
  apply negb_false_iff in Ha. rewrite Ha, IH by exact Hl. reflexivity.
Qed.

Lemma filter_length_le {A} (f : A -> bool) (l : list A) :
  length (List.filter f l) <= length l.
Proof.
  induction l as [|a l IH]; simpl; [lia|]. destruct (f a); simpl; lia.
Qed.

Lemma filter_length_lt {A} (f : A -> bool) (l : list A) :
  existsb (fun a => negb (f a)) l = true -> length (List.filter f l) < length l.
Proof.
  induction l as [|a l IH]; simpl; [discriminate|].
  pose proof (filter_length_le f l).
  destruct (f a); simpl; intros Hex; [specialize (IH Hex)|]; lia.
Qed.

Lemma existsb_filter_kept {A} (f : A -> bool) (l : list A) :
  existsb (fun a => negb (f a)) (List.filter f l) = false.
Proof.
  induction l as [|a l IH]; simpl; [reflexivity|].
  destruct (f a) eqn:Hfa; simpl; rewrite ?Hfa; exact IH.
Qed.

(** The sweep of a list of blocks from any store and flag. *)
Definition sweep (used : gset nat) (blocks : list nat)
    (acc : gmap nat BasicBlock * bool) : gmap nat BasicBlock * bool :=
  fold_left (sweepBlock used) blocks acc.

Lemma removeUnusedInstructions_sweep h fn used :
  removeUnusedInstructions h fn used = sweep used (Blocks fn) (h, false).
Proof. reflexivity. Qed.

Lemma sweep_cons used b blocks acc :
  sweep used (b :: blocks) acc = sweep used blocks (sweepBlock used acc b).
Proof. reflexivity. Qed.

Lemma sweep_nil used acc : sweep used [] acc = acc.
Proof. reflexivity. Qed.

(** After the sweep every listed block holds its kept instructions and
    every other block is as before; no other field changes. *)
Lemma sweep_blk used blocks : forall (h : gmap nat BasicBlock) m q,
  blk (sweep used blocks (h, m)).1 q =
  if decide (q ∈ blocks)
  then set_Instructions (List.filter (keepInstruction used) (Instructions (blk h q)))
         (blk h q)
  else blk h q.
Proof.
  induction blocks as [|b blocks IH]; intros h m q.
  - rewrite sweep_nil. destruct (decide (q ∈ [])) as [H|H]; [inversion H|reflexivity].
  - rewrite sweep_cons. unfold sweepBlock. cbn [fst snd]. rewrite IH, blk_insert.
    destruct (decide (q ∈ b :: blocks)) as [Hqb|Hqb],
             (decide (q ∈ blocks)) as [Hin|Hnin],
             (decide (b = q)) as [->|Hne];
      simpl; rewrite ?filter_filter; try reflexivity; exfalso.
    + apply elem_of_cons in Hqb as [->|Hqb]; contradiction.
    + apply Hqb, elem_of_cons. right. exact Hin.
    + apply Hqb, elem_of_cons. right. exact Hin.
    + apply Hqb, elem_of_cons. left. reflexivity.
Qed.

Definition has_dead (used : gset nat) (h : gmap nat BasicBlock) (p : nat) : bool :=
  existsb (fun instr => negb (keepInstruction used instr)) (Instructions (blk h p)).

Lemma has_dead_after_sweepBlock used (h : gmap nat BasicBlock) m b blocks :
  has_dead used h b = false ->
  existsb (has_dead used (sweepBlock used (h, m) b).1) blocks =
  existsb (has_dead used h) blocks.
Proof.
  intros Hb. induction blocks as [|c blocks IH]; cbn [existsb]; [reflexivity|].
  rewrite IH. f_equal. unfold has_dead, sweepBlock in *. cbn [fst snd].
  rewrite blk_insert.
  destruct (decide (b = c)) as [->|Hne]; [|reflexivity].
  simpl. rewrite existsb_filter_kept. symmetry. exact Hb.
Qed.

Lemma sweep_flag used blocks : forall (h : gmap nat BasicBlock) m,
  (sweep used blocks (h, m)).2 = m || existsb (has_dead used h) blocks.
Proof.
  induction blocks as [|b blocks IH]; intros h m.
  - rewrite sweep_nil. simpl. rewrite orb_false_r. reflexivity.
  - rewrite sweep_cons.
    destruct (sweepBlock used (h, m) b) as [h1 m1] eqn:Hstep.
    rewrite IH. unfold sweepBlock in Hstep. cbn [fst snd] in Hstep.
    injection Hstep as Hh1 Hm1. subst m1. simpl.
    rewrite <- orb_assoc. f_equal.
    fold (has_dead used h b).
    destruct (has_dead used h b) eqn:Hb; simpl; [reflexivity|].
    subst h1. apply (has_dead_after_sweepBlock used h m b blocks Hb).
Qed.

Lemma sweep_dom used blocks : forall (h : gmap nat BasicBlock) m p,
  is_Some (h !! p) -> is_Some ((sweep used blocks (h, m)).1 !! p).
Proof.
  induction blocks as [|b blocks IH]; intros h m p Hp; [exact Hp|].
  rewrite sweep_cons. unfold sweepBlock. cbn [fst snd].
  apply IH. rewrite lookup_insert. destruct (decide (b = p)); eauto.
Qed.

(** When the sweep removes nothing from allocated blocks, the store is
    the same store. *)
Lemma sweep_unmodified used blocks : forall (h : gmap nat BasicBlock),
  (forall p, In p blocks -> is_Some (h !! p)) ->
  (sweep used blocks (h, false)).2 = false ->
  (sweep used blocks (h, false)).1 = h.
Proof.
  induction blocks as [|b blocks IH]; intros h Halloc Hflag; [reflexivity|].
  pose proof Hflag as Hflag'. rewrite sweep_flag in Hflag'. simpl in Hflag'.
  apply orb_false_iff in Hflag' as [Hb Hrest].
  assert (sweepBlock used (h, false) b = (h, false)) as Hsame.
  { unfold sweepBlock. cbn [fst snd]. fold (has_dead used h b). rewrite Hb.
    f_equal. unfold has_dead in Hb. rewrite filter_all by exact Hb.
    rewrite set_Instructions_same.
    destruct (Halloc b (or_introl eq_refl)) as [bb Hbb].
    apply insert_id. unfold blk. rewrite Hbb. reflexivity. }
  rewrite sweep_cons, Hsame in *.
  apply IH; [|exact Hflag].
  intros p Hp. apply Halloc. right. exact Hp.
Qed.

(** A critical instruction is always kept. *)
Lemma keep_critical used instr :
  isCritical instr = true -> keepInstruction used instr = true.
Proof. intros H. unfold keepInstruction. rewrite H. reflexivity. Qed.

Lemma filter_critical_kept used (l : list Instruction) :
  List.filter isCritical (List.filter (keepInstruction used) l) = List.filter isCritical l.
Proof.
  induction l as [|i l IH]; simpl; [reflexivity|].
  destruct (isCritical i) eqn:Hc.
  - rewrite (keep_critical used i Hc). simpl. rewrite Hc, IH. reflexivity.
  - destruct (keepInstruction used i); simpl; rewrite ?Hc; exact IH.
Qed.

End dce.

(** *** Marking terminates *)

Section marking.

(** The addresses of the values defined by some instruction of the
    function. *)
Definition defined_addrs (h : gmap nat BasicBlock) (fn : Function) : gset nat :=
  list_to_set (omap (fun instr => v_addr <$> Result instr) (all_instructions h fn)).

Lemma size_list_to_set_le (l : list nat) : size (list_to_set l : gset nat) <= length l.
Proof.
  induction l as [|x l IH].
  - rewrite list_to_set_nil, size_empty. simpl. lia.
  - rewrite list_to_set_cons. cbn [length].
    pose proof (size_union_alt ({[x]} : gset nat) (list_to_set l)) as Hu.
    pose proof (subseteq_size (list_to_set l ∖ {[x]} : gset nat) (list_to_set l)
                  ltac:(set_solver)) as Hs.
    rewrite size_singleton in Hu. lia.
Qed.

Lemma omap_length_le {A B} (f : A -> option B) (l : list A) :
  length (omap f l) <= length l.
Proof.
  induction l as [|a l IH]; csimpl; [lia|]. destruct (f a); csimpl; lia.
Qed.

Lemma size_defined_addrs h fn :
  size (defined_addrs h fn) <= length (all_instructions h fn).
Proof.
  unfold defined_addrs.
  etransitivity; [apply size_list_to_set_le|apply omap_length_le].
Qed.

Lemma definingInstruction_defined h fn v instr :
  definingInstruction h fn v = Some instr -> v_addr v ∈ defined_addrs h fn.
Proof.
  unfold definingInstruction. intros Hfind.
  apply find_some in Hfind as [Hin Hres].
  destruct (Result instr) as [r|] eqn:Hr; [|discriminate].
  apply Nat.eqb_eq in Hres.
  unfold defined_addrs. apply elem_of_list_to_set, list_elem_of_omap.
  exists instr. split; [apply list_elem_of_In; exact Hin|].
  rewrite Hr. simpl. congruence.
Qed.

Lemma markAll_mono mark vs :
  (forall v (u u' : gset nat), mark v u = Some u' -> u ⊆ u') ->
  forall u u' : gset nat, markAll mark vs u = Some u' -> u ⊆ u'.
Proof.
  intros Hmark. induction vs as [|v vs IH]; intros u u' H; simpl in H.
  - injection H as <-. reflexivity.
  - destruct (mark v u) as [u1|] eqn:Hv; [|discriminate].
    transitivity u1; [apply (Hmark v u u1 Hv)|apply IH; exact H].
Qed.

Lemma markAll_total mark vs (P : gset nat -> Prop) :
  (forall v u, P u -> is_Some (mark v u)) ->
  (forall v u u', P u -> mark v u = Some u' -> P u') ->
  forall u, P u -> is_Some (markAll mark vs u).
Proof.
  intros Htot Hpres. induction vs as [|v vs IH]; intros u Hu; simpl; [eauto|].
  destruct (Htot v u Hu) as [u1 Hv]. rewrite Hv.
  apply IH. apply (Hpres v u u1 Hu Hv).
Qed.

Lemma markValue_mono h fn fuel :
  forall v (u u' : gset nat), markValue fuel h fn v u = Some u' -> u ⊆ u'.
Proof.
  induction fuel as [|fuel IH]; intros v u u' H; simpl in H; [discriminate|].
  destruct (bool_decide (v_addr v ∈ u)); [injection H as <-; reflexivity|].
  destruct (IsConstant v); [injection H as <-; reflexivity|].
  destruct (definingInstruction h fn v) as [instr|].
  - apply (markAll_mono _ _ IH) in H. set_solver.
  - injection H as <-. set_solver.
Qed.

Lemma size_difference_mono (D u u' : gset nat) :
  u ⊆ u' -> size (D ∖ u') <= size (D ∖ u).
Proof. intros Hsub. apply subseteq_size. set_solver. Qed.

Lemma size_difference_mark (D u : gset nat) a :
  a ∈ D -> a ∉ u -> size (D ∖ ({[a]} ∪ u)) < size (D ∖ u).
Proof.
  intros HD Hu. apply subset_size. apply strict_spec_alt. split; [set_solver|].
  intros Heq. assert (a ∈ D ∖ u) as Ha by set_solver.
  rewrite <- Heq in Ha. set_solver.
Qed.

(** Enough fuel: more than the number of defined values still unmarked. *)
Lemma markValue_total h fn fuel :
  forall v (u : gset nat),
    size (defined_addrs h fn ∖ u) < fuel -> is_Some (markValue fuel h fn v u).
Proof.
  induction fuel as [|fuel IH]; intros v u Hlt; [lia|]. simpl.
  destruct (bool_decide (v_addr v ∈ u)) eqn:Hin; [eauto|].
  apply bool_decide_eq_false in Hin.
  destruct (IsConstant v); [eauto|].
  destruct (definingInstruction h fn v) as [instr|] eqn:Hdef; [|eauto].
  apply definingInstruction_defined in Hdef.
  pose proof (size_difference_mark _ u _ Hdef Hin) as Hdec.
  apply (markAll_total _ _ (fun u0 => size (defined_addrs h fn ∖ u0) < fuel)).
  - intros v0 u0 Hu0. apply IH. exact Hu0.
  - intros v0 u0 u0' Hu0 Hmark. apply markValue_mono in Hmark.
    pose proof (size_difference_mono (defined_addrs h fn) u0 u0' Hmark). lia.
  - lia.
Qed.

Lemma markUsedValues_total h fn : is_Some (markUsedValues h fn).
Proof.
  unfold markUsedValues.
  pose proof (size_defined_addrs h fn) as Hsize.
  apply (markAll_total _ _
           (fun u0 => size (defined_addrs h fn ∖ u0) < S (length (all_instructions h fn)))).
  - intros v u Hu. apply markValue_total. exact Hu.
  - intros v u u' Hu Hmark. apply markValue_mono in Hmark.
    pose proof (size_difference_mono (defined_addrs h fn) u u' Hmark). lia.
  - pose proof (subseteq_size (defined_addrs h fn ∖ ∅) (defined_addrs h fn)
                  ltac:(set_solver)). lia.
Qed.

End marking.

(** *** The rounds of [Run] *)

Section rounds.

Definition allocated (h : gmap nat BasicBlock) (fn : Function) : Prop :=
  forall p, In p (Blocks fn) -> is_Some (h !! p).

(** What one round does to the store and to the function. *)
Lemma runOnce_effect (h : gmap nat BasicBlock) fn :
  exists (used reachable : gset nat) h2 fn2 m,
    runOnce h fn = Some (h2, fn2, m) /\
    (forall q,
        Instructions (blk h2 q) =
        if decide (q ∈ Blocks fn)
        then List.filter (keepInstruction used) (Instructions (blk h q))
        else Instructions (blk h q)) /\
    (forall q,
        Label (blk h2 q) = Label (blk h q) /\
        Successors (blk h2 q) = Successors (blk h q) /\
        Predecessors (blk h2 q) = Predecessors (blk h q) /\
        Dominated (blk h2 q) = Dominated (blk h q)) /\
    Blocks fn2 = List.filter (fun block => bool_decide (block ∈ reachable)) (Blocks fn) /\
    fn2 = set_Blocks (Blocks fn2) fn /\
    m = existsb (has_dead used h) (Blocks fn)
        || existsb (fun block => negb (bool_decide (block ∈ reachable))) (Blocks fn) /\
    (forall p, is_Some (h !! p) -> is_Some (h2 !! p)) /\
    (m = false -> allocated h fn -> h2 = h /\ fn2 = fn).
Proof.
  destruct (markUsedValues_total h fn) as [used Hused].
  unfold runOnce. rewrite Hused. rewrite removeUnusedInstructions_sweep.
  destruct (sweep used (Blocks fn) (h, false)) as [h1 m1] eqn:Hsweep.
  assert (h1 = (sweep used (Blocks fn) (h, false)).1) as Hh1 by (rewrite Hsweep; reflexivity).
  assert (m1 = (sweep used (Blocks fn) (h, false)).2) as Hm1 by (rewrite Hsweep; reflexivity).
  rewrite sweep_flag in Hm1. simpl in Hm1.
  destruct (removeUnreachableBlocks_result h1 fn) as (R & _ & Hres).
  cbv beta zeta in Hres. rewrite Hres.
  assert (forall q,
             Instructions (blk h1 q) =
             if decide (q ∈ Blocks fn)
             then List.filter (keepInstruction used) (Instructions (blk h q))
             else Instructions (blk h q)) as Hinstr1.
  { intros q. rewrite Hh1, sweep_blk. destruct (decide (q ∈ Blocks fn)); reflexivity. }
  assert (forall q,
             Label (blk h1 q) = Label (blk h q) /\
             Successors (blk h1 q) = Successors (blk h q) /\
             Predecessors (blk h1 q) = Predecessors (blk h q) /\
             Dominated (blk h1 q) = Dominated (blk h q)) as Hframe1.
  { intros q. rewrite Hh1, sweep_blk. destruct (decide (q ∈ Blocks fn)); auto. }
  assert (forall p, is_Some (h !! p) -> is_Some (h1 !! p)) as Hdom1.
  { intros p Hp. rewrite Hh1. apply sweep_dom. exact Hp. }
  exists used, R.
  destruct (existsb (fun block => negb (bool_decide (block ∈ R))) (Blocks fn)) eqn:Hm2.
  - eexists _, _, _. split; [reflexivity|].
    split; [|split; [|split; [|split; [|split; [|split]]]]].
    + intros q.
      destruct (renumber_frame (List.filter (fun block => bool_decide (block ∈ R)) (Blocks fn))
                  h1 0%Z q) as (_ & Hi & _).
      rewrite Hi. apply Hinstr1.
    + intros q.
      destruct (renumber_frame (List.filter (fun block => bool_decide (block ∈ R)) (Blocks fn))
                  h1 0%Z q) as (Hl & _ & Hs & Hp & Hd).
      destruct (Hframe1 q) as (Hl1 & Hs1 & Hp1 & Hd1).
      rewrite Hl, Hs, Hp, Hd. auto.
    + reflexivity.
    + reflexivity.
    + rewrite Hm1. reflexivity.
    + intros p Hp. apply renumber_dom, Hdom1, Hp.
    + rewrite orb_true_r. discriminate.
  - exists h1, fn, (m1 || false). split; [reflexivity|].
    split; [exact Hinstr1|]. split; [exact Hframe1|].
    split; [symmetry; apply filter_all; exact Hm2|].
    split; [destruct fn; reflexivity|].
    split; [rewrite Hm1; reflexivity|].
    split; [exact Hdom1|].
    intros Hm Halloc. rewrite orb_false_r in Hm. split; [|reflexivity].
    rewrite Hh1. apply sweep_unmodified; [exact Halloc|].
    rewrite Hsweep. exact Hm.
Qed.

Lemma flat_map_length_le {A B} (f g : A -> list B) (l : list A) :
  (forall a, In a l -> length (f a) <= length (g a)) ->
  length (flat_map f l) <= length (flat_map g l).
Proof.
  induction l as [|a l IH]; intros H; simpl; [lia|].
  rewrite !length_app.
  specialize (H a (or_introl eq_refl)) as Ha.
  specialize (IH (fun x Hx => H x (or_intror Hx))). lia.
Qed.

Lemma flat_map_length_lt {A B} (f g : A -> list B) (l : list A) a :
  (forall x, In x l -> length (f x) <= length (g x)) ->
  In a l -> length (f a) < length (g a) ->
  length (flat_map f l) < length (flat_map g l).
Proof.
  induction l as [|x l IH]; intros H Hin Hlt; simpl; [contradiction|].
  rewrite !length_app.
  pose proof (H x (or_introl eq_refl)) as Hx.
  pose proof (flat_map_length_le f g l (fun y Hy => H y (or_intror Hy))) as Hl.
  destruct Hin as [->|Hin]; [lia|].
  specialize (IH (fun y Hy => H y (or_intror Hy)) Hin Hlt). lia.
Qed.

Lemma flat_map_filter_length_le {A B} (f : A -> list B) (keep : A -> bool) (l : list A) :
  length (flat_map f (List.filter keep l)) <= length (flat_map f l).
Proof.
  induction l as [|a l IH]; simpl; [lia|].
  destruct (keep a); simpl; rewrite !length_app; lia.
Qed.

(** A round that reports a modification shrinks the function. *)
Lemma runOnce_decreases h fn h2 fn2 :
  runOnce h fn = Some (h2, fn2, true) ->
  length (all_instructions h2 fn2) + length (Blocks fn2)
  < length (all_instructions h fn) + length (Blocks fn).
Proof.
  intros Hrun.
  destruct (runOnce_effect h fn) as
    (used & R & h2' & fn2' & m & Hrun' & Hinstr & _ & Hblocks & _ & Hm & _).
  rewrite Hrun in Hrun'. injection Hrun' as <- <- <-.
  unfold all_instructions. rewrite Hblocks.
  set (keepB := fun block => bool_decide (block ∈ R)) in *.
  assert (forall p, In p (Blocks fn) ->
                    length (Instructions (blk h2 p)) <= length (Instructions (blk h p)))
    as Hle.
  { intros p Hp. rewrite Hinstr.
    rewrite decide_True by (apply list_elem_of_In; exact Hp). apply filter_length_le. }
  pose proof (flat_map_filter_length_le (fun p => Instructions (blk h2 p)) keepB (Blocks fn))
    as H1.
  pose proof (flat_map_length_le (fun p => Instructions (blk h2 p))
                (fun p => Instructions (blk h p)) (Blocks fn) Hle) as H2.
  pose proof (filter_length_le keepB (Blocks fn)) as H3.
  symmetry in Hm. apply orb_true_iff in Hm as [Hdead|Hunreach].
  - apply existsb_exists in Hdead as (p & Hp & Hdead).
    assert (length (Instructions (blk h2 p)) < length (Instructions (blk h p))) as Hlt.
    { rewrite Hinstr. rewrite decide_True by (apply list_elem_of_In; exact Hp).
      apply filter_length_lt. exact Hdead. }
    pose proof (flat_map_length_lt (fun p => Instructions (blk h2 p))
                  (fun p => Instructions (blk h p)) (Blocks fn) p Hle Hp Hlt).
    lia.
  - pose proof (filter_length_lt keepB (Blocks fn) Hunreach). lia.
Qed.

Lemma runLoop_total fuel : forall (h : gmap nat BasicBlock) fn,
  length (all_instructions h fn) + length (Blocks fn) < fuel ->
  is_Some (runLoop fuel h fn).
Proof.
  induction fuel as [|fuel IH]; intros h fn Hlt; [lia|]. simpl.
  destruct (runOnce_effect h fn) as (used & R & h2 & fn2 & m & Hrun & _).
  rewrite Hrun. destruct m; [|eauto].
  apply IH. pose proof (runOnce_decreases h fn h2 fn2 Hrun). lia.
Qed.

Lemma DeadCodeElimination_Run_total (h : gmap nat BasicBlock) fn :
  is_Some (DeadCodeElimination_Run h fn).
Proof. apply runLoop_total. unfold runBound. lia. Qed.

(** What is preserved by any number of rounds. *)
Definition preserved (h : gmap nat BasicBlock) (fn : Function)
    (h' : gmap nat BasicBlock) (fn' : Function) : Prop :=
  (forall q, List.filter isCritical (Instructions (blk h' q)) =
             List.filter isCritical (Instructions (blk h q))) /\
  (forall q, Label (blk h' q) = Label (blk h q) /\
             Successors (blk h' q) = Successors (blk h q) /\
             Predecessors (blk h' q) = Predecessors (blk h q) /\
             Dominated (blk h' q) = Dominated (blk h q)) /\
  sublist (Blocks fn') (Blocks fn) /\
  fn' = set_Blocks (Blocks fn') fn /\
  (allocated h fn -> allocated h' fn').

Lemma preserved_refl h fn : preserved h fn h fn.
Proof.
  repeat split; auto. destruct fn; reflexivity.
Qed.

Lemma sublist_In {A} (l1 l2 : list A) x : sublist l1 l2 -> In x l1 -> In x l2.
Proof.
  intros Hs Hx. apply list_elem_of_In. apply list_elem_of_In in Hx.
  eapply sublist_subseteq; eassumption.
Qed.

Lemma runOnce_preserved h fn h2 fn2 m :
  runOnce h fn = Some (h2, fn2, m) -> preserved h fn h2 fn2.
Proof.
  intros Hrun.
  destruct (runOnce_effect h fn) as
    (used & R & h2' & fn2' & m' & Hrun' & Hinstr & Hframe & Hblocks & Hfn & _ & Hdom & _).
  rewrite Hrun in Hrun'. injection Hrun' as <- <- <-.
  assert (sublist (Blocks fn2) (Blocks fn)) as Hsub
      by (rewrite Hblocks; apply filter_sublist).
  split; [|split; [|split; [|split]]]; auto.
  - intros q. rewrite Hinstr.
    destruct (decide (q ∈ Blocks fn)); [apply filter_critical_kept|reflexivity].
  - intros Halloc p Hp. apply Hdom, Halloc. eapply sublist_In; eassumption.
Qed.

Lemma preserved_trans h fn h1 fn1 h2 fn2 :
  preserved h fn h1 fn1 -> preserved h1 fn1 h2 fn2 -> preserved h fn h2 fn2.
Proof.
  intros (Hc1 & Hf1 & Hs1 & He1 & Ha1) (Hc2 & Hf2 & Hs2 & He2 & Ha2).
  split; [|split; [|split; [|split]]].
  - intros q. rewrite Hc2. apply Hc1.
  - intros q. destruct (Hf1 q) as (A1 & B1 & C1 & D1).
    destruct (Hf2 q) as (A2 & B2 & C2 & D2).
    rewrite A2, B2, C2, D2. auto.
  - etransitivity; eassumption.
  - rewrite He2, He1. destruct fn; reflexivity.
  - auto.
Qed.

Lemma runLoop_preserved fuel : forall h fn h' fn',
  runLoop fuel h fn = Some (h', fn') -> preserved h fn h' fn'.
Proof.
  induction fuel as [|fuel IH]; intros h fn h' fn' Hrun; simpl in Hrun; [discriminate|].
  destruct (runOnce h fn) as [[[h1 fn1] m]|] eqn:Honce; [|discriminate].
  pose proof (runOnce_preserved h fn h1 fn1 m Honce) as Hp1.
  destruct m.
  - eapply preserved_trans; [exact Hp1|apply IH; exact Hrun].
  - injection Hrun as <- <-. exact Hp1.
Qed.

(** The state a run ends in is a fixed point of a round. *)
Lemma runLoop_fixed fuel : forall h fn h' fn',
  allocated h fn ->
  runLoop fuel h fn = Some (h', fn') ->
  runOnce h' fn' = Some (h', fn', false).
Proof.
  induction fuel as [|fuel IH]; intros h fn h' fn' Halloc Hrun; simpl in Hrun;
    [discriminate|].
  destruct (runOnce_effect h fn) as
    (used & R & h1 & fn1 & m & Honce & _ & _ & _ & _ & _ & _ & Hfix).
  rewrite Honce in Hrun.
  destruct m.
  - apply (IH h1 fn1); [|exact Hrun].
    destruct (runOnce_preserved h fn h1 fn1 true Honce) as (_ & _ & _ & _ & Ha).
    apply Ha, Halloc.
  - injection Hrun as <- <-.
    destruct (Hfix eq_refl Halloc) as [-> ->]. exact Honce.
Qed.

Lemma DeadCodeElimination_Run_idempotent h fn h' fn' :
  allocated h fn ->
  DeadCodeElimination_Run h fn = Some (h', fn') ->
  DeadCodeElimination_Run h' fn' = Some (h', fn').
Proof.
  intros Halloc Hrun. unfold DeadCodeElimination_Run in *.
  pose proof (runLoop_fixed _ h fn h' fn' Halloc Hrun) as Hfix.
  unfold runBound. simpl. rewrite Hfix. reflexivity.
Qed.

End rounds.

(** *** Critical instructions and idempotence *)

Section claims.

(** C6, as stated, fails: the Return of an unreachable block is in the
    function before [Run] and not afterwards. *)
Lemma C6_counterexample :
  let result := mkValue 5 0 "" types.Int ValueTemporary PayloadNone in
  let h : gmap nat BasicBlock :=
    <[1 := mkBasicBlock "if.end" [Return (Some result)] [] [] [] 1]>
      {[0 := mkBasicBlock "entry" [Return None] [] [] [] 0]} in
  let fn := mkFunction "f" [] types.Int [0; 1] 0 [] 1 in
  isCritical (Return (Some result)) = true /\
  In (Return (Some result)) (all_instructions h fn) /\
  exists h' fn',
    DeadCodeElimination_Run h fn = Some (h', fn') /\
    ~ In (Return (Some result)) (all_instructions h' fn').
Proof.
  intros result h fn.
  split; [reflexivity|].
  split; [right; left; reflexivity|].
  eexists _, _. split; [vm_compute; reflexivity|].
  vm_compute. intros [H|[]]. discriminate.
Qed.

(** C6 (amended).  [Run] always returns, and in every block it then
    holds the same Store, Call, Return, Branch and Jump instructions, in
    the same order, as before: the sweep never drops a critical
    instruction.  The function's block list afterwards is a sublist of
    the old one, so a critical instruction leaves the function only
    together with its whole block, when that block is removed from the
    block list. *)
Theorem C6_critical_instructions_kept (h : gmap nat BasicBlock) (fn : Function) :
  exists h' fn',
    DeadCodeElimination_Run h fn = Some (h', fn') /\
    (forall block,
        List.filter isCritical (Instructions (blk h' block)) =
        List.filter isCritical (Instructions (blk h block))) /\
    sublist (Blocks fn') (Blocks fn) /\
    (forall block instr,
        In block (Blocks fn') ->
        In instr (Instructions (blk h block)) -> isCritical instr = true ->
        In instr (all_instructions h' fn')).
Proof.
  destruct (DeadCodeElimination_Run_total h fn) as [[h' fn'] Hrun].
  exists h', fn'. split; [exact Hrun|].
  destruct (runLoop_preserved _ h fn h' fn' Hrun) as (Hcrit & _ & Hsub & _).
  split; [exact Hcrit|]. split; [exact Hsub|].
  intros block instr Hblock Hinstr Hc.
  unfold all_instructions. apply in_flat_map. exists block. split; [exact Hblock|].
  assert (In instr (List.filter isCritical (Instructions (blk h block)))) as Hf
      by (apply filter_In; split; assumption).
  rewrite <- Hcrit in Hf. apply filter_In in Hf as [Hf _]. exact Hf.
Qed.

(** Erasing what a renaming of value ids could change: the id and the
    address of every value of an instruction. *)
Definition eraseValue (v : Value) : Value :=
  mkValue 0 0 (Name v) (VType v) (Kind v) (Constant v).

Definition eraseInstruction (instr : Instruction) : Instruction :=
  match instr with
  | BinaryOp op d l r => BinaryOp op (eraseValue d) (eraseValue l) (eraseValue r)
  | UnaryOp op d o => UnaryOp op (eraseValue d) (eraseValue o)
  | Copy d v => Copy (eraseValue d) (eraseValue v)
  | Load d a => Load (eraseValue d) (eraseValue a)
  | Store a v => Store (eraseValue a) (eraseValue v)
  | GetElementPtr d b i => GetElementPtr (eraseValue d) (eraseValue b) (eraseValue i)
  | GetFieldPtr d b i => GetFieldPtr (eraseValue d) (eraseValue b) i
  | Jump t => Jump t
  | Branch c t f => Branch (eraseValue c) t f
  | Call d f args => Call (eraseValue <$> d) (eraseValue f) (map eraseValue args)
  | Return v => Return (eraseValue <$> v)
  | Phi d inc => Phi (eraseValue d) (map (fun x => (eraseValue x.1, x.2)) inc)
  | Alloca d t => Alloca (eraseValue d) t
  end.

(** The instructions of the function up to value ids. *)
Definition shape (st : PassState) : list Instruction :=
  map eraseInstruction (all_instructions (ps_store st) (ps_func st)).

(** C7, as stated, fails.  In block order the use [t2 = t1 + 1] comes
    before the definition [t1 = 2 + 3] (control flow runs entry, then the
    defining block, then the using block).  The first run folds the
    definition only; the second run then folds the use. *)
Lemma C7_counterexample :
  let const n := mkValue (100 + n) (-1) "" types.Int ValueConstant
                   (PayloadInt64 (Z.of_nat n)) in
  let t1 := mkValue 1 1 "" types.Int ValueTemporary PayloadNone in
  let t2 := mkValue 2 2 "" types.Int ValueTemporary PayloadNone in
  let h : gmap nat BasicBlock :=
    <[2 := mkBasicBlock "define" [BinaryOp OpAdd t1 (const 2) (const 3); Jump 1]
             [1] [0] [] 2]>
      (<[1 := mkBasicBlock "use" [BinaryOp OpAdd t2 t1 (const 1); Return (Some t2)]
                [] [2] [] 1]>
         {[0 := mkBasicBlock "entry" [Jump 2] [2] [] [] 0]}) in
  let fn := mkFunction "f" [] types.Int [0; 1; 2] 0 [] 3 in
  exists once twice,
    OptimizeFunction NewOptimizer (mkPassState h 200 fn) = Some once /\
    OptimizeFunction NewOptimizer once = Some twice /\
    shape twice <> shape once.
Proof.
  intros const t1 t2 h fn.
  eexists _, _. split; [vm_compute; reflexivity|].
  split; [vm_compute; reflexivity|].
  vm_compute. discriminate.
Qed.

Lemma OptimizeFunction_default st :
  OptimizeFunction NewOptimizer st =
  match Run ConstantFoldingPass st with
  | Some st1 => Run DeadCodeEliminationPass st1
  | None => None
  end.
Proof. reflexivity. Qed.

Lemma ConstantFolding_dom_step block i instr st p :
  is_Some (fs_store st !! p) -> is_Some (fs_store (foldStep block i instr st) !! p).
Proof.
  intros Hp. unfold foldStep.
  destruct (foldInstructionWithConstants (fs_alloc st) instr (fs_constants st));
    [|exact Hp].
  simpl. rewrite lookup_insert. destruct (decide (block = p)); eauto.
Qed.

Lemma foldBlock_dom block instrs : forall i st p,
  is_Some (fs_store st !! p) -> is_Some (fs_store (foldBlock block i instrs st) !! p).
Proof.
  induction instrs as [|instr instrs IH]; intros i st p Hp; simpl; [exact Hp|].
  apply IH, ConstantFolding_dom_step, Hp.
Qed.

Lemma ConstantFolding_blocks_dom blocks : forall st p,
  is_Some (fs_store st !! p) ->
  is_Some (fs_store
             (fold_left
                (fun st block =>
                   foldBlock block 0 (Instructions (blk (fs_store st) block)) st)
                blocks st) !! p).
Proof.
  induction blocks as [|b bs IH]; intros st p Hst; simpl; [exact Hst|].
  apply IH, foldBlock_dom, Hst.
Qed.

Lemma ConstantFolding_Run_dom (h : gmap nat BasicBlock) alloc fn p :
  is_Some (h !! p) -> is_Some ((ConstantFolding_Run h alloc fn).1 !! p).
Proof.
  intros Hp. unfold ConstantFolding_Run. cbn [fst].
  apply ConstantFolding_blocks_dom. exact Hp.
Qed.

Lemma Run_ConstantFolding st :
  Run ConstantFoldingPass st =
  Some (mkPassState (ConstantFolding_Run (ps_store st) (ps_alloc st) (ps_func st)).1
          (ConstantFolding_Run (ps_store st) (ps_alloc st) (ps_func st)).2
          (ps_func st)).
Proof.
  cbn [Run ConstantFoldingPass].
  destruct (ConstantFolding_Run (ps_store st) (ps_alloc st) (ps_func st)); reflexivity.
Qed.

Lemma Run_DeadCodeElimination st :
  Run DeadCodeEliminationPass st =
  match DeadCodeElimination_Run (ps_store st) (ps_func st) with
  | Some (h, fn) => Some (mkPassState h (ps_alloc st) fn)
  | None => None
  end.
Proof. reflexivity. Qed.

(** C7 (amended).  On a function whose blocks are all in the store, the
    optimizer returns; dead-code elimination run again on its result
    changes nothing; and whenever constant folding run again on the
    result folds nothing, a second run of the optimizer produces exactly
    the IR of the first. *)
Theorem C7_second_run (st : PassState) :
  allocated (ps_store st) (ps_func st) ->
  exists once,
    OptimizeFunction NewOptimizer st = Some once /\
    Run DeadCodeEliminationPass once = Some once /\
    (Run ConstantFoldingPass once = Some once ->
     OptimizeFunction NewOptimizer once = Some once).
Proof.
  intros Halloc. rewrite OptimizeFunction_default, Run_ConstantFolding.
  destruct (ConstantFolding_Run (ps_store st) (ps_alloc st) (ps_func st))
    as [h1 alloc1] eqn:Hcf. cbn [fst snd].
  assert (allocated h1 (ps_func st)) as Halloc1.
  { intros p Hp.
    change h1 with (h1, alloc1).1. rewrite <- Hcf.
    apply ConstantFolding_Run_dom, Halloc, Hp. }
  destruct (DeadCodeElimination_Run_total h1 (ps_func st)) as [[h2 fn2] Hdce].
  pose proof (DeadCodeElimination_Run_idempotent h1 (ps_func st) h2 fn2 Halloc1 Hdce)
    as Hidem.
  assert (Run DeadCodeEliminationPass (mkPassState h2 alloc1 fn2)
          = Some (mkPassState h2 alloc1 fn2)) as Hagain.
  { rewrite Run_DeadCodeElimination. cbn [ps_store ps_alloc ps_func].
    rewrite Hidem. reflexivity. }
  exists (mkPassState h2 alloc1 fn2).
  split.
  { rewrite Run_DeadCodeElimination. cbn [ps_store ps_alloc ps_func].
    rewrite Hdce. reflexivity. }
  split; [exact Hagain|].
  intros Hfold. rewrite OptimizeFunction_default, Hfold. exact Hagain.
Qed.

(** [t1 = 2 + 3; return t1]: the first run folds the sum, the second run
    finds nothing to fold and returns the same IR. *)
Lemma C7_second_run_witness :
  let two := mkValue 102 (-1) "" types.Int ValueConstant (PayloadInt64 2) in
  let three := mkValue 103 (-1) "" types.Int ValueConstant (PayloadInt64 3) in
  let t1 := mkValue 1 1 "" types.Int ValueTemporary PayloadNone in
  let h : gmap nat BasicBlock :=
    {[0 := mkBasicBlock "entry" [BinaryOp OpAdd t1 two three; Return (Some t1)]
             [] [] [] 0]} in
  let fn := mkFunction "f" [] types.Int [0] 0 [] 2 in
  exists once,
    OptimizeFunction NewOptimizer (mkPassState h 200 fn) = Some once /\
    OptimizeFunction NewOptimizer once = Some once.
Proof.
  intros two three t1 h fn.
  assert (allocated h fn) as Halloc.
  { intros p [<-|[]]. vm_compute. eauto. }
  destruct (C7_second_run (mkPassState h 200 fn) Halloc) as (once & H1 & H2 & H3).
  exists once. split; [exact H1|].
  apply H3. vm_compute in H1. injection H1 as <-. vm_compute. reflexivity.
Defined.

End claims.

End optimizer_spec.

(** ** Properties of the lexer *)

Module lexer_spec.
Import lexer.
Local Open Scope Z_scope.

Ltac zbool :=
  repeat match goal with
  | H : (_ <? _) = true |- _ => apply Z.ltb_lt in H
  | H : (_ <? _) = false |- _ => apply Z.ltb_ge in H
  | H : (_ <=? _) = true |- _ => apply Z.leb_le in H
  | H : (_ <=? _) = false |- _ => apply Z.leb_gt in H
  end.

(** A rune that starts inside the string is at least one byte wide and
    ends inside the string. *)
Lemma DecodeRuneInString_size s i :
  i < len s -> 1 <= (DecodeRuneInString s i).2 <= len s - i.
Proof.
  intros Hi. unfold DecodeRuneInString. cbv zeta.
  destruct (len s - i <? 1) eqn:H1; zbool; [lia|].
  destruct (byteAt s i <? 128); [simpl; lia|].
  destruct ((byteAt s i <? 194) || (244 <? byteAt s i)); [simpl; lia|].
  destruct (byteAt s i <? 224) eqn:H224; [|destruct (byteAt s i <? 240) eqn:H240].
  all: repeat match goal with
       | |- context [if ?b then _ else _] => destruct b eqn:?
       end; zbool; simpl; lia.
Qed.

(** *** Loops that consume input terminate within their bound *)

(** [extends l0 l]: [l] reads the same source as [l0] and stands at or
    after [l0]'s position, within the source. *)
Definition extends (l0 l : Lexer) : Prop :=
  source l = source l0 /\ current l0 <= current l /\ current l <= len (source l0).

Lemma extends_refl l : current l <= len (source l) -> extends l l.
Proof. intros H. repeat split; [lia|exact H]. Qed.

Lemma extends_trans l0 l1 l2 : extends l0 l1 -> extends l1 l2 -> extends l0 l2.
Proof.
  intros (Hs1 & Hc1 & Hb1) (Hs2 & Hc2 & Hb2). rewrite Hs1 in *.
  repeat split; [congruence|lia|lia].
Qed.

Lemma isAtEnd_false l : isAtEnd l = false -> current l < len (source l).
Proof. unfold isAtEnd. intros H. zbool. lia. Qed.

Lemma isAtEnd_true l : isAtEnd l = true -> len (source l) <= current l.
Proof. unfold isAtEnd. intros H. zbool. lia. Qed.

Lemma advance_extends l0 l :
  extends l0 l ->
  extends l0 (advance l).2 /\
  (isAtEnd l = false -> current l < current (advance l).2).
Proof.
  intros (Hs & Hc & Hb). unfold advance.
  destruct (isAtEnd l) eqn:Hend; [split; [repeat split; auto|discriminate]|].
  apply isAtEnd_false in Hend.
  pose proof (DecodeRuneInString_size (source l) (current l) Hend) as Hsize.
  destruct (DecodeRuneInString (source l) (current l)) as [ch size]. simpl in *.
  split; [repeat split; simpl; [exact Hs|lia|rewrite <- Hs; lia]|intros _; simpl; lia].
Qed.

Lemma advance_extends_1 l0 l : extends l0 l -> extends l0 (advance l).2.
Proof. intros H. apply (advance_extends l0 l H). Qed.

Lemma advance_progress l0 l :
  extends l0 l -> isAtEnd l = false -> current l < current (advance l).2.
Proof. intros H. apply (advance_extends l0 l H). Qed.

Lemma match_extends l0 expected l : extends l0 l -> extends l0 (match_ expected l).2.
Proof.
  intros (Hs & Hc & Hb). unfold match_.
  destruct (isAtEnd l) eqn:Hend; [repeat split; auto|].
  apply isAtEnd_false in Hend.
  pose proof (DecodeRuneInString_size (source l) (current l) Hend) as Hsize.
  destruct (DecodeRuneInString (source l) (current l)) as [ch size]. simpl in *.
  destruct (negb (ch =? expected)); simpl;
    repeat split; simpl; auto; try rewrite <- Hs; lia.
Qed.

Lemma set_line_extends l0 l v : extends l0 l -> extends l0 (set_line v l).
Proof. intros H. exact H. Qed.

Lemma set_lineStart_extends l0 l v : extends l0 l -> extends l0 (set_lineStart v l).
Proof. intros H. exact H. Qed.

Lemma set_current_extends l0 l v :
  extends l0 l -> current l0 <= v <= len (source l0) -> extends l0 (set_current v l).
Proof. intros (Hs & _) Hv. repeat split; simpl; [exact Hs|lia|lia]. Qed.

(** A loop whose every round moves the lexer forward, run with the
    lexer's bound, returns. *)
Lemma loop_extends {St R : Type} (lx : St -> Lexer) (out : R -> Lexer)
    (body : St -> St + R) (l0 : Lexer) :
  (forall st, extends l0 (lx st) ->
     match body st with
     | inl st' => extends l0 (lx st') /\ current (lx st) < current (lx st')
     | inr r => extends l0 (out r)
     end) ->
  forall n st,
    extends l0 (lx st) ->
    len (source l0) - current (lx st) < Z.of_nat n ->
    exists r, loop n body st = Some r /\ extends l0 (out r).
Proof.
  intros Hbody. induction n as [|n IH]; intros st Hext Hfuel.
  - destruct Hext as (_ & _ & Hb). lia.
  - simpl. specialize (Hbody st Hext).
    destruct (body st) as [st'|r]; [|eauto].
    destruct Hbody as [Hext' Hlt]. apply IH; [exact Hext'|lia].
Qed.

Lemma fuel_enough l0 l :
  0 <= current l0 -> extends l0 l ->
  len (source l0) - current l < Z.of_nat (fuel l).
Proof.
  intros H0 (Hs & Hc & Hb). unfold fuel, len in *. rewrite Hs. lia.
Qed.

(** *** Every scanning function returns, further along in the source *)

(** [returns l0 o]: the call returned, with the lexer at or after [l0]. *)
Definition returns (l0 : Lexer) (o : option Scanned) : Prop :=
  exists r, o = Some r /\ extends l0 r.2.

Lemma returns_token l0 l tokenType lexeme :
  extends l0 l -> returns l0 (Some (token l tokenType lexeme)).
Proof. intros H. eexists. split; [reflexivity|exact H]. Qed.

Lemma returns_invalid l0 l message :
  extends l0 l -> returns l0 (Some (invalid l message)).
Proof. intros H. eexists. split; [reflexivity|exact H]. Qed.

Lemma skipWhitespace_extends l0 l :
  0 <= current l0 -> extends l0 l ->
  exists l', skipWhitespace l = Some l' /\ extends l0 l'.
Proof.
  intros H0 Hext. unfold skipWhitespace.
  apply (loop_extends (fun l => l) (fun l => l)); [|exact Hext|apply fuel_enough; auto].
  intros st Hst.
  destruct (isAtEnd st) eqn:Hend; [exact Hst|].
  pose proof (advance_extends l0 st Hst) as [Hadv Hprog]. specialize (Hprog Hend).
  destruct ((peek st =? rune " ") || (peek st =? 13) || (peek st =? 9));
    [split; assumption|].
  destruct (peek st =? 10); [|exact Hst].
  split; [exact Hadv|exact Hprog].
Qed.

Lemma scanDigits_extends l0 l :
  0 <= current l0 -> extends l0 l ->
  exists l', scanDigits l = Some l' /\ extends l0 l'.
Proof.
  intros H0 Hext. unfold scanDigits.
  apply (loop_extends (fun l => l) (fun l => l)); [|exact Hext|apply fuel_enough; auto].
  intros st Hst.
  destruct (isAtEnd st) eqn:Hend; simpl; [exact Hst|].
  pose proof (advance_extends l0 st Hst) as [Hadv Hprog]. specialize (Hprog Hend).
  destruct (isDigit (peek st)); [split; assumption|exact Hst].
Qed.

Section with_unicode.
Variable IsLetter : Z -> bool.

Lemma scanIdentifier_returns l0 l :
  0 <= current l0 -> extends l0 l -> returns l0 (scanIdentifier IsLetter l).
Proof.
  intros H0 Hext. unfold scanIdentifier.
  match goal with
  | |- returns _ (match ?x with _ => _ end) =>
      assert (exists l', x = Some l' /\ extends l0 l') as (l' & -> & Hext')
  end.
  { apply (loop_extends (fun l => l) (fun l => l));
      [|exact Hext|apply fuel_enough; auto].
    intros st Hst. destruct (isAtEnd st) eqn:Hend; [exact Hst|]. cbv zeta.
    pose proof (advance_extends l0 st Hst) as [Hadv Hprog]. specialize (Hprog Hend).
    destruct (isLetter IsLetter (peek st) || isDigit (peek st));
      [split; assumption|exact Hst]. }
  apply returns_token. exact Hext'.
Qed.

Lemma scanNumber_returns l0 l :
  0 <= current l0 -> extends l0 l -> returns l0 (scanNumber l).
Proof.
  intros H0 Hext. unfold scanNumber.
  destruct (scanDigits_extends l0 l H0 Hext) as (l1 & -> & Hext1).
  assert (exists l2,
             (if negb (isAtEnd l1) && (peek l1 =? rune ".")
              then
                if negb (peekNext l1 =? rune ".") && isDigit (peekNext l1)
                then scanDigits (advance l1).2
                else Some l1
              else Some l1) = Some l2 /\ extends l0 l2) as (l2 & -> & Hext2).
  { destruct (negb (isAtEnd l1) && (peek l1 =? rune ".")); [|eauto].
    destruct (negb (peekNext l1 =? rune ".") && isDigit (peekNext l1)); [|eauto].
    apply scanDigits_extends; [exact H0|apply advance_extends_1; exact Hext1]. }
  cbv zeta.
  destruct (negb (isAtEnd l2) && ((peek l2 =? rune "e") || (peek l2 =? rune "E")));
    [|apply returns_token; exact Hext2].
  set (l3 := (advance l2).2).
  assert (extends l0 l3) as Hext3 by (apply advance_extends_1; exact Hext2).
  set (l4 := if negb (isAtEnd l3) && ((peek l3 =? rune "+") || (peek l3 =? rune "-"))
             then (advance l3).2 else l3).
  assert (extends l0 l4) as Hext4.
  { subst l4. destruct (negb (isAtEnd l3) && _); [apply advance_extends_1|]; exact Hext3. }
  destruct (isAtEnd l4 || negb (isDigit (peek l4))).
  - apply returns_token. apply set_current_extends; [exact Hext4|].
    destruct Hext2 as (_ & Hc & Hb). lia.
  - destruct (scanDigits_extends l0 l4 H0 Hext4) as (l5 & -> & Hext5).
    apply returns_token. exact Hext5.
Qed.

Lemma scanString_returns l0 l :
  0 <= current l0 -> extends l0 l -> returns l0 (scanString l).
Proof.
  intros H0 Hext. unfold scanString, returns.
  apply (loop_extends (fun l => l) (fun r : Scanned => r.2));
    [|exact Hext|apply fuel_enough; auto].
  intros st Hst. destruct (isAtEnd st) eqn:Hend; [exact Hst|]. cbv zeta.
  pose proof (advance_extends l0 st Hst) as [Hadv Hprog]. specialize (Hprog Hend).
  destruct (peek st =? doubleQuote); [exact Hadv|].
  destruct (peek st =? 10); [exact Hst|].
  destruct (peek st =? rune "\"); [|split; assumption].
  destruct (negb (isAtEnd (advance st).2)); [|split; assumption].
  pose proof (advance_extends l0 (advance st).2 Hadv) as [Hadv2 _].
  split; [exact Hadv2|]. destruct Hadv2 as (_ & _ & _).
  pose proof (advance_extends (advance st).2 (advance st).2) as [(_ & Hmono & _) _].
  { destruct Hadv as (Hs & Hc & Hb). repeat split; [lia|]. rewrite Hs. exact Hb. }
  lia.
Qed.

Lemma scanChar_returns l0 l :
  extends l0 l -> returns l0 (Some (scanChar l)).
Proof.
  intros Hext. unfold scanChar.
  destruct (isAtEnd l); [apply returns_invalid; exact Hext|]. cbv zeta.
  destruct (peek l =? 10); [apply returns_invalid; exact Hext|].
  set (l1 := if peek l =? rune "\"
             then if negb (isAtEnd (advance l).2)
                  then (advance (advance l).2).2 else (advance l).2
             else (advance l).2).
  assert (extends l0 l1) as Hext1.
  { subst l1. destruct (peek l =? rune "\"); [|apply advance_extends_1; exact Hext].
    destruct (negb (isAtEnd (advance l).2));
      repeat apply advance_extends_1; exact Hext. }
  destruct (isAtEnd l1 || negb (peek l1 =? rune "'"));
    [apply returns_invalid; exact Hext1|].
  apply returns_token, advance_extends_1, Hext1.
Qed.

Lemma scanLineComment_returns l0 l :
  0 <= current l0 -> extends l0 l -> returns l0 (scanLineComment l).
Proof.
  intros H0 Hext. unfold scanLineComment.
  match goal with
  | |- returns _ (match ?x with _ => _ end) =>
      assert (exists l', x = Some l' /\ extends l0 l') as (l' & -> & Hext')
  end.
  { apply (loop_extends (fun l => l) (fun l => l));
      [|exact Hext|apply fuel_enough; auto].
    intros st Hst. destruct (isAtEnd st) eqn:Hend; simpl; [exact Hst|].
    pose proof (advance_extends l0 st Hst) as [Hadv Hprog]. specialize (Hprog Hend).
    destruct (negb (peek st =? 10)); [split; assumption|exact Hst]. }
  apply returns_token. exact Hext'.
Qed.

Lemma advance_twice l0 l :
  extends l0 l -> isAtEnd l = false ->
  extends l0 (advance (advance l).2).2 /\ current l < current (advance (advance l).2).2.
Proof.
  intros Hext Hend.
  pose proof (advance_extends l0 l Hext) as [Hadv Hprog]. specialize (Hprog Hend).
  pose proof (advance_extends l0 (advance l).2 Hadv) as [Hadv2 _].
  split; [exact Hadv2|].
  assert (extends (advance l).2 (advance l).2) as Hself.
  { destruct Hadv as (Hs & Hc & Hb). repeat split; [lia|]. rewrite Hs. exact Hb. }
  pose proof (advance_extends (advance l).2 (advance l).2 Hself) as [(_ & Hmono & _) _].
  lia.
Qed.

Lemma scanBlockComment_returns l0 l :
  0 <= current l0 -> extends l0 l -> returns l0 (scanBlockComment l).
Proof.
  intros H0 Hext. unfold scanBlockComment.
  match goal with
  | |- returns _ (match ?x with _ => _ end) =>
      assert (exists st', x = Some st' /\ extends l0 st'.1) as ([l' depth] & -> & Hext')
  end.
  { apply (loop_extends (fun st : Lexer * Z => st.1) (fun st : Lexer * Z => st.1));
      [|exact Hext|apply fuel_enough; auto].
    intros [st depth] Hst. simpl in Hst.
    destruct (isAtEnd st) eqn:Hend; simpl; [exact Hst|].
    destruct (0 <? depth); [|exact Hst]. cbv zeta.
    pose proof (advance_twice l0 st Hst Hend) as Htwice.
    destruct ((peek st =? rune "/") && (peekNext st =? rune "*")); [exact Htwice|].
    destruct ((peek st =? rune "*") && (peekNext st =? rune "/")); [exact Htwice|].
    simpl.
    destruct (peek st =? 10).
    - pose proof (advance_extends l0
                    (set_lineStart (current st + 1) (set_line (line st + 1) st)) Hst)
        as [Hadv Hprog].
      split; [exact Hadv|]. apply Hprog. exact Hend.
    - pose proof (advance_extends l0 st Hst) as [Hadv Hprog].
      split; [exact Hadv|]. apply Hprog. exact Hend. }
  simpl in Hext'.
  destruct (0 <? depth); [apply returns_invalid|apply returns_token]; exact Hext'.
Qed.

(** *** [NextToken] returns and consumes input *)

Ltac scan_tree l0 :=
  repeat first
    [ apply returns_token; assumption
    | apply returns_invalid; assumption
    | apply scanIdentifier_returns; assumption
    | apply scanNumber_returns; assumption
    | apply scanString_returns; assumption
    | apply scanChar_returns; assumption
    | apply scanLineComment_returns; assumption
    | apply scanBlockComment_returns; assumption
    | match goal with
      | Hext : extends l0 ?l |- context [match_ ?e ?l] =>
          let Hm := fresh "Hm" in
          pose proof (match_extends l0 e l Hext) as Hm;
          destruct (match_ e l) as [? ?]; simpl in Hm; cbv beta iota
      end
    | match goal with
      | |- context [if ?b then _ else _] => destruct b
      end ].

(** Every call returns.  Either it returns the end-of-input token, with
    no error and the lexer at the end of the source, or the lexer has
    moved forward by at least one byte. *)
Lemma NextToken_progress l :
  0 <= current l <= len (source l) ->
  exists tok err l',
    NextToken IsLetter l = Some (tok, err, l') /\
    extends l l' /\
    ((Type_ tok = TokenEOF /\ Lexeme tok = "" /\ err = None /\
      len (source l) <= current l')
     \/ current l < current l').
Proof.
  intros [H0 Hb]. unfold NextToken.
  destruct (skipWhitespace_extends l l H0 (extends_refl l Hb)) as (l1 & -> & Hext1).
  set (l2 := set_start (current l1) l1).
  assert (extends l l2) as Hext2 by exact Hext1.
  destruct (isAtEnd l2) eqn:Hend.
  - eexists _, _, _. split; [reflexivity|]. split; [exact Hext2|].
    left. apply isAtEnd_true in Hend. destruct Hext2 as (Hs & _).
    rewrite Hs in Hend. auto.
  - pose proof (advance_extends l l2 Hext2) as [Hext3 Hprog]. specialize (Hprog Hend).
    destruct (advance l2) as [[ch size] l3]. simpl in Hext3, Hprog.
    assert (0 <= current l3) as H3 by (pose proof Hext3 as (_ & ? & _); lia).
    assert (extends l3 l3) as Hself.
    { apply extends_refl. destruct Hext3 as (Hs & _ & Hb3). rewrite Hs. exact Hb3. }
    match goal with
    | |- exists tok err l', ?tree = _ /\ _ =>
        assert (returns l3 tree) as ([[tok err] l'] & Htree & Hext')
    end.
    { scan_tree l3. }
    exists tok, err, l'. split; [exact Htree|].
    split; [eapply extends_trans; eassumption|].
    right. destruct Hext1 as (_ & Hc1 & _). destruct Hext' as (_ & Hc' & _).
    simpl in Hc'. lia.
Qed.

(** The result of the call number [n + 1] on a lexer. *)
Fixpoint tokenAfter (n : nat) (l : Lexer) : option Scanned :=
  match NextToken IsLetter l with
  | None => None
  | Some r =>
      match n with
      | O => Some r
      | S n' => tokenAfter n' r.2
      end
  end.

Definition in_source (l : Lexer) : Prop := 0 <= current l <= len (source l).

Lemma extends_in_source l l' : in_source l -> extends l l' -> in_source l'.
Proof.
  intros [H0 Hb] (Hs & Hc & Hb'). unfold in_source. rewrite Hs. lia.
Qed.

Lemma tokenAfter_returns n : forall l, in_source l -> is_Some (tokenAfter n l).
Proof.
  induction n as [|n IH]; intros l Hl; simpl;
    destruct (NextToken_progress l Hl) as (tok & err & l' & -> & Hext & _); [eauto|].
  apply IH. eapply extends_in_source; eassumption.
Qed.

(** At the end of the source every call yields end-of-input. *)
Lemma tokenAfter_at_end n : forall l,
  in_source l -> len (source l) <= current l ->
  exists tok l',
    tokenAfter n l = Some (tok, None, l') /\
    Type_ tok = TokenEOF /\ Lexeme tok = "".
Proof.
  induction n as [|n IH]; intros l Hl Hend; simpl;
    destruct (NextToken_progress l Hl) as (tok & err & l' & -> & Hext & Hcase);
    (destruct Hcase as [(Ht & Hlex & -> & Hend')|Hlt];
     [|destruct Hext as (_ & _ & Hb'); lia]).
  - eauto.
  - simpl. apply IH; [eapply extends_in_source; eassumption|].
    destruct Hext as (-> & _). exact Hend'.
Qed.

(** From a lexer with [m] bytes left, at most [m] calls yield something
    other than end-of-input. *)
Lemma tokenAfter_reaches_end m : forall l,
  in_source l -> len (source l) - current l <= Z.of_nat m ->
  exists k, (k <= m)%nat /\
    forall n, (k <= n)%nat ->
      exists tok l',
        tokenAfter n l = Some (tok, None, l') /\
        Type_ tok = TokenEOF /\ Lexeme tok = "".
Proof.
  induction m as [|m IH]; intros l Hl Hleft.
  - exists O. split; [lia|]. intros n _. apply tokenAfter_at_end; [exact Hl|lia].
  - destruct (Z_le_gt_dec (len (source l)) (current l)) as [Hend|Hmore].
    + exists O. split; [lia|]. intros n _. apply tokenAfter_at_end; assumption.
    + destruct (NextToken_progress l Hl) as (tok & err & l' & Hnext & Hext & Hcase).
      pose proof (extends_in_source l l' Hl Hext) as Hl'.
      assert (len (source l') - current l' <= Z.of_nat m
              \/ (Type_ tok = TokenEOF /\ Lexeme tok = "" /\ err = None /\
                  len (source l') <= current l')) as Hnow.
      { destruct Hext as (Hs & _ & _). rewrite Hs.
        destruct Hcase as [(? & ? & ? & ?)|Hlt]; [right; auto|left; lia]. }
      destruct Hnow as [Hleft'|(Ht & Hlex & -> & Hend')].
      * destruct (IH l' Hl' Hleft') as (k & Hk & Hall).
        exists (S k). split; [lia|].
        intros [|n] Hn; [lia|]. simpl. rewrite Hnext. simpl. apply Hall. lia.
      * exists O. split; [lia|].
        intros [|n] _; simpl; rewrite Hnext; [eauto|].
        simpl. apply tokenAfter_at_end; assumption.
Qed.

(** C8.  On every source text every call of [NextToken] returns; there
    is a number of calls, at most the number of bytes of the source,
    after which every call yields the end-of-input token (empty lexeme,
    no error). *)
Theorem C8_lexing_total (src fname : string) :
  (forall n, is_Some (tokenAfter n (New src fname))) /\
  (exists k, (k <= String.length src)%nat /\
     forall n, (k <= n)%nat ->
       exists tok l',
         tokenAfter n (New src fname) = Some (tok, None, l') /\
         Type_ tok = TokenEOF /\ Lexeme tok = "").
Proof.
  assert (in_source (New src fname)) as Hnew by (unfold in_source, len; simpl; lia).
  split.
  - intros n. apply tokenAfter_returns. exact Hnew.
  - apply tokenAfter_reaches_end; [exact Hnew|]. unfold len. simpl. lia.
Qed.

End with_unicode.

(** *** Positions of tokens *)

(** [unicode.IsLetter] on the ASCII range, where the letters are A-Z and
    a-z; the two sources below hold no letter and consult it on ASCII
    characters only. *)
Definition IsLetter_ascii (r : Z) : bool :=
  ((65 <=? r) && (r <=? 90)) || ((97 <=? r) && (r <=? 122)).

(** The source ['é'+]: a quote, the two bytes of U+00E9, a quote, a plus. *)
Definition accented_source : string :=
  String "'" (String "195" (String "169" (String "'" (String "+" EmptyString)))).

(** A block comment over two lines: [/*], a newline, [*/]. *)
Definition comment_source : string :=
  String "/" (String "*" (String "010" (String "*" (String "/" EmptyString)))).

(** C2 on the code.  In ['é'+] the plus sign starts at byte 4, after
    three Unicode scalar values on its line, so its column is 4; the
    lexer reports 5, the byte distance plus one.  And a block comment that
    starts at line 1, column 1 and ends on line 2 is reported at line 2,
    column -2. *)
Lemma C2_column_counts_bytes :
  (exists quoted plus l1 l2,
      NextToken IsLetter_ascii (New accented_source "a.src") = Some (quoted, None, l1) /\
      NextToken IsLetter_ascii l1 = Some (plus, None, l2) /\
      Type_ quoted = TokenChar /\ Type_ plus = TokenPlus /\
      Offset (Pos plus) = 4 /\
      runeCount (slice accented_source 0 (Offset (Pos plus))) = Some 3 /\
      Column (Pos plus) = 5) /\
  (exists comment l1,
      NextToken IsLetter_ascii (New comment_source "a.src") = Some (comment, None, l1) /\
      Type_ comment = TokenComment /\
      Offset (Pos comment) = 0 /\ Line (Pos comment) = 2 /\ Column (Pos comment) = -2).
Proof.
  split.
  - eexists _, _, _, _. split; [vm_compute; reflexivity|].
    split; [vm_compute; reflexivity|]. repeat split.
  - eexists _, _. split; [vm_compute; reflexivity|]. repeat split.
Qed.

End lexer_spec.

(** ** Properties of the IR builder *)

Module builder_spec.
Import ir builder.

(** No instruction of the block but the last is a terminator. *)
Definition terminator_only_last (bb : BasicBlock) : bool :=
  forallb (fun i => negb (is_terminator i)) (removelast (Instructions bb)).

(** The analysis of a file that declares the single function
    [func f() int]: every expression of the two bodies below has type
    [Int], but the loop condition, of type [Bool]. *)
Definition analysed_types (e : Expr) : types.Type_ :=
  match e with
  | LiteralExpr (PayloadBool _) => types.Bool
  | _ => types.Int
  end.

Definition analysed_scope (name : string) : option Symbol :=
  if String.eqb name "f"
  then Some (mkSymbol 0 "f" SymbolFunction (types.FunctionType [] types.Int))
  else None.

Definition literal (n : Z) : Expr := LiteralExpr (PayloadInt64 n).

(** [func f() int { return 1; return 2; }] *)
Definition two_returns : File :=
  mkFile "main"
    [DeclFunc (mkFuncDecl "f" [] (Some (IdentifierExpr "int"))
       (Some [ReturnStmt (Some (literal 1));
              ReturnStmt (Some (literal 2))]))].

(** [func f() int { var x = 2; while (true) { break; x = 3; } return x; }] *)
Definition statement_after_break : File :=
  mkFile "main"
    [DeclFunc (mkFuncDecl "f" [] (Some (IdentifierExpr "int"))
       (Some [VarDecl ["x"] None (Some (literal 2));
              WhileStmt (LiteralExpr (PayloadBool true))
                [BreakStmt;
                 ExprStmt (AssignmentExpr (IdentifierExpr "x")
                             lexer.TokenAssign (literal 3))];
              ReturnStmt (Some (IdentifierExpr "x"))]))].

(** C3, evaluated: the builder does append to a block that already holds
    a terminator.  For [return 1; return 2;] the entry block of [f] is
    [Return; Return]; for a loop body [break; x = 3;] the body block is
    [Jump; Copy; Jump].  Both modules are built without an error and pass
    [Verify]. *)
Theorem C3_instructions_after_terminator :
  (exists m h fn c1 c2,
      Build analysed_types analysed_scope two_returns = Some (m, [], h) /\
      Functions m = [fn] /\
      Instructions (blk h (Entry fn)) = [Return (Some c1); Return (Some c2)] /\
      terminator_only_last (blk h (Entry fn)) = false /\
      Verify h m = []) /\
  (exists m h fn entry cond body end_ x c3,
      Build analysed_types analysed_scope statement_after_break
        = Some (m, [], h) /\
      Functions m = [fn] /\
      Blocks fn = [entry; cond; body; end_] /\
      Instructions (blk h body) = [Jump end_; Copy x c3; Jump cond] /\
      terminator_only_last (blk h body) = false /\
      Verify h m = []).
Proof.
  split.
  - eexists _, _, _, _, _.
    split; [vm_compute; reflexivity|].
    split; [reflexivity|].
    split; [vm_compute; reflexivity|].
    split; vm_compute; reflexivity.
  - eexists _, _, _, _, _, _, _, _, _.
    split; [vm_compute; reflexivity|].
    split; [reflexivity|].
    split; [reflexivity|].
    split; [vm_compute; reflexivity|].
    split; vm_compute; reflexivity.
Qed.

End builder_spec.

(** ** Properties of the token helpers *)

Module token_spec.
Import lexer token.
Local Open Scope Z_scope.


Lemma keywords_elem s tt :
  keywords !! s = Some tt ->
  (s, tt) ∈ [("if", TokenIf); ("else", TokenElse); ("for", TokenFor); ("while", TokenWhile);
     ("break", TokenBreak); ("continue", TokenContinue); ("return", TokenReturn);
     ("switch", TokenSwitch); ("case", TokenCase); ("default", TokenDefault);
     ("func", TokenFunc); ("var", TokenVar); ("const", TokenConst);
     ("type", TokenTypeKeyword); ("struct", TokenStruct);
     ("interface", TokenInterface); ("import", TokenImport);
     ("package", TokenPackage); ("true", TokenTrue); ("false", TokenFalse);
     ("nil", TokenNil)]%string.
Proof.
  intros H. apply elem_of_list_to_map_2. exact H.
Qed.

Ltac split_elems H :=
  repeat (apply elem_of_cons in H as [H|H]); [..|apply elem_of_nil in H; destruct H].

(** The keyword table and the classification by ranges agree: a token
    type is the value of a table entry exactly when [IsKeyword] holds of
    it or it is one of [true], [false], [nil] (which [IsLiteral] claims);
    the table spells each such type in exactly one way; and no token type
    is in two of the classes keyword, operator, literal. *)
Theorem keywords_classification :
  (forall tt, (exists s, keywords !! s = Some tt) <->
     IsKeyword tt = true \/ tt = TokenTrue \/ tt = TokenFalse \/ tt = TokenNil) /\
  (forall s1 s2 tt, keywords !! s1 = Some tt -> keywords !! s2 = Some tt -> s1 = s2) /\
  (forall tt, (IsKeyword tt && IsOperator tt = false) /\ (IsKeyword tt && IsLiteral tt = false)
      /\ (IsOperator tt && IsLiteral tt = false)).
Proof.
  split; [|split].
  - intros tt. split.
    + intros [s H]. apply keywords_elem in H.
      split_elems H; injection H as -> ->; vm_compute; auto.
    + intros H.
      destruct tt; try (destruct H as [H|[H|[H|H]]]; discriminate H).
      all: match goal with
           | |- exists s, _ !! s = Some ?t =>
               first [ exists "if"%string; reflexivity | exists "else"%string; reflexivity
                     | exists "for"%string; reflexivity | exists "while"%string; reflexivity
                     | exists "break"%string; reflexivity | exists "continue"%string; reflexivity
                     | exists "return"%string; reflexivity | exists "switch"%string; reflexivity
                     | exists "case"%string; reflexivity | exists "default"%string; reflexivity
                     | exists "func"%string; reflexivity | exists "var"%string; reflexivity
                     | exists "const"%string; reflexivity | exists "type"%string; reflexivity
                     | exists "struct"%string; reflexivity | exists "interface"%string; reflexivity
                     | exists "import"%string; reflexivity | exists "package"%string; reflexivity
                     | exists "true"%string; reflexivity | exists "false"%string; reflexivity
                     | exists "nil"%string; reflexivity ]
           end.
  - intros s1 s2 tt H1 H2. apply keywords_elem in H1, H2.
    split_elems H1; injection H1 as -> ->; split_elems H2; congruence.
  - intros tt. destruct tt; vm_compute; auto.
Qed.

(** *** [itoa] *)


Lemma loop_S {St R : Type} (fuel : nat) (body : St -> St + R) (s : St) :
  loop (S fuel) body s =
  match body s with
  | inl s' => loop fuel body s'
  | inr r => Some r
  end.
Proof. reflexivity. Qed.

(** The value of a decimal digit character, and of a sequence of them,
    most significant first. *)
Definition digit_value (c : ascii) : Z := Z.of_nat (nat_of_ascii c) - 48.

Definition is_digit (c : ascii) : Prop := 0 <= digit_value c <= 9.

Definition decimal_value (ds : list ascii) : Z :=
  fold_left (fun acc c => acc * 10 + digit_value c) ds 0.

Definition digit_char (d : Z) : ascii := ascii_of_nat (Z.to_nat ((48 + d) mod 256)).

Lemma digit_value_char d : 0 <= d <= 9 -> digit_value (digit_char d) = d.
Proof.
  intros H. unfold digit_value, digit_char.
  rewrite Z.mod_small by lia.
  rewrite nat_ascii_embedding by lia. lia.
Qed.

Fixpoint le_digits (k : nat) (n : Z) : list ascii :=
  match k with
  | O => []
  | S k => if 0 <? n then digit_char (Z.rem n 10) :: le_digits k (Z.quot n 10) else []
  end.

Lemma digitsLoop_le_digits k : forall n buf,
  0 <= n < 10 ^ Z.of_nat k ->
  loop (S k)
    (fun st : Z * list ascii =>
       let '(n, buf) := st in
       if 0 <? n
       then inl (Z.quot n 10,
                 buf ++ [ascii_of_nat (Z.to_nat ((48 + Z.rem n 10) mod 256))])
       else inr buf)
    (n, buf) = Some (buf ++ le_digits k n).
Proof.
  induction k as [|k IH]; intros n buf Hn.
  - simpl in *. assert (n = 0) as -> by lia. simpl. rewrite app_nil_r. reflexivity.
  - rewrite loop_S. cbv beta iota. cbn [le_digits]. destruct (0 <? n) eqn:Hpos.
    + apply Z.ltb_lt in Hpos. rewrite IH.
      * rewrite <- app_assoc. reflexivity.
      * rewrite Nat2Z.inj_succ, Z.pow_succ_r in Hn by lia.
        rewrite Z.quot_div_nonneg by lia.
        split; [apply Z.div_pos; lia|apply Z.div_lt_upper_bound; lia].
    + rewrite app_nil_r. reflexivity.
Qed.

Lemma decimal_value_snoc ds c :
  decimal_value (ds ++ [c]) = decimal_value ds * 10 + digit_value c.
Proof. unfold decimal_value. rewrite fold_left_app. reflexivity. Qed.

Lemma le_digits_spec k : forall n,
  0 <= n < 10 ^ Z.of_nat k ->
  decimal_value (rev (le_digits k n)) = n /\
  Forall is_digit (rev (le_digits k n)) /\
  (0 < n -> exists d ds, rev (le_digits k n) = d :: ds /\ digit_value d <> 0).
Proof.
  induction k as [|k IH]; intros n Hn.
  - simpl in *. assert (n = 0) as -> by lia. repeat split; [constructor|lia].
  - cbn [le_digits]. destruct (0 <? n) eqn:Hpos.
    + apply Z.ltb_lt in Hpos.
      rewrite Nat2Z.inj_succ, Z.pow_succ_r in Hn by lia.
      assert (0 <= Z.quot n 10 < 10 ^ Z.of_nat k) as Hq.
      { rewrite Z.quot_div_nonneg by lia.
        split; [apply Z.div_pos; lia|apply Z.div_lt_upper_bound; lia]. }
      assert (0 <= Z.rem n 10 <= 9) as Hr.
      { rewrite Z.rem_mod_nonneg by lia. pose proof (Z.mod_pos_bound n 10). lia. }
      destruct (IH _ Hq) as (Hv & Hd & Hh).
      cbn [rev]. rewrite decimal_value_snoc, Hv, digit_value_char by exact Hr.
      split; [pose proof (Z.quot_rem' n 10); lia|].
      split.
      * apply Forall_app. split; [exact Hd|].
        constructor; [|constructor]. unfold is_digit. rewrite digit_value_char; lia.
      * intros _. destruct (Z.eq_dec (Z.quot n 10) 0) as [H0|H0].
        -- rewrite H0. destruct k; simpl; eexists _, []; (split; [reflexivity|]);
             rewrite digit_value_char by exact Hr;
             pose proof (Z.quot_rem' n 10); lia.
        -- destruct Hh as (d & ds & -> & Hnz); [lia|].
           exists d, (ds ++ [digit_char (Z.rem n 10)]). split; [reflexivity|exact Hnz].
    + apply Z.ltb_ge in Hpos. assert (n = 0) as -> by lia.
      repeat split; [constructor|lia].
Qed.

(** The swap loop reverses the buffer. *)
Lemma reverseLoop_middle m : forall mid pre post fuel,
  (length mid <= m)%nat -> (length mid < fuel)%nat ->
  loop fuel
    (fun st : Z * Z * list ascii =>
       let '(i, j, buf) := st in
       if i <? j
       then
         match buf !! Z.to_nat i, buf !! Z.to_nat j with
         | Some bi, Some bj =>
             inl (i + 1, j - 1, <[Z.to_nat j := bi]> (<[Z.to_nat i := bj]> buf))
         | _, _ => inr buf
         end
       else inr buf)
    (Z.of_nat (length pre), Z.of_nat (length pre) + Z.of_nat (length mid) - 1,
     pre ++ mid ++ post)
  = Some (pre ++ rev mid ++ post).
Proof.
  induction m as [m IH] using lt_wf_ind. intros mid pre post fuel Hm Hfuel.
  destruct fuel as [|fuel]; [lia|]. rewrite loop_S. cbv beta iota.
  destruct mid as [|a mid].
  { simpl. replace (_ <? _) with false by (symmetry; apply Z.ltb_ge; lia). reflexivity. }
  destruct (exists_last (l := a :: mid)) as (mid' & b & Heq); [discriminate|].
  destruct mid' as [|a' mid'].
  { simpl in Heq. injection Heq as -> Hmid. destruct mid; [|destruct mid; discriminate].
    simpl. replace (_ <? _) with false by (symmetry; apply Z.ltb_ge; lia). reflexivity. }
  simpl in Heq. injection Heq as <- ->.
  replace (_ <? _) with true
    by (symmetry; apply Z.ltb_lt; simpl; rewrite length_app; simpl; lia).
  rewrite Nat2Z.id.
  replace (Z.to_nat (Z.of_nat (length pre) + Z.of_nat (length (a :: mid' ++ [b])) - 1))
    with (length pre + S (length mid'))%nat
    by (simpl; rewrite length_app; simpl; lia).
  assert ((pre ++ (a :: mid' ++ [b]) ++ post) !! length pre = Some a) as ->.
  { rewrite lookup_app_r by lia. rewrite Nat.sub_diag. reflexivity. }
  assert ((pre ++ (a :: mid' ++ [b]) ++ post) !! (length pre + S (length mid'))%nat = Some b)
    as ->.
  { rewrite lookup_app_r by lia.
    replace (length pre + S (length mid') - length pre)%nat with (S (length mid')) by lia.
    simpl. rewrite <- app_assoc. rewrite lookup_app_r by lia.
    rewrite Nat.sub_diag. reflexivity. }
  assert (<[(length pre + S (length mid'))%nat := a]>
            (<[length pre := b]> (pre ++ (a :: mid' ++ [b]) ++ post))
          = (pre ++ [b]) ++ mid' ++ (a :: post)) as ->.
  { rewrite insert_app_r_alt by lia. rewrite Nat.sub_diag. simpl.
    rewrite insert_app_r_alt by lia.
    replace (length pre + S (length mid') - length pre)%nat with (S (length mid')) by lia.
    simpl. rewrite <- !app_assoc. simpl.
    rewrite insert_app_r_alt by lia. rewrite Nat.sub_diag. simpl. reflexivity. }
  replace (Z.of_nat (length pre) + 1) with (Z.of_nat (length (pre ++ [b])))
    by (rewrite length_app; simpl; lia).
  replace (Z.of_nat (length pre) + Z.of_nat (length (a :: mid' ++ [b])) - 1 - 1)
    with (Z.of_nat (length (pre ++ [b])) + Z.of_nat (length mid') - 1)
    by (simpl; rewrite !length_app; simpl; lia).
  rewrite (IH (length mid')).
  - simpl. rewrite rev_app_distr. simpl. rewrite <- !app_assoc. reflexivity.
  - simpl in Hm. rewrite length_app in Hm. simpl in Hm. lia.
  - lia.
  - simpl in Hfuel. rewrite length_app in Hfuel. simpl in Hfuel. lia.
Qed.

Lemma reverseLoop_rev buf : reverseLoop buf = Some (rev buf).
Proof.
  unfold reverseLoop.
  pose proof (reverseLoop_middle (length buf) buf [] [] (S (length buf))) as H.
  simpl in H. rewrite !app_nil_r in H. apply H; lia.
Qed.

Lemma digitsLoop_spec n :
  0 <= n < 2 ^ 63 -> digitsLoop n = Some (le_digits 19 n).
Proof.
  intros Hn. unfold digitsLoop.
  rewrite (digitsLoop_le_digits 19 n []); [reflexivity|].
  change (10 ^ Z.of_nat 19) with 10000000000000000000.
  change (2 ^ 63) with 9223372036854775808 in Hn. lia.
Qed.

(** [itoa] prints every 64-bit integer but the least in decimal: an
    optional minus sign, then the digits of the absolute value, most
    significant first and without a leading zero ("0" for zero).  For the
    least integer, whose negation wraps around to itself, it prints the
    sign alone. *)
Theorem itoa_decimal (n : Z) :
  - 2 ^ 63 <= n < 2 ^ 63 ->
  exists ds,
    itoa n = Some (String.string_of_list_ascii
                     ((if n <? 0 then ["-"%char] else []) ++ ds)) /\
    Forall is_digit ds /\
    (n = - 2 ^ 63 /\ ds = [] \/
     n = 0 /\ ds = ["0"%char] \/
     n <> - 2 ^ 63 /\ n <> 0 /\ decimal_value ds = Z.abs n /\
       exists d ds', ds = d :: ds' /\ digit_value d <> 0).
Proof.
  intros Hn.
  destruct (Z.eq_dec n (- 2 ^ 63)) as [Hmin|Hmin].
  { subst n. exists []. split; [vm_compute; reflexivity|].
    split; [constructor|left; auto]. }
  unfold itoa.
  destruct (n =? 0) eqn:H0.
  { apply Z.eqb_eq in H0. subst n. exists ["0"%char]. simpl.
    split; [reflexivity|]. split; [|right; left; auto].
    constructor; [|constructor]. unfold is_digit. vm_compute. split; discriminate. }
  apply Z.eqb_neq in H0. cbv zeta.
  assert (0 < Z.abs n < 2 ^ 63) as Habs by lia.
  assert ((if n <? 0 then optimizer.wrap64 (- n) else n) = Z.abs n) as ->.
  { destruct (n <? 0) eqn:Hneg; [apply Z.ltb_lt in Hneg|apply Z.ltb_ge in Hneg; lia].
    unfold optimizer.wrap64.
    rewrite Z.mod_small; change (2 ^ 64) with (2 * 2 ^ 63); lia. }
  rewrite digitsLoop_spec by lia.
  destruct (le_digits_spec 19 (Z.abs n)) as (Hv & Hd & Hh).
  { change (10 ^ Z.of_nat 19) with 10000000000000000000.
    change (2 ^ 63) with 9223372036854775808 in Habs. lia. }
  exists (rev (le_digits 19 (Z.abs n))).
  rewrite reverseLoop_rev.
  split.
  - destruct (n <? 0); [rewrite rev_app_distr|]; reflexivity.
  - split; [exact Hd|]. right. right. repeat split; [exact Hmin|exact H0|exact Hv|].
    apply Hh. lia.
Qed.

Lemma itoa_decimal_witness :
  exists ds,
    itoa (-42) = Some (String.string_of_list_ascii
                        ((if -42 <? 0 then ["-"%char] else []) ++ ds)) /\
    Forall is_digit ds /\
    (-42 = - 2 ^ 63 /\ ds = [] \/
     -42 = 0 /\ ds = ["0"%char] \/
     -42 <> - 2 ^ 63 /\ -42 <> 0 /\ decimal_value ds = Z.abs (-42) /\
       exists d ds', ds = d :: ds' /\ digit_value d <> 0).
Proof. apply (itoa_decimal (-42)). vm_compute. split; [discriminate|reflexivity]. Defined.

End token_spec.

(** ** Properties of the parser's tables and literals *)

Module parser_spec.
Import lexer token parser token_spec.
Local Open Scope Z_scope.

(** *** The precedence table *)

(** Right associativity goes by level: the right-associative tokens are
    exactly those of the levels [PrecAssignment] and [PrecExponent].  A
    token with a level is an operator or an opening parenthesis or
    bracket, and the operators without a level are the prefix-only
    operators, the arrow, the question mark and the colons. *)
Theorem precedence_table (tt : TokenType) :
  (isRightAssociative tt = true <->
     getPrecedence tt = PrecAssignment \/ getPrecedence tt = PrecExponent) /\
  (getPrecedence tt <> PrecNone ->
     IsOperator tt = true \/ tt = TokenLeftParen \/ tt = TokenLeftBracket) /\
  (IsOperator tt = true ->
     (getPrecedence tt = PrecNone <->
        In tt [TokenNot; TokenBitNot; TokenPlusPlus; TokenMinusMinus; TokenArrow;
               TokenQuestion; TokenColon; TokenColonColon])).
Proof.
  split; [split|split].
  - destruct tt; simpl; intros H; first [discriminate H|auto].
  - destruct tt; simpl; intros [H|H]; first [discriminate H|reflexivity].
  - destruct tt; simpl; intros H;
      first [exfalso; apply H; reflexivity|left; reflexivity|auto].
  - intros Hop. split.
    + destruct tt; simpl; intros H; first [discriminate H|discriminate Hop|tauto].
    + intros H. simpl in H.
      repeat (destruct H as [<-|H]; [reflexivity|]). destruct H.
Qed.

(** *** String literals *)

Lemma append_cons (c : ascii) (a b : string) : String c a +:+ b = String c (a +:+ b).
Proof. reflexivity. Qed.

Lemma append_nil_l (b : string) : "" +:+ b = b.
Proof. reflexivity. Qed.

Lemma length_append (a b : string) :
  String.length (a +:+ b) = (String.length a + String.length b)%nat.
Proof.
  induction a as [|c a IH]; [reflexivity|].
  rewrite append_cons. simpl. rewrite IH. reflexivity.
Qed.

Lemma len_append (a b : string) : len (a +:+ b) = len a + len b.
Proof. unfold len. rewrite length_append. lia. Qed.

Lemma append_assoc (a b c : string) : (a +:+ b) +:+ c = a +:+ (b +:+ c).
Proof.
  induction a as [|x a IH]; [reflexivity|].
  rewrite !append_cons, IH. reflexivity.
Qed.

Lemma append_nil_r (a : string) : a +:+ "" = a.
Proof.
  induction a as [|x a IH]; [reflexivity|].
  rewrite append_cons, IH. reflexivity.
Qed.

Lemma byteAt_append_r (pre s : string) (k : Z) :
  0 <= k -> byteAt (pre +:+ s) (len pre + k) = byteAt s k.
Proof.
  intros Hk. unfold byteAt, len.
  replace (Z.to_nat (Z.of_nat (String.length pre) + k))
    with (Z.to_nat k + String.length pre)%nat by lia.
  rewrite <- String.append_correct2. reflexivity.
Qed.

Lemma substring_prefix (body rest : string) :
  String.substring 0 (String.length body) (body +:+ rest) = body.
Proof.
  induction body as [|c body IH]; [destruct rest; reflexivity|].
  rewrite append_cons. simpl. rewrite IH. reflexivity.
Qed.

Definition code (c : ascii) : Z := Z.of_nat (nat_of_ascii c).

Lemma code_range c : 0 <= code c < 256.
Proof. unfold code. pose proof (nat_ascii_bounded c). lia. Qed.

(** What the loop of [parseStringLiteral] computes, by recursion on the
    text between the quotes. *)
Fixpoint unescape (s : string) : string :=
  match s with
  | "" => ""
  | String c rest =>
      if code c =? rune "\"
      then
        match rest with
        | "" => stringOfByte (code c)
        | String d rest' =>
            (if code d =? rune "n" then String (ascii_of_nat 10) ""
             else if code d =? rune "t" then String (ascii_of_nat 9) ""
             else if code d =? rune "r" then String (ascii_of_nat 13) ""
             else if code d =? rune "\" then "\"
             else if code d =? doubleQuote then String (ascii_of_nat 34) ""
             else stringOfByte (code d)) +:+ unescape rest'
        end
      else stringOfByte (code c) +:+ unescape rest
  end.

Definition body_loop (s : string) (st : Z * string) : (Z * string) + string :=
  let '(i, result) := st in
  if i <? len s
  then
    if (byteAt s i =? rune "\") && (i + 1 <? len s)
    then
      let c := byteAt s (i + 1) in
      let r :=
        if c =? rune "n" then String (ascii_of_nat 10) ""
        else if c =? rune "t" then String (ascii_of_nat 9) ""
        else if c =? rune "r" then String (ascii_of_nat 13) ""
        else if c =? rune "\" then "\"
        else if c =? doubleQuote then String (ascii_of_nat 34) ""
        else stringOfByte c in
      inl (i + 1 + 1, result +:+ r)
    else inl (i + 1, result +:+ stringOfByte (byteAt s i))
  else inr result.

Lemma byteAt_here pre c rest : byteAt (pre +:+ String c rest) (len pre) = code c.
Proof.
  replace (len pre) with (len pre + 0) by lia.
  rewrite byteAt_append_r by lia. reflexivity.
Qed.

Lemma byteAt_next pre c d rest :
  byteAt (pre +:+ String c (String d rest)) (len pre + 1) = code d.
Proof. rewrite byteAt_append_r by lia. reflexivity. Qed.

Lemma loop_unescape n : forall rest pre acc fuel,
  (String.length rest <= n)%nat -> (String.length rest < fuel)%nat ->
  loop fuel (body_loop (pre +:+ rest)) (len pre, acc) = Some (acc +:+ unescape rest).
Proof.
  induction n as [n IH] using lt_wf_ind. intros rest pre acc fuel Hn Hfuel.
  destruct fuel as [|fuel]; [lia|]. rewrite loop_S.
  unfold body_loop at 1. rewrite len_append.
  destruct rest as [|c rest].
  { replace (_ <? _) with false by (symmetry; apply Z.ltb_ge; unfold len; simpl; lia).
    simpl. rewrite append_nil_r. reflexivity. }
  replace (len pre <? _) with true
    by (symmetry; apply Z.ltb_lt; unfold len; simpl; lia).
  rewrite byteAt_here. cbn [unescape].
  destruct (code c =? rune "\") eqn:Hc.
  - destruct rest as [|d rest].
    + replace (len pre + 1 <? _) with false
        by (symmetry; apply Z.ltb_ge; unfold len; simpl; lia).
      cbn [andb].
      replace (pre +:+ String c "") with ((pre +:+ String c "") +:+ "")
        by apply append_nil_r.
      replace (len pre + 1) with (len (pre +:+ String c ""))
        by (rewrite len_append; reflexivity).
      rewrite (IH 0%nat); [|simpl in Hn; lia|simpl; lia|simpl in *; lia].
      simpl. rewrite append_nil_r. reflexivity.
    + replace (len pre + 1 <? _) with true
        by (symmetry; apply Z.ltb_lt; unfold len; simpl; lia).
      cbn [andb]. rewrite byteAt_next. cbv zeta.
      replace (pre +:+ String c (String d rest))
        with ((pre +:+ String c (String d "")) +:+ rest)
        by (rewrite append_assoc; reflexivity).
      replace (len pre + 1 + 1) with (len (pre +:+ String c (String d "")))
        by (rewrite len_append; unfold len; simpl; lia).
      rewrite (IH (String.length rest)); [|simpl in Hn; lia|lia|simpl in *; lia].
      rewrite append_assoc. reflexivity.
  - cbn [andb].
    replace (pre +:+ String c rest) with ((pre +:+ String c "") +:+ rest)
      by (rewrite append_assoc; reflexivity).
    replace (len pre + 1) with (len (pre +:+ String c ""))
      by (rewrite len_append; reflexivity).
    rewrite (IH (String.length rest)); [|simpl in Hn; lia|lia|simpl in *; lia].
    rewrite append_assoc. reflexivity.
Qed.

Definition quoteChar : ascii := ascii_of_nat 34.

Lemma parseStringLiteral_unescape (body : string) :
  parseStringLiteral (String quoteChar (body +:+ String quoteChar "")) =
    Some (unescape body).
Proof.
  unfold parseStringLiteral.
  replace (len _ <? 2) with false
    by (symmetry; apply Z.ltb_ge; unfold len; simpl; rewrite length_append; simpl; lia).
  assert (slice (String quoteChar (body +:+ String quoteChar ""))
            1 (len (String quoteChar (body +:+ String quoteChar "")) - 1) = body) as ->.
  { unfold slice, len. simpl String.length. rewrite length_append. simpl String.length.
    replace (Z.to_nat 1) with 1%nat by reflexivity.
    replace (Z.to_nat _) with (String.length body) by lia.
    simpl. apply substring_prefix. }
  pose proof (loop_unescape (String.length body) body "" "" (S (String.length body))) as H.
  simpl in H. apply H; lia.
Qed.

(** Quoting, the inverse the parser is written for: a backslash before
    each backslash and double quote, [\n], [\t] and [\r] for line feed,
    tab and carriage return, between double quotes. *)
Definition escapeChar (c : ascii) : string :=
  if code c =? 10 then "\n"
  else if code c =? 9 then "\t"
  else if code c =? 13 then "\r"
  else if code c =? rune "\" then "\\"
  else if code c =? doubleQuote then String "\" (String quoteChar "")
  else String c "".

Fixpoint escape (t : string) : string :=
  match t with
  | "" => ""
  | String c t' => escapeChar c +:+ escape t'
  end.

Definition quote (t : string) : string :=
  String quoteChar (escape t +:+ String quoteChar "").

Fixpoint ascii_only (s : string) : bool :=
  match s with
  | "" => true
  | String c s' => (code c <? 128) && ascii_only s'
  end.

Lemma code_inj c n : code c = Z.of_nat n -> c = ascii_of_nat n.
Proof.
  unfold code. intros H. apply Nat2Z.inj in H. rewrite <- H.
  symmetry. apply ascii_nat_embedding.
Qed.

Lemma stringOfByte_ascii c : code c < 128 -> stringOfByte (code c) = String c "".
Proof.
  intros H. unfold stringOfByte.
  replace (code c <? 128) with true by (symmetry; apply Z.ltb_lt; exact H).
  unfold code. rewrite Nat2Z.id, ascii_nat_embedding. reflexivity.
Qed.

Lemma unescape_escape t : ascii_only t = true -> unescape (escape t) = t.
Proof.
  induction t as [|c t IH]; [reflexivity|].
  cbn [ascii_only escape]. intros H. apply andb_true_iff in H as [Hc Ht].
  apply Z.ltb_lt in Hc. specialize (IH Ht). unfold escapeChar.
  destruct (code c =? 10) eqn:H10.
  { apply Z.eqb_eq in H10. rewrite (code_inj c 10 H10). rewrite !append_cons, append_nil_l.
    cbn [unescape]. vm_compute (code _ =? _). cbv iota. rewrite IH. reflexivity. }
  destruct (code c =? 9) eqn:H9.
  { apply Z.eqb_eq in H9. rewrite (code_inj c 9 H9). rewrite !append_cons, append_nil_l.
    cbn [unescape]. vm_compute (code _ =? _). cbv iota. rewrite IH. reflexivity. }
  destruct (code c =? 13) eqn:H13.
  { apply Z.eqb_eq in H13. rewrite (code_inj c 13 H13). rewrite !append_cons, append_nil_l.
    cbn [unescape]. vm_compute (code _ =? _). cbv iota. rewrite IH. reflexivity. }
  destruct (code c =? rune "\") eqn:H92.
  { apply Z.eqb_eq in H92. rewrite (code_inj c 92 H92). rewrite !append_cons, append_nil_l.
    cbn [unescape]. vm_compute (code _ =? _). cbv iota. rewrite IH. reflexivity. }
  destruct (code c =? doubleQuote) eqn:H34.
  { apply Z.eqb_eq in H34. rewrite (code_inj c 34 H34). rewrite !append_cons, append_nil_l.
    cbn [unescape]. vm_compute (code _ =? _). cbv iota. rewrite IH. reflexivity. }
  rewrite append_cons, append_nil_l. cbn [unescape]. rewrite H92.
  rewrite stringOfByte_ascii by exact Hc. rewrite IH. reflexivity.
Qed.

(** Round trip: [parseStringLiteral] undoes the quoting of any ASCII
    text. *)
Theorem parseStringLiteral_quote (t : string) :
  ascii_only t = true -> parseStringLiteral (quote t) = Some t.
Proof.
  intros H. unfold quote. rewrite parseStringLiteral_unescape.
  rewrite unescape_escape by exact H. reflexivity.
Qed.

Lemma parseStringLiteral_quote_witness :
  parseStringLiteral (quote (String "a" (String quoteChar (String "\" "n")))) =
    Some (String "a" (String quoteChar (String "\" "n"))).
Proof. apply parseStringLiteral_quote. reflexivity. Defined.

(** The number of bytes from 128 on. *)
Fixpoint non_ascii (s : string) : nat :=
  match s with
  | "" => O
  | String c s' => if code c <? 128 then non_ascii s' else S (non_ascii s')
  end.

Fixpoint no_backslash (s : string) : bool :=
  match s with
  | "" => true
  | String c s' => negb (code c =? rune "\") && no_backslash s'
  end.

Fixpoint reencode (s : string) : string :=
  match s with
  | "" => ""
  | String c s' => stringOfByte (code c) +:+ reencode s'
  end.

Lemma unescape_no_backslash s : no_backslash s = true -> unescape s = reencode s.
Proof.
  induction s as [|c s IH]; [reflexivity|].
  cbn [no_backslash unescape reencode]. intros H.
  apply andb_true_iff in H as [Hc Hs]. apply negb_true_iff in Hc.
  rewrite Hc, IH by exact Hs. reflexivity.
Qed.

Lemma reencode_length s :
  String.length (reencode s) = (String.length s + non_ascii s)%nat.
Proof.
  induction s as [|c s IH]; [reflexivity|].
  cbn [reencode non_ascii]. rewrite length_append, IH. unfold stringOfByte.
  destruct (code c <? 128); simpl; lia.
Qed.

(** A text without backslashes is not returned as it stands, but byte by
    byte converted with [string(b)]: each byte from 128 on comes back as
    two bytes, so only ASCII text is returned unchanged. *)
Theorem parseStringLiteral_bytes (body : string) :
  no_backslash body = true ->
  parseStringLiteral (String quoteChar (body +:+ String quoteChar "")) =
    Some (reencode body) /\
  String.length (reencode body) = (String.length body + non_ascii body)%nat /\
  (reencode body = body <-> ascii_only body = true).
Proof.
  intros H.
  rewrite parseStringLiteral_unescape, unescape_no_backslash by exact H.
  split; [reflexivity|]. split; [apply reencode_length|].
  split.
  - intros Heq. pose proof (reencode_length body) as Hlen. rewrite Heq in Hlen.
    assert (non_ascii body = 0%nat) as H0 by lia. clear -H0.
    induction body as [|c body IH]; [reflexivity|].
    cbn [non_ascii ascii_only] in *. destruct (code c <? 128); [|lia].
    apply IH. lia.
  - clear H. induction body as [|c body IH]; [reflexivity|].
    cbn [ascii_only reencode]. intros H. apply andb_true_iff in H as [Hc Hb].
    apply Z.ltb_lt in Hc. rewrite stringOfByte_ascii by exact Hc.
    rewrite IH by exact Hb. reflexivity.
Qed.

Lemma parseStringLiteral_bytes_witness :
  parseStringLiteral
    (String quoteChar (String (ascii_of_nat 233) "t" +:+ String quoteChar "")) =
    Some (reencode (String (ascii_of_nat 233) "t")) /\
  String.length (reencode (String (ascii_of_nat 233) "t")) =
    (String.length (String (ascii_of_nat 233) "t")
     + non_ascii (String (ascii_of_nat 233) "t"))%nat /\
  (reencode (String (ascii_of_nat 233) "t") = String (ascii_of_nat 233) "t" <->
   ascii_only (String (ascii_of_nat 233) "t") = true).
Proof. apply parseStringLiteral_bytes. reflexivity. Defined.

End parser_spec.

(** ** The type predicates *)

Module types_predicates_spec.
Import types.

(** The predicates on types are nested: an integer type is numeric, a
    numeric type is ordered, an ordered type is comparable; Bool is
    comparable but not ordered.  Comparable types are primitive: on them
    [Equals] holds of exactly the same type, and [AssignableTo] coincides
    with [Equals]. *)
Theorem predicates_nested (t : Type_) :
  (IsIntegerType t = true -> IsNumeric t = true) /\
  (IsNumeric t = true -> IsOrdered t = true) /\
  (IsOrdered t = true -> IsComparable t = true) /\
  (IsBooleanType t = true -> IsComparable t = true /\ IsOrdered t = false) /\
  (IsComparable t = true ->
     forall u, (Equals t u = true <-> u = t) /\ AssignableTo t u = Equals t u).
Proof.
  split; [|split; [|split; [|split]]].
  - destruct t; simpl; intros H; first [discriminate H|reflexivity].
  - destruct t; simpl; intros H; first [discriminate H|reflexivity].
  - destruct t; simpl; intros H; first [discriminate H|reflexivity].
  - destruct t; simpl; intros H; first [discriminate H|split; reflexivity].
  - destruct t; simpl; intros H; try discriminate H; intros u;
      (split; [|reflexivity]);
      destruct u; simpl; split; intros H'; first [discriminate H'|reflexivity].
Qed.

Lemma predicates_nested_witness :
  IsNumeric Int = true /\
  forall u, (Equals Int u = true <-> u = Int) /\ AssignableTo Int u = Equals Int u.
Proof.
  split.
  - exact (proj1 (predicates_nested Int) eq_refl).
  - exact (proj2 (proj2 (proj2 (proj2 (predicates_nested Int)))) eq_refl).
Defined.

End types_predicates_spec.

(** ** The tokens of a source: text, gaps, positions and spans *)

Module lexer_tokens_spec.
Import lexer token lexer_spec token_spec parser_spec.
Local Open Scope string_scope.
Local Open Scope list_scope.
Local Open Scope Z_scope.

(** *** Bytes and runes *)

Lemma byteAt_range s i : 0 <= byteAt s i < 256.
Proof.
  unfold byteAt. destruct (String.get (Z.to_nat i) s) as [c|]; [|lia].
  pose proof (nat_ascii_bounded c). lia.
Qed.

Lemma lor_ge_l a b n : 0 <= a -> 0 <= b -> 0 <= n -> 2 ^ n <= a -> 2 ^ n <= Z.lor a b.
Proof.
  intros Ha Hb Hn Hle.
  assert (0 < a) as Hpos by (pose proof (Z.pow_pos_nonneg 2 n); lia).
  assert (n <= Z.log2 a) as Hlog by (apply Z.log2_le_pow2; assumption).
  assert (0 <= Z.lor a b) as Hnn by (apply Z.lor_nonneg; auto).
  assert (0 < Z.lor a b) as Hlpos.
  { destruct (Z.eq_dec (Z.lor a b) 0) as [H0|H0]; [|lia].
    apply Z.lor_eq_0_iff in H0. lia. }
  apply Z.log2_le_pow2; [exact Hlpos|].
  rewrite Z.log2_lor by assumption. lia.
Qed.

Lemma lor_ge_r a b n : 0 <= a -> 0 <= b -> 0 <= n -> 2 ^ n <= b -> 2 ^ n <= Z.lor a b.
Proof. intros. rewrite Z.lor_comm. apply lor_ge_l; assumption. Qed.

Lemma land_low a n : 0 <= n -> Z.land a (Z.ones n) = a mod 2 ^ n.
Proof. apply Z.land_ones. Qed.

Lemma land_nonneg_const a m : 0 <= m -> 0 <= Z.land a m.
Proof. intros. apply Z.land_nonneg. right. assumption. Qed.

Lemma two_byte_ge s0 s1 :
  194 <= s0 < 224 ->
  128 <= Z.lor (Z.shiftl (Z.land s0 31) 6) (Z.land s1 63).
Proof.
  intros H0.
  assert (Z.land s0 31 = s0 mod 32) as E by (apply (land_low s0 5); lia).
  assert (2 <= s0 mod 32) by (pose proof (Z.div_mod s0 32); pose proof (Z.mod_pos_bound s0 32); lia).
  apply (lor_ge_l _ _ 7); try lia.
  - apply Z.shiftl_nonneg. rewrite E. lia.
  - apply land_nonneg_const. lia.
  - rewrite Z.shiftl_mul_pow2, E by lia. change (2 ^ 7) with 128. change (2 ^ 6) with 64. lia.
Qed.

Lemma three_byte_ge s0 s1 s2 :
  224 <= s0 < 240 -> (if s0 =? 224 then 160 else 128) <= s1 -> s1 <= 191 ->
  128 <= Z.lor (Z.lor (Z.shiftl (Z.land s0 15) 12) (Z.shiftl (Z.land s1 63) 6))
           (Z.land s2 63).
Proof.
  intros H0 Hlo Hhi.
  assert (Z.land s0 15 = s0 mod 16) as E0 by (apply (land_low s0 4); lia).
  assert (Z.land s1 63 = s1 mod 64) as E1 by (apply (land_low s1 6); lia).
  pose proof (Z.mod_pos_bound s0 16). pose proof (Z.mod_pos_bound s1 64).
  assert (0 <= Z.shiftl (Z.land s0 15) 12) by (apply Z.shiftl_nonneg; lia).
  assert (0 <= Z.shiftl (Z.land s1 63) 6) by (apply Z.shiftl_nonneg; lia).
  apply (lor_ge_l _ _ 7); try lia;
    [apply Z.lor_nonneg; lia|apply land_nonneg_const; lia|].
  destruct (s0 =? 224) eqn:E; [apply Z.eqb_eq in E|apply Z.eqb_neq in E].
  - apply (lor_ge_r _ _ 7); try lia.
    rewrite Z.shiftl_mul_pow2, E1 by lia. change (2 ^ 7) with 128. change (2 ^ 6) with 64.
    assert (32 <= s1 mod 64) by (pose proof (Z.div_mod s1 64); lia). lia.
  - apply (lor_ge_l _ _ 7); try lia.
    rewrite Z.shiftl_mul_pow2, E0 by lia. change (2 ^ 7) with 128. change (2 ^ 12) with 4096.
    assert (1 <= s0 mod 16) by (pose proof (Z.div_mod s0 16); lia). lia.
Qed.

Lemma four_byte_ge s0 s1 s2 s3 :
  240 <= s0 <= 244 -> (if s0 =? 240 then 144 else 128) <= s1 -> s1 <= 191 ->
  128 <= Z.lor (Z.lor (Z.lor (Z.shiftl (Z.land s0 7) 18) (Z.shiftl (Z.land s1 63) 12))
                  (Z.shiftl (Z.land s2 63) 6))
           (Z.land s3 63).
Proof.
  intros H0 Hlo Hhi.
  assert (Z.land s0 7 = s0 mod 8) as E0 by (apply (land_low s0 3); lia).
  assert (Z.land s1 63 = s1 mod 64) as E1 by (apply (land_low s1 6); lia).
  pose proof (Z.mod_pos_bound s0 8). pose proof (Z.mod_pos_bound s1 64).
  assert (0 <= Z.shiftl (Z.land s0 7) 18) by (apply Z.shiftl_nonneg; lia).
  assert (0 <= Z.shiftl (Z.land s1 63) 12) by (apply Z.shiftl_nonneg; lia).
  assert (0 <= Z.shiftl (Z.land s2 63) 6)
    by (apply Z.shiftl_nonneg, land_nonneg_const; lia).
  apply (lor_ge_l _ _ 7); try lia;
    [repeat (apply Z.lor_nonneg; split); lia|apply land_nonneg_const; lia|].
  apply (lor_ge_l _ _ 7); try lia; [apply Z.lor_nonneg; lia|].
  destruct (s0 =? 240) eqn:E; [apply Z.eqb_eq in E|apply Z.eqb_neq in E].
  - apply (lor_ge_r _ _ 7); try lia.
    rewrite Z.shiftl_mul_pow2, E1 by lia. change (2 ^ 7) with 128. change (2 ^ 12) with 4096.
    assert (16 <= s1 mod 64) by (pose proof (Z.div_mod s1 64); lia). lia.
  - apply (lor_ge_l _ _ 7); try lia.
    rewrite Z.shiftl_mul_pow2, E0 by lia. change (2 ^ 7) with 128. change (2 ^ 18) with 262144.
    assert (1 <= s0 mod 8) by (pose proof (Z.div_mod s0 8); lia). lia.
Qed.

(** A rune below 128 is one byte, the byte itself. *)
Lemma decode_ascii s i :
  i < len s -> (DecodeRuneInString s i).1 < 128 ->
  (DecodeRuneInString s i).2 = 1 /\ byteAt s i = (DecodeRuneInString s i).1.
Proof.
  intros Hi. unfold DecodeRuneInString. cbv zeta.
  pose proof (byteAt_range s i) as H0.
  destruct (len s - i <? 1) eqn:Hn; zbool; [lia|].
  destruct (byteAt s i <? 128) eqn:Hs0; [simpl; auto|]. zbool.
  destruct ((byteAt s i <? 194) || (244 <? byteAt s i)) eqn:Hr;
    [simpl; unfold RuneError; lia|].
  apply orb_false_iff in Hr as [Hlo Hhi]. zbool.
  set (s0 := byteAt s i) in *. set (s1 := byteAt s (i + 1)) in *.
  set (s2 := byteAt s (i + 2)) in *. set (s3 := byteAt s (i + 3)) in *.
  destruct (len s - i <? _); [simpl; unfold RuneError; lia|].
  destruct ((s1 <? _) || (_ <? s1)) eqn:Hs1; [simpl; unfold RuneError; lia|].
  apply orb_false_iff in Hs1 as [Hs1lo Hs1hi]. zbool.
  destruct (s0 <? 224) eqn:H224; zbool.
  { simpl. pose proof (two_byte_ge s0 s1). lia. }
  destruct (s0 <? 240) eqn:H240; zbool.
  - replace (3 <=? 2) with false by reflexivity.
    destruct ((s2 <? 128) || (191 <? s2)); [simpl; unfold RuneError; lia|].
    replace (3 <=? 3) with true by reflexivity. simpl.
    pose proof (three_byte_ge s0 s1 s2) as Hge. intros Hlt. exfalso.
    assert ((s0 =? 240) = false) as E240 by (apply Z.eqb_neq; lia).
    assert ((s0 =? 244) = false) as E244 by (apply Z.eqb_neq; lia).
    rewrite E240 in Hs1lo. rewrite E244 in Hs1hi.
    destruct (s0 =? 237); lia.
  - replace (4 <=? 2) with false by reflexivity.
    destruct ((s2 <? 128) || (191 <? s2)); [simpl; unfold RuneError; lia|].
    replace (4 <=? 3) with false by reflexivity.
    destruct ((s3 <? 128) || (191 <? s3)); [simpl; unfold RuneError; lia|].
    simpl. pose proof (four_byte_ge s0 s1 s2 s3) as Hge. intros Hlt. exfalso.
    assert ((s0 =? 224) = false) as E224 by (apply Z.eqb_neq; lia).
    assert ((s0 =? 237) = false) as E237 by (apply Z.eqb_neq; lia).
    rewrite E224 in Hs1lo. rewrite E237 in Hs1hi.
    destruct (s0 =? 244); lia.
Qed.

(** The bytes of a rune other than the newline are no newline bytes. *)
Lemma decode_clean s i k :
  i < len s -> (DecodeRuneInString s i).1 <> 10 ->
  i <= k < i + (DecodeRuneInString s i).2 -> byteAt s k <> 10.
Proof.
  intros Hi. unfold DecodeRuneInString. cbv zeta.
  pose proof (byteAt_range s i) as H0.
  destruct (len s - i <? 1) eqn:Hn; zbool; [lia|].
  destruct (byteAt s i <? 128) eqn:Hs0.
  { simpl. intros Hne Hk. replace k with i by lia. exact Hne. }
  zbool.
  assert (forall size, (size = 1 -> i <= k < i + size -> byteAt s k <> 10)) as Hone.
  { intros size -> Hk. replace k with i by lia. lia. }
  destruct ((byteAt s i <? 194) || (244 <? byteAt s i)) eqn:Hr;
    [simpl; intros _; apply Hone; reflexivity|].
  set (s0 := byteAt s i) in *. set (s1 := byteAt s (i + 1)) in *.
  set (s2 := byteAt s (i + 2)) in *. set (s3 := byteAt s (i + 3)) in *.
  destruct (len s - i <? _); [simpl; intros _; apply Hone; reflexivity|].
  destruct ((s1 <? _) || (_ <? s1)) eqn:Hs1;
    [simpl; intros _; apply Hone; reflexivity|].
  apply orb_false_iff in Hs1 as [Hs1lo _]. zbool.
  assert (128 <= s1) as Hs1' by (destruct (s0 =? 224), (s0 =? 240); lia).
  destruct (s0 <? 224) eqn:H224.
  { simpl. intros _ Hk. assert (k = i \/ k = i + 1) as [->| ->] by lia; fold s0; fold s1; lia. }
  destruct (s0 <? 240) eqn:H240.
  - replace (3 <=? 2) with false by reflexivity.
    destruct ((s2 <? 128) || (191 <? s2)) eqn:Hs2;
      [simpl; intros _; apply Hone; reflexivity|].
    apply orb_false_iff in Hs2 as [Hs2lo _]. zbool.
    replace (3 <=? 3) with true by reflexivity. simpl. intros _ Hk.
    assert (k = i \/ k = i + 1 \/ k = i + 2) as [->|[->| ->]] by lia;
      fold s0; fold s1; fold s2; lia.
  - replace (4 <=? 2) with false by reflexivity.
    destruct ((s2 <? 128) || (191 <? s2)) eqn:Hs2;
      [simpl; intros _; apply Hone; reflexivity|].
    apply orb_false_iff in Hs2 as [Hs2lo _]. zbool.
    replace (4 <=? 3) with false by reflexivity.
    destruct ((s3 <? 128) || (191 <? s3)) eqn:Hs3;
      [simpl; intros _; apply Hone; reflexivity|].
    apply orb_false_iff in Hs3 as [Hs3lo _]. zbool.
    simpl. intros _ Hk.
    assert (k = i \/ k = i + 1 \/ k = i + 2 \/ k = i + 3) as [->|[->|[->| ->]]] by lia;
      fold s0; fold s1; fold s2; fold s3; lia.
Qed.

(** *** Lines *)

(** No newline byte in [s[a:b]]. *)
Definition clean (s : string) (a b : Z) : Prop :=
  forall k, a <= k < b -> byteAt s k <> 10.

(** The line number and the line start of the offset [k]: one more than
    the number of newline bytes before [k], and the offset after the
    last of them. *)
Fixpoint scanLines (s : string) (k : nat) : Z * Z :=
  match k with
  | O => (1, 0)
  | S k' =>
      if byteAt s (Z.of_nat k') =? 10
      then ((scanLines s k').1 + 1, Z.of_nat (S k'))
      else scanLines s k'
  end.

Definition lineOf (s : string) (k : Z) : Z := (scanLines s (Z.to_nat k)).1.
Definition lineStartOf (s : string) (k : Z) : Z := (scanLines s (Z.to_nat k)).2.

Definition lines_ok (l : Lexer) : Prop :=
  line l = lineOf (source l) (current l) /\
  lineStart l = lineStartOf (source l) (current l).

Lemma scanLines_clean s a n :
  clean s (Z.of_nat a) (Z.of_nat (a + n)) -> scanLines s (a + n) = scanLines s a.
Proof.
  induction n as [|n IH]; intros Hc.
  - rewrite Nat.add_0_r. reflexivity.
  - replace (a + S n)%nat with (S (a + n)) by lia. cbn [scanLines].
    assert (byteAt s (Z.of_nat (a + n)) <> 10) as Hne by (apply Hc; lia).
    apply Z.eqb_neq in Hne. rewrite Hne. apply IH.
    intros k Hk. apply Hc. lia.
Qed.

Lemma lines_clean s a b :
  0 <= a <= b -> clean s a b ->
  lineOf s b = lineOf s a /\ lineStartOf s b = lineStartOf s a.
Proof.
  intros Hab Hc. unfold lineOf, lineStartOf.
  replace (Z.to_nat b) with (Z.to_nat a + Z.to_nat (b - a))%nat by lia.
  rewrite scanLines_clean; [auto|].
  intros k Hk. apply Hc. lia.
Qed.

Lemma lines_newline s a :
  0 <= a -> byteAt s a = 10 ->
  lineOf s (a + 1) = lineOf s a + 1 /\ lineStartOf s (a + 1) = a + 1.
Proof.
  intros Ha Hb. unfold lineOf, lineStartOf.
  replace (Z.to_nat (a + 1)) with (S (Z.to_nat a)) by lia. cbn [scanLines].
  rewrite Z2Nat.id by lia. rewrite Hb. simpl. split; [reflexivity|lia].
Qed.

Lemma lineOf_pos s k : 1 <= lineOf s k.
Proof.
  unfold lineOf. induction (Z.to_nat k) as [|n IH]; simpl; [lia|].
  destruct (byteAt s (Z.of_nat n) =? 10); simpl; lia.
Qed.

(** *** What a scanning function does to the lexer *)

Lemma loop_inv {St R : Type} (I : St -> Prop) (Q : R -> Prop) (body : St -> St + R) :
  (forall st, I st -> match body st with inl st' => I st' | inr r => Q r end) ->
  forall fuel st r, I st -> loop fuel body st = Some r -> Q r.
Proof.
  intros Hbody fuel. induction fuel as [|fuel IH]; intros st r Hst Hloop;
    [discriminate Hloop|].
  rewrite loop_S in Hloop. specialize (Hbody st Hst).
  destruct (body st) as [st'|r']; [exact (IH st' r Hbody Hloop)|].
  injection Hloop as <-. exact Hbody.
Qed.

(** [frame l0 l]: [l] differs from [l0] in its position and line fields
    only, stands at or after it within the source, and no line earlier. *)
Definition frame (l0 l : Lexer) : Prop :=
  source l = source l0 /\ filename l = filename l0 /\ start l = start l0 /\
  (0 <= current l0 /\ current l0 <= current l <= len (source l0)) /\
  line l0 <= line l.

Lemma frame_refl l : 0 <= current l <= len (source l) -> frame l l.
Proof. intros H. unfold frame. repeat split; lia. Qed.

Lemma frame_trans l0 l1 l2 : frame l0 l1 -> frame l1 l2 -> frame l0 l2.
Proof.
  intros (Hs1 & Hf1 & Hst1 & Hc1 & Hl1) (Hs2 & Hf2 & Hst2 & Hc2 & Hl2).
  rewrite Hs1 in *. unfold frame. repeat split; try congruence; lia.
Qed.

Lemma frame_extends l0 l : frame l0 l -> extends l0 l.
Proof. intros (Hs & _ & _ & Hc & _). repeat split; [exact Hs|lia|lia]. Qed.

Section with_unicode.
Variable IsLetter : Z -> bool.

(** The sources on which the lexer's line count is right: a backslash
    is never followed by a newline byte (the escape in a string or
    character literal would step over it uncounted); and the newline is
    no letter. *)
Definition tame (s : string) : Prop :=
  IsLetter 10 = false /\ forall i, byteAt s i = 92 -> byteAt s (i + 1) <> 10.

(** [quiet l0 l]: from [l0] to [l] the lexer went forward on its line. *)
Definition quiet (l0 l : Lexer) : Prop :=
  frame l0 l /\ line l = line l0 /\ lineStart l = lineStart l0 /\
  (tame (source l0) -> clean (source l0) (current l0) (current l)).

(** [counted l0 l]: from [l0] to [l] the lexer went forward and kept
    count of the lines. *)
Definition counted (l0 l : Lexer) : Prop :=
  frame l0 l /\ (tame (source l0) -> lines_ok l0 -> lines_ok l).

Lemma quiet_refl l : 0 <= current l <= len (source l) -> quiet l l.
Proof.
  intros H. split; [apply frame_refl; exact H|]. repeat split. intros _ k Hk. lia.
Qed.

Lemma quiet_trans l0 l1 l2 : quiet l0 l1 -> quiet l1 l2 -> quiet l0 l2.
Proof.
  intros (Hf1 & Hl1 & Hs1 & Hc1) (Hf2 & Hl2 & Hs2 & Hc2).
  split; [eapply frame_trans; eassumption|]. repeat split; try congruence.
  destruct Hf1 as (Hsrc & _). rewrite Hsrc in Hc2.
  intros Ht k Hk. destruct (Z_lt_ge_dec k (current l1)); [apply Hc1|apply Hc2]; auto; lia.
Qed.

Lemma quiet_counted l0 l : quiet l0 l -> counted l0 l.
Proof.
  intros (Hf & Hl & Hs & Hc). split; [exact Hf|].
  intros Ht [Hl0 Hs0]. destruct Hf as (Hsrc & _ & _ & Hcur & _).
  destruct (lines_clean (source l0) (current l0) (current l)) as [E1 E2];
    [lia|apply Hc; exact Ht|].
  unfold lines_ok. rewrite Hsrc, Hl, Hs, E1, E2. auto.
Qed.

Lemma counted_trans l0 l1 l2 : counted l0 l1 -> counted l1 l2 -> counted l0 l2.
Proof.
  intros (Hf1 & Hc1) (Hf2 & Hc2). split; [eapply frame_trans; eassumption|].
  destruct Hf1 as (Hsrc & _). rewrite Hsrc in Hc2. auto.
Qed.

Lemma peek_newline l :
  isAtEnd l = false -> (peek l = 10 <-> byteAt (source l) (current l) = 10).
Proof.
  intros Hend. unfold peek. rewrite Hend.
  pose proof (isAtEnd_false l Hend) as Hlt.
  split.
  - intros H. destruct (decode_ascii (source l) (current l) Hlt) as [_ Hb]; [lia|].
    rewrite Hb. exact H.
  - intros H. unfold DecodeRuneInString. cbv zeta.
    replace (len (source l) - current l <? 1) with false
      by (symmetry; apply Z.ltb_ge; lia).
    rewrite H. reflexivity.
Qed.

Lemma peek_ascii l c :
  isAtEnd l = false -> peek l = c -> c < 128 ->
  byteAt (source l) (current l) = c /\ current (advance l).2 = current l + 1.
Proof.
  intros Hend Hp Hc. unfold peek in Hp. rewrite Hend in Hp.
  pose proof (isAtEnd_false l Hend) as Hlt.
  destruct (decode_ascii (source l) (current l) Hlt) as [Hsz Hb]; [lia|].
  split; [congruence|]. unfold advance. rewrite Hend.
  destruct (DecodeRuneInString (source l) (current l)) as [ch size].
  simpl in *. lia.
Qed.

(** A step over a character other than the newline. *)
Lemma advance_quiet l0 l :
  quiet l0 l -> isAtEnd l = false -> (tame (source l0) -> peek l <> 10) ->
  quiet l0 (advance l).2.
Proof.
  intros Hq Hend Hp. eapply quiet_trans; [exact Hq|].
  assert (source l = source l0) as Hsrc by (destruct Hq as ((? & _) & _); assumption).
  assert (0 <= current l) as Hl0 by (destruct Hq as ((_ & _ & _ & ? & _) & _); lia).
  rewrite <- Hsrc in Hp.
  pose proof (isAtEnd_false l Hend) as Hlt.
  pose proof (DecodeRuneInString_size (source l) (current l) Hlt) as Hsize.
  pose proof (decode_clean (source l) (current l)) as Hclean.
  unfold peek in Hp. rewrite Hend in Hp. unfold advance. rewrite Hend.
  destruct (DecodeRuneInString (source l) (current l)) as [ch size]. simpl in *.
  unfold quiet, frame. simpl. repeat split; try lia.
  intros Ht k Hk. apply Hclean; auto.
Qed.

(** A step at the end of the source does nothing. *)
Lemma advance_at_end l : isAtEnd l = true -> (advance l).2 = l.
Proof. intros H. unfold advance. rewrite H. reflexivity. Qed.


Lemma advance_fields l : (advance l).2 = set_current (current (advance l).2) l.
Proof.
  unfold advance. destruct (isAtEnd l); [destruct l; reflexivity|].
  destruct (DecodeRuneInString (source l) (current l)). reflexivity.
Qed.

Lemma quiet_in_source l0 l : quiet l0 l -> current l <= len (source l).
Proof. intros ((Hs & _ & _ & Hc & _) & _). rewrite Hs. lia. Qed.

Lemma isDigit_range ch : isDigit ch = true -> 48 <= ch <= 57.
Proof.
  unfold isDigit. intros H. apply andb_true_iff in H as [H1 H2]. zbool.
  change (rune "0") with 48 in H1. change (rune "9") with 57 in H2. lia.
Qed.

Definition is_ws (b : Z) : Prop := b = 32 \/ b = 9 \/ b = 13 \/ b = 10.

(** [skipWhitespace] steps over whitespace bytes only, counting the
    lines, and stops at the end of the source or at another character. *)
Lemma skipWhitespace_spec l l' :
  0 <= current l <= len (source l) -> skipWhitespace l = Some l' ->
  counted l l' /\
  (forall k, current l <= k < current l' -> is_ws (byteAt (source l) k)) /\
  (isAtEnd l' = false -> ~ is_ws (peek l')).
Proof.
  intros Hl Hloop. unfold skipWhitespace in Hloop.
  eapply (loop_inv
           (fun st => counted l st /\
              forall k, current l <= k < current st -> is_ws (byteAt (source l) k))
           (fun l' => counted l l' /\
              (forall k, current l <= k < current l' -> is_ws (byteAt (source l) k)) /\
              (isAtEnd l' = false -> ~ is_ws (peek l'))));
    [|split; [apply quiet_counted, quiet_refl; lia|intros k Hk; lia]
     |exact Hloop].
  intros st [Hc Hws].
  assert (source st = source l) as Hsrc by (destruct Hc as ((? & _) & _); assumption).
  assert (0 <= current st) as Hst0 by (destruct Hc as ((_ & _ & _ & ? & _) & _); lia).
  destruct (isAtEnd st) eqn:Hend.
  { split; [exact Hc|]. split; [exact Hws|]. intros H. congruence. }
  cbv zeta.
  assert (forall c, peek st = c -> c < 128 -> c <> 10 ->
            counted l (advance st).2 /\
            forall k, current l <= k < current (advance st).2 ->
              is_ws c -> is_ws (byteAt (source l) k)) as Hstep.
  { intros c Hp Hc128 Hc10.
    destruct (peek_ascii st c Hend Hp Hc128) as [Hb Hcur].
    split.
    - eapply counted_trans; [exact Hc|]. apply quiet_counted.
      apply advance_quiet; [apply quiet_refl; apply isAtEnd_false in Hend; lia|exact Hend|].
      intros _. congruence.
    - intros k Hk Hw. destruct (Z_lt_ge_dec k (current st)); [apply Hws; lia|].
      replace k with (current st) by lia. rewrite <- Hsrc, Hb. exact Hw. }
  destruct ((peek st =? rune " ") || (peek st =? 13) || (peek st =? 9)) eqn:Hsp.
  - apply orb_true_iff in Hsp as [Hsp|Hsp]; [apply orb_true_iff in Hsp as [Hsp|Hsp]|];
      apply Z.eqb_eq in Hsp;
      (destruct (Hstep _ Hsp) as [H1 H2]; [change (rune " ") with 32; lia..|]);
      (split; [exact H1|]); intros k Hk; apply H2; try exact Hk;
      unfold is_ws; change (rune " ") with 32; auto.
  - apply orb_false_iff in Hsp as [Hsp H9]. apply orb_false_iff in Hsp as [H32 H13].
    destruct (peek st =? 10) eqn:H10.
    + apply Z.eqb_eq in H10.
      destruct (peek_ascii st 10 Hend H10) as [Hb Hcur]; [lia|].
      rewrite advance_fields, Hcur. simpl.
      pose proof (isAtEnd_false st Hend) as Hlt.
      destruct Hc as [(Hs & Hf & Hstart & Hcr & Hln) Hok].
      split; [split|].
      * unfold frame. simpl. rewrite <- Hsrc at 2. repeat split; try assumption; lia.
      * intros Ht Hl0. destruct (Hok Ht Hl0) as [E1 E2].
        destruct (lines_newline (source st) (current st) Hst0 Hb) as [N1 N2].
        unfold lines_ok. simpl. rewrite N1, N2, E1. auto.
      * intros k Hk. destruct (Z_lt_ge_dec k (current st)); [apply Hws; lia|].
        replace k with (current st) by lia. rewrite <- Hsrc, Hb. unfold is_ws. auto.
    + split; [exact Hc|]. split; [exact Hws|]. intros _ Hw.
      apply Z.eqb_neq in H32, H13, H9, H10. change (rune " ") with 32 in H32.
      unfold is_ws in Hw. lia.
Qed.


Lemma counted_quiet l0 l1 l2 : counted l0 l1 -> quiet l1 l2 -> counted l0 l2.
Proof.
  intros Hc Hq. eapply counted_trans; [exact Hc|]. apply quiet_counted. exact Hq.
Qed.

Lemma quiet_frame l0 l : quiet l0 l -> frame l0 l.
Proof. intros [H _]. exact H. Qed.

Lemma frame_in_source l0 l : frame l0 l -> 0 <= current l <= len (source l).
Proof. intros (Hs & _ & _ & Hc & _). rewrite Hs. lia. Qed.

(** *** The scanning functions *)

Lemma scanDigits_quiet l0 l l' :
  quiet l0 l -> scanDigits l = Some l' -> quiet l0 l'.
Proof.
  intros Hq Hloop. unfold scanDigits in Hloop.
  eapply (loop_inv (fun st => quiet l0 st) (fun l' => quiet l0 l')); [|exact Hq|exact Hloop].
  intros st Hst. cbv beta. destruct (isAtEnd st) eqn:Hend; simpl; [exact Hst|].
  destruct (isDigit (peek st)) eqn:Hd; [|exact Hst].
  apply advance_quiet; [exact Hst|exact Hend|]. intros _.
  apply isDigit_range in Hd. lia.
Qed.

(** The shape of a result: an invalid token with the error, or a token
    with the text from [start] to [current]. *)
Definition textual (r : Scanned) : Prop :=
  (exists message, r = invalid r.2 message) \/
  (exists tokenType,
      tokenType <> TokenInvalid /\ tokenType <> TokenEOF /\
      r = token r.2 tokenType (slice (source r.2) (start r.2) (current r.2))).

Lemma textual_token l tokenType :
  tokenType <> TokenInvalid -> tokenType <> TokenEOF ->
  textual (token l tokenType (slice (source l) (start l) (current l))).
Proof. intros H1 H2. right. exists tokenType. auto. Qed.

Lemma textual_invalid l message : textual (invalid l message).
Proof. left. exists message. reflexivity. Qed.

Lemma LookupKeyword_proper text :
  LookupKeyword text <> TokenInvalid /\ LookupKeyword text <> TokenEOF.
Proof.
  unfold LookupKeyword. destruct (keywords !! text) as [tt|] eqn:H;
    [|split; discriminate].
  apply keywords_elem in H.
  repeat (apply elem_of_cons in H as [H|H]; [injection H as _ ->; split; discriminate|]).
  apply elem_of_nil in H. destruct H.
Qed.

Lemma scanIdentifier_spec l0 l r :
  quiet l0 l -> scanIdentifier IsLetter l = Some r -> quiet l0 r.2 /\ textual r.
Proof.
  intros Hq Hscan. unfold scanIdentifier in Hscan.
  match type of Hscan with
  | match ?x with _ => _ end = _ => destruct x as [l'|] eqn:Hloop; [|discriminate]
  end.
  injection Hscan as <-. simpl.
  split; [|apply textual_token; apply LookupKeyword_proper].
  eapply (loop_inv (fun st => quiet l0 st) (fun l' => quiet l0 l')); [|exact Hq|exact Hloop].
  intros st Hst. cbv beta. destruct (isAtEnd st) eqn:Hend; [exact Hst|]. cbv zeta.
  destruct (isLetter IsLetter (peek st) || isDigit (peek st)) eqn:Hc; [|exact Hst].
  apply advance_quiet; [exact Hst|exact Hend|]. intros [Ht _] Hp.
  rewrite Hp in Hc. unfold isLetter in Hc. rewrite Ht in Hc. discriminate Hc.
Qed.

Lemma set_current_back l0 l2 l4 :
  quiet l0 l2 -> quiet l2 l4 -> quiet l0 (set_current (current l2) l4).
Proof.
  intros H2 H4.
  assert (set_current (current l2) l4 = l2) as ->; [|exact H2].
  destruct H4 as ((Hs & Hf & Hst & _ & _) & Hl & Hls & _).
  destruct l2, l4. unfold set_current. simpl in *. congruence.
Qed.

Lemma scanNumber_spec l0 l r :
  quiet l0 l -> scanNumber l = Some r -> quiet l0 r.2 /\ textual r.
Proof.
  intros Hq Hscan. unfold scanNumber in Hscan.
  destruct (scanDigits l) as [l1|] eqn:H1; [|discriminate].
  pose proof (scanDigits_quiet l0 l l1 Hq H1) as Hq1.
  match type of Hscan with
  | match ?x with _ => _ end = _ => destruct x as [l2|] eqn:H2; [|discriminate]
  end.
  assert (quiet l0 l2) as Hq2.
  { destruct (negb (isAtEnd l1) && (peek l1 =? rune ".")) eqn:Hdot;
      [|injection H2 as <-; exact Hq1].
    destruct (negb (peekNext l1 =? rune ".") && isDigit (peekNext l1));
      [|injection H2 as <-; exact Hq1].
    apply andb_true_iff in Hdot as [Hend Hp]. apply negb_true_iff in Hend.
    apply Z.eqb_eq in Hp.
    eapply scanDigits_quiet; [|exact H2].
    apply advance_quiet; [exact Hq1|exact Hend|]. intros _.
    rewrite Hp. discriminate. }
  match type of Hscan with
  | match ?x with _ => _ end = _ => destruct x as [l3|] eqn:H3; [|discriminate]
  end.
  injection Hscan as <-. simpl.
  split; [|apply textual_token; discriminate].
  cbv zeta in H3.
  destruct (negb (isAtEnd l2) && ((peek l2 =? rune "e") || (peek l2 =? rune "E"))) eqn:He;
    [|injection H3 as <-; exact Hq2].
  apply andb_true_iff in He as [Hend Hp]. apply negb_true_iff in Hend.
  assert (quiet l2 (advance l2).2) as Hq3.
  { apply advance_quiet; [apply quiet_refl; eapply frame_in_source, quiet_frame, Hq2
                         |exact Hend|].
    intros _ H10. rewrite H10 in Hp. discriminate Hp. }
  set (l3' := (advance l2).2) in *.
  set (l4 := if negb (isAtEnd l3') && ((peek l3' =? rune "+") || (peek l3' =? rune "-"))
             then (advance l3').2 else l3') in *.
  assert (quiet l2 l4) as Hq4.
  { subst l4. destruct (negb (isAtEnd l3') && _) eqn:Hs; [|exact Hq3].
    apply andb_true_iff in Hs as [Hend' Hp']. apply negb_true_iff in Hend'.
    apply advance_quiet; [exact Hq3|exact Hend'|].
    intros _ H10. rewrite H10 in Hp'. discriminate Hp'. }
  destruct (isAtEnd l4 || negb (isDigit (peek l4))).
  - injection H3 as <-. apply set_current_back; assumption.
  - eapply scanDigits_quiet; [|exact H3]. eapply quiet_trans; eassumption.
Qed.

(** A step over the character after a backslash. *)
Lemma advance_escape l0 l :
  quiet l0 l -> isAtEnd l = false -> peek l = rune "\" ->
  quiet l0 (advance l).2 /\
  (isAtEnd (advance l).2 = false -> quiet l0 (advance (advance l).2).2).
Proof.
  intros Hq Hend Hp.
  assert (quiet l0 (advance l).2) as Hq1.
  { apply advance_quiet; [exact Hq|exact Hend|]. intros _. rewrite Hp. discriminate. }
  split; [exact Hq1|]. intros Hend1.
  apply advance_quiet; [exact Hq1|exact Hend1|]. intros [_ Ht] H10.
  destruct (peek_ascii l (rune "\") Hend Hp) as [Hb Hcur]; [reflexivity|].
  apply peek_newline in H10; [|exact Hend1].
  assert (source l = source l0) as Hsrc by (destruct Hq as ((? & _) & _); assumption).
  rewrite advance_fields in H10. simpl in H10. rewrite Hcur, Hsrc in H10.
  rewrite Hsrc in Hb. exact (Ht _ Hb H10).
Qed.

Lemma scanString_spec l0 l r :
  quiet l0 l -> scanString l = Some r -> quiet l0 r.2 /\ textual r.
Proof.
  intros Hq Hloop. unfold scanString in Hloop.
  eapply (loop_inv (fun st => quiet l0 st) (fun r => quiet l0 r.2 /\ textual r));
    [|exact Hq|exact Hloop].
  intros st Hst. cbv beta.
  destruct (isAtEnd st) eqn:Hend; [split; [exact Hst|apply textual_invalid]|]. cbv zeta.
  destruct (peek st =? doubleQuote) eqn:Hquote.
  { apply Z.eqb_eq in Hquote. split; [|apply textual_token; discriminate]. simpl.
    apply advance_quiet; [exact Hst|exact Hend|]. intros _. rewrite Hquote. discriminate. }
  destruct (peek st =? 10) eqn:H10; [split; [exact Hst|apply textual_invalid]|].
  apply Z.eqb_neq in H10.
  destruct (peek st =? rune "\") eqn:Hbs.
  - apply Z.eqb_eq in Hbs. destruct (advance_escape l0 st Hst Hend Hbs) as [H1 H2].
    destruct (isAtEnd (advance st).2) eqn:Hend1; simpl; [exact H1|].
    apply H2. reflexivity.
  - apply advance_quiet; [exact Hst|exact Hend|]. intros _. exact H10.
Qed.

Lemma scanChar_spec l0 l :
  quiet l0 l -> quiet l0 (scanChar l).2 /\ textual (scanChar l).
Proof.
  intros Hq. unfold scanChar.
  destruct (isAtEnd l) eqn:Hend; [split; [exact Hq|apply textual_invalid]|]. cbv zeta.
  destruct (peek l =? 10) eqn:H10; [split; [exact Hq|apply textual_invalid]|].
  apply Z.eqb_neq in H10.
  set (l1 := if peek l =? rune "\"
             then if negb (isAtEnd (advance l).2)
                  then (advance (advance l).2).2 else (advance l).2
             else (advance l).2).
  assert (quiet l0 l1) as Hq1.
  { subst l1. destruct (peek l =? rune "\") eqn:Hbs.
    - apply Z.eqb_eq in Hbs. destruct (advance_escape l0 l Hq Hend Hbs) as [H1 H2].
      destruct (isAtEnd (advance l).2) eqn:Hend1; simpl; [exact H1|].
      apply H2. reflexivity.
    - apply advance_quiet; [exact Hq|exact Hend|]. intros _. exact H10. }
  destruct (isAtEnd l1 || negb (peek l1 =? rune "'")) eqn:Hclose;
    [split; [exact Hq1|apply textual_invalid]|].
  apply orb_false_iff in Hclose as [Hend1 Hp]. apply negb_false_iff in Hp.
  apply Z.eqb_eq in Hp.
  split; [|apply textual_token; discriminate]. simpl.
  apply advance_quiet; [exact Hq1|exact Hend1|]. intros _. rewrite Hp. discriminate.
Qed.

Lemma scanLineComment_spec l0 l r :
  quiet l0 l -> scanLineComment l = Some r -> quiet l0 r.2 /\ textual r.
Proof.
  intros Hq Hscan. unfold scanLineComment in Hscan.
  match type of Hscan with
  | match ?x with _ => _ end = _ => destruct x as [l'|] eqn:Hloop; [|discriminate]
  end.
  injection Hscan as <-. simpl.
  split; [|apply textual_token; discriminate].
  eapply (loop_inv (fun st => quiet l0 st) (fun l' => quiet l0 l')); [|exact Hq|exact Hloop].
  intros st Hst. cbv beta. destruct (isAtEnd st) eqn:Hend; simpl; [exact Hst|].
  destruct (peek st =? 10) eqn:H10; simpl; [exact Hst|].
  apply Z.eqb_neq in H10.
  apply advance_quiet; [exact Hst|exact Hend|]. intros _. exact H10.
Qed.

(** [peekNext] is [peek] after one step. *)
Lemma peekNext_advance l c :
  isAtEnd l = false -> peekNext l = c -> c <> 0 -> c <> RuneError ->
  isAtEnd (advance l).2 = false /\ peek (advance l).2 = c.
Proof.
  intros Hend Hp H0 Herr. unfold peekNext in Hp.
  destruct (len (source l) <=? current l + 1) eqn:Hlen; [congruence|].
  unfold advance. rewrite Hend.
  destruct (DecodeRuneInString (source l) (current l)) as [ch size] eqn:Hdec.
  simpl.
  assert (isAtEnd (set_current (current l + size) l) = false) as Hend1.
  { unfold isAtEnd. simpl. apply Z.leb_gt.
    destruct (Z_lt_ge_dec (current l + size) (len (source l))) as [Hlt|Hge]; [exact Hlt|].
    exfalso. apply Herr. rewrite <- Hp. unfold DecodeRuneInString. cbv zeta.
    replace (len (source l) - (current l + size) <? 1) with true
      by (symmetry; apply Z.ltb_lt; lia). reflexivity. }
  split; [exact Hend1|]. unfold peek. rewrite Hend1. simpl. exact Hp.
Qed.

Definition of_block_comment (r : Scanned) : Prop :=
  r = invalid r.2 UnterminatedBlockComment \/
  r = token r.2 TokenComment (slice (source r.2) (start r.2) (current r.2)).

Lemma scanBlockComment_spec l0 l r :
  counted l0 l -> scanBlockComment l = Some r ->
  counted l0 r.2 /\ textual r /\ of_block_comment r.
Proof.
  intros Hc Hscan. unfold scanBlockComment in Hscan.
  match type of Hscan with
  | match ?x with _ => _ end = _ =>
      destruct x as [[l' depth]|] eqn:Hloop; [|discriminate]
  end.
  assert (counted l0 l') as Hc'.
  { refine (loop_inv (fun st : Lexer * Z => counted l0 st.1)
              (fun st : Lexer * Z => counted l0 st.1) _ _ _ (l, 1) (l', depth) Hc Hloop).
    intros [st d] Hst. simpl in Hst. cbv beta iota.
    destruct (isAtEnd st) eqn:Hend; simpl; [exact Hst|].
    destruct (0 <? d); [|exact Hst]. cbv zeta.
    assert (quiet st st) as Hself
      by (apply quiet_refl; destruct Hst as (Hf & _); eapply frame_in_source, Hf).
    assert (forall c c', peek st = c -> peekNext st = c' ->
              c <> 10 -> c' <> 10 -> c' <> 0 -> c' <> RuneError ->
              counted l0 (advance (advance st).2).2) as Htwo.
    { intros c c' Hp Hn Hc10 Hc'10 Hc'0 Herr.
      destruct (peekNext_advance st c' Hend Hn Hc'0 Herr) as [Hend1 Hp1].
      eapply counted_quiet; [exact Hst|].
      apply advance_quiet; [|exact Hend1|intros _; congruence].
      apply advance_quiet; [exact Hself|exact Hend|intros _; congruence]. }
    destruct ((peek st =? rune "/") && (peekNext st =? rune "*")) eqn:Hopen.
    { apply andb_true_iff in Hopen as [H1 H2]. apply Z.eqb_eq in H1, H2.
      simpl. eapply Htwo; eauto; discriminate. }
    destruct ((peek st =? rune "*") && (peekNext st =? rune "/")) eqn:Hclose.
    { apply andb_true_iff in Hclose as [H1 H2]. apply Z.eqb_eq in H1, H2.
      simpl. eapply Htwo; eauto; discriminate. }
    simpl. destruct (peek st =? 10) eqn:H10.
    - apply Z.eqb_eq in H10.
      destruct (peek_ascii st 10 Hend H10) as [Hb Hcur]; [lia|].
      rewrite advance_fields. unfold advance. simpl.
      replace (isAtEnd (set_lineStart (current st + 1) (set_line (line st + 1) st)))
        with (isAtEnd st) by reflexivity.
      rewrite Hend.
      replace (current (let '(ch, size) := DecodeRuneInString (source st) (current st) in
                        (ch, size,
                         set_current (current st + size)
                           (set_lineStart (current st + 1) (set_line (line st + 1) st)))).2)
        with (current (advance st).2)
        by (unfold advance; rewrite Hend;
            destruct (DecodeRuneInString (source st) (current st)); reflexivity).
      rewrite Hcur.
      destruct Hst as [(Hs & Hf & Hstart & Hcr & Hln) Hok].
      pose proof (isAtEnd_false st Hend) as Hlt.
      split.
      + unfold frame. simpl. rewrite <- Hs at 2. repeat split; try assumption; lia.
      + intros Ht Hl0. destruct (Hok Ht Hl0) as [E1 E2].
        destruct (lines_newline (source st) (current st)) as [N1 N2]; [lia|exact Hb|].
        unfold lines_ok. simpl. rewrite N1, N2, E1. auto.
    - apply Z.eqb_neq in H10. eapply counted_quiet; [exact Hst|].
      apply advance_quiet; [exact Hself|exact Hend|intros _; exact H10]. }
  destruct (0 <? depth); injection Hscan as <-; simpl;
    (split; [exact Hc'|]);
    [split; [apply textual_invalid|left; reflexivity]
    |split; [apply textual_token; discriminate|right; reflexivity]].
Qed.

(** *** The text of the operators *)

Lemma substring_snoc s : forall n m c,
  String.get (n + m) s = Some c ->
  String.substring n (S m) s = String.substring n m s +:+ String c "".
Proof.
  induction s as [|x s IH]; intros n m c Hget; [destruct (n + m)%nat; discriminate|].
  destruct n as [|n].
  - destruct m as [|m].
    + simpl in Hget. injection Hget as ->. simpl. destruct s; reflexivity.
    + simpl in Hget. cbn [String.substring]. rewrite append_cons. f_equal.
      change (String.substring 0 (S m) s = String.substring 0 m s +:+ String c "").
      apply IH. exact Hget.
  - simpl in Hget. cbn [String.substring]. apply IH. exact Hget.
Qed.

Definition byteChar (b : Z) : ascii := ascii_of_nat (Z.to_nat b).

Lemma slice_snoc s a b :
  0 <= a <= b -> b < len s ->
  slice s a (b + 1) = slice s a b +:+ String (byteChar (byteAt s b)) "".
Proof.
  intros Hab Hb. unfold slice.
  replace (Z.to_nat (b + 1 - a)) with (S (Z.to_nat (b - a))) by lia.
  apply substring_snoc.
  replace (Z.to_nat a + Z.to_nat (b - a))%nat with (Z.to_nat b) by lia.
  unfold byteAt, byteChar, len in *.
  destruct (String.get (Z.to_nat b) s) as [c|] eqn:Hget.
  - rewrite Nat2Z.id, ascii_nat_embedding. reflexivity.
  - exfalso. clear -Hget Hb Hab.
    assert (Z.to_nat b < String.length s)%nat as Hlt by lia.
    revert Hget Hlt. generalize (Z.to_nat b). clear.
    induction s as [|x s IH]; intros n Hget Hlt; simpl in *; [lia|].
    destruct n; [discriminate|]. apply (IH n); [exact Hget|lia].
Qed.

Lemma slice_empty s a : slice s a a = "".
Proof.
  unfold slice. rewrite Z.sub_diag. simpl.
  generalize (Z.to_nat a). induction s as [|x s IH]; intros [|n]; simpl; auto.
Qed.

(** [lit_ok l2 l lit]: from the token's start the lexer went over the
    text [lit]. *)
Definition lit_ok (l2 l : Lexer) (lit : string) : Prop :=
  quiet l2 l /\
  slice (source l2) (current l2) (current l) = lit /\
  current l = current l2 + len lit.

Lemma lit_step l2 l lit c :
  lit_ok l2 l lit -> isAtEnd l = false -> peek l = c -> c < 128 -> c <> 10 ->
  lit_ok l2 (advance l).2 (lit +:+ String (byteChar c) "").
Proof.
  intros (Hq & Hs & Hc) Hend Hp H128 H10.
  destruct (peek_ascii l c Hend Hp H128) as [Hb Hcur].
  assert (source l = source l2) as Hsrc by (destruct Hq as ((? & _) & _); assumption).
  pose proof (isAtEnd_false l Hend) as Hlt.
  assert (0 <= current l2 <= current l) as Hr
    by (destruct Hq as ((_ & _ & _ & ? & _) & _); lia).
  split; [|split].
  - apply advance_quiet; [exact Hq|exact Hend|]. intros _. congruence.
  - rewrite Hcur, slice_snoc by (rewrite <- ?Hsrc; lia).
    rewrite Hs, <- Hsrc, Hb. reflexivity.
  - rewrite Hcur, Hc, len_append. unfold len. simpl. lia.
Qed.

Lemma match_lit l2 l lit e m l' :
  lit_ok l2 l lit -> e < 128 -> e <> 10 -> match_ e l = (m, l') ->
  (m = false /\ l' = l) \/
  (m = true /\ lit_ok l2 l' (lit +:+ String (byteChar e) "")).
Proof.
  intros Hlit H128 H10 Hm. unfold match_ in Hm.
  destruct (isAtEnd l) eqn:Hend; [injection Hm as <- <-; left; auto|].
  pose proof (lit_step l2 l lit e Hlit Hend) as Hstep.
  unfold peek in Hstep. rewrite Hend in Hstep.
  unfold advance in Hstep. rewrite Hend in Hstep.
  destruct (DecodeRuneInString (source l) (current l)) as [ch size].
  simpl in Hstep.
  destruct (ch =? e) eqn:He; simpl in Hm; injection Hm as <- <-; [|left; auto].
  apply Z.eqb_eq in He. right. split; [reflexivity|]. apply Hstep; assumption.
Qed.

Definition dotted (r : Scanned) : Prop :=
  r = token r.2 TokenDot "." /\
  slice (source r.2) (start r.2) (current r.2) = "..".

(** What [NextToken] does after the whitespace, from the lexer [l2]
    with [start] set. *)
Definition tokenized (l2 : Lexer) (r : Scanned) : Prop :=
  counted l2 r.2 /\ current l2 < current r.2 /\ (textual r \/ dotted r) /\
  (quiet l2 r.2 \/ of_block_comment r).

Lemma leaf_token l2 l lit tokenType :
  start l2 = current l2 -> lit_ok l2 l lit -> 0 < len lit ->
  tokenType <> TokenInvalid -> tokenType <> TokenEOF ->
  tokenized l2 (token l tokenType lit).
Proof.
  intros Hstart (Hq & Hs & Hc) Hlen H1 H2.
  split; [apply quiet_counted; exact Hq|]. split; [simpl; lia|].
  split; [|left; exact Hq]. left.
  right. exists tokenType. split; [exact H1|]. split; [exact H2|]. simpl.
  destruct Hq as ((Hsrc & _ & Hst & _) & _). rewrite Hsrc, Hst, Hstart, Hs. reflexivity.
Qed.

Lemma leaf_dotted l2 l :
  start l2 = current l2 -> lit_ok l2 l ".." -> tokenized l2 (token l TokenDot ".").
Proof.
  intros Hstart (Hq & Hs & Hc).
  split; [apply quiet_counted; exact Hq|]. split; [simpl; unfold len in Hc; simpl in Hc; lia|].
  split; [|left; exact Hq].
  right. split; [reflexivity|]. simpl.
  destruct Hq as ((Hsrc & _ & Hst & _) & _). rewrite Hsrc, Hst, Hstart, Hs. reflexivity.
Qed.

Lemma leaf_scanned l2 l lit r :
  lit_ok l2 l lit -> 0 < len lit -> quiet l r.2 -> textual r -> tokenized l2 r.
Proof.
  intros (Hq & _ & Hc) Hlen Hq' Ht.
  split; [apply quiet_counted; eapply quiet_trans; eassumption|].
  split; [|split; [left; exact Ht|left; eapply quiet_trans; eassumption]].
  destruct Hq' as ((_ & _ & _ & ? & _) & _). lia.
Qed.

Lemma leaf_counted l2 l lit r :
  lit_ok l2 l lit -> 0 < len lit ->
  counted l r.2 /\ textual r /\ of_block_comment r -> tokenized l2 r.
Proof.
  intros (Hq & _ & Hc) Hlen (Hc' & Ht & Hb).
  split; [eapply counted_trans; [apply quiet_counted; exact Hq|exact Hc']|].
  split; [|split; [left; exact Ht|right; exact Hb]].
  destruct Hc' as ((_ & _ & _ & ? & _) & _). lia.
Qed.

Lemma lit_ok_eq l2 l lit lit' : lit_ok l2 l lit -> lit = lit' -> lit_ok l2 l lit'.
Proof. intros H <-. exact H. Qed.

Lemma advance_peek l : isAtEnd l = false -> (advance l).1.1 = peek l.
Proof.
  intros H. unfold advance, peek. rewrite H.
  destruct (DecodeRuneInString (source l) (current l)). reflexivity.
Qed.

Lemma tokenized_of_quiet l2 l3 r :
  quiet l2 l3 -> current l2 < current l3 -> quiet l3 r.2 -> textual r -> tokenized l2 r.
Proof.
  intros H2 Hlt H3 Ht.
  split; [apply quiet_counted; eapply quiet_trans; eassumption|].
  split; [|split; [left; exact Ht|left; eapply quiet_trans; eassumption]].
  destruct H3 as ((_ & _ & _ & ? & _) & _). lia.
Qed.

Ltac closed_ne := let X := fresh in intros X; vm_compute in X; discriminate X.

Ltac match_steps :=
  repeat match goal with
  | H : Some _ = Some _ |- _ => injection H as <-
  | H : context [match_ ?e ?l0], Hlit : lit_ok _ ?l0 _ |- _ =>
      let m := fresh "m" in
      let l' := fresh "l" in
      let Hm := fresh "Hm" in
      let Hlit' := fresh "Hlit" in
      destruct (match_ e l0) as [m l'] eqn:Hm;
      destruct (match_lit _ l0 _ e m l' Hlit ltac:(reflexivity) ltac:(closed_ne) Hm)
        as [[-> ->]|[-> Hlit']];
      clear Hm; [|clear Hlit]; cbv beta iota in H
  end.

Ltac leaf Hstart :=
  match goal with
  | Hlit : lit_ok _ ?l _ |- tokenized _ (token ?l _ _) =>
      first
        [ eapply leaf_token;
          [exact Hstart|eapply lit_ok_eq; [exact Hlit|reflexivity]
          |reflexivity|discriminate|discriminate]
        | eapply leaf_dotted; [exact Hstart|eapply lit_ok_eq; [exact Hlit|reflexivity]] ]
  | Hlit : lit_ok _ ?l _, H : scanLineComment ?l = Some _ |- _ =>
      eapply leaf_scanned; [exact Hlit|reflexivity| |];
      eapply scanLineComment_spec;
      try exact H; apply quiet_refl; eapply frame_in_source, quiet_frame, Hlit
  | Hlit : lit_ok _ ?l _, H : scanBlockComment ?l = Some _ |- _ =>
      eapply leaf_counted; [exact Hlit|reflexivity|];
      eapply scanBlockComment_spec;
      try exact H; apply quiet_counted, quiet_refl; eapply frame_in_source, quiet_frame, Hlit
  end.

(** [NextToken]: the whitespace, then the end-of-input token at the end
    of the source, or else a token of at least one byte. *)
Lemma NextToken_spec l r :
  in_source l -> NextToken IsLetter l = Some r ->
  exists l1,
    skipWhitespace l = Some l1 /\
    ((isAtEnd l1 = true /\ r = token (set_start (current l1) l1) TokenEOF "") \/
     (isAtEnd l1 = false /\ tokenized (set_start (current l1) l1) r)).
Proof.
  intros Hl H. unfold NextToken in H.
  destruct (skipWhitespace l) as [l1|] eqn:Hskip; [|discriminate].
  exists l1. split; [reflexivity|].
  destruct (skipWhitespace_spec l l1 Hl Hskip) as (Hc1 & Hws & Hnws).
  cbv zeta in H. set (l2 := set_start (current l1) l1) in *.
  change (isAtEnd l1) with (isAtEnd l2).
  destruct (isAtEnd l2) eqn:Hend; [left; injection H as <-; auto|].
  right. split; [reflexivity|].
  assert (0 <= current l2 <= len (source l2)) as Hl2
    by (destruct Hc1 as (Hf & _); exact (frame_in_source _ _ Hf)).
  assert (start l2 = current l2) as Hstart by reflexivity.
  assert (lit_ok l2 l2 "") as Hempty.
  { split; [apply quiet_refl; exact Hl2|]. split; [apply slice_empty|].
    unfold len. simpl. lia. }
  pose proof (advance_peek l2 Hend) as Hpeek.
  assert (~ is_ws (peek l2)) as Hns by (apply Hnws; exact Hend).
  pose proof (advance_extends l2 l2 (extends_refl l2 (proj2 Hl2))) as [_ Hprog].
  specialize (Hprog Hend).
  assert (quiet l2 (advance l2).2) as Hq3.
  { apply advance_quiet; [apply quiet_refl; exact Hl2|exact Hend|].
    intros _ H10. apply Hns. unfold is_ws. auto. }
  pose proof (fun c => lit_step l2 l2 "" c Hempty Hend) as Hfirst.
  destruct (advance l2) as [[ch size] l3] eqn:Hadv. simpl in Hpeek, Hprog, Hq3, Hfirst.
  assert (quiet l3 l3) as Hself
    by (apply quiet_refl; eapply frame_in_source, quiet_frame, Hq3).
  destruct (isLetter IsLetter ch).
  { destruct (scanIdentifier_spec l3 l3 r Hself H) as [Hq Ht].
    eapply tokenized_of_quiet; eassumption. }
  destruct (isDigit ch).
  { destruct (scanNumber_spec l3 l3 r Hself H) as [Hq Ht].
    eapply tokenized_of_quiet; eassumption. }
  repeat match type of H with
  | (if ?c =? ?k then _ else _) = _ =>
      let E := fresh "E" in
      destruct (c =? k) eqn:E;
      [ apply Z.eqb_eq in E;
        let Hlit := fresh "Hlit" in
        pose proof (Hfirst k (eq_trans (eq_sym Hpeek) E) ltac:(reflexivity) ltac:(closed_ne))
          as Hlit;
        clear Hfirst; try (match_steps; leaf Hstart)
      | ]
  end.
  - destruct (scanString_spec l3 l3 r Hself H) as [Hq Ht].
    eapply tokenized_of_quiet; eassumption.
  - injection H as <-. destruct (scanChar_spec l3 l3 Hself) as [Hq Ht].
    eapply tokenized_of_quiet; eassumption.
  - injection H as <-. eapply tokenized_of_quiet; [exact Hq3|exact Hprog| |].
    + exact Hself.
    + apply textual_invalid.
Qed.

(** *** Along the token sequence *)

Section along.
Variables (src fname : string).

(** The lexer states between two calls of [NextToken] on [src]. *)
Definition reach (l : Lexer) : Prop :=
  in_source l /\ source l = src /\ filename l = fname /\ 1 <= line l /\
  (tame src -> lines_ok l).

Lemma reach_New : reach (New src fname).
Proof.
  unfold reach, in_source, len. simpl. repeat split; try lia.
Qed.

(** One call, seen from outside. *)
Definition viewed (l : Lexer) (tok : Token) (err : option LexError) (l' : Lexer) : Prop :=
  let off := Offset (Pos tok) in
  (current l <= off /\ forall k, current l <= k < off -> is_ws (byteAt src k)) /\
  (current l' = off + Length tok /\ 0 <= Length tok /\ 0 <= off /\
   off + Length tok <= len src) /\
  Pos tok = mkPosition fname (line l') (off - lineStart l' + 1) off /\
  ((Length tok = 0 <-> Type_ tok = TokenEOF) /\ (Type_ tok = TokenEOF -> off = len src)) /\
  ((err = None <-> Type_ tok <> TokenInvalid) /\ (err <> None -> Lexeme tok = "")) /\
  (err = None ->
   Lexeme tok = slice src off (off + Length tok) \/
   (Type_ tok = TokenDot /\ Lexeme tok = "." /\ slice src off (off + Length tok) = "..")) /\
  (tame src -> Type_ tok <> TokenComment ->
   (forall e, err = Some e -> err_message e <> UnterminatedBlockComment) ->
   clean src off (off + Length tok)).

Lemma NextToken_view l tok err l' :
  reach l -> NextToken IsLetter l = Some (tok, err, l') ->
  reach l' /\ viewed l tok err l'.
Proof.
  intros (Hin & Hsrc & Hfn & Hline & Hok) Hnext.
  destruct (NextToken_spec l _ Hin Hnext) as (l1 & Hskip & Hcase).
  destruct (skipWhitespace_spec l l1 Hin Hskip) as (Hc1 & Hws & _).
  destruct Hc1 as [(Hs1 & Hf1 & Hst1 & Hcur1 & Hln1) Hok1].
  rewrite Hsrc in *.
  set (l2 := set_start (current l1) l1) in *.
  assert (tame src -> lines_ok l2) as Hok2 by (intros Ht; apply (Hok1 Ht (Hok Ht))).
  destruct Hcase as [[Hend Hr]|[Hend Hr]].
  - injection Hr as -> -> ->. apply isAtEnd_true in Hend. rewrite Hs1 in Hend.
    assert (current l1 = len src) as Hlen by lia.
    split.
    + unfold reach. split; [unfold in_source; simpl; rewrite Hs1; lia|].
      split; [exact Hs1|]. split; [simpl; congruence|]. split; [simpl; lia|exact Hok2].
    + unfold viewed, l2, makeToken, currentPosition. simpl. rewrite Hf1, Hfn.
      replace (current l1 - current l1) with 0 by lia. rewrite Z.add_0_r.
      split; [split; [lia|exact Hws]|]. split; [lia|]. split; [f_equal; lia|].
      split; [split; [split; auto|auto]|].
      split; [split; [split; [discriminate|reflexivity]
                     |intros X; exfalso; apply X; reflexivity]|].
      split; [intros _; left; rewrite slice_empty; reflexivity|].
      intros _ _ _ k Hk. lia.
  - destruct Hr as ([(Hs' & Hf' & Hst' & Hcur' & Hln') Hok'] & Hprog & Hshape & Horigin).
    unfold l2 in Hs', Hf', Hst', Hcur', Hln', Hprog.
    simpl in Hs', Hf', Hst', Hcur', Hln', Hprog, Hok'. rewrite Hs1 in Hs', Hcur', Hok'.
    assert (reach l') as Hreach.
    { unfold reach. split; [unfold in_source; rewrite Hs'; lia|].
      split; [exact Hs'|]. split; [simpl in *; congruence|].
      split; [simpl in *; lia|].
      intros Ht. apply (Hok' Ht). apply (Hok2 Ht). }
    split; [exact Hreach|].
    assert (forall tokenType lexeme,
              tok = makeToken l' tokenType lexeme ->
              (current l <= Offset (Pos tok) /\
               forall k, current l <= k < Offset (Pos tok) -> is_ws (byteAt src k)) /\
              (current l' = Offset (Pos tok) + Length tok /\ 0 <= Length tok /\
               0 <= Offset (Pos tok) /\ Offset (Pos tok) + Length tok <= len src) /\
              Pos tok = mkPosition fname (line l')
                          (Offset (Pos tok) - lineStart l' + 1) (Offset (Pos tok)) /\
              0 < Length tok /\ Offset (Pos tok) = current l1) as Hfields.
    { intros tokenType lexeme ->. unfold makeToken, currentPosition. simpl.
      rewrite Hst', Hf', Hf1, Hfn. repeat split; try lia. exact Hws. }
    assert (tame src -> (quiet l2 l' \/ of_block_comment (tok, err, l')) ->
            Type_ tok <> TokenComment ->
            (forall e, err = Some e -> err_message e <> UnterminatedBlockComment) ->
            clean src (current l1) (current l')) as Hclean.
    { intros Ht [(_ & _ & _ & Hc)|[Hb|Hb]] Hty Herr.
      - simpl in Hc. rewrite Hs1 in Hc. apply Hc. exact Ht.
      - injection Hb as -> ->. exfalso. eapply Herr; reflexivity.
      - injection Hb as -> ->. exfalso. apply Hty. reflexivity. }
    destruct Hshape as [[[message Hr]|(tokenType & Hne1 & Hne2 & Hr)]|[Hr Hdots]];
      simpl in Hr; injection Hr as Htok Herr;
      destruct (Hfields _ _ Htok) as (Hv1 & Hv2 & Hv3 & Hlen & Hoff);
      unfold viewed; cbv zeta;
      (split; [exact Hv1|]); (split; [exact Hv2|]); (split; [exact Hv3|]);
      assert (Offset (Pos tok) + Length tok = current l') as Hend' by lia;
      rewrite Hend', Hoff.
    + assert (Type_ tok = TokenInvalid) as Hty by (rewrite Htok; reflexivity).
      assert (Lexeme tok = "") as Hlex by (rewrite Htok; reflexivity).
      rewrite Hty, Hlex, Herr.
      split; [split; [split; [lia|discriminate]|discriminate]|].
      split; [split; [split; [discriminate|intros X; exfalso; apply X; reflexivity]
                     |reflexivity]|].
      split; [discriminate|].
      intros Ht Hcom He. apply Hclean; [exact Ht|exact Horigin|congruence|].
      rewrite Herr. exact He.
    + assert (Type_ tok = tokenType) as Hty by (rewrite Htok; reflexivity).
      assert (Lexeme tok = slice src (current l1) (current l')) as Hlex.
      { rewrite Htok. simpl. rewrite Hs', Hst'. reflexivity. }
      rewrite Hty, Herr.
      split; [split; [split; [lia|congruence]|congruence]|].
      split; [split; [split; [congruence|reflexivity]|congruence]|].
      split; [intros _; left; exact Hlex|].
      intros Ht Hcom He. apply Hclean; [exact Ht|exact Horigin|congruence|].
      rewrite Herr. exact He.
    + simpl in Hdots. rewrite Hs', Hst' in Hdots.
      assert (Type_ tok = TokenDot) as Hty by (rewrite Htok; reflexivity).
      assert (Lexeme tok = ".") as Hlex by (rewrite Htok; reflexivity).
      rewrite Hty, Hlex, Herr.
      split; [split; [split; [lia|discriminate]|discriminate]|].
      split; [split; [split; [discriminate|reflexivity]|congruence]|].
      split; [intros _; right; auto|].
      intros Ht Hcom He. apply Hclean; [exact Ht|exact Horigin|congruence|].
      rewrite Herr. exact He.
Qed.

End along.

Section sequence.
Variables (src fname : string).

Lemma tokenAfter_S n : forall l,
  tokenAfter IsLetter (S n) l =
  match tokenAfter IsLetter n l with
  | Some r => NextToken IsLetter r.2
  | None => None
  end.
Proof.
  induction n as [|n IH]; intros l.
  - simpl. destruct (NextToken IsLetter l) as [r|]; [|reflexivity].
    destruct (NextToken IsLetter r.2); reflexivity.
  - change (tokenAfter IsLetter (S (S n)) l)
      with (match NextToken IsLetter l with
            | None => None
            | Some r => tokenAfter IsLetter (S n) r.2
            end).
    change (tokenAfter IsLetter (S n) l)
      with (match NextToken IsLetter l with
            | None => None
            | Some r => tokenAfter IsLetter n r.2
            end).
    destruct (NextToken IsLetter l) as [r|]; [|reflexivity]. apply IH.
Qed.

Lemma tokenAfter_reach n : forall l r,
  reach src fname l -> tokenAfter IsLetter n l = Some r -> reach src fname r.2.
Proof.
  induction n as [|n IH]; intros l r Hl H; simpl in H;
    destruct (NextToken IsLetter l) as [[[tok err] l']|] eqn:Hnext; try discriminate;
    destruct (NextToken_view src fname l tok err l' Hl Hnext) as [Hreach _].
  - injection H as <-. exact Hreach.
  - apply (IH l'); assumption.
Qed.

(** The call that returned the result number [n]. *)
Lemma tokenAfter_call n l r :
  reach src fname l -> tokenAfter IsLetter n l = Some r ->
  exists lp,
    reach src fname lp /\ NextToken IsLetter lp = Some r /\
    match n with
    | O => lp = l
    | S n' => exists rp, tokenAfter IsLetter n' l = Some rp /\ lp = rp.2
    end.
Proof.
  intros Hl H. destruct n as [|n].
  - exists l. split; [exact Hl|]. split; [|reflexivity].
    simpl in H. destruct (NextToken IsLetter l); [exact H|discriminate].
  - rewrite tokenAfter_S in H.
    destruct (tokenAfter IsLetter n l) as [rp|] eqn:Hp; [|discriminate].
    exists rp.2. split; [eapply tokenAfter_reach; eassumption|].
    split; [exact H|]. exists rp. auto.
Qed.

Lemma tokenAfter_viewed n tok err l' :
  tokenAfter IsLetter n (New src fname) = Some (tok, err, l') ->
  exists lp,
    reach src fname lp /\ reach src fname l' /\ viewed src fname lp tok err l' /\
    match n with
    | O => lp = New src fname
    | S n' =>
        exists rp, tokenAfter IsLetter n' (New src fname) = Some rp /\ lp = rp.2
    end.
Proof.
  intros H.
  destruct (tokenAfter_call n _ _ (reach_New src fname) H) as (lp & Hlp & Hnext & Hn).
  destruct (NextToken_view src fname lp tok err l' Hlp Hnext) as [Hreach Hview].
  exists lp. auto.
Qed.

End sequence.

(** Every token is where its offset and length say.  The tokens lie
    within the source and only the end-of-input token is empty; an error
    comes with an invalid token and an empty lexeme, and otherwise the
    lexeme is the text [src[Offset : Offset+Length]], but for a dot that
    is followed by a second dot and not by a third: the lexer steps over
    the second dot and returns the token of one dot, two bytes long. *)
Theorem token_text (src fname : string) n tok err l' :
  tokenAfter IsLetter n (New src fname) = Some (tok, err, l') ->
  let off := Offset (Pos tok) in
  (0 <= off /\ 0 <= Length tok /\ off + Length tok <= len src /\
   current l' = off + Length tok) /\
  ((Length tok = 0 <-> Type_ tok = TokenEOF) /\ (Type_ tok = TokenEOF -> off = len src)) /\
  ((err = None <-> Type_ tok <> TokenInvalid) /\ (err <> None -> Lexeme tok = "")) /\
  (err = None ->
   Lexeme tok = slice src off (off + Length tok) \/
   (Type_ tok = TokenDot /\ Lexeme tok = "." /\ slice src off (off + Length tok) = "..")).
Proof.
  intros H. destruct (tokenAfter_viewed src fname n tok err l' H) as (lp & _ & _ & Hv & _).
  destruct Hv as (_ & (H1 & H2 & H3 & H4) & _ & H5 & H6 & H7 & _).
  cbv zeta. auto 10.
Qed.

(** Between the tokens there is whitespace only: the first token starts
    after whitespace, and each further token starts at or after the end
    of the token before it, with nothing but spaces, tabs, carriage
    returns and newlines in between. *)
Theorem token_gaps (src fname : string) n tok err l' :
  tokenAfter IsLetter n (New src fname) = Some (tok, err, l') ->
  (n = O -> forall k, 0 <= k < Offset (Pos tok) -> is_ws (byteAt src k)) /\
  (forall tok' err' l'',
      tokenAfter IsLetter (S n) (New src fname) = Some (tok', err', l'') ->
      Offset (Pos tok) + Length tok <= Offset (Pos tok') /\
      forall k, Offset (Pos tok) + Length tok <= k < Offset (Pos tok') ->
        is_ws (byteAt src k)).
Proof.
  intros H. split.
  - intros ->.
    destruct (tokenAfter_viewed src fname 0 tok err l' H) as (lp & _ & _ & Hv & Hlp).
    subst lp. destruct Hv as ((_ & Hws) & _). exact Hws.
  - intros tok' err' l'' H'.
    destruct (tokenAfter_viewed src fname n tok err l' H) as (lp0 & _ & _ & Hv & _).
    destruct (tokenAfter_viewed src fname (S n) tok' err' l'' H')
      as (lp & _ & _ & Hv' & rp & Hrp & Hlp).
    subst lp. rewrite H in Hrp. injection Hrp as <-. simpl in Hv'.
    destruct Hv as (_ & (Hcur & _) & _). destruct Hv' as ((Hle & Hws) & _).
    rewrite Hcur in Hle, Hws. auto.
Qed.

(** On a tame source the positions are right up to the unit of the
    column: the line is that of the offset the token ends at and the
    column is the byte distance of the token's start from the start of
    that line, plus one.  For every token that does not come from a block
    comment this is the line of its first byte and the byte column of its
    first byte in its line. *)
Theorem token_position (src fname : string) n tok err l' :
  tame src ->
  tokenAfter IsLetter n (New src fname) = Some (tok, err, l') ->
  let off := Offset (Pos tok) in
  Filename (Pos tok) = fname /\
  Line (Pos tok) = lineOf src (off + Length tok) /\
  Column (Pos tok) = off - lineStartOf src (off + Length tok) + 1 /\
  (Type_ tok <> TokenComment ->
   (forall e, err = Some e -> err_message e <> UnterminatedBlockComment) ->
   Line (Pos tok) = lineOf src off /\
   Column (Pos tok) = off - lineStartOf src off + 1).
Proof.
  intros Ht H.
  destruct (tokenAfter_viewed src fname n tok err l' H) as (lp & _ & Hr & Hv & _).
  destruct Hr as (_ & Hsrc & _ & _ & Hok). destruct (Hok Ht) as [Hline Hstart].
  destruct Hv as (_ & (Hcur & Hlen & Hoff & _) & Hpos & _ & _ & _ & Hclean).
  cbv zeta. rewrite Hsrc, Hcur in Hline, Hstart.
  assert (Filename (Pos tok) = fname /\
          Line (Pos tok) = line l' /\
          Column (Pos tok) = Offset (Pos tok) - lineStart l' + 1) as (Hf & Hl & Hc).
  { rewrite Hpos. simpl. auto. }
  rewrite Hl, Hc, Hline, Hstart. repeat split; try assumption.
  - destruct (lines_clean src (Offset (Pos tok)) (Offset (Pos tok) + Length tok))
      as [E _]; [lia|auto|exact E].
  - destruct (lines_clean src (Offset (Pos tok)) (Offset (Pos tok) + Length tok))
      as [_ E]; [lia|auto|rewrite E; reflexivity].
Qed.


Lemma runeCount_loop s : forall k i count,
  0 <= i <= len s -> len s - i < Z.of_nat k ->
  exists c,
    loop k
      (fun st : Z * Z =>
         let '(i, count) := st in
         if len s <=? i then inr count
         else
           let '(_, size) := DecodeRuneInString s i in
           inl (i + size, count + 1))
      (i, count) = Some c /\
    count <= c <= count + (len s - i).
Proof.
  induction k as [|k IH]; intros i count Hi Hfuel; [lia|].
  rewrite loop_S. cbv beta iota.
  destruct (len s <=? i) eqn:E; zbool.
  - exists count. split; [reflexivity|lia].
  - pose proof (DecodeRuneInString_size s i E) as Hsize.
    destruct (DecodeRuneInString s i) as [r size]. simpl in Hsize.
    destruct (IH (i + size) (count + 1)) as (c & Hc & Hb); [lia|lia|].
    exists c. split; [exact Hc|lia].
Qed.

(** [runeCount] returns, and a string has no more runes than bytes. *)
Lemma runeCount_returns s : exists c, runeCount s = Some c /\ 0 <= c <= len s.
Proof.
  destruct (runeCount_loop s (S (String.length s)) 0 0) as (c & Hc & Hb).
  - unfold len. lia.
  - unfold len. lia.
  - exists c. split; [exact Hc|lia].
Qed.

(** The span of every token is valid, starts at the token's position,
    holds that position, and is as long as the token: it ends
    [Length] bytes after the token's offset. *)
Theorem token_span (src fname : string) n tok err l' :
  tokenAfter IsLetter n (New src fname) = Some (tok, err, l') ->
  exists sp,
    Token_Span tok = Some sp /\
    Start sp = Pos tok /\
    Offset (End_ sp) = Offset (Pos tok) + Length tok /\
    Span_IsValid sp = true /\
    Contains sp (Pos tok) = true /\
    Span_Length sp = Length tok.
Proof.
  intros H.
  destruct (tokenAfter_viewed src fname n tok err l' H) as (lp & _ & Hr & Hv & _).
  destruct Hr as (_ & _ & _ & Hline & _).
  destruct Hv as (_ & (_ & Hlen & _) & Hpos & _).
  destruct (runeCount_returns (Lexeme tok)) as (c & Hc & _).
  unfold Token_Span. rewrite Hc. eexists. split; [reflexivity|].
  assert (Line (Pos tok) = line l') as Hl by (rewrite Hpos; reflexivity).
  unfold Span_Length, Span_IsValid, Contains, Position_IsValid, Before, After.
  simpl. rewrite Hl.
  replace (0 <? line l') with true by (symmetry; apply Z.ltb_lt; lia).
  replace (Offset (Pos tok) + Length tok <? Offset (Pos tok)) with false
    by (symmetry; apply Z.ltb_ge; lia).
  replace (Offset (Pos tok) <? Offset (Pos tok)) with false
    by (symmetry; apply Z.ltb_ge; lia).
  simpl. repeat split; lia.
Qed.


End with_unicode.

(** A source of two lines: [a], a newline, and [  >= b]. *)
Definition sample_source : string := String "a" (String "010" "  >= b").

Lemma sample_tame : tame IsLetter_ascii sample_source.
Proof.
  split; [reflexivity|]. intros i H. exfalso. unfold byteAt in H.
  generalize dependent (Z.to_nat i). clear i. intros k H.
  do 9 (destruct k as [|k]; [discriminate H|]).
  discriminate H.
Qed.

(** Its second token, [>=], and the lexer after it. *)
Definition sample_token : Token :=
  mkToken TokenGreaterEqual ">=" (mkPosition "a.src" 2 3 4) 2.

Definition sample_lexer : Lexer := mkLexer sample_source "a.src" 4 6 2 2.

Lemma token_text_witness :
  tokenAfter IsLetter_ascii 1 (New sample_source "a.src")
    = Some (sample_token, None, sample_lexer) /\
  Lexeme sample_token = slice sample_source 4 6.
Proof.
  split; [vm_compute; reflexivity|].
  destruct (token_text IsLetter_ascii sample_source "a.src" 1
              sample_token None sample_lexer) as (_ & _ & _ & H);
    [vm_compute; reflexivity|].
  destruct (H eq_refl) as [E|[E _]]; [exact E|discriminate E].
Defined.

Lemma token_gaps_witness :
  tokenAfter IsLetter_ascii 1 (New sample_source "a.src")
    = Some (sample_token, None, sample_lexer) /\
  is_ws (byteAt sample_source 6).
Proof.
  split; [vm_compute; reflexivity|].
  destruct (token_gaps IsLetter_ascii sample_source "a.src" 1
              sample_token None sample_lexer) as [_ H];
    [vm_compute; reflexivity|].
  destruct (H (mkToken TokenIdentifier "b" (mkPosition "a.src" 2 6 7) 1) None
              (mkLexer sample_source "a.src" 7 8 2 2)) as [_ Hws];
    [vm_compute; reflexivity|].
  apply Hws. simpl. lia.
Defined.

Lemma token_position_witness :
  tame IsLetter_ascii sample_source /\
  tokenAfter IsLetter_ascii 1 (New sample_source "a.src")
    = Some (sample_token, None, sample_lexer) /\
  Line (Pos sample_token) = lineOf sample_source 4 /\
  Column (Pos sample_token) = 4 - lineStartOf sample_source 4 + 1.
Proof.
  split; [exact sample_tame|]. split; [vm_compute; reflexivity|].
  destruct (token_position IsLetter_ascii sample_source "a.src" 1
              sample_token None sample_lexer) as (_ & _ & _ & H);
    [exact sample_tame|vm_compute; reflexivity|].
  apply H; [discriminate|discriminate].
Defined.

Lemma token_span_witness :
  tokenAfter IsLetter_ascii 1 (New sample_source "a.src")
    = Some (sample_token, None, sample_lexer) /\
  exists sp, Token_Span sample_token = Some sp /\ Span_Length sp = 2.
Proof.
  split; [vm_compute; reflexivity|].
  destruct (token_span IsLetter_ascii sample_source "a.src" 1
              sample_token None sample_lexer) as (sp & Hsp & _ & _ & _ & _ & Hlen);
    [vm_compute; reflexivity|].
  exists sp. split; [exact Hsp|exact Hlen].
Defined.

End lexer_tokens_spec.

(** ** More on the optimizer passes: what the searches compute *)

Module optimizer_search_spec.
Import ir optimizer ir_spec optimizer_spec.

(** *** The blocks a function keeps *)

(** [path h p q]: [q] is reached from [p] along successor edges. *)
Inductive path (h : gmap nat BasicBlock) (p : nat) : nat -> Prop :=
  | path_here : path h p p
  | path_edge q r : path h p q -> In r (Successors (blk h q)) -> path h p r.

Lemma push_elem (R : gset nat) succs : forall stack x,
  In x (fold_left (fun st succ => if bool_decide (succ ∈ R) then st else succ :: st)
          succs stack) <->
  In x stack \/ (In x succs /\ x ∉ R).
Proof.
  induction succs as [|s succs IH]; intros stack x; simpl.
  - tauto.
  - destruct (bool_decide (s ∈ R)) eqn:Hs.
    + apply bool_decide_eq_true in Hs. rewrite IH. split.
      * intros [H|[H1 H2]]; auto.
      * intros [H|[[->|H1] H2]]; auto. contradiction.
    + apply bool_decide_eq_false in Hs. rewrite IH. simpl. split.
      * intros [[->|H]|[H1 H2]]; auto.
      * intros [H|[[->|H1] H2]]; auto.
Qed.

(** What the search keeps true: the marked blocks and the blocks on the
    stack are reached from the entry; every successor of a marked block
    is marked or on the stack; and so is the entry. *)
Definition searching (h : gmap nat BasicBlock) (entry : nat)
    (stack : list nat) (R : gset nat) : Prop :=
  (forall p, p ∈ R -> path h entry p) /\
  (forall p, In p stack -> path h entry p) /\
  (forall p q, p ∈ R -> In q (Successors (blk h p)) -> q ∈ R \/ In q stack) /\
  (entry ∈ R \/ In entry stack).

Lemma reachableFrom_exact (h : gmap nat BasicBlock) entry fuel :
  forall stack (R R' : gset nat),
    searching h entry stack R ->
    reachableFrom fuel h stack R = Some R' ->
    forall p, p ∈ R' <-> path h entry p.
Proof.
  induction fuel as [|fuel IH]; intros stack R R' Hinv Hrun; [discriminate|].
  destruct Hinv as (Hsound & Hstack & Hclosed & Hentry).
  destruct stack as [|c stack]; simpl in Hrun.
  - injection Hrun as <-. intros p. split; [apply Hsound|].
    induction 1 as [|q r _ IHq Hr].
    + destruct Hentry as [H|[]]. exact H.
    + destruct (Hclosed q r IHq Hr) as [H|[]]. exact H.
  - destruct (bool_decide (c ∈ R)) eqn:Hc.
    + apply bool_decide_eq_true in Hc. apply (IH stack R R'); [|exact Hrun].
      split; [exact Hsound|]. split; [intros p Hp; apply Hstack; right; exact Hp|].
      split.
      * intros p q Hp Hq. destruct (Hclosed p q Hp Hq) as [H|[<-|H]]; auto.
      * destruct Hentry as [H|[<-|H]]; auto.
    + apply bool_decide_eq_false in Hc.
      assert (path h entry c) as Hpc by (apply Hstack; left; reflexivity).
      eapply IH; [|exact Hrun].
      split; [|split; [|split]].
      * intros p Hp. apply elem_of_union in Hp as [Hp|Hp]; [|auto].
        apply elem_of_singleton in Hp as ->. exact Hpc.
      * intros p Hp. apply push_elem in Hp as [Hp|[Hp _]].
        -- apply Hstack. right. exact Hp.
        -- eapply path_edge; eassumption.
      * intros p q Hp Hq.
        destruct (decide (q ∈ ({[c]} ∪ R : gset nat))) as [Hin|Hout]; [left; exact Hin|].
        right. apply push_elem.
        apply elem_of_union in Hp as [Hp|Hp].
        -- apply elem_of_singleton in Hp as ->. right. split; assumption.
        -- destruct (Hclosed p q Hp Hq) as [H|[<-|H]].
           ++ exfalso. apply Hout. set_solver.
           ++ exfalso. apply Hout. set_solver.
           ++ left. exact H.
      * destruct Hentry as [H|[<-|H]].
        -- left. set_solver.
        -- left. set_solver.
        -- right. apply push_elem. left. exact H.
Qed.

Lemma searching_start h entry : searching h entry [entry] ∅.
Proof.
  split; [intros p Hp; set_solver|].
  split; [intros p [<-|[]]; constructor|].
  split; [intros p q Hp; set_solver|].
  right. left. reflexivity.
Qed.

(** [renumber] numbers the blocks of a list without repetitions by their
    place in it. *)
Lemma renumber_Index blocks : forall (h : gmap nat BasicBlock) (i : Z) (k : nat) p,
  NoDup blocks -> blocks !! k = Some p ->
  Index (blk (renumber h i blocks) p) = (i + Z.of_nat k)%Z.
Proof.
  induction blocks as [|b blocks IH]; intros h i k p Hnd Hk; [discriminate|].
  apply NoDup_cons in Hnd as [Hb Hnd]. simpl. destruct k as [|k].
  - injection Hk as ->.
    rewrite renumber_other by (rewrite <- list_elem_of_In; exact Hb).
    rewrite blk_insert, decide_True by reflexivity. simpl. lia.
  - simpl in Hk. rewrite (IH _ (i + 1)%Z k p Hnd Hk). lia.
Qed.

Lemma existsb_negb_false {A} (f : A -> bool) (l : list A) :
  existsb (fun x => negb (f x)) l = false <-> forall x, In x l -> f x = true.
Proof.
  induction l as [|a l IH]; simpl.
  - split; [intros _ x []|reflexivity].
  - rewrite orb_false_iff, IH, negb_false_iff. split.
    + intros [Ha Hl] x [<-|Hx]; auto.
    + intros H. split; [apply H; left; reflexivity|intros x Hx; apply H; right; exact Hx].
Qed.

(** The set the search computes, and what [removeUnreachableBlocks] does
    with it. *)
Lemma removeUnreachableBlocks_reachable (h : gmap nat BasicBlock) (fn : Function) :
  exists R : gset nat,
    (forall p, p ∈ R <-> path h (Entry fn) p) /\
    let keep := fun block => bool_decide (block ∈ R) in
    removeUnreachableBlocks h fn =
    if existsb (fun block => negb (keep block)) (Blocks fn)
    then Some (renumber h 0 (List.filter keep (Blocks fn)),
               set_Blocks (List.filter keep (Blocks fn)) fn, true)
    else Some (h, fn, false).
Proof.
  destruct (removeUnreachableBlocks_result h fn) as (R & HR & Hres).
  exists R. split; [|exact Hres].
  exact (reachableFrom_exact h (Entry fn) _ _ _ _ (searching_start h (Entry fn)) HR).
Qed.

(** [removeUnreachableBlocks] keeps exactly the blocks of the function
    that are reached from the entry along successor edges, in their
    order; it reports a change exactly when some block of the function is
    not reached, and otherwise changes nothing.  When it removes blocks
    from a block list without repetitions, it numbers the blocks that
    stay by their place in the new list. *)
Theorem removeUnreachableBlocks_exact (h : gmap nat BasicBlock) (fn : Function) :
  exists h' fn' modified,
    removeUnreachableBlocks h fn = Some (h', fn', modified) /\
    sublist (Blocks fn') (Blocks fn) /\
    (forall p, In p (Blocks fn') <-> In p (Blocks fn) /\ path h (Entry fn) p) /\
    (modified = false <-> forall p, In p (Blocks fn) -> path h (Entry fn) p) /\
    (modified = false -> h' = h /\ fn' = fn) /\
    (modified = true -> NoDup (Blocks fn) ->
     forall k p, Blocks fn' !! k = Some p -> Index (blk h' p) = Z.of_nat k).
Proof.
  destruct (removeUnreachableBlocks_reachable h fn) as (R & Hexact & Hres).
  cbv beta zeta in Hres.
  assert (forall p, bool_decide (p ∈ R) = true <-> path h (Entry fn) p) as Hkeep.
  { intros p. rewrite bool_decide_eq_true. apply Hexact. }
  destruct (existsb (fun block => negb (bool_decide (block ∈ R))) (Blocks fn)) eqn:Hm.
  - eexists _, _, _. split; [exact Hres|]. simpl.
    split; [apply filter_sublist|].
    split; [intros p; rewrite filter_In, Hkeep; reflexivity|].
    split; [|split; [discriminate|]].
    + split; [discriminate|]. intros Hall. exfalso.
      assert (existsb (fun block => negb (bool_decide (block ∈ R))) (Blocks fn) = false)
        as Hno; [|congruence].
      apply existsb_negb_false. intros p Hp. apply Hkeep, Hall, Hp.
    + intros _ Hnd k p Hk.
      rewrite (renumber_Index _ h 0%Z k p); [lia| |exact Hk].
      apply NoDup_ListNoDup, List.NoDup_filter, NoDup_ListNoDup, Hnd.
  - exists h, fn, false. split; [exact Hres|].
    pose proof (proj1 (existsb_negb_false _ _) Hm) as Hall.
    split; [reflexivity|].
    split; [intros p; split; [intros Hp; split; [exact Hp|apply Hkeep, Hall, Hp]|tauto]|].
    split; [|split; [auto|discriminate]].
    split; [intros _ p Hp; apply Hkeep, Hall, Hp|reflexivity].
Qed.


(** *** The values the marking finds *)

Section marking_exact.
Variables (h : gmap nat BasicBlock) (fn : Function).

(** The values that are needed, by address: the operands of the
    critical instructions, and the operands of the instruction that
    defines a needed value; constants apart. *)
Inductive live : nat -> Prop :=
  | live_root instr v :
      In instr (all_instructions h fn) -> isCritical instr = true ->
      In v (Operands instr) -> IsConstant v = false ->
      live (v_addr v)
  | live_operand v instr o :
      live (v_addr v) -> definingInstruction h fn v = Some instr ->
      In o (Operands instr) -> IsConstant o = false ->
      live (v_addr o).

Lemma definingInstruction_addr v w :
  v_addr v = v_addr w -> definingInstruction h fn v = definingInstruction h fn w.
Proof.
  intros Hvw. unfold definingInstruction, same_value. rewrite Hvw. reflexivity.
Qed.

(** An invariant of [markAll] *)
Lemma markAll_inv (mark : Value -> gset nat -> option (gset nat)) (P : gset nat -> Prop) vs :
  (forall v u u', In v vs -> P u -> mark v u = Some u' -> P u') ->
  forall u u', P u -> markAll mark vs u = Some u' -> P u'.
Proof.
  induction vs as [|v vs IH]; intros Hstep u u' Hu H; simpl in H.
  - injection H as <-. exact Hu.
  - destruct (mark v u) as [u1|] eqn:Hv; [|discriminate].
    apply (IH (fun w a b Hw => Hstep w a b (or_intror Hw)) u1 u'); [|exact H].
    apply (Hstep v u u1); [left; reflexivity|exact Hu|exact Hv].
Qed.

(** Only needed values are marked. *)
Lemma markValue_sound fuel : forall v (u u' : gset nat),
  (forall a, a ∈ u -> live a) -> (IsConstant v = false -> live (v_addr v)) ->
  markValue fuel h fn v u = Some u' ->
  forall a, a ∈ u' -> live a.
Proof.
  induction fuel as [|fuel IH]; intros v u u' Hu Hv H; simpl in H; [discriminate|].
  destruct (bool_decide (v_addr v ∈ u)); [injection H as <-; exact Hu|].
  destruct (IsConstant v) eqn:Hc; [injection H as <-; exact Hu|].
  assert (forall a, a ∈ ({[v_addr v]} ∪ u : gset nat) -> live a) as Hu1.
  { intros a Ha. apply elem_of_union in Ha as [Ha|Ha]; [|auto].
    apply elem_of_singleton in Ha as ->. auto. }
  destruct (definingInstruction h fn v) as [instr|] eqn:Hdef.
  - revert H. apply (markAll_inv _ (fun u0 : gset nat => forall a, a ∈ u0 -> live a));
      [|exact Hu1].
    intros o u0 u0' Ho Hu0 Hmark. apply (IH o u0 u0' Hu0); [|exact Hmark].
    intros Hoc. eapply live_operand; eauto.
  - injection H as <-. exact Hu1.
Qed.

(** [closed_at U a]: the operands of the instruction defining the value
    at [a] are in [U]. *)
Definition closed_at (U : gset nat) (a : nat) : Prop :=
  forall w instr o,
    v_addr w = a -> definingInstruction h fn w = Some instr ->
    In o (Operands instr) -> IsConstant o = false -> v_addr o ∈ U.

(** [grown U0 U]: [U] extends [U0] by addresses whose operands it
    holds. *)
Definition grown (U0 U : gset nat) : Prop :=
  U0 ⊆ U /\ forall a, a ∈ U -> a ∉ U0 -> closed_at U a.

Lemma closed_at_mono (U U' : gset nat) a : U ⊆ U' -> closed_at U a -> closed_at U' a.
Proof.
  intros Hsub Hc w instr o Hw Hdef Ho Hoc. apply Hsub. eapply Hc; eassumption.
Qed.

Lemma grown_refl U : grown U U.
Proof. split; [reflexivity|]. intros a Ha Hna. contradiction. Qed.

Lemma grown_trans U0 U1 U2 : grown U0 U1 -> grown U1 U2 -> grown U0 U2.
Proof.
  intros [H01 C01] [H12 C12]. split; [set_solver|].
  intros a Ha Hna. destruct (decide (a ∈ U1)) as [H1|H1].
  - eapply closed_at_mono; [exact H12|]. apply C01; assumption.
  - apply C12; assumption.
Qed.

Lemma markAll_grown (mark : Value -> gset nat -> option (gset nat)) vs :
  (forall v u u', In v vs -> mark v u = Some u' ->
                  grown u u' /\ (IsConstant v = false -> v_addr v ∈ u')) ->
  forall u u', markAll mark vs u = Some u' ->
    grown u u' /\ forall v, In v vs -> IsConstant v = false -> v_addr v ∈ u'.
Proof.
  induction vs as [|v vs IH]; intros Hstep u u' H; simpl in H.
  - injection H as <-. split; [apply grown_refl|intros v []].
  - destruct (mark v u) as [u1|] eqn:Hv; [|discriminate].
    destruct (Hstep v u u1 (or_introl eq_refl) Hv) as [Hg1 Hin1].
    destruct (IH (fun w a b Hw => Hstep w a b (or_intror Hw)) u1 u' H) as [Hg2 Hin2].
    split; [eapply grown_trans; eassumption|].
    intros w [<-|Hw] Hwc; [|auto]. apply (proj1 Hg2). auto.
Qed.

(** Every value marked has the operands of its defining instruction
    marked as well. *)
Lemma markValue_grown fuel : forall v (u u' : gset nat),
  markValue fuel h fn v u = Some u' ->
  grown u u' /\ (IsConstant v = false -> v_addr v ∈ u').
Proof.
  induction fuel as [|fuel IH]; intros v u u' H; simpl in H; [discriminate|].
  destruct (bool_decide (v_addr v ∈ u)) eqn:Hin.
  { injection H as <-. apply bool_decide_eq_true in Hin.
    split; [apply grown_refl|auto]. }
  apply bool_decide_eq_false in Hin.
  destruct (IsConstant v) eqn:Hc.
  { injection H as <-. split; [apply grown_refl|discriminate]. }
  destruct (definingInstruction h fn v) as [instr|] eqn:Hdef.
  - destruct (markAll_grown (markValue fuel h fn) _ (fun o a b _ => IH o a b) _ _ H)
      as [[Hsub Hcl] Hops].
    split; [|intros _; apply Hsub; set_solver].
    split; [set_solver|].
    intros a Ha Hna. destruct (decide (a = v_addr v)) as [->|Hne].
    + intros w instr' o Hw Hdef' Ho Hoc.
      rewrite (definingInstruction_addr w v Hw), Hdef in Hdef'.
      injection Hdef' as <-. auto.
    + apply Hcl; [exact Ha|]. set_solver.
  - injection H as <-. split; [|intros _; set_solver].
    split; [set_solver|].
    intros a Ha Hna. assert (a = v_addr v) as -> by set_solver.
    intros w instr' o Hw Hdef' Ho Hoc.
    rewrite (definingInstruction_addr w v Hw), Hdef in Hdef'. discriminate.
Qed.

Lemma in_critical_operands v :
  In v (flat_map (fun instr => if isCritical instr then Operands instr else [])
          (all_instructions h fn)) <->
  exists instr, In instr (all_instructions h fn) /\ isCritical instr = true /\
                In v (Operands instr).
Proof.
  rewrite in_flat_map. split.
  - intros (instr & Hin & Hv). exists instr.
    destruct (isCritical instr); [auto|destruct Hv].
  - intros (instr & Hin & Hc & Hv). exists instr. rewrite Hc. auto.
Qed.

(** [markUsedValues] returns, and marks exactly the needed values. *)
Lemma markUsedValues_exact :
  exists used : gset nat,
    markUsedValues h fn = Some used /\ forall a, a ∈ used <-> live a.
Proof.
  destruct (markUsedValues_total h fn) as [used Hused]. exists used.
  split; [exact Hused|]. unfold markUsedValues in Hused. intros a. split.
  - revert a. revert Hused.
    apply (markAll_inv _ (fun u0 : gset nat => forall a, a ∈ u0 -> live a));
      [|intros a Ha; set_solver].
    intros v u u' Hv Hu Hmark.
    apply in_critical_operands in Hv as (instr & Hin & Hc & Hv).
    eapply markValue_sound; [exact Hu| |exact Hmark].
    intros Hvc. eapply live_root; eassumption.
  - destruct (markAll_grown (markValue (S (length (all_instructions h fn))) h fn) _
                (fun o a b _ => markValue_grown _ o a b) _ _ Hused)
      as [[_ Hcl] Hroots].
    induction 1 as [instr v Hin Hc Hv Hvc|v instr o _ IHv Hdef Ho Hoc].
    + apply Hroots; [|exact Hvc]. apply in_critical_operands. eauto.
    + apply (Hcl (v_addr v) IHv ltac:(set_solver) v instr o eq_refl Hdef Ho Hoc).
Qed.

(** What is kept: an instruction is critical or defines a needed value. *)
Definition needed (instr : Instruction) : Prop :=
  isCritical instr = true \/ exists r, Result instr = Some r /\ live (v_addr r).

Lemma keepInstruction_needed (used : gset nat) instr :
  (forall a, a ∈ used <-> live a) ->
  keepInstruction used instr = true <-> needed instr.
Proof.
  intros Hused. unfold keepInstruction, needed. rewrite orb_true_iff.
  destruct (Result instr) as [r|].
  - rewrite bool_decide_eq_true, Hused. split.
    + intros [H|H]; [left; exact H|right; eauto].
    + intros [H|(r' & Hr & H)]; [left; exact H|right; congruence].
  - split.
    + intros [H|H]; [left; exact H|discriminate].
    + intros [H|(r' & Hr & _)]; [left; exact H|discriminate].
Qed.

(** The marking and the sweep of one round.  [markUsedValues] returns
    the addresses of exactly the needed values: the operands of the
    critical instructions and, from there, the operands of the defining
    instructions, constants apart.  [removeUnusedInstructions] then
    keeps, in every block of the function and in order, exactly the
    instructions that are critical or define a needed value, leaves the
    other blocks alone, and reports whether it dropped an instruction. *)
Theorem markUsedValues_live :
  exists used : gset nat,
    markUsedValues h fn = Some used /\
    (forall a, a ∈ used <-> live a) /\
    (forall instr, keepInstruction used instr = true <-> needed instr) /\
    (forall q,
        blk (removeUnusedInstructions h fn used).1 q =
        if decide (q ∈ Blocks fn)
        then set_Instructions
               (List.filter (keepInstruction used) (Instructions (blk h q))) (blk h q)
        else blk h q) /\
    ((removeUnusedInstructions h fn used).2 = false <->
     forall instr, In instr (all_instructions h fn) -> needed instr).
Proof.
  destruct markUsedValues_exact as (used & Hused & Hlive). exists used.
  split; [exact Hused|]. split; [exact Hlive|].
  split; [intros instr; apply keepInstruction_needed, Hlive|].
  rewrite removeUnusedInstructions_sweep.
  split; [intros q; apply sweep_blk|].
  rewrite sweep_flag. simpl. unfold all_instructions, has_dead. split.
  - intros Hno instr Hin. apply in_flat_map in Hin as (p & Hp & Hin).
    apply (keepInstruction_needed used instr Hlive).
    destruct (keepInstruction used instr) eqn:Hk; [reflexivity|]. exfalso.
    assert (existsb
              (fun p0 => existsb (fun i => negb (keepInstruction used i))
                           (Instructions (blk h p0))) (Blocks fn) = true) as Hyes;
      [|congruence].
    apply existsb_exists. exists p. split; [exact Hp|].
    apply existsb_exists. exists instr. split; [exact Hin|]. rewrite Hk. reflexivity.
  - intros Hall.
    destruct (existsb _ (Blocks fn)) eqn:Hex; [|reflexivity]. exfalso.
    apply existsb_exists in Hex as (p & Hp & Hex).
    apply existsb_exists in Hex as (instr & Hin & Hk).
    apply negb_true_iff in Hk.
    assert (keepInstruction used instr = true) as Hk'; [|congruence].
    apply (keepInstruction_needed used instr Hlive), Hall.
    apply in_flat_map. eauto.
Qed.

End marking_exact.


(** *** What a run of dead-code elimination leaves *)

Lemma path_frame (h h' : gmap nat BasicBlock) entry p :
  (forall q, Successors (blk h' q) = Successors (blk h q)) ->
  path h entry p -> path h' entry p.
Proof.
  intros Hs. induction 1 as [|q r _ IH Hr]; [constructor|].
  eapply path_edge; [exact IH|]. rewrite Hs. exact Hr.
Qed.

Lemma Entry_set_Blocks l fn : Entry (set_Blocks l fn) = Entry fn.
Proof. destruct fn; reflexivity. Qed.

(** The blocks a round keeps. *)
Lemma runOnce_blocks h fn h2 fn2 m :
  runOnce h fn = Some (h2, fn2, m) ->
  forall p, In p (Blocks fn2) <-> In p (Blocks fn) /\ path h (Entry fn) p.
Proof.
  unfold runOnce. intros Hrun.
  destruct (markUsedValues h fn) as [used|]; [|discriminate].
  rewrite removeUnusedInstructions_sweep in Hrun.
  destruct (sweep used (Blocks fn) (h, false)) as [h1 m1] eqn:Hsweep.
  assert (forall q, Successors (blk h1 q) = Successors (blk h q)) as Hsucc.
  { intros q. replace h1 with (sweep used (Blocks fn) (h, false)).1
      by (rewrite Hsweep; reflexivity).
    rewrite sweep_blk. destruct (decide (q ∈ Blocks fn)); reflexivity. }
  assert (forall p, path h1 (Entry fn) p <-> path h (Entry fn) p) as Hpath.
  { intros p. split; apply path_frame; [intros q; symmetry; apply Hsucc|exact Hsucc]. }
  destruct (removeUnreachableBlocks_reachable h1 fn) as (R & Hexact & Hres).
  cbv beta zeta in Hres. rewrite Hres in Hrun.
  assert (forall p, bool_decide (p ∈ R) = true <-> path h (Entry fn) p) as Hkeep.
  { intros p. rewrite bool_decide_eq_true, Hexact. apply Hpath. }
  destruct (existsb (fun block => negb (bool_decide (block ∈ R))) (Blocks fn)) eqn:Hm.
  - injection Hrun as <- <- <-. intros p. simpl. rewrite filter_In, Hkeep. reflexivity.
  - injection Hrun as <- <- <-. intros p.
    pose proof (proj1 (existsb_negb_false _ _) Hm) as Hall.
    split; [intros Hp; split; [exact Hp|apply Hkeep, Hall, Hp]|tauto].
Qed.

(** A round only removes instructions. *)
Lemma runOnce_instructions h fn h2 fn2 m :
  runOnce h fn = Some (h2, fn2, m) ->
  forall q, sublist (Instructions (blk h2 q)) (Instructions (blk h q)).
Proof.
  intros Hrun q.
  destruct (runOnce_effect h fn) as (used & R & h2' & fn2' & m' & Hrun' & Hinstr & _).
  rewrite Hrun in Hrun'. injection Hrun' as <- <- <-.
  rewrite Hinstr. destruct (decide (q ∈ Blocks fn)); [apply filter_sublist|reflexivity].
Qed.

Lemma runLoop_result k : forall h fn h' fn',
  runLoop k h fn = Some (h', fn') ->
  (forall p, In p (Blocks fn') <-> In p (Blocks fn) /\ path h (Entry fn) p) /\
  (forall q, sublist (Instructions (blk h' q)) (Instructions (blk h q))).
Proof.
  induction k as [|k IH]; intros h fn h' fn' Hrun; simpl in Hrun; [discriminate|].
  destruct (runOnce h fn) as [[[h1 fn1] m]|] eqn:Honce; [|discriminate].
  pose proof (runOnce_blocks h fn h1 fn1 m Honce) as Hblocks.
  pose proof (runOnce_instructions h fn h1 fn1 m Honce) as Hinstr.
  destruct m; [|injection Hrun as <- <-; auto].
  destruct (IH h1 fn1 h' fn' Hrun) as [Hblocks' Hinstr'].
  destruct (runOnce_preserved h fn h1 fn1 true Honce) as (_ & Hframe & _ & Hfn & _).
  split.
  - intros p. rewrite Hblocks', Hblocks.
    rewrite Hfn, Entry_set_Blocks.
    split.
    + intros [[Hp Hpath] Hpath1]. auto.
    + intros [Hp Hpath]. repeat split; try assumption.
      apply (path_frame h h1); [|exact Hpath].
      intros q. apply (Hframe q).
  - intros q. etransitivity; [apply Hinstr'|apply Hinstr].
Qed.

(** In a state a round leaves unchanged every instruction is needed. *)
Lemma runOnce_fixed_needed h fn :
  runOnce h fn = Some (h, fn, false) ->
  forall instr, In instr (all_instructions h fn) -> needed h fn instr.
Proof.
  intros Hrun.
  destruct (markUsedValues_exact h fn) as (used & Hused & Hlive).
  unfold runOnce in Hrun. rewrite Hused in Hrun.
  destruct (removeUnusedInstructions h fn used) as [h1 m1] eqn:Hsweep.
  destruct (removeUnreachableBlocks h1 fn) as [[[h2 fn2] m2]|]; [|discriminate].
  assert (m1 = false) as -> by (destruct m1; [discriminate|reflexivity]).
  assert ((removeUnusedInstructions h fn used).2 = false) as Hflag
      by (rewrite Hsweep; reflexivity).
  rewrite removeUnusedInstructions_sweep, sweep_flag in Hflag. simpl in Hflag.
  intros instr Hin. apply in_flat_map in Hin as (p & Hp & Hin).
  apply (keepInstruction_needed h fn used instr Hlive).
  destruct (keepInstruction used instr) eqn:Hk; [reflexivity|]. exfalso.
  assert (existsb (has_dead used h) (Blocks fn) = true) as Hyes; [|congruence].
  apply existsb_exists. exists p. split; [exact Hp|].
  apply existsb_exists. exists instr. split; [exact Hin|]. rewrite Hk. reflexivity.
Qed.

(** No dead code is left.  On a function whose blocks are all in the
    store, dead-code elimination returns, and in its result every
    instruction of the function is critical or defines a value needed
    there; the function's blocks are exactly its former blocks that the
    entry reaches along successor edges, in their order; and in every
    block the instructions are a sublist of the former ones: the pass
    adds, changes and reorders nothing. *)
Theorem DeadCodeElimination_Run_clean (h : gmap nat BasicBlock) (fn : Function) :
  allocated h fn ->
  exists h' fn',
    DeadCodeElimination_Run h fn = Some (h', fn') /\
    (forall instr, In instr (all_instructions h' fn') -> needed h' fn' instr) /\
    (forall p, In p (Blocks fn') <-> In p (Blocks fn) /\ path h (Entry fn) p) /\
    sublist (Blocks fn') (Blocks fn) /\
    (forall q, sublist (Instructions (blk h' q)) (Instructions (blk h q))).
Proof.
  intros Halloc.
  destruct (DeadCodeElimination_Run_total h fn) as [[h' fn'] Hrun].
  exists h', fn'. split; [exact Hrun|]. unfold DeadCodeElimination_Run in Hrun.
  destruct (runLoop_result _ h fn h' fn' Hrun) as [Hblocks Hinstr].
  destruct (runLoop_preserved _ h fn h' fn' Hrun) as (_ & _ & Hsub & _).
  split; [|auto].
  apply runOnce_fixed_needed. eapply runLoop_fixed; eassumption.
Qed.

(** [t1 = 2 + 3; t2 = t1 * t1; return t1] followed by a block nothing
    jumps to: the product and the second block are removed. *)
Lemma DeadCodeElimination_Run_clean_witness :
  let two := mkValue 102 (-1) "" types.Int ValueConstant (PayloadInt64 2) in
  let three := mkValue 103 (-1) "" types.Int ValueConstant (PayloadInt64 3) in
  let t1 := mkValue 1 1 "" types.Int ValueTemporary PayloadNone in
  let t2 := mkValue 2 2 "" types.Int ValueTemporary PayloadNone in
  let h : gmap nat BasicBlock :=
    <[1 := mkBasicBlock "after" [Return (Some t2)] [] [] [] 1]>
      {[0 := mkBasicBlock "entry"
               [BinaryOp OpAdd t1 two three; BinaryOp OpMul t2 t1 t1; Return (Some t1)]
               [] [] [] 0]} in
  let fn := mkFunction "f" [] types.Int [0; 1] 0 [] 3 in
  allocated h fn /\
  exists h' fn',
    DeadCodeElimination_Run h fn = Some (h', fn') /\
    Blocks fn' = [0] /\
    Instructions (blk h' 0) = [BinaryOp OpAdd t1 two three; Return (Some t1)] /\
    forall instr, In instr (all_instructions h' fn') -> needed h' fn' instr.
Proof.
  intros two three t1 t2 h fn.
  assert (allocated h fn) as Halloc.
  { intros p [<-|[<-|[]]]; vm_compute; eauto. }
  split; [exact Halloc|].
  destruct (DeadCodeElimination_Run_clean h fn Halloc) as (h' & fn' & Hrun & Hneeded & _).
  exists h', fn'. split; [exact Hrun|].
  assert (DeadCodeElimination_Run h fn =
          Some (<[0 := mkBasicBlock "entry"
                         [BinaryOp OpAdd t1 two three; Return (Some t1)] [] [] [] 0]> h,
                set_Blocks [0] fn)) as Hval by (vm_compute; reflexivity).
  rewrite Hval in Hrun. injection Hrun as <- <-.
  split; [reflexivity|]. split; [reflexivity|exact Hneeded].
Defined.


(** *** What constant folding changes *)

Section folding_frame.
Local Open Scope Z_scope.

(** The constants the pass creates, at the addresses [lo], ..., [hi-1]:
    integer and boolean constants with the ID -1 and no name. *)
Definition created (lo hi : nat) (c : Value) : Prop :=
  (lo <= v_addr c < hi)%nat /\ ID c = -1 /\ Name c = "" /\ Kind c = ValueConstant /\
  ((VType c = types.Int /\ exists n, Constant c = PayloadInt64 n) \/
   (VType c = types.Bool /\ exists b, Constant c = PayloadBool b)).

(** [folded_from lo hi before after]: the instruction is as before, or it
    was a BinaryOp or UnaryOp and is now a Copy of a created constant
    into the same destination. *)
Inductive folded_from (lo hi : nat) : Instruction -> Instruction -> Prop :=
  | folded_same instr : folded_from lo hi instr instr
  | folded_binary op d l r c :
      created lo hi c -> folded_from lo hi (BinaryOp op d l r) (Copy d c)
  | folded_unary op d o c :
      created lo hi c -> folded_from lo hi (UnaryOp op d o) (Copy d c).

Lemma created_mono lo hi lo' hi' c :
  (lo' <= lo)%nat -> (hi <= hi')%nat -> created lo hi c -> created lo' hi' c.
Proof. intros Hlo Hhi (Ha & H). split; [lia|exact H]. Qed.

Lemma folded_from_mono lo hi lo' hi' a b :
  (lo' <= lo)%nat -> (hi <= hi')%nat -> folded_from lo hi a b -> folded_from lo' hi' a b.
Proof.
  intros Hlo Hhi [instr|op d l r c Hc|op d o c Hc]; constructor;
    eapply created_mono; eassumption.
Qed.

Lemma folded_from_trans lo hi a b c :
  folded_from lo hi a b -> folded_from lo hi b c -> folded_from lo hi a c.
Proof.
  intros Hab Hbc. destruct Hab; [exact Hbc| |]; inversion Hbc; subst; constructor; assumption.
Qed.

Ltac created_constant :=
  unfold created, newIntConstant; simpl; split; [lia|]; repeat split;
  first [ left; split; [reflexivity|eexists; reflexivity]
        | right; split; [reflexivity|eexists; reflexivity] ].

(** A folded instruction is a Copy of a new constant into the
    destination of the instruction it replaces. *)
Lemma foldInstructionWithConstants_shape fresh instr constants folded :
  foldInstructionWithConstants fresh instr constants = Some folded ->
  folded_from fresh (S fresh) instr folded.
Proof.
  destruct instr; simpl; try discriminate.
  - unfold foldBinaryOpWithConstants, createBoolCopy.
    destruct (getConstantValue Left constants) as [[]|],
             (getConstantValue Right constants) as [[]|]; try discriminate.
    destruct Op; cbv beta zeta; try discriminate;
      repeat match goal with
             | |- context [if ?b then _ else _] => destruct b
             end;
      intros H; first [discriminate H|injection H as <-];
      apply folded_binary; created_constant.
  - unfold foldUnaryOpWithConstants, createBoolCopy.
    destruct (getConstantValue Operand constants) as [[]|]; try discriminate;
      destruct Op; try discriminate;
      intros H; injection H as <-; apply folded_unary; created_constant.
Qed.

(** [rewritten lo hi h h']: the store [h'] is [h] with some
    instructions folded in place. *)
Definition rewritten (lo hi : nat) (h h' : gmap nat BasicBlock) : Prop :=
  forall p,
    blk h' p = set_Instructions (Instructions (blk h' p)) (blk h p) /\
    Forall2 (folded_from lo hi) (Instructions (blk h p)) (Instructions (blk h' p)).

Lemma Forall2_folded_refl lo hi l : Forall2 (folded_from lo hi) l l.
Proof. induction l; constructor; [constructor|assumption]. Qed.

Lemma Forall2_folded_trans lo hi l1 : forall l2 l3,
  Forall2 (folded_from lo hi) l1 l2 -> Forall2 (folded_from lo hi) l2 l3 ->
  Forall2 (folded_from lo hi) l1 l3.
Proof.
  induction l1 as [|a l1 IH]; intros l2 l3 H12 H23; inversion H12; subst;
    inversion H23; subst; constructor.
  - eapply folded_from_trans; eassumption.
  - eapply IH; eassumption.
Qed.

Lemma Forall2_folded_mono lo hi lo' hi' l l' :
  (lo' <= lo)%nat -> (hi <= hi')%nat ->
  Forall2 (folded_from lo hi) l l' -> Forall2 (folded_from lo' hi') l l'.
Proof.
  intros Hlo Hhi H. induction H; constructor; [|assumption].
  eapply folded_from_mono; eassumption.
Qed.

Lemma Forall2_folded_insert lo hi l : forall i instr folded,
  l !! i = Some instr -> folded_from lo hi instr folded ->
  Forall2 (folded_from lo hi) l (<[i := folded]> l).
Proof.
  induction l as [|a l IH]; intros i instr folded Hi Hf; [discriminate|].
  destruct i as [|i]; simpl in *.
  - injection Hi as ->. constructor; [exact Hf|apply Forall2_folded_refl].
  - constructor; [constructor|]. eapply IH; eassumption.
Qed.

Lemma rewritten_refl lo hi h : rewritten lo hi h h.
Proof.
  intros p. split; [destruct (blk h p); reflexivity|apply Forall2_folded_refl].
Qed.

Lemma rewritten_trans lo hi hi' h h1 h2 :
  (hi <= hi')%nat -> rewritten lo hi h h1 -> rewritten hi hi' h1 h2 ->
  (lo <= hi)%nat -> rewritten lo hi' h h2.
Proof.
  intros Hhi H1 H2 Hlo p. destruct (H1 p) as [E1 F1]. destruct (H2 p) as [E2 F2]. split.
  - rewrite E2 at 1. rewrite E1. reflexivity.
  - apply (Forall2_folded_trans lo hi' _ (Instructions (blk h1 p))).
    + eapply Forall2_folded_mono; [| |exact F1]; lia.
    + eapply Forall2_folded_mono; [| |exact F2]; lia.
Qed.

(** One step of the loop at the index of the instruction it reads. *)
Lemma foldStep_rewritten block i instr st :
  Instructions (blk (fs_store st) block) !! i = Some instr ->
  let st' := foldStep block i instr st in
  (fs_alloc st <= fs_alloc st')%nat /\
  rewritten (fs_alloc st) (fs_alloc st') (fs_store st) (fs_store st') /\
  drop (S i) (Instructions (blk (fs_store st') block)) =
  drop (S i) (Instructions (blk (fs_store st) block)).
Proof.
  intros Hi. unfold foldStep. cbv zeta.
  destruct (foldInstructionWithConstants (fs_alloc st) instr (fs_constants st))
    as [folded|] eqn:Hfold.
  - apply foldInstructionWithConstants_shape in Hfold. simpl.
    split; [lia|]. split.
    + intros p. rewrite blk_insert. destruct (decide (block = p)) as [<-|Hne].
      * split; [reflexivity|]. simpl. eapply Forall2_folded_insert; eassumption.
      * split; [destruct (blk (fs_store st) p); reflexivity|apply Forall2_folded_refl].
    + rewrite blk_insert, decide_True by reflexivity. simpl.
      apply drop_insert_lt. lia.
  - split; [lia|]. split; [apply rewritten_refl|reflexivity].
Qed.

Lemma foldBlock_rewritten block instrs : forall i st,
  drop i (Instructions (blk (fs_store st) block)) = instrs ->
  let st' := foldBlock block i instrs st in
  (fs_alloc st <= fs_alloc st')%nat /\
  rewritten (fs_alloc st) (fs_alloc st') (fs_store st) (fs_store st').
Proof.
  induction instrs as [|instr rest IH]; intros i st Hdrop; simpl.
  - split; [lia|apply rewritten_refl].
  - assert (Instructions (blk (fs_store st) block) !! i = Some instr) as Hi.
    { rewrite <- (Nat.add_0_r i), <- lookup_drop, Hdrop. reflexivity. }
    destruct (foldStep_rewritten block i instr st Hi) as (Hle & Hrw & Hrest).
    cbv zeta in *.
    destruct (IH (S i) (foldStep block i instr st)) as [Hle' Hrw'].
    { rewrite Hrest. erewrite drop_S in Hdrop by exact Hi. congruence. }
    split; [lia|].
    eapply rewritten_trans; [exact Hle'|exact Hrw|exact Hrw'|exact Hle].
Qed.

Lemma foldBlocks_rewritten blocks : forall st,
  let st' :=
    fold_left
      (fun st block => foldBlock block 0 (Instructions (blk (fs_store st) block)) st)
      blocks st in
  (fs_alloc st <= fs_alloc st')%nat /\
  rewritten (fs_alloc st) (fs_alloc st') (fs_store st) (fs_store st').
Proof.
  induction blocks as [|block blocks IH]; intros st; simpl.
  - split; [lia|apply rewritten_refl].
  - destruct (foldBlock_rewritten block (Instructions (blk (fs_store st) block)) 0 st
                eq_refl) as [Hle Hrw].
    cbv zeta in *.
    destruct (IH (foldBlock block 0 (Instructions (blk (fs_store st) block)) st))
      as [Hle' Hrw'].
    split; [lia|].
    eapply rewritten_trans; [exact Hle'|exact Hrw|exact Hrw'|exact Hle].
Qed.

Lemma folded_critical lo hi l l' :
  Forall2 (folded_from lo hi) l l' ->
  List.filter isCritical l' = List.filter isCritical l.
Proof.
  induction 1 as [|a b l l' Hab _ IH]; [reflexivity|].
  destruct Hab; simpl; rewrite IH; reflexivity.
Qed.

Lemma folded_last lo hi l l' :
  Forall2 (folded_from lo hi) l l' ->
  match last l, last l' with
  | Some a, Some b => folded_from lo hi a b
  | None, None => True
  | _, _ => False
  end.
Proof.
  induction 1 as [|a b l l' Hab Hl IH]; [exact I|].
  destruct Hl as [|a' b' l l' Hab' Hl]; [exact Hab|].
  exact IH.
Qed.

Lemma folded_Terminator lo hi bb bb' :
  Forall2 (folded_from lo hi) (Instructions bb) (Instructions bb') ->
  Terminator bb' = Terminator bb.
Proof.
  intros H. apply folded_last in H. unfold Terminator.
  destruct (last (Instructions bb)) as [a|], (last (Instructions bb')) as [b|];
    try contradiction; [|reflexivity].
  destruct H; reflexivity.
Qed.

(** Constant folding rewrites in place and nothing else.  In every
    block the label, the successors, the predecessors, the dominated
    list and the index are as before, and so is the number of
    instructions; each instruction is as before, or it was a BinaryOp or
    UnaryOp and is now a Copy, into the same destination, of a constant
    the pass has created.  So the critical instructions and the
    terminator of every block are the same, and the verifier reports on
    the folded store what it reports on the store before. *)
Theorem ConstantFolding_Run_frame (h : gmap nat BasicBlock) (alloc : nat) (fn : Function) :
  let h' := (ConstantFolding_Run h alloc fn).1 in
  let alloc' := (ConstantFolding_Run h alloc fn).2 in
  (alloc <= alloc')%nat /\
  (forall p,
      blk h' p = set_Instructions (Instructions (blk h' p)) (blk h p) /\
      Forall2 (folded_from alloc alloc') (Instructions (blk h p)) (Instructions (blk h' p)) /\
      List.filter isCritical (Instructions (blk h' p)) =
        List.filter isCritical (Instructions (blk h p)) /\
      Terminator (blk h' p) = Terminator (blk h p)) /\
  (forall m, Verify h' m = Verify h m).
Proof.
  cbv zeta. unfold ConstantFolding_Run. cbn [fst snd].
  match goal with
  | |- context [fold_left ?f (Blocks fn) ?st0] =>
      destruct (foldBlocks_rewritten (Blocks fn) st0) as [Hle Hrw]
  end.
  cbv zeta in Hle, Hrw. simpl in Hle, Hrw.
  match type of Hrw with
  | rewritten _ _ _ (fs_store ?st1) => set (st' := st1) in *
  end.
  assert (forall p, Terminator (blk (fs_store st') p) = Terminator (blk h p)) as Hterm.
  { intros p. eapply folded_Terminator, (Hrw p). }
  split; [exact Hle|]. split.
  - intros p. destruct (Hrw p) as [E F]. split; [exact E|]. split; [exact F|].
    split; [eapply folded_critical; exact F|apply Hterm].
  - intros m. unfold Verify.
    assert (forall p, Label (blk (fs_store st') p) = Label (blk h p) /\
                      Predecessors (blk (fs_store st') p) = Predecessors (blk h p))
      as Hfields.
    { intros p. destruct (Hrw p) as [E _]. rewrite E. simpl. auto. }
    apply flat_map_ext. intros fn0. f_equal.
    + apply flat_map_ext. intros block. unfold IsTerminated.
      rewrite Hterm. rewrite (proj1 (Hfields block)). reflexivity.
    + rewrite (proj2 (Hfields (Entry fn0))). reflexivity.
Qed.

End folding_frame.

End optimizer_search_spec.

(** ** The blocks the builder leaves behind *)

Module builder_blocks_spec.
Import ir builder ir_spec.

(** *** Induction on expressions and statements *)

Section Expr_induction.
Variable Pr : Expr -> Prop.
Hypothesis H_binary : forall l op r, Pr l -> Pr r -> Pr (BinaryExpr l op r).
Hypothesis H_unary : forall op e postfix, Pr e -> Pr (UnaryExpr op e postfix).
Hypothesis H_literal : forall v, Pr (LiteralExpr v).
Hypothesis H_identifier : forall name, Pr (IdentifierExpr name).
Hypothesis H_call : forall callee args, Pr callee -> Forall Pr args -> Pr (CallExpr callee args).
Hypothesis H_index : forall o i, Pr (IndexExpr o i).
Hypothesis H_member : forall o m, Pr (MemberExpr o m).
Hypothesis H_assignment : forall t op v, Pr v -> Pr (AssignmentExpr t op v).
Hypothesis H_logical : forall l op r, Pr (LogicalExpr l op r).
Hypothesis H_grouping : forall e, Pr (GroupingExpr e).
Hypothesis H_array : forall t es, Pr (ArrayLiteralExpr t es).
Hypothesis H_struct : forall n fs, Pr (StructLiteralExpr n fs).

Fixpoint Expr_induction (e : Expr) : Pr e :=
  match e with
  | BinaryExpr l op r => H_binary l op r (Expr_induction l) (Expr_induction r)
  | UnaryExpr op e postfix => H_unary op e postfix (Expr_induction e)
  | LiteralExpr v => H_literal v
  | IdentifierExpr name => H_identifier name
  | CallExpr callee args =>
      H_call callee args (Expr_induction callee)
        ((fix all (l : list Expr) : Forall Pr l :=
            match l with
            | [] => List.Forall_nil Pr
            | a :: l' => @List.Forall_cons _ Pr a l' (Expr_induction a) (all l')
            end) args)
  | IndexExpr o i => H_index o i
  | MemberExpr o m => H_member o m
  | AssignmentExpr t op v => H_assignment t op v (Expr_induction v)
  | LogicalExpr l op r => H_logical l op r
  | GroupingExpr e => H_grouping e
  | ArrayLiteralExpr t es => H_array t es
  | StructLiteralExpr n fs => H_struct n fs
  end.
End Expr_induction.

Section Stmt_induction.
Variable Pr : Stmt -> Prop.
Hypothesis H_expr : forall e, Pr (ExprStmt e).
Hypothesis H_block : forall l, Forall Pr l -> Pr (BlockStmt l).
Hypothesis H_if : forall c th el,
  Forall Pr th -> (forall s, el = Some s -> Pr s) -> Pr (IfStmt c th el).
Hypothesis H_while : forall c body, Forall Pr body -> Pr (WhileStmt c body).
Hypothesis H_for : forall init c post body,
  (forall s, init = Some s -> Pr s) -> (forall s, post = Some s -> Pr s) ->
  Forall Pr body -> Pr (ForStmt init c post body).
Hypothesis H_return : forall v, Pr (ReturnStmt v).
Hypothesis H_break : Pr BreakStmt.
Hypothesis H_continue : Pr ContinueStmt.
Hypothesis H_switch : forall v cases, Pr (SwitchStmt v cases).
Hypothesis H_var : forall names t init, Pr (VarDecl names t init).

Fixpoint Stmt_induction (s : Stmt) : Pr s :=
  let all :=
    fix all (l : list Stmt) : Forall Pr l :=
      match l with
      | [] => List.Forall_nil Pr
      | a :: l' => @List.Forall_cons _ Pr a l' (Stmt_induction a) (all l')
      end in
  let opt (o : option Stmt) : forall s, o = Some s -> Pr s :=
    match o with
    | Some s' => fun s E => eq_ind s' Pr (Stmt_induction s') s (Some_inj _ _ E)
    | None => fun s E => False_ind _ (eq_ind None (fun x => match x with None => True | Some _ => False end) I _ E)
    end in
  match s with
  | ExprStmt e => H_expr e
  | BlockStmt l => H_block l (all l)
  | IfStmt c th el => H_if c th el (all th) (opt el)
  | WhileStmt c body => H_while c body (all body)
  | ForStmt init c post body => H_for init c post body (opt init) (opt post) (all body)
  | ReturnStmt v => H_return v
  | BreakStmt => H_break
  | ContinueStmt => H_continue
  | SwitchStmt v cases => H_switch v cases
  | VarDecl names t init => H_var names t init
  end.
End Stmt_induction.

(** *** Running the builder monad *)

Lemma bind_Some {A B} (m : M A) (k : A -> M B) b r :
  (m ≫= k) b = Some r -> exists a b1, m b = Some (a, b1) /\ k a b1 = Some r.
Proof.
  unfold mbind, M_bind. destruct (m b) as [[a b1]|]; [eauto|discriminate].
Qed.

Lemma fmap_Some {A B} (f : A -> B) (m : M A) b r :
  (f <$> m) b = Some r -> exists a b1, m b = Some (a, b1) /\ r = (f a, b1).
Proof.
  unfold fmap, M_fmap. destruct (m b) as [[a b1]|]; [|discriminate].
  intros H. injection H as <-. eauto.
Qed.

Lemma deref_Some {A} (p : option A) b r :
  deref p b = Some r -> exists a, p = Some a /\ r = (a, b).
Proof.
  destruct p as [a|]; [|discriminate]. intros H. injection H as <-. eauto.
Qed.

(** *** The invariant of a function under construction *)

(** [laid_out lo h next blocks]: the blocks are the addresses from [lo]
    up to [next], in this order; each is in the store and has its place
    in the list as [Index]. *)
Definition laid_out (lo : nat) (h : gmap nat BasicBlock) (next : nat) (blocks : list nat)
  : Prop :=
  blocks = seq lo (next - lo) /\
  forall p, lo <= p < next -> is_Some (h !! p) /\ Index (blk h p) = Z.of_nat (p - lo).

(** [shaped lo P b]: the builder [b] is at work on a function whose entry
    block is at the address [lo].  The function's blocks were allocated
    from [lo] on; the entry has no predecessors; and every block of the
    function is terminated, but for the current block and the blocks in
    [P], which were created and are not yet filled. *)
Definition shaped (lo : nat) (P : nat -> Prop) (b : Builder) : Prop :=
  exists f cur,
    currentFunc b = Some f /\ currentBlock b = Some cur /\
    Entry f = lo /\ lo < nextBlockAddr b /\ lo <= cur /\
    (forall p, In p (Blocks f) -> lo <= p < nextBlockAddr b) /\
    Predecessors (blk (store b) lo) = [] /\
    (forall p, In p (Blocks f) -> p <> cur -> ~ P p ->
               IsTerminated (blk (store b) p) = true) /\
    laid_out lo (store b) (nextBlockAddr b) (Blocks f).

(** [grows lo b b']: from [b] to [b'] the blocks below [lo] and the
    module are untouched, and so is the return type of the function. *)
Definition grows (lo : nat) (b b' : Builder) : Prop :=
  (forall p, p < lo -> store b' !! p = store b !! p) /\
  module b' = module b /\
  nextBlockAddr b <= nextBlockAddr b' /\
  ReturnType <$> currentFunc b' = ReturnType <$> currentFunc b.

Lemma grows_refl lo b : grows lo b b.
Proof. repeat split; auto. Qed.

Lemma grows_trans lo b1 b2 b3 : grows lo b1 b2 -> grows lo b2 b3 -> grows lo b1 b3.
Proof.
  intros (F1 & M1 & N1 & R1) (F2 & M2 & N2 & R2). split; [|split; [|split]].
  - intros p Hp. rewrite F2, F1 by exact Hp. reflexivity.
  - congruence.
  - lia.
  - congruence.
Qed.

Lemma shaped_weaken lo (P P' : nat -> Prop) b :
  (forall p, P p -> P' p) -> shaped lo P b -> shaped lo P' b.
Proof.
  intros HP (f & cur & Hf & Hc & He & Hlo & Hcur & Hb & Hpred & Hterm & Hlay).
  exists f, cur. split; [exact Hf|]. split; [exact Hc|]. split; [exact He|].
  split; [exact Hlo|]. split; [exact Hcur|]. split; [exact Hb|]. split; [exact Hpred|].
  split; [|exact Hlay].
  intros p Hp Hne HnP. apply Hterm; auto.
Qed.

(** [similar b b']: the two builders have the same store, allocator,
    current block and module, and their functions have the same blocks,
    entry and return type. *)
Definition similar (b b' : Builder) : Prop :=
  store b' = store b /\ nextBlockAddr b' = nextBlockAddr b /\
  currentBlock b' = currentBlock b /\ module b' = module b /\
  match currentFunc b, currentFunc b' with
  | Some f, Some f' =>
      Blocks f' = Blocks f /\ Entry f' = Entry f /\ ReturnType f' = ReturnType f
  | None, None => True
  | _, _ => False
  end.

Lemma similar_refl b : similar b b.
Proof. repeat split. destruct (currentFunc b); auto. Qed.

Lemma similar_shaped lo P b b' :
  similar b b' -> shaped lo P b ->
  shaped lo P b' /\ grows lo b b' /\ currentBlock b' = currentBlock b.
Proof.
  intros (Hs & Hn & Hc & Hm & Hf)
         (f & cur & Hf0 & Hc0 & He & Hlo & Hcur & Hb & Hpred & Hterm & Hlay).
  rewrite Hf0 in Hf. destruct (currentFunc b') as [f'|] eqn:Hf'; [|contradiction].
  destruct Hf as (HB & HE & HR).
  split; [|split; [|exact Hc]].
  - exists f', cur. rewrite Hs, Hn, HB, HE.
    split; [exact Hf'|]. split; [congruence|]. split; [exact He|].
    split; [exact Hlo|]. split; [exact Hcur|]. split; [exact Hb|].
    split; [exact Hpred|]. split; [exact Hterm|exact Hlay].
  - split; [intros p _; rewrite Hs; reflexivity|].
    split; [exact Hm|]. split; [lia|]. rewrite Hf0, Hf'. simpl. congruence.
Qed.

(** [keeps lo m]: the action [m] keeps the function in shape and the
    current block current. *)
Definition keeps {A} (lo : nat) (m : M A) : Prop :=
  forall P b a b',
    shaped lo P b -> m b = Some (a, b') ->
    shaped lo P b' /\ grows lo b b' /\ currentBlock b' = currentBlock b.

Lemma keeps_ret {A} lo (a : A) : keeps lo (mret a).
Proof.
  intros P b a' b' Hs H. injection H as <- <-.
  split; [exact Hs|]. split; [apply grows_refl|reflexivity].
Qed.

Lemma keeps_bind {A B} lo (m : M A) (k : A -> M B) :
  keeps lo m -> (forall a, keeps lo (k a)) -> keeps lo (m ≫= k).
Proof.
  intros Hm Hk P b r b' Hs H.
  apply bind_Some in H as (a & b1 & H1 & H2).
  destruct (Hm P b a b1 Hs H1) as (Hs1 & Hg1 & Hc1).
  destruct (Hk a P b1 r b' Hs1 H2) as (Hs2 & Hg2 & Hc2).
  split; [exact Hs2|]. split; [eapply grows_trans; eassumption|congruence].
Qed.

Lemma keeps_fmap {A B} lo (f : A -> B) (m : M A) : keeps lo m -> keeps lo (f <$> m).
Proof.
  intros Hm P b r b' Hs H.
  apply fmap_Some in H as (a & b1 & H1 & H2). injection H2 as -> ->.
  exact (Hm P b a b1 Hs H1).
Qed.

Lemma keeps_get lo : keeps lo get.
Proof.
  intros P b a b' Hs H. injection H as <- <-.
  split; [exact Hs|]. split; [apply grows_refl|reflexivity].
Qed.

Lemma keeps_panic {A} lo : keeps lo (@panic A).
Proof. intros P b a b' _ H. discriminate H. Qed.

Lemma keeps_deref {A} lo (p : option A) : keeps lo (deref p).
Proof. destruct p; [apply keeps_ret|apply keeps_panic]. Qed.

Lemma keeps_modify lo (f : Builder -> Builder) :
  (forall b, similar b (f b)) -> keeps lo (modify f).
Proof.
  intros Hf P b a b' Hs H. injection H as <- <-.
  apply similar_shaped; [apply Hf|exact Hs].
Qed.

Ltac similar_fields :=
  let b := fresh "b" in
  intros b; repeat split; simpl; destruct (currentFunc b); auto.

Lemma keeps_error lo message : keeps lo (error message).
Proof. apply keeps_modify. similar_fields. Qed.

Lemma keeps_allocValue lo id name typ kind c : keeps lo (allocValue id name typ kind c).
Proof.
  unfold allocValue. apply keeps_bind; [apply keeps_get|]. intros b.
  apply keeps_bind; [|intros _; apply keeps_ret].
  apply keeps_modify. similar_fields.
Qed.

Lemma keeps_NewValue lo name typ kind : keeps lo (NewValue name typ kind).
Proof.
  unfold NewValue. intros P b a b' Hs H.
  apply bind_Some in H as (b0 & b1 & H0 & H). injection H0 as E0 E1; subst b0 b1.
  apply bind_Some in H as (f & b2 & H0 & H).
  apply deref_Some in H0 as (f0 & Hf & E). injection E as E0 E1; subst f0 b2.
  apply bind_Some in H as (v & b3 & H0 & H).
  destruct (keeps_allocValue lo _ _ _ _ _ P b v b3 Hs H0) as (Hs1 & Hg1 & Hc1).
  apply bind_Some in H as ([] & b4 & H1 & H). injection H1 as <-. injection H as <- <-.
  assert (currentFunc b3 = Some f) as Hf1.
  { unfold allocValue in H0. injection H0 as <- <-. exact Hf. }
  destruct (similar_shaped lo P b3
              (set_currentFunc (Some (set_nextValueID (nextValueID f + 1)%Z f)) b3))
    as (Hs2 & Hg2 & Hc2); [|exact Hs1|].
  { repeat split. simpl. rewrite Hf1. auto. }
  split; [exact Hs2|]. split; [eapply grows_trans; eassumption|congruence].
Qed.

Lemma keeps_NewTemp lo typ : keeps lo (NewTemp typ).
Proof. apply keeps_NewValue. Qed.

(** Appending to the current block. *)
Lemma emit_spec lo P b instr u b' :
  shaped lo P b -> emit instr b = Some (u, b') ->
  shaped lo P b' /\ grows lo b b' /\ currentBlock b' = currentBlock b /\
  (forall cur, currentBlock b = Some cur ->
     Instructions (blk (store b') cur) = Instructions (blk (store b) cur) ++ [instr]).
Proof.
  intros (f & cur & Hf & Hc & He & Hlo & Hcur & Hb & Hpred & Hterm & Hlay) H.
  unfold emit in H. apply bind_Some in H as (b0 & b1 & H0 & H). injection H0 as E0 E1; subst b0 b1.
  apply bind_Some in H as (bb & b2 & H0 & H).
  apply deref_Some in H0 as (c & Hc' & E). injection E as E0 E1; subst bb b2.
  rewrite Hc in Hc'. injection Hc' as <-.
  injection H as <- <-. unfold AddInstruction.
  split; [|split; [|split; [reflexivity|]]].
  - exists f, cur. simpl.
    split; [exact Hf|]. split; [exact Hc|]. split; [exact He|].
    split; [exact Hlo|]. split; [exact Hcur|]. split; [exact Hb|].
    split; [|split].
    + rewrite blk_insert. destruct (decide (cur = lo)) as [->|]; [exact Hpred|exact Hpred].
    + intros p Hp Hne HnP. rewrite blk_insert, decide_False by congruence. auto.
    + destruct Hlay as [Hseq Hidx]. split; [exact Hseq|].
      intros p Hp. destruct (Hidx p Hp) as [Hsome Hi].
      rewrite lookup_insert, blk_insert.
      destruct (decide (cur = p)) as [->|]; [split; [eauto|exact Hi]|auto].
  - split; [|simpl; auto].
    intros p Hp. simpl. rewrite lookup_insert, decide_False by lia. reflexivity.
  - intros c Hc'. rewrite Hc in Hc'. injection Hc' as <-. simpl.
    rewrite blk_insert, decide_True by reflexivity. reflexivity.
Qed.

Lemma keeps_emit lo instr : keeps lo (emit instr).
Proof.
  intros P b u b' Hs H. destruct (emit_spec lo P b instr u b' Hs H) as (H1 & H2 & H3 & _).
  auto.
Qed.

Lemma keeps_mapM_operand lo (args : list (option Value)) : keeps lo (mapM operand args).
Proof.
  induction args as [|a args IH]; simpl; [apply keeps_ret|].
  apply keeps_bind; [apply keeps_deref|]. intros v.
  apply keeps_bind; [exact IH|]. intros vs. apply keeps_ret.
Qed.


Section with_analyzer.
Variable GetExprType : Expr -> types.Type_.
Variable Lookup : string -> option Symbol.

(** *** Expressions append to the current block *)

Lemma keeps_buildBinary lo left right op t : keeps lo (buildBinary left right op t).
Proof.
  unfold buildBinary. apply keeps_bind; [apply keeps_NewTemp|]. intros result.
  destruct (binaryOperator op).
  - apply keeps_bind; [apply keeps_deref|]. intros l.
    apply keeps_bind; [apply keeps_deref|]. intros r.
    apply keeps_bind; [apply keeps_emit|]. intros _. apply keeps_ret.
  - apply keeps_bind; [apply keeps_error|]. intros _. apply keeps_ret.
Qed.

Lemma keeps_buildUnary lo v op t : keeps lo (buildUnary v op t).
Proof.
  unfold buildUnary. apply keeps_bind; [apply keeps_NewTemp|]. intros result.
  destruct (unaryOperator op).
  - apply keeps_bind; [apply keeps_deref|]. intros o.
    apply keeps_bind; [apply keeps_emit|]. intros _. apply keeps_ret.
  - apply keeps_bind; [apply keeps_error|]. intros _. apply keeps_ret.
Qed.

Lemma keeps_buildLiteral lo v t : keeps lo (buildLiteral v t).
Proof. apply keeps_fmap, keeps_allocValue. Qed.

Lemma keeps_buildIdentifier lo name : keeps lo (buildIdentifier Lookup name).
Proof.
  unfold buildIdentifier. apply keeps_bind; [apply keeps_get|]. intros b.
  destruct (namedValues b !! name); [apply keeps_ret|].
  destruct (Lookup name) as [symbol|].
  - destruct (SymKind symbol);
      try (destruct (variables b !! sym_addr symbol);
           [apply keeps_ret
           |apply keeps_bind; [apply keeps_error|];
            intros _; apply keeps_fmap, keeps_NewTemp]).
    apply keeps_fmap, keeps_allocValue.
  - apply keeps_bind; [apply keeps_error|]. intros _. apply keeps_fmap, keeps_NewTemp.
Qed.

Lemma keeps_buildCall lo f args t : keeps lo (buildCall f args t).
Proof.
  unfold buildCall. apply keeps_bind.
  - destruct (types.Equals t types.Void); [apply keeps_ret|apply keeps_fmap, keeps_NewTemp].
  - intros result. apply keeps_bind; [apply keeps_deref|]. intros fv.
    apply keeps_bind; [apply keeps_mapM_operand|]. intros a.
    apply keeps_bind; [apply keeps_emit|]. intros _. apply keeps_ret.
Qed.

Lemma keeps_buildAssignment lo target v : keeps lo (buildAssignment Lookup target v).
Proof.
  unfold buildAssignment.
  destruct target as [| | |name| | | | | | | |]; try apply keeps_ret.
  apply keeps_bind; [apply keeps_get|]. intros b.
  destruct (namedValues b !! name).
  - apply keeps_bind; [apply keeps_deref|]. intros x.
    apply keeps_bind; [apply keeps_emit|]. intros _. apply keeps_ret.
  - destruct (Lookup name ≫= _).
    + apply keeps_bind; [apply keeps_deref|]. intros x.
      apply keeps_bind; [apply keeps_emit|]. intros _. apply keeps_ret.
    + apply keeps_ret.
Qed.

Lemma keeps_buildExpr lo e : keeps lo (buildExpr GetExprType Lookup e).
Proof.
  induction e as [l op r IHl IHr|op e postfix IHe|v|name|callee args IHc IHargs
                 |o i|o m|t op v IHv|l op r|e|t es|n fs] using Expr_induction;
    cbn [buildExpr].
  - apply keeps_bind; [exact IHl|]. intros left.
    apply keeps_bind; [exact IHr|]. intros right. apply keeps_buildBinary.
  - apply keeps_bind; [exact IHe|]. intros x. apply keeps_buildUnary.
  - apply keeps_buildLiteral.
  - apply keeps_buildIdentifier.
  - apply keeps_bind; [exact IHc|]. intros function.
    apply keeps_bind; [|intros vs; apply keeps_buildCall].
    induction IHargs as [|a args Ha _ IH]; [apply keeps_ret|].
    apply keeps_bind; [exact Ha|]. intros x.
    apply keeps_bind; [exact IH|]. intros vs. apply keeps_ret.
  - apply keeps_bind; [apply keeps_error|]. intros _. apply keeps_fmap, keeps_NewTemp.
  - apply keeps_bind; [apply keeps_error|]. intros _. apply keeps_fmap, keeps_NewTemp.
  - apply keeps_bind; [exact IHv|]. intros x. apply keeps_buildAssignment.
  - apply keeps_bind; [apply keeps_error|]. intros _. apply keeps_fmap, keeps_NewTemp.
  - apply keeps_bind; [apply keeps_error|]. intros _. apply keeps_fmap, keeps_NewTemp.
  - apply keeps_bind; [apply keeps_error|]. intros _. apply keeps_fmap, keeps_NewTemp.
  - apply keeps_bind; [apply keeps_error|]. intros _. apply keeps_fmap, keeps_NewTemp.
Qed.


(** *** Blocks: creating, linking, closing, leaving *)

Lemma AddSuccessor_elsewhere (h : gmap nat BasicBlock) bb succ p :
  p <> bb -> p <> succ -> AddSuccessor h bb succ !! p = h !! p.
Proof.
  intros Hb Hs. unfold AddSuccessor.
  destruct (existsb (Nat.eqb succ) (Successors (blk h bb))); [reflexivity|].
  cbv zeta. rewrite !lookup_insert, !decide_False by congruence. reflexivity.
Qed.

Lemma AddSuccessor_Predecessors_other h bb succ p :
  p <> succ -> Predecessors (blk (AddSuccessor h bb succ) p) = Predecessors (blk h p).
Proof.
  intros Hs.
  destruct (existsb (Nat.eqb succ) (Successors (blk h bb))) eqn:E.
  - rewrite AddSuccessor_present by exact E. reflexivity.
  - rewrite AddSuccessor_Predecessors by exact E. rewrite decide_False by exact Hs.
    reflexivity.
Qed.

Lemma AddSuccessor_dom (h : gmap nat BasicBlock) bb succ p :
  is_Some (h !! p) -> is_Some (AddSuccessor h bb succ !! p).
Proof.
  intros Hp. unfold AddSuccessor.
  destruct (existsb (Nat.eqb succ) (Successors (blk h bb))); [exact Hp|].
  cbv zeta. rewrite !lookup_insert.
  destruct (decide (succ = p)); [eauto|]. destruct (decide (bb = p)); eauto.
Qed.

Lemma IsTerminated_Instructions bb bb' :
  Instructions bb' = Instructions bb -> IsTerminated bb' = IsTerminated bb.
Proof. intros H. rewrite !IsTerminated_last, H. reflexivity. Qed.

Lemma IsTerminated_snoc bb bb' instr :
  Instructions bb' = Instructions bb ++ [instr] ->
  IsTerminated bb' = is_terminator instr.
Proof. intros H. rewrite IsTerminated_last, H, last_snoc. reflexivity. Qed.

Lemma NewBasicBlockInFunc_spec lo P b label bb b' :
  shaped lo P b -> NewBasicBlockInFunc label b = Some (bb, b') ->
  lo < bb /\ shaped lo (fun p => P p \/ p = bb) b' /\ grows lo b b' /\
  currentBlock b' = currentBlock b.
Proof.
  intros (f & cur & Hf & Hc & He & Hlo & Hcur & Hb & Hpred & Hterm & Hseq & Hidx) H.
  unfold NewBasicBlockInFunc in H.
  apply bind_Some in H as (b0 & b1 & H0 & H). injection H0 as E0 E1; subst b0 b1.
  apply bind_Some in H as (f0 & b2 & H0 & H).
  apply deref_Some in H0 as (f1 & Hf' & E). injection E as E0 E1; subst f1 b2.
  rewrite Hf in Hf'. injection Hf' as <-.
  injection H as <- <-. simpl.
  assert (Blocks (set_Blocks (Blocks f ++ [nextBlockAddr b]) f)
          = Blocks f ++ [nextBlockAddr b]) as HB by (destruct f; reflexivity).
  split; [exact Hlo|]. split; [|split; [|exact eq_refl]].
  - exists (set_Blocks (Blocks f ++ [nextBlockAddr b]) f), cur. simpl.
    split; [reflexivity|]. split; [exact Hc|].
    split; [destruct f; exact He|]. split; [lia|]. split; [exact Hcur|].
    split; [|split; [|split]].
    + intros p Hp. rewrite ?HB in Hp.
      apply in_app_or in Hp as [Hp|[<-|[]]]; [specialize (Hb p Hp)|]; lia.
    + rewrite blk_insert, decide_False by lia. exact Hpred.
    + intros p Hp Hne HnP. rewrite ?HB in Hp.
      rewrite blk_insert, decide_False by (intros <-; apply HnP; right; reflexivity).
      apply in_app_or in Hp as [Hp|[<-|[]]].
      * apply Hterm; [exact Hp|exact Hne|]. intros HP. apply HnP. left. exact HP.
      * exfalso. apply HnP. right. reflexivity.
    + split.
      * rewrite ?HB. rewrite Hseq at 1.
        replace (S (nextBlockAddr b) - lo) with (S (nextBlockAddr b - lo)) by lia.
        rewrite seq_S. f_equal. f_equal. lia.
      * intros p Hp. rewrite lookup_insert, blk_insert.
        destruct (decide (nextBlockAddr b = p)) as [<-|Hne].
        -- split; [eauto|]. simpl. rewrite Hseq, length_seq. reflexivity.
        -- apply Hidx. lia.
  - split; [|split; [reflexivity|split; [simpl; lia|]]].
    + intros p Hp. simpl. rewrite lookup_insert, decide_False by lia. reflexivity.
    + simpl. rewrite Hf. destruct f; reflexivity.
Qed.

Lemma link_spec lo P b succ u b' :
  shaped lo P b -> lo < succ -> link succ b = Some (u, b') ->
  shaped lo P b' /\ grows lo b b' /\ currentBlock b' = currentBlock b /\
  forall p, Instructions (blk (store b') p) = Instructions (blk (store b) p).
Proof.
  intros (f & cur & Hf & Hc & He & Hlo & Hcur & Hb & Hpred & Hterm & Hseq & Hidx) Hsucc H.
  unfold link in H.
  apply bind_Some in H as (b0 & b1 & H0 & H). injection H0 as E0 E1; subst b0 b1.
  apply bind_Some in H as (bb & b2 & H0 & H).
  apply deref_Some in H0 as (c & Hc' & E). injection E as E0 E1; subst bb b2.
  rewrite Hc in Hc'. injection Hc' as <-.
  injection H as <- <-. simpl.
  assert (forall p, Instructions (blk (AddSuccessor (store b) cur succ) p) =
                    Instructions (blk (store b) p)) as Hinstr.
  { intros p. apply AddSuccessor_other_fields. }
  split; [|split; [|split; [reflexivity|exact Hinstr]]].
  - exists f, cur. simpl.
    split; [exact Hf|]. split; [exact Hc|]. split; [exact He|].
    split; [exact Hlo|]. split; [exact Hcur|]. split; [exact Hb|].
    split; [|split; [|split; [exact Hseq|]]].
    + rewrite AddSuccessor_Predecessors_other by lia. exact Hpred.
    + intros p Hp Hne HnP.
      rewrite (IsTerminated_Instructions (blk (store b) p)) by apply Hinstr. auto.
    + intros p Hp. destruct (Hidx p Hp) as [Hsome Hi].
      split; [apply AddSuccessor_dom; exact Hsome|].
      destruct (AddSuccessor_other_fields (store b) cur succ p) as (_ & _ & ->). exact Hi.
  - split; [|simpl; auto].
    intros p Hp. simpl. apply AddSuccessor_elsewhere; lia.
Qed.

(** Making [bb] the current block, when the block that was current is
    terminated or goes to the blocks not yet filled. *)
Lemma switch_spec lo (P P' : nat -> Prop) b cur bb :
  shaped lo P b -> currentBlock b = Some cur ->
  IsTerminated (blk (store b) cur) = true \/ P' cur ->
  (forall p, P p -> p = bb \/ P' p) -> lo <= bb ->
  shaped lo P' (set_currentBlock (Some bb) b) /\
  grows lo b (set_currentBlock (Some bb) b).
Proof.
  intros (f & cur0 & Hf & Hc & He & Hlo & Hcur & Hb & Hpred & Hterm & Hlay) Hc' Hdone HP Hbb.
  rewrite Hc in Hc'. injection Hc' as ->.
  split; [|repeat split; simpl; auto].
  exists f, bb. simpl.
  split; [exact Hf|]. split; [reflexivity|]. split; [exact He|].
  split; [exact Hlo|]. split; [exact Hbb|]. split; [exact Hb|].
  split; [exact Hpred|]. split; [|exact Hlay].
  intros p Hp Hne HnP.
  destruct (decide (p = cur)) as [->|Hpc].
  - destruct Hdone as [Ht|HP']; [exact Ht|contradiction].
  - apply Hterm; [exact Hp|exact Hpc|].
    intros HPp. destruct (HP p HPp) as [->|HP']; [congruence|contradiction].
Qed.

(** [closes lo m]: the action [m] keeps the function in shape and leaves
    the current block terminated. *)
Definition closes (lo : nat) (m : M unit) : Prop :=
  forall P b u b',
    shaped lo P b -> m b = Some (u, b') ->
    shaped lo P b' /\ grows lo b b' /\ currentBlock b' = currentBlock b /\
    forall cur, currentBlock b = Some cur -> IsTerminated (blk (store b') cur) = true.

Lemma closes_emit lo instr : is_terminator instr = true -> closes lo (emit instr).
Proof.
  intros Ht P b u b' Hs H.
  destruct (emit_spec lo P b instr u b' Hs H) as (H1 & H2 & H3 & H4).
  split; [exact H1|]. split; [exact H2|]. split; [exact H3|].
  intros cur Hc. rewrite (IsTerminated_snoc (blk (store b) cur) _ instr); auto.
Qed.

Lemma emit_terminator lo P b instr u b' :
  shaped lo P b -> emit instr b = Some (u, b') -> is_terminator instr = true ->
  shaped lo P b' /\ grows lo b b' /\ currentBlock b' = currentBlock b /\
  forall cur, currentBlock b = Some cur -> IsTerminated (blk (store b') cur) = true.
Proof. intros Hs H Ht. exact (closes_emit lo instr Ht P b u b' Hs H). Qed.

Lemma closes_emit_link lo instr succ :
  is_terminator instr = true -> lo < succ -> closes lo (emit instr;; link succ).
Proof.
  intros Ht Hsucc P b u b' Hs H.
  apply bind_Some in H as (u1 & b1 & H1 & H2).
  destruct (closes_emit lo instr Ht P b u1 b1 Hs H1) as (S1 & G1 & C1 & T1).
  destruct (link_spec lo P b1 succ u b' S1 Hsucc H2) as (S2 & G2 & C2 & I2).
  split; [exact S2|]. split; [eapply grows_trans; eassumption|].
  split; [congruence|].
  intros cur Hc.
  rewrite (IsTerminated_Instructions (blk (store b1) cur)) by apply I2. auto.
Qed.

Lemma closes_unlessTerminated lo m : closes lo m -> closes lo (unlessTerminated m).
Proof.
  intros Hm P b u b' Hs H. unfold unlessTerminated in H.
  apply bind_Some in H as (b0 & b1 & H0 & H). injection H0 as E0 E1; subst b0 b1.
  apply bind_Some in H as (bb & b2 & H0 & H).
  apply deref_Some in H0 as (c & Hc & E). injection E as E0 E1; subst bb b2.
  destruct (IsTerminated (blk (store b) c)) eqn:Ht.
  - injection H as <- <-. split; [exact Hs|]. split; [apply grows_refl|].
    split; [reflexivity|]. intros cur Hc'. congruence.
  - exact (Hm P b u b' Hs H).
Qed.

(** [builds lo m]: the action [m] keeps the function in shape; it may
    move on to another current block. *)
Definition builds {A} (lo : nat) (m : M A) : Prop :=
  forall P b a b', shaped lo P b -> m b = Some (a, b') -> shaped lo P b' /\ grows lo b b'.

Lemma keeps_builds {A} lo (m : M A) : keeps lo m -> builds lo m.
Proof. intros Hm P b a b' Hs H. destruct (Hm P b a b' Hs H) as (H1 & H2 & _). auto. Qed.

Lemma closes_builds lo m : closes lo m -> builds lo m.
Proof. intros Hm P b a b' Hs H. destruct (Hm P b a b' Hs H) as (H1 & H2 & _). auto. Qed.

Lemma builds_bind {A B} lo (m : M A) (k : A -> M B) :
  builds lo m -> (forall a, builds lo (k a)) -> builds lo (m ≫= k).
Proof.
  intros Hm Hk P b r b' Hs H.
  apply bind_Some in H as (a & b1 & H1 & H2).
  destruct (Hm P b a b1 Hs H1) as (Hs1 & Hg1).
  destruct (Hk a P b1 r b' Hs1 H2) as (Hs2 & Hg2).
  split; [exact Hs2|eapply grows_trans; eassumption].
Qed.

Lemma builds_skip lo : builds lo skip.
Proof. apply keeps_builds, keeps_ret. Qed.


(** *** Statements *)

Lemma shaped_current lo P b : shaped lo P b -> exists cur, currentBlock b = Some cur.
Proof. intros (f & cur & _ & Hc & _). eauto. Qed.

Ltac chain :=
  repeat first [ eassumption | apply grows_refl | eapply grows_trans; [eassumption|] ].

Ltac run_bind H x b1 H1 := apply bind_Some in H as (x & b1 & H1 & H).

Ltac run_deref H1 :=
  let a := fresh "a" in
  let E := fresh "E" in
  let E0 := fresh "E" in
  let E1 := fresh "E" in
  apply deref_Some in H1 as (a & _ & E); injection E as E0 E1; subst.

Lemma builds_buildIf lo c (thenBranch : M unit) (elseBranch : option (M unit)) :
  builds lo thenBranch -> (forall m, elseBranch = Some m -> builds lo m) ->
  builds lo (buildIf GetExprType Lookup c thenBranch elseBranch).
Proof.
  intros Hthen Helse P b u b' S0 H. unfold buildIf in H.
  destruct (shaped_current lo P b S0) as [cur Hcur].
  run_bind H cond b1 H1.
  destruct (keeps_buildExpr lo c P b cond b1 S0 H1) as (S1 & G1 & C1).
  run_bind H thenBlock b2 H2.
  destruct (NewBasicBlockInFunc_spec lo _ b1 _ _ _ S1 H2) as (Lt & S2 & G2 & C2).
  run_bind H endBlock b3 H3.
  destruct (NewBasicBlockInFunc_spec lo _ b2 _ _ _ S2 H3) as (Le & S3 & G3 & C3).
  run_bind H elseBlock b4 H4.
  assert (lo < elseBlock /\
          shaped lo (fun p => P p \/ p = thenBlock \/ p = endBlock \/ p = elseBlock) b4 /\
          grows lo b3 b4 /\ currentBlock b4 = currentBlock b3 /\
          (elseBranch = None -> elseBlock = endBlock)) as (Lel & S4 & G4 & C4 & Hnone).
  { destruct elseBranch.
    - destruct (NewBasicBlockInFunc_spec lo _ b3 _ _ _ S3 H4) as (L & S & G & C).
      split; [exact L|]. split; [|split; [exact G|split; [exact C|discriminate]]].
      eapply shaped_weaken; [|exact S]. simpl. tauto.
    - injection H4 as <- <-. split; [exact Le|].
      split; [|split; [apply grows_refl|split; reflexivity]].
      eapply shaped_weaken; [|exact S3]. simpl. tauto. }
  run_bind H cv b5 H5. run_deref H5.
  run_bind H u6 b6 H6.
  destruct (emit_terminator lo _ b4 _ u6 b6 S4 H6 eq_refl) as (S6 & G6 & C6 & T6).
  run_bind H u7 b7 H7.
  destruct (link_spec lo _ b6 _ u7 b7 S6 Lt H7) as (S7 & G7 & C7 & I7).
  run_bind H u8 b8 H8.
  destruct (link_spec lo _ b7 _ u8 b8 S7 Lel H8) as (S8 & G8 & C8 & I8).
  assert (currentBlock b4 = Some cur) as Hcur5 by congruence.
  assert (currentBlock b8 = Some cur) as Hcur8 by congruence.
  assert (IsTerminated (blk (store b8) cur) = true) as T8.
  { rewrite (IsTerminated_Instructions (blk (store b6) cur)); [exact (T6 cur Hcur5)|].
    rewrite I8, I7. reflexivity. }
  run_bind H u9 b9 H9. injection H9 as _ <-.
  destruct (switch_spec lo _ (fun p => P p \/ p = endBlock \/ p = elseBlock)
              b8 cur thenBlock S8 Hcur8 (or_introl T8)) as (S9 & G9);
    [simpl; tauto|lia|].
  run_bind H u10 b10 H10.
  destruct (Hthen _ _ _ _ S9 H10) as (S10 & G10).
  destruct (shaped_current lo _ b10 S10) as [cur10 Hcur10].
  run_bind H u11 b11 H11.
  destruct (closes_unlessTerminated lo _ (closes_emit_link lo (Jump endBlock) endBlock
                                            eq_refl Le) _ b10 u11 b11 S10 H11)
    as (S11 & G11 & C11 & T11).
  run_bind H u12 b12 H12.
  assert (exists cur12,
             currentBlock b12 = Some cur12 /\
             IsTerminated (blk (store b12) cur12) = true /\
             shaped lo (fun p => P p \/ p = endBlock) b12 /\
             grows lo b11 b12) as (cur12 & Hcur12 & T12 & S12 & G12).
  { destruct elseBranch as [build|].
    - run_bind H12 v1 c1 K1. injection K1 as _ <-.
      destruct (switch_spec lo _ (fun p => P p \/ p = endBlock)
                  b11 cur10 elseBlock S11 ltac:(congruence)
                  (or_introl (T11 cur10 Hcur10))) as (Sa & Ga);
        [simpl; tauto|lia|].
      run_bind H12 v2 c2 K2.
      destruct (Helse build eq_refl _ _ _ _ Sa K2) as (Sb & Gb).
      destruct (shaped_current lo _ c2 Sb) as [curb Hcurb].
      destruct (closes_unlessTerminated lo _ (closes_emit_link lo (Jump endBlock) endBlock
                                                eq_refl Le) _ c2 u12 b12 Sb H12)
        as (Sc & Gc & Cc & Tc).
      exists curb. split; [congruence|]. split; [exact (Tc curb Hcurb)|].
      split; [exact Sc|chain].
    - injection H12 as _ <-. exists cur10.
      split; [congruence|]. split; [exact (T11 cur10 Hcur10)|].
      split; [|apply grows_refl].
      eapply shaped_weaken; [|exact S11]. simpl. rewrite (Hnone eq_refl). tauto. }
  injection H as _ <-.
  destruct (switch_spec lo _ P b12 cur12 endBlock S12 Hcur12 (or_introl T12))
    as (S13 & G13); [simpl; tauto|lia|].
  split; [exact S13|chain].
Qed.


Lemma modify_similar lo P b (f : Builder -> Builder) u b' :
  shaped lo P b -> modify f b = Some (u, b') -> (forall b0, similar b0 (f b0)) ->
  shaped lo P b' /\ grows lo b b' /\ currentBlock b' = currentBlock b.
Proof. intros Hs H Hf. exact (keeps_modify lo f Hf P b u b' Hs H). Qed.

Lemma builds_buildWhile lo c (body : M unit) :
  builds lo body -> builds lo (buildWhile GetExprType Lookup c body).
Proof.
  intros Hbody P b u b' S0 H. unfold buildWhile in H.
  destruct (shaped_current lo P b S0) as [cur Hcur].
  run_bind H condBlock b1 H1.
  destruct (NewBasicBlockInFunc_spec lo _ b _ _ _ S0 H1) as (Lc & S1 & G1 & C1).
  run_bind H bodyBlock b2 H2.
  destruct (NewBasicBlockInFunc_spec lo _ b1 _ _ _ S1 H2) as (Lb & S2 & G2 & C2).
  run_bind H endBlock b3 H3.
  destruct (NewBasicBlockInFunc_spec lo _ b2 _ _ _ S2 H3) as (Le & S3 & G3 & C3).
  run_bind H b3' b4 H4. injection H4 as E0 E1; subst b3' b4.
  run_bind H u5 b5 H5.
  edestruct (modify_similar lo _ b3 _ u5 b5 S3 H5) as (S5 & G5 & C5); [similar_fields|].
  run_bind H u6 b6 H6.
  edestruct (modify_similar lo _ b5 _ u6 b6 S5 H6) as (S6 & G6 & C6); [similar_fields|].
  run_bind H u7 b7 H7.
  destruct (emit_terminator lo _ b6 _ u7 b7 S6 H7 eq_refl) as (S7 & G7 & C7 & T7).
  run_bind H u8 b8 H8.
  destruct (link_spec lo _ b7 _ u8 b8 S7 Lc H8) as (S8 & G8 & C8 & I8).
  assert (currentBlock b6 = Some cur) as Hcur6 by congruence.
  assert (currentBlock b8 = Some cur) as Hcur8 by congruence.
  assert (IsTerminated (blk (store b8) cur) = true) as T8.
  { rewrite (IsTerminated_Instructions (blk (store b7) cur)); [exact (T7 cur Hcur6)|].
    apply I8. }
  run_bind H u9 b9 H9. injection H9 as _ <-.
  destruct (switch_spec lo _ (fun p => P p \/ p = bodyBlock \/ p = endBlock)
              b8 cur condBlock S8 Hcur8 (or_introl T8)) as (S9 & G9);
    [simpl; tauto|lia|].
  run_bind H cond b10 H10.
  destruct (keeps_buildExpr lo c _ _ cond b10 S9 H10) as (S10 & G10 & C10).
  run_bind H cv b11 H11. run_deref H11.
  run_bind H u12 b12 H12.
  destruct (emit_terminator lo _ b10 _ u12 b12 S10 H12 eq_refl) as (S12 & G12 & C12 & T12).
  run_bind H u13 b13 H13.
  destruct (link_spec lo _ b12 _ u13 b13 S12 Lb H13) as (S13 & G13 & C13 & I13).
  run_bind H u14 b14 H14.
  destruct (link_spec lo _ b13 _ u14 b14 S13 Le H14) as (S14 & G14 & C14 & I14).
  assert (currentBlock b10 = Some condBlock) as Hcur10 by (rewrite C10; reflexivity).
  assert (currentBlock b14 = Some condBlock) as Hcur14 by congruence.
  assert (IsTerminated (blk (store b14) condBlock) = true) as T14.
  { rewrite (IsTerminated_Instructions (blk (store b12) condBlock));
      [exact (T12 condBlock Hcur10)|].
    rewrite I14, I13. reflexivity. }
  run_bind H u15 b15 H15. injection H15 as _ <-.
  destruct (switch_spec lo _ (fun p => P p \/ p = endBlock)
              b14 condBlock bodyBlock S14 Hcur14 (or_introl T14)) as (S15 & G15);
    [simpl; tauto|lia|].
  run_bind H u16 b16 H16.
  destruct (Hbody _ _ _ _ S15 H16) as (S16 & G16).
  destruct (shaped_current lo _ b16 S16) as [cur16 Hcur16].
  run_bind H u17 b17 H17.
  destruct (closes_unlessTerminated lo _ (closes_emit_link lo (Jump condBlock) condBlock
                                            eq_refl Lc) _ b16 u17 b17 S16 H17)
    as (S17 & G17 & C17 & T17).
  run_bind H u18 b18 H18.
  edestruct (modify_similar lo _ b17 _ u18 b18 S17 H18) as (S18 & G18 & C18);
    [similar_fields|].
  run_bind H u19 b19 H19.
  edestruct (modify_similar lo _ b18 _ u19 b19 S18 H19) as (S19 & G19 & C19);
    [similar_fields|].
  assert (store b19 = store b17) as Hstore.
  { injection H18 as _ <-. injection H19 as _ <-. reflexivity. }
  injection H as _ <-.
  destruct (switch_spec lo _ P b19 cur16 endBlock S19 ltac:(congruence)) as (S20 & G20);
    [left; rewrite Hstore; exact (T17 cur16 Hcur16)|simpl; tauto|lia|].
  split; [exact S20|chain].
Qed.


Lemma builds_option lo (o : option (M unit)) :
  (forall m, o = Some m -> builds lo m) ->
  builds lo (match o with Some build => build | None => skip end).
Proof. intros Ho. destruct o; [apply Ho; reflexivity|apply builds_skip]. Qed.

Lemma builds_buildFor lo (init : option (M unit)) (c : option Expr)
    (post : option (M unit)) (body : M unit) :
  (forall m, init = Some m -> builds lo m) ->
  (forall m, post = Some m -> builds lo m) ->
  builds lo body -> builds lo (buildFor GetExprType Lookup init c post body).
Proof.
  intros Hinit Hpost Hbody P b u b' Sin H. unfold buildFor in H.
  run_bind H u0 b0 H0.
  destruct (builds_option lo init Hinit P b u0 b0 Sin H0) as (S0 & G0).
  destruct (shaped_current lo P b0 S0) as [cur Hcur].
  run_bind H condBlock b1 H1.
  destruct (NewBasicBlockInFunc_spec lo _ b0 _ _ _ S0 H1) as (Lc & S1 & G1 & C1).
  run_bind H bodyBlock b2 H2.
  destruct (NewBasicBlockInFunc_spec lo _ b1 _ _ _ S1 H2) as (Lb & S2 & G2 & C2).
  run_bind H postBlock b3 H3.
  destruct (NewBasicBlockInFunc_spec lo _ b2 _ _ _ S2 H3) as (Lp & S3 & G3 & C3).
  run_bind H endBlock b4 H4.
  destruct (NewBasicBlockInFunc_spec lo _ b3 _ _ _ S3 H4) as (Le & S4 & G4 & C4).
  run_bind H b4' b5 H5. injection H5 as E0 E1; subst b4' b5.
  run_bind H u5 b5 H5.
  edestruct (modify_similar lo _ b4 _ u5 b5 S4 H5) as (S5 & G5 & C5); [similar_fields|].
  run_bind H u6 b6 H6.
  edestruct (modify_similar lo _ b5 _ u6 b6 S5 H6) as (S6 & G6 & C6); [similar_fields|].
  run_bind H u7 b7 H7.
  destruct (emit_terminator lo _ b6 _ u7 b7 S6 H7 eq_refl) as (S7 & G7 & C7 & T7).
  run_bind H u8 b8 H8.
  destruct (link_spec lo _ b7 _ u8 b8 S7 Lc H8) as (S8 & G8 & C8 & I8).
  assert (currentBlock b6 = Some cur) as Hcur6 by congruence.
  assert (currentBlock b8 = Some cur) as Hcur8 by congruence.
  assert (IsTerminated (blk (store b8) cur) = true) as T8.
  { rewrite (IsTerminated_Instructions (blk (store b7) cur)); [exact (T7 cur Hcur6)|].
    apply I8. }
  run_bind H u9 b9 H9. injection H9 as _ <-.
  destruct (switch_spec lo _ (fun p => P p \/ p = bodyBlock \/ p = postBlock \/ p = endBlock)
              b8 cur condBlock S8 Hcur8 (or_introl T8)) as (S9 & G9);
    [simpl; tauto|lia|].
  run_bind H u12 b12 H12.
  assert (shaped lo (fun p => P p \/ p = bodyBlock \/ p = postBlock \/ p = endBlock) b12 /\
          grows lo (set_currentBlock (Some condBlock) b8) b12 /\
          currentBlock b12 = Some condBlock /\
          IsTerminated (blk (store b12) condBlock) = true) as (S12 & G12 & C12 & T12).
  { destruct c as [e|].
    - run_bind H12 cond b10 H10.
      destruct (keeps_buildExpr lo e _ _ cond b10 S9 H10) as (S10 & G10 & C10).
      run_bind H12 cv b11 H11. run_deref H11.
      destruct (emit_terminator lo _ b10 _ u12 b12 S10 H12 eq_refl) as (Sa & Ga & Ca & Ta).
      split; [exact Sa|]. split; [chain|]. split; [rewrite Ca, C10; reflexivity|].
      apply Ta. rewrite C10. reflexivity.
    - destruct (emit_terminator lo _ _ _ u12 b12 S9 H12 eq_refl) as (Sa & Ga & Ca & Ta).
      split; [exact Sa|]. split; [exact Ga|]. split; [exact Ca|].
      apply Ta. reflexivity. }
  run_bind H u13 b13 H13.
  destruct (link_spec lo _ b12 _ u13 b13 S12 Lb H13) as (S13 & G13 & C13 & I13).
  run_bind H u14 b14 H14.
  destruct (link_spec lo _ b13 _ u14 b14 S13 Le H14) as (S14 & G14 & C14 & I14).
  assert (currentBlock b14 = Some condBlock) as Hcur14 by congruence.
  assert (IsTerminated (blk (store b14) condBlock) = true) as T14.
  { rewrite (IsTerminated_Instructions (blk (store b12) condBlock)); [exact T12|].
    rewrite I14, I13. reflexivity. }
  run_bind H u15 b15 H15. injection H15 as _ <-.
  destruct (switch_spec lo _ (fun p => P p \/ p = postBlock \/ p = endBlock)
              b14 condBlock bodyBlock S14 Hcur14 (or_introl T14)) as (S15 & G15);
    [simpl; tauto|lia|].
  run_bind H u16 b16 H16.
  destruct (Hbody _ _ _ _ S15 H16) as (S16 & G16).
  destruct (shaped_current lo _ b16 S16) as [cur16 Hcur16].
  run_bind H u17 b17 H17.
  destruct (closes_unlessTerminated lo _ (closes_emit_link lo (Jump postBlock) postBlock
                                            eq_refl Lp) _ b16 u17 b17 S16 H17)
    as (S17 & G17 & C17 & T17).
  run_bind H u18 b18 H18. injection H18 as _ <-.
  destruct (switch_spec lo _ (fun p => P p \/ p = endBlock)
              b17 cur16 postBlock S17 ltac:(congruence)
              (or_introl (T17 cur16 Hcur16))) as (S18 & G18);
    [simpl; tauto|lia|].
  run_bind H u19 b19 H19.
  destruct (builds_option lo post Hpost _ _ u19 b19 S18 H19) as (S19 & G19).
  destruct (shaped_current lo _ b19 S19) as [cur19 Hcur19].
  run_bind H u20 b20 H20.
  destruct (emit_terminator lo _ b19 _ u20 b20 S19 H20 eq_refl) as (S20 & G20 & C20 & T20).
  run_bind H u21 b21 H21.
  destruct (link_spec lo _ b20 _ u21 b21 S20 Lc H21) as (S21 & G21 & C21 & I21).
  run_bind H u22 b22 H22.
  edestruct (modify_similar lo _ b21 _ u22 b22 S21 H22) as (S22 & G22 & C22);
    [similar_fields|].
  run_bind H u23 b23 H23.
  edestruct (modify_similar lo _ b22 _ u23 b23 S22 H23) as (S23 & G23 & C23);
    [similar_fields|].
  assert (store b23 = store b21) as Hstore.
  { injection H22 as _ <-. injection H23 as _ <-. reflexivity. }
  injection H as _ <-.
  destruct (switch_spec lo _ P b23 cur19 endBlock S23 ltac:(congruence)) as (S24 & G24);
    [left; rewrite Hstore;
     rewrite (IsTerminated_Instructions (blk (store b20) cur19)) by apply I21;
     exact (T20 cur19 Hcur19)
    |simpl; tauto|lia|].
  split; [exact S24|chain].
Qed.

Lemma keeps_buildReturn lo v : keeps lo (buildReturn GetExprType Lookup v).
Proof.
  unfold buildReturn. destruct v as [e|]; [|apply keeps_emit].
  apply keeps_bind; [apply keeps_buildExpr|]. intros x.
  apply keeps_bind; [apply keeps_deref|]. intros r. apply keeps_emit.
Qed.

Lemma modify_currentFunc lo P b f f' u b' :
  shaped lo P b -> currentFunc b = Some f ->
  Blocks f' = Blocks f -> Entry f' = Entry f -> ReturnType f' = ReturnType f ->
  modify (set_currentFunc (Some f')) b = Some (u, b') ->
  shaped lo P b' /\ grows lo b b' /\ currentBlock b' = currentBlock b.
Proof.
  intros Hs Hf HB HE HR H. injection H as _ <-.
  apply similar_shaped; [|exact Hs].
  repeat split. simpl. rewrite Hf. auto.
Qed.

Lemma keeps_buildLocalVar lo names init :
  keeps lo (buildLocalVar GetExprType Lookup names init).
Proof.
  induction names as [|name names IH]; simpl; [apply keeps_ret|].
  intros P b u b' S0 H.
  run_bind H alloca b1 H1.
  destruct (keeps_NewValue lo _ _ _ P b alloca b1 S0 H1) as (S1 & G1 & C1).
  run_bind H b1' b2 H2. injection H2 as E0 E1; subst b1' b2.
  run_bind H f b3 H3.
  apply deref_Some in H3 as (f0 & Hf & E). injection E as E0 E1; subst f0 b3.
  run_bind H u4 b4 H4.
  destruct (modify_currentFunc lo P b1 f (set_Locals (Locals f ++ [alloca]) f) u4 b4
              S1 Hf eq_refl eq_refl eq_refl H4) as (S4 & G4 & C4).
  run_bind H u5 b5 H5.
  edestruct (modify_similar lo _ b4 _ u5 b5 S4 H5) as (S5 & G5 & C5); [similar_fields|].
  run_bind H u6 b6 H6.
  assert (shaped lo P b6 /\ grows lo b5 b6 /\ currentBlock b6 = currentBlock b5)
    as (S6 & G6 & C6).
  { destruct init as [e|].
    - run_bind H6 x c1 K1.
      destruct (keeps_buildExpr lo e P b5 x c1 S5 K1) as (Sa & Ga & Ca).
      run_bind H6 r c2 K2. run_deref K2.
      destruct (keeps_emit lo _ P c1 u6 b6 Sa H6) as (Sb & Gb & Cb).
      split; [exact Sb|]. split; [chain|congruence].
    - injection H6 as _ <-. split; [exact S5|]. split; [apply grows_refl|reflexivity]. }
  destruct (IH P b6 u b' S6 H) as (S7 & G7 & C7).
  split; [exact S7|]. split; [chain|congruence].
Qed.


(** The statements of a block, one after the other. *)
Definition buildBlock (l : list Stmt) : M unit :=
  (fix buildBlock (l : list Stmt) : M unit :=
     match l with
     | [] => skip
     | inner :: l' => buildStmt GetExprType Lookup inner;; buildBlock l'
     end) l.

Lemma buildStmt_BlockStmt l :
  buildStmt GetExprType Lookup (BlockStmt l) = buildBlock l.
Proof. reflexivity. Qed.

Lemma builds_buildBlock lo l :
  Forall (fun s => builds lo (buildStmt GetExprType Lookup s)) l -> builds lo (buildBlock l).
Proof.
  induction 1 as [|s l Hs _ IH]; [apply builds_skip|].
  change (builds lo (buildStmt GetExprType Lookup s;; buildBlock l)).
  apply builds_bind; [exact Hs|]. intros _. exact IH.
Qed.

Lemma builds_buildStmt lo stmt : builds lo (buildStmt GetExprType Lookup stmt).
Proof.
  induction stmt as [e|l IH|c th el IHth IHel|c body IH|init c post body IHinit IHpost IH
                    |v| | |v cases|names t init] using Stmt_induction.
  - change (builds lo (_ ← buildExpr GetExprType Lookup e; skip)).
    apply builds_bind; [apply keeps_builds, keeps_buildExpr|]. intros _. apply builds_skip.
  - rewrite buildStmt_BlockStmt. apply builds_buildBlock, IH.
  - change (builds lo (buildIf GetExprType Lookup c (buildBlock th)
                         (match el with
                          | Some s => Some (buildStmt GetExprType Lookup s)
                          | None => None
                          end))).
    apply builds_buildIf; [apply builds_buildBlock, IHth|].
    intros m Hm. destruct el as [s|]; [|discriminate]. injection Hm as <-.
    apply IHel. reflexivity.
  - change (builds lo (buildWhile GetExprType Lookup c (buildBlock body))).
    apply builds_buildWhile, builds_buildBlock, IH.
  - change (builds lo (buildFor GetExprType Lookup
                         (match init with
                          | Some s => Some (buildStmt GetExprType Lookup s)
                          | None => None
                          end) c
                         (match post with
                          | Some s => Some (buildStmt GetExprType Lookup s)
                          | None => None
                          end) (buildBlock body))).
    apply builds_buildFor; [| |apply builds_buildBlock, IH].
    + intros m Hm. destruct init as [s|]; [|discriminate]. injection Hm as <-.
      apply IHinit. reflexivity.
    + intros m Hm. destruct post as [s|]; [|discriminate]. injection Hm as <-.
      apply IHpost. reflexivity.
  - apply keeps_builds, keeps_buildReturn.
  - change (builds lo (b ← get; match breakTarget b with
                                | Some target => emit (Jump target)
                                | None => skip
                                end)).
    apply keeps_builds, keeps_bind; [apply keeps_get|]. intros b.
    destruct (breakTarget b); [apply keeps_emit|apply keeps_ret].
  - change (builds lo (b ← get; match continueTarget b with
                                | Some target => emit (Jump target)
                                | None => skip
                                end)).
    apply keeps_builds, keeps_bind; [apply keeps_get|]. intros b.
    destruct (continueTarget b); [apply keeps_emit|apply keeps_ret].
  - apply builds_skip.
  - apply keeps_builds, keeps_buildLocalVar.
Qed.


(** *** Functions and the module *)

(** [untouched b b']: the same store, block allocator and module. *)
Definition untouched (b b' : Builder) : Prop :=
  store b' = store b /\ nextBlockAddr b' = nextBlockAddr b /\ module b' = module b.

Lemma buildParams_untouched ps : forall i paramTypes b vs b',
  buildParams i ps paramTypes b = Some (vs, b') -> untouched b b'.
Proof.
  induction ps as [|p ps IH]; intros i paramTypes b vs b' H; simpl in H.
  - injection H as _ <-. repeat split.
  - run_bind H t b1 H1. run_deref H1.
    run_bind H v b2 H2. unfold allocValue in H2. injection H2 as _ <-.
    run_bind H vs' b3 H3. injection H as _ <-.
    destruct (IH _ _ _ _ _ H3) as (A & B & C). repeat split; assumption.
Qed.

(** What holds of a function of the module in the store [h]. *)
Definition entry_clear (h : gmap nat BasicBlock) (fn : Function) : Prop :=
  Predecessors (blk h (Entry fn)) = [].

Definition closed_but_one (h : gmap nat BasicBlock) (fn : Function) : Prop :=
  exists last, forall p, In p (Blocks fn) -> p <> last -> IsTerminated (blk h p) = true.

Definition closed (h : gmap nat BasicBlock) (fn : Function) : Prop :=
  forall p, In p (Blocks fn) -> IsTerminated (blk h p) = true.

(** [placed h fn]: the blocks of [fn] are consecutive addresses from its
    entry on; each is in the store and has its place in the list as
    [Index]. *)
Definition placed (h : gmap nat BasicBlock) (fn : Function) : Prop :=
  Blocks fn = seq (Entry fn) (length (Blocks fn)) /\ Blocks fn <> [] /\
  forall k p, Blocks fn !! k = Some p -> is_Some (h !! p) /\ Index (blk h p) = Z.of_nat k.

(** [apart fns]: the blocks of a function are below the blocks of the
    functions after it. *)
Definition apart (fns : list Function) : Prop :=
  forall i j fi fj,
    i < j -> fns !! i = Some fi -> fns !! j = Some fj ->
    forall p q, In p (Blocks fi) -> In q (Blocks fj) -> p < q.

(** [settled W b]: every function of the module has its blocks below the
    allocator, an entry without predecessors and at most one block that
    is not terminated; and none when it returns [Void], provided [W]. *)
Definition settled (W : Prop) (b : Builder) : Prop :=
  (forall fn, In fn (Functions (module b)) ->
     (forall p, In p (Blocks fn) -> p < nextBlockAddr b) /\
     Entry fn < nextBlockAddr b /\
     entry_clear (store b) fn /\ closed_but_one (store b) fn /\
     (W -> types.Equals (ReturnType fn) types.Void = true -> closed (store b) fn) /\
     placed (store b) fn) /\
  apart (Functions (module b)).

Lemma laid_out_placed lo h next fn :
  Entry fn = lo -> lo < next -> laid_out lo h next (Blocks fn) -> placed h fn.
Proof.
  intros He Hlo [Hseq Hidx]. unfold placed. rewrite He.
  assert (length (Blocks fn) = next - lo) as Hlen by (rewrite Hseq, length_seq; reflexivity).
  split; [rewrite Hlen; exact Hseq|].
  split; [intros E; rewrite E in Hlen; simpl in Hlen; lia|].
  intros k p Hk. rewrite Hseq in Hk. apply lookup_seq in Hk as [-> Hk].
  destruct (Hidx (lo + k)) as [Hsome Hi]; [lia|].
  split; [exact Hsome|]. rewrite Hi. f_equal. lia.
Qed.

Lemma placed_frame (h h' : gmap nat BasicBlock) fn :
  (forall p, In p (Blocks fn) -> h' !! p = h !! p) -> placed h fn -> placed h' fn.
Proof.
  intros Hsame (Hseq & Hne & Hidx). split; [exact Hseq|]. split; [exact Hne|].
  intros k p Hk. destruct (Hidx k p Hk) as [Hsome Hi].
  assert (h' !! p = h !! p) as E.
  { apply Hsame. apply list_elem_of_In. eapply list_elem_of_lookup_2. exact Hk. }
  unfold blk. rewrite E. auto.
Qed.

Lemma apart_snoc fns fn :
  apart fns ->
  (forall fi p q, In fi fns -> In p (Blocks fi) -> In q (Blocks fn) -> p < q) ->
  apart (fns ++ [fn]).
Proof.
  intros Ha Hnew i j fi fj Hij Hi Hj p q Hp Hq.
  assert (j < length (fns ++ [fn])) as Hjlen by (eapply lookup_lt_Some; exact Hj).
  rewrite length_app in Hjlen. simpl in Hjlen.
  assert (i < length fns) as Hilen by lia.
  rewrite lookup_app_l in Hi by exact Hilen.
  destruct (decide (j < length fns)) as [Hjl|Hjl].
  - rewrite lookup_app_l in Hj by exact Hjl. exact (Ha i j fi fj Hij Hi Hj p q Hp Hq).
  - rewrite lookup_app_r in Hj by lia.
    replace (j - length fns) with 0 in Hj by lia. injection Hj as <-.
    apply (Hnew fi p q); [|exact Hp|exact Hq].
    apply list_elem_of_In. eapply list_elem_of_lookup_2. exact Hi.
Qed.

Lemma settled_frame W b b' :
  settled W b ->
  Functions (module b') = Functions (module b) ->
  nextBlockAddr b <= nextBlockAddr b' ->
  (forall p, p < nextBlockAddr b -> store b' !! p = store b !! p) ->
  settled W b'.
Proof.
  intros [Hs Hap] Hf Hn Hlook. split; [|rewrite Hf; exact Hap].
  assert (forall p, p < nextBlockAddr b -> blk (store b') p = blk (store b) p) as Hframe.
  { intros p Hp. unfold blk. rewrite Hlook by exact Hp. reflexivity. }
  intros fn Hfn. rewrite Hf in Hfn.
  destruct (Hs fn Hfn) as (Hb & He & Hclear & (last & Hlast) & Hvoid & Hplaced).
  split; [intros p Hp; specialize (Hb p Hp); lia|]. split; [lia|].
  split; [unfold entry_clear; rewrite Hframe by exact He; exact Hclear|].
  split; [|split].
  - exists last. intros p Hp Hne. rewrite Hframe by (apply Hb; exact Hp). auto.
  - intros HW Hv p Hp. rewrite Hframe by (apply Hb; exact Hp). apply Hvoid; assumption.
  - eapply placed_frame; [|exact Hplaced]. intros p Hp. apply Hlook, Hb, Hp.
Qed.

Lemma settled_buildFunction W decl b u b' :
  settled W b -> (W -> Body decl <> None) ->
  buildFunction GetExprType Lookup decl b = Some (u, b') -> settled W b'.
Proof.
  intros Hset Hbody H. unfold buildFunction in H.
  destruct (Lookup (DeclName decl)) as [symbol|].
  2:{ injection H as _ <-. apply (settled_frame W b); auto. }
  destruct Hset as [Hset Hap].
  destruct (SymType symbol) as [| | | | | | | |? ?|? ?|paramTypes returnType];
    try discriminate.
  run_bind H params b1 H1.
  destruct (buildParams_untouched _ _ _ _ _ _ H1) as (Hst1 & Hn1 & Hm1).
  run_bind H b1' b2 H2. injection H2 as E0 E1; subst b1' b2.
  unfold NewFunction in H. cbv beta iota zeta in H.
  set (lo := nextBlockAddr b1) in *.
  set (f0 := mkFunction (DeclName decl) params returnType [lo] lo []
               (Z.of_nat (length params))) in *.
  run_bind H u3 b3 H3. injection H3 as _ <-.
  run_bind H u4 b4 H4. injection H4 as _ <-.
  run_bind H u5 b5 H5. injection H5 as _ <-.
  run_bind H u6 b6 H6. injection H6 as _ <-.
  run_bind H u7 b7 H7. injection H7 as _ <-.
  match type of H with
  | (_ ≫= _) ?s = _ => set (start := s) in *
  end.
  assert (shaped lo (fun _ => False) start) as S0.
  { exists f0, lo. subst start f0. simpl.
    split; [reflexivity|]. split; [reflexivity|]. split; [reflexivity|].
    split; [lia|]. split; [lia|]. split; [|split; [|split]].
    - intros p [<-|[]]. lia.
    - rewrite blk_insert, decide_True by reflexivity. reflexivity.
    - intros p [<-|[]] Hne; congruence.
    - split; [replace (S lo - lo) with 1 by lia; reflexivity|].
      intros p Hp. assert (p = lo) as -> by lia.
      rewrite lookup_insert, blk_insert, !decide_True by reflexivity.
      split; [eauto|]. simpl. f_equal. lia. }
  assert (store start = <[lo := NewBasicBlock "entry"]> (store b1)) as Hstore0
      by reflexivity.
  assert (nextBlockAddr start = S lo) as Hnext0 by reflexivity.
  assert (module start = module b1) as Hmod0 by reflexivity.
  assert (ReturnType <$> currentFunc start = Some returnType) as Hret0 by reflexivity.
  clearbody start.
  run_bind H u8 b8 H8.
  assert (shaped lo (fun _ => False) b8 /\ grows lo start b8 /\
          (W -> types.Equals returnType types.Void = true ->
           forall cur, currentBlock b8 = Some cur ->
                       IsTerminated (blk (store b8) cur) = true))
    as (S8 & G8 & T8).
  { destruct (Body decl) as [body|].
    - run_bind H8 v1 c1 K1.
      destruct (builds_buildStmt lo (BlockStmt body) _ _ _ _ S0 K1) as (Sa & Ga).
      destruct (types.Equals returnType types.Void).
      + destruct (closes_unlessTerminated lo _ (closes_emit lo (Return None) eq_refl)
                    _ c1 u8 b8 Sa H8) as (Sb & Gb & Cb & Tb).
        split; [exact Sb|]. split; [chain|].
        intros _ _ cur Hc. apply Tb. congruence.
      + injection H8 as _ <-. split; [exact Sa|]. split; [exact Ga|]. discriminate.
    - injection H8 as _ <-. split; [exact S0|]. split; [apply grows_refl|].
      intros HW. exfalso. apply (Hbody HW). reflexivity. }
  run_bind H b8' b9 H9. injection H9 as E0 E1; subst b8' b9.
  run_bind H f b10 H10.
  apply deref_Some in H10 as (f1 & Hf & E). injection E as E0 E1; subst f1 b10.
  run_bind H u11 b11 H11. injection H11 as _ <-.
  run_bind H u12 b12 H12. injection H12 as _ <-.
  injection H as _ <-.
  destruct S8 as (f' & cur & Hf' & Hc & He & Hlo & Hcur & Hb & Hpred & Hterm & Hlay).
  rewrite Hf in Hf'. injection Hf' as <-.
  destruct G8 as (Hframe & Hmod & Hnext & Hret).
  assert (forall p, p < nextBlockAddr b -> store b8 !! p = store b !! p) as Hlook.
  { intros p Hp. rewrite Hframe by (unfold lo; lia).
    rewrite Hstore0, lookup_insert, decide_False by (unfold lo; lia).
    rewrite Hst1. reflexivity. }
  assert (forall p, p < nextBlockAddr b -> blk (store b8) p = blk (store b) p) as Hold.
  { intros p Hp. unfold blk. rewrite Hlook by exact Hp. reflexivity. }
  assert (Functions (module b8) = Functions (module b)) as Hfns
      by (rewrite Hmod, Hmod0, Hm1; reflexivity).
  split.
  - intros fn Hfn. simpl in Hfn. apply in_app_or in Hfn as [Hfn|[<-|[]]]; simpl.
    + rewrite Hfns in Hfn.
      destruct (Hset fn Hfn) as (Hb0 & He0 & Hclear0 & (last & Hlast) & Hvoid0 & Hpl0).
      split; [intros p Hp; specialize (Hb0 p Hp); unfold lo in *; lia|].
      split; [unfold lo in *; lia|].
      split; [unfold entry_clear; rewrite Hold by exact He0; exact Hclear0|].
      split; [|split].
      * exists last. intros p Hp Hne. rewrite Hold by (apply Hb0; exact Hp). auto.
      * intros HW Hv p Hp. rewrite Hold by (apply Hb0; exact Hp).
        apply Hvoid0; assumption.
      * destruct Hpl0 as (Hseq0 & Hne0 & Hidx0). split; [exact Hseq0|].
        split; [exact Hne0|]. intros k p Hk.
        assert (p < nextBlockAddr b) as Hp.
        { apply Hb0. apply list_elem_of_In. eapply list_elem_of_lookup_2. exact Hk. }
        destruct (Hidx0 k p Hk) as [Hsome Hi].
        rewrite Hold, Hlook by exact Hp. auto.
    + split; [intros p Hp; apply Hb; exact Hp|].
      split; [rewrite He; exact Hlo|].
      split; [unfold entry_clear; rewrite He; exact Hpred|].
      split; [|split].
      * exists cur. intros p Hp Hne. apply Hterm; auto.
      * intros HW Hv p Hp.
        assert (ReturnType f = returnType) as Hrt.
        { rewrite Hf, Hret0 in Hret. simpl in Hret. congruence. }
        rewrite Hrt in Hv.
        destruct (decide (p = cur)) as [->|Hne]; [apply (T8 HW Hv cur Hc)|].
        apply Hterm; auto.
      * eapply laid_out_placed; eassumption.
  - simpl. rewrite Hfns. apply apart_snoc; [exact Hap|].
    intros fi p q Hfi Hp Hq.
    destruct (Hset fi Hfi) as (Hb0 & _). specialize (Hb0 p Hp). specialize (Hb q Hq).
    unfold lo in *. lia.
Qed.

Lemma settled_buildGlobalVar W names : forall b u b',
  settled W b -> buildGlobalVar Lookup names b = Some (u, b') -> settled W b'.
Proof.
  induction names as [|name names IH]; intros b u b' Hset H; simpl in H.
  - injection H as _ <-. exact Hset.
  - run_bind H u1 b1 H1. apply (IH b1 u b'); [|exact H].
    destruct (Lookup name) as [symbol|].
    + run_bind H1 b0 b2 H2. injection H2 as E0 E1; subst b0 b2.
      run_bind H1 g b3 H3. unfold allocValue in H3. injection H3 as _ <-.
      run_bind H1 u4 b4 H4. injection H4 as _ <-. injection H1 as _ <-.
      apply (settled_frame W b); auto.
    + injection H1 as _ <-. exact Hset.
Qed.

Lemma settled_buildDecl W decl b u b' :
  settled W b ->
  (forall d, decl = DeclFunc d -> W -> Body d <> None) ->
  buildDecl GetExprType Lookup decl b = Some (u, b') -> settled W b'.
Proof.
  intros Hset Hbody H. destruct decl as [d|names t init|name|name]; simpl in H.
  - eapply settled_buildFunction; [exact Hset|apply Hbody; reflexivity|exact H].
  - eapply settled_buildGlobalVar; eassumption.
  - injection H as _ <-. exact Hset.
  - injection H as _ <-. exact Hset.
Qed.

Lemma settled_Verify (h : gmap nat BasicBlock) (fns : list Function) name globals :
  (forall fn, In fn fns -> entry_clear h fn /\ closed h fn) ->
  Verify h (mkModule name fns globals) = [].
Proof.
  intros Hall. unfold Verify. simpl.
  induction fns as [|fn fns IH]; [reflexivity|]. simpl.
  destruct (Hall fn (or_introl eq_refl)) as [Hclear Hclosed].
  rewrite IH by (intros fn' Hfn'; apply Hall; right; exact Hfn').
  rewrite Hclear. simpl. rewrite !app_nil_r.
  assert (forall l, (forall p, In p l -> IsTerminated (blk h p) = true) ->
                    flat_map
                      (fun block =>
                         if negb (IsTerminated (blk h block))
                         then ["block " +:+ Label (blk h block) +:+ " in function "
                                 +:+ FuncName fn +:+ " has no terminator"]
                         else []) l = []) as Hnone.
  { induction l as [|p l IHl]; intros Hl; [reflexivity|]. simpl.
    rewrite (Hl p (or_introl eq_refl)). simpl. apply IHl.
    intros q Hq. apply Hl. right. exact Hq. }
  apply Hnone. exact Hclosed.
Qed.

(** All function declarations of the file have a body. *)
Definition with_bodies (file : File) : Prop :=
  forall d, In (DeclFunc d) (Decls file) -> Body d <> None.

Lemma Build_settled (file : File) m errs h :
  Build GetExprType Lookup file = Some (m, errs, h) ->
  exists b, module b = m /\ store b = h /\ settled (with_bodies file) b.
Proof.
  intros H. unfold Build in H.
  match type of H with
  | match ?run NewBuilder with _ => _ end = _ => destruct (run NewBuilder) as [[u b]|] eqn:Hrun
  end; [|discriminate].
  injection H as <- <- <-.
  run_bind Hrun u0 b0 H0. injection H0 as _ <-.
  exists b. split; [reflexivity|]. split; [reflexivity|].
  set (W := with_bodies file).
  assert (forall ds b1 u1 b2,
             (forall d, In (DeclFunc d) ds -> W -> Body d <> None) ->
             settled W b1 ->
             (fix loop (ds : list Decl) : M unit :=
                match ds with
                | [] => skip
                | d :: ds' => buildDecl GetExprType Lookup d;; loop ds'
                end) ds b1 = Some (u1, b2) ->
             settled W b2) as Hloop.
  { induction ds as [|d ds IH]; intros b1 u1 b2 Hds Hs1 Hl.
    - injection Hl as _ <-. exact Hs1.
    - run_bind Hl u2 b3 Hd. apply (IH b3 u1 b2); [| |exact Hl].
      + intros d' Hd'. apply Hds. right. exact Hd'.
      + apply (settled_buildDecl W d b1 u2 b3 Hs1); [|exact Hd].
        intros d' -> HW. apply Hds; [left; reflexivity|exact HW]. }
  apply (Hloop (Decls file) (set_module (NewModule (Package file)) NewBuilder) u b);
    [| |exact Hrun].
  - intros d Hd HW. apply HW. exact Hd.
  - split; [intros fn []|]. intros i j fi fj _ Hi. discriminate Hi.
Qed.




End with_analyzer.

(** The scope of a file that declares the single function [func main()]. *)
Definition main_scope (name : string) : option Symbol :=
  if String.eqb name "main"
  then Some (mkSymbol 0 "main" SymbolFunction (types.FunctionType [] types.Void))
  else None.

(** [func main() { var x = 1; while (true) { if (true) { break; } x = 2; } }] *)
Definition looping : File :=
  mkFile "main"
    [DeclFunc (mkFuncDecl "main" [] None
       (Some [VarDecl ["x"] None (Some (LiteralExpr (PayloadInt64 1)));
              WhileStmt (LiteralExpr (PayloadBool true))
                [IfStmt (LiteralExpr (PayloadBool true)) [BreakStmt] None;
                 ExprStmt (AssignmentExpr (IdentifierExpr "x") lexer.TokenAssign
                             (LiteralExpr (PayloadInt64 2)))]]))].



End builder_blocks_spec.

(** ** The optimizer on a verified module *)

Module optimize_spec.
Import ir optimizer optimizer_module ir_spec optimizer_spec optimizer_search_spec.

(** [calmer h h']: from [h] to [h'] every block keeps its label and its
    predecessors, and a terminated block stays terminated. *)
Definition calmer (h h' : gmap nat BasicBlock) : Prop :=
  forall p,
    Label (blk h' p) = Label (blk h p) /\
    Predecessors (blk h' p) = Predecessors (blk h p) /\
    (IsTerminated (blk h p) = true -> IsTerminated (blk h' p) = true).

Lemma calmer_refl h : calmer h h.
Proof. intros p. auto. Qed.

Lemma calmer_trans h1 h2 h3 : calmer h1 h2 -> calmer h2 h3 -> calmer h1 h3.
Proof.
  intros H12 H23 p. destruct (H12 p) as (L1 & P1 & T1). destruct (H23 p) as (L2 & P2 & T2).
  split; [congruence|]. split; [congruence|auto].
Qed.

(** [trimmed fn fn']: the same function with some blocks removed. *)
Definition trimmed (fn fn' : Function) : Prop :=
  FuncName fn' = FuncName fn /\ Entry fn' = Entry fn /\ sublist (Blocks fn') (Blocks fn).

Lemma terminator_critical instr : is_terminator instr = true -> isCritical instr = true.
Proof. destruct instr; simpl; congruence. Qed.

Lemma last_filter {A} (keep : A -> bool) (l : list A) x :
  last l = Some x -> keep x = true -> last (List.filter keep l) = Some x.
Proof.
  intros Hl Hk. destruct (last_Some l x) as [Hex _]. destruct (Hex Hl) as [l' ->].
  rewrite List.filter_app. simpl. rewrite Hk. apply last_snoc.
Qed.

Lemma runOnce_calmer h fn h2 fn2 m :
  runOnce h fn = Some (h2, fn2, m) -> calmer h h2.
Proof.
  intros Hrun p.
  destruct (runOnce_effect h fn) as
    (used & R & h2' & fn2' & m' & Hrun' & Hinstr & Hframe & _).
  rewrite Hrun in Hrun'. injection Hrun' as <- <- <-.
  destruct (Hframe p) as (HL & _ & HP & _).
  split; [exact HL|]. split; [exact HP|].
  rewrite !IsTerminated_last, Hinstr.
  destruct (decide (p ∈ Blocks fn)); [|auto].
  destruct (last (Instructions (blk h p))) as [instr|] eqn:Hl; [|discriminate].
  intros Ht. rewrite (last_filter _ _ instr Hl); [exact Ht|].
  apply keep_critical, terminator_critical, Ht.
Qed.

Lemma runLoop_calmer k : forall h fn h' fn',
  runLoop k h fn = Some (h', fn') -> calmer h h'.
Proof.
  induction k as [|k IH]; intros h fn h' fn' Hrun; simpl in Hrun; [discriminate|].
  destruct (runOnce h fn) as [[[h1 fn1] m]|] eqn:Honce; [|discriminate].
  pose proof (runOnce_calmer h fn h1 fn1 m Honce) as H1.
  destruct m; [|injection Hrun as <- <-; exact H1].
  eapply calmer_trans; [exact H1|]. eapply IH. exact Hrun.
Qed.

Lemma ConstantFolding_calmer h alloc fn : calmer h (ConstantFolding_Run h alloc fn).1.
Proof.
  unfold ConstantFolding_Run. cbn [fst].
  match goal with
  | |- context [fold_left ?f (Blocks fn) ?st0] =>
      destruct (foldBlocks_rewritten (Blocks fn) st0) as [_ Hrw]
  end.
  cbv zeta in Hrw. simpl in Hrw. intros p. destruct (Hrw p) as [E F].
  split; [rewrite E; reflexivity|]. split; [rewrite E; reflexivity|].
  unfold IsTerminated. rewrite (folded_Terminator _ _ _ _ F). auto.
Qed.

(** One function through the two passes. *)
Lemma OptimizeFunction_calmer st :
  exists st',
    OptimizeFunction NewOptimizer st = Some st' /\
    calmer (ps_store st) (ps_store st') /\ trimmed (ps_func st) (ps_func st').
Proof.
  rewrite OptimizeFunction_default, Run_ConstantFolding, Run_DeadCodeElimination.
  set (h1 := (ConstantFolding_Run (ps_store st) (ps_alloc st) (ps_func st)).1).
  cbn [ps_store ps_alloc ps_func].
  destruct (DeadCodeElimination_Run_total h1 (ps_func st)) as [[h2 fn2] Hrun].
  rewrite Hrun. eexists. split; [reflexivity|]. cbn [ps_store ps_alloc ps_func].
  unfold DeadCodeElimination_Run in Hrun.
  split.
  - eapply calmer_trans; [apply ConstantFolding_calmer|].
    eapply runLoop_calmer. exact Hrun.
  - destruct (runLoop_preserved _ _ _ _ _ Hrun) as (_ & _ & Hsub & Hfn & _).
    rewrite Hfn. split; [destruct (ps_func st); reflexivity|].
    split; [destruct (ps_func st); reflexivity|exact Hsub].
Qed.

Lemma optimizeFunctions_calmer fns : forall h alloc,
  exists h' alloc' fns',
    optimizeFunctions NewOptimizer h alloc fns = Some (h', alloc', fns') /\
    calmer h h' /\ Forall2 trimmed fns fns'.
Proof.
  induction fns as [|fn fns IH]; intros h alloc.
  - exists h, alloc, []. split; [reflexivity|]. split; [apply calmer_refl|constructor].
  - cbn [optimizeFunctions].
    destruct (OptimizeFunction_calmer (mkPassState h alloc fn)) as (st & -> & Hc & Ht).
    simpl in Hc, Ht.
    destruct (IH (ps_store st) (ps_alloc st)) as (h' & alloc' & fns' & -> & Hc' & Hts).
    eexists _, _, _. split; [reflexivity|].
    split; [eapply calmer_trans; eassumption|]. constructor; assumption.
Qed.

(** The errors [Verify] reports on one function. *)
Definition function_errors (h : gmap nat BasicBlock) (fn : Function) : list string :=
  flat_map
    (fun block =>
       if negb (IsTerminated (blk h block))
       then ["block " +:+ Label (blk h block) +:+ " in function "
               +:+ FuncName fn +:+ " has no terminator"]
       else [])
    (Blocks fn)
  ++ (if Nat.ltb 0 (length (Predecessors (blk h (Entry fn))))
      then ["entry block of function " +:+ FuncName fn +:+ " has predecessors"]
      else []).

Lemma Verify_function_errors h m : Verify h m = flat_map (function_errors h) (Functions m).
Proof. reflexivity. Qed.

Lemma function_errors_calmer h h' fn fn' e :
  calmer h h' -> trimmed fn fn' ->
  In e (function_errors h' fn') -> In e (function_errors h fn).
Proof.
  intros Hc (Hname & Hentry & Hsub) He. unfold function_errors in *.
  apply in_or_app. apply in_app_or in He as [He|He].
  - left. apply in_flat_map in He as (p & Hp & He). apply in_flat_map.
    exists p. split; [eapply sublist_In; eassumption|].
    destruct (Hc p) as (HL & _ & HT).
    destruct (IsTerminated (blk h' p)) eqn:T'; [destruct He|].
    destruct (IsTerminated (blk h p)) eqn:T; [specialize (HT eq_refl); congruence|].
    simpl in *. rewrite HL, Hname in He. exact He.
  - right. destruct (Hc (Entry fn)) as (_ & HP & _).
    rewrite Hentry, HP, Hname in He. exact He.
Qed.

Lemma Forall2_In_right {A B} (R : A -> B -> Prop) l l' y :
  Forall2 R l l' -> In y l' -> exists x, In x l /\ R x y.
Proof.
  induction 1 as [|a b l l' Hab _ IH]; intros Hy; [destruct Hy|].
  destruct Hy as [<-|Hy]; [exists a; split; [left; reflexivity|exact Hab]|].
  destruct (IH Hy) as (x & Hx & HR). exists x. split; [right; exact Hx|exact HR].
Qed.


End optimize_spec.

(** ** Properties of the symbol table *)

Module symtab_spec.
Import symtab.
Local Open Scope Z_scope.

(** [ancestors hp s l]: [l] is the chain of scopes from [s] along the
    parent pointers up to a scope without parent. *)
Inductive ancestors (hp : Heap) : nat -> list nat -> Prop :=
  | ancestors_root s sc :
      scopes hp !! s = Some sc -> Parent sc = None -> ancestors hp s [s]
  | ancestors_parent s sc p l :
      scopes hp !! s = Some sc -> Parent sc = Some p -> ancestors hp p l ->
      ancestors hp s (s :: l).

(** The heaps without dangling pointers and without a cycle of parent
    pointers: every scope has its chain of ancestors and every entry of
    a scope's table is a symbol of the heap. *)
Definition wf (hp : Heap) : Prop :=
  (forall s sc, scopes hp !! s = Some sc -> exists l, ancestors hp s l) /\
  (forall s sc name symbol,
      scopes hp !! s = Some sc -> Symbols sc !! name = Some symbol ->
      is_Some (symbols hp !! symbol)).

(** The first declaration of [name] along a chain of scopes. *)
Fixpoint declared (hp : Heap) (l : list nat) (name : string) : option nat :=
  match l with
  | [] => None
  | s :: l' =>
      match scopes hp !! s with
      | Some sc =>
          match Symbols sc !! name with
          | Some symbol => Some symbol
          | None => declared hp l' name
          end
      | None => None
      end
  end.

(** The first scope of a chain that passes a test. *)
Fixpoint nearest (test : Scope -> bool) (hp : Heap) (l : list nat) : option nat :=
  match l with
  | [] => None
  | s :: l' =>
      match scopes hp !! s with
      | Some sc => if test sc then Some s else nearest test hp l'
      | None => None
      end
  end.

Lemma ancestors_head hp s l : ancestors hp s l -> exists l', l = s :: l'.
Proof. intros [? ? ? ?|? ? ? ? ? ? ?]; eauto. Qed.

Lemma ancestors_scope hp s l : ancestors hp s l -> is_Some (scopes hp !! s).
Proof. intros [? ? H ?|? ? ? ? H ? ?]; eauto. Qed.

Lemma ancestors_unique hp s l : ancestors hp s l -> forall l', ancestors hp s l' -> l' = l.
Proof.
  induction 1 as [s sc Hs Hp|s sc p l Hs Hp _ IH]; intros l' H'.
  - destruct H' as [s sc' Hs' Hp'|s sc' p' l' Hs' Hp' _]; [reflexivity|]. congruence.
  - destruct H' as [s sc' Hs' Hp'|s sc' p' l' Hs' Hp' Hl']; [congruence|].
    assert (p' = p) as -> by congruence. f_equal. apply IH. exact Hl'.
Qed.

(** *** Lookup *)

Lemma Lookup_chain hp s l : ancestors hp s l ->
  forall fuel name, (length l <= fuel)%nat ->
    Lookup fuel hp s name =
    match declared hp l name with
    | Some symbol =>
        match MarkUsed hp symbol with
        | Some hp' => Some (Some symbol, hp')
        | None => None
        end
    | None => Some (None, hp)
    end.
Proof.
  induction 1 as [s sc Hs Hp|s sc p l Hs Hp _ IH]; intros fuel name Hfuel;
    (destruct fuel as [|fuel]; [simpl in Hfuel; lia|]); simpl; rewrite Hs.
  - destruct (Symbols sc !! name); [reflexivity|]. rewrite Hp. reflexivity.
  - destruct (Symbols sc !! name); [reflexivity|]. rewrite Hp.
    apply IH. simpl in Hfuel. lia.
Qed.

Lemma declared_valid hp s l name symbol :
  wf hp -> ancestors hp s l -> declared hp l name = Some symbol ->
  is_Some (symbols hp !! symbol).
Proof.
  intros [_ Hsym]. induction 1 as [s sc Hs Hp|s sc p l Hs Hp _ IH]; simpl; rewrite Hs.
  - destruct (Symbols sc !! name) as [x|] eqn:E; [|discriminate].
    intros H. injection H as <-. eapply Hsym; eassumption.
  - destruct (Symbols sc !! name) as [x|] eqn:E; [|exact IH].
    intros H. injection H as <-. eapply Hsym; eassumption.
Qed.

(** What [declared] finds: the entry of the first scope of the chain
    that has one. *)
Lemma declared_first hp l name symbol :
  declared hp l name = Some symbol <->
  exists l1 s sc l2,
    l = l1 ++ s :: l2 /\ scopes hp !! s = Some sc /\ Symbols sc !! name = Some symbol /\
    forall a, In a l1 ->
      exists sa, scopes hp !! a = Some sa /\ Symbols sa !! name = None.
Proof.
  revert symbol. induction l as [|a l IH]; intros symbol; simpl.
  - split; [discriminate|]. intros (l1 & s & sc & l2 & E & _). destruct l1; discriminate.
  - destruct (scopes hp !! a) as [sa|] eqn:Ha.
    + destruct (Symbols sa !! name) as [x|] eqn:Hx.
      * split.
        -- intros H. injection H as <-. exists [], a, sa, l.
           split; [reflexivity|]. split; [exact Ha|]. split; [exact Hx|]. intros ? [].
        -- intros (l1 & s & sc & l2 & E & Hs & Hn & Hbefore).
           destruct l1 as [|b l1]; simpl in E; injection E as -> ->.
           ++ congruence.
           ++ destruct (Hbefore b (or_introl eq_refl)) as (sb & Hb & Hnone). congruence.
      * rewrite IH. split.
        -- intros (l1 & s & sc & l2 & -> & Hs & Hn & Hbefore).
           exists (a :: l1), s, sc, l2. split; [reflexivity|].
           split; [exact Hs|]. split; [exact Hn|].
           intros b [<-|Hb]; [eauto|auto].
        -- intros (l1 & s & sc & l2 & E & Hs & Hn & Hbefore).
           destruct l1 as [|b l1]; simpl in E; injection E as -> ->; [congruence|].
           exists l1, s, sc, l2. split; [reflexivity|].
           split; [exact Hs|]. split; [exact Hn|].
           intros c Hc. apply Hbefore. right. exact Hc.
    + split; [discriminate|].
      intros (l1 & s & sc & l2 & E & Hs & Hn & Hbefore).
      destruct l1 as [|b l1]; simpl in E; injection E as -> ->; [congruence|].
      destruct (Hbefore b (or_introl eq_refl)) as (sb & Hb & _). congruence.
Qed.

Lemma MarkUsed_scopes hp symbol hp' : MarkUsed hp symbol = Some hp' -> scopes hp' = scopes hp.
Proof.
  unfold MarkUsed. destruct (symbols hp !! symbol); [|discriminate].
  intros H. injection H as <-. reflexivity.
Qed.

Lemma ancestors_scopes hp hp' s l :
  (forall a, Parent <$> scopes hp' !! a = Parent <$> scopes hp !! a) ->
  ancestors hp s l -> ancestors hp' s l.
Proof.
  intros Hsame. induction 1 as [s sc Hs Hp|s sc p l Hs Hp _ IH].
  - pose proof (Hsame s) as E. rewrite Hs in E. simpl in E.
    destruct (scopes hp' !! s) as [sc'|] eqn:Hs'; [|discriminate].
    simpl in E. injection E as E.
    apply (ancestors_root hp' s sc' Hs'). rewrite E. exact Hp.
  - pose proof (Hsame s) as E. rewrite Hs in E. simpl in E.
    destruct (scopes hp' !! s) as [sc'|] eqn:Hs'; [|discriminate].
    simpl in E. injection E as E.
    apply (ancestors_parent hp' s sc' p l Hs'); [rewrite E; exact Hp|exact IH].
Qed.

Lemma MarkUsed_wf hp symbol hp' : wf hp -> MarkUsed hp symbol = Some hp' -> wf hp'.
Proof.
  intros [Hchain Hsym] H. pose proof (MarkUsed_scopes _ _ _ H) as Hsc.
  unfold MarkUsed in H. destruct (symbols hp !! symbol) as [o|] eqn:Ho; [|discriminate].
  injection H as <-. simpl in *. split.
  - intros s sc Hs. destruct (Hchain s sc Hs) as [l Hl]. exists l.
    eapply ancestors_scopes; [|exact Hl]. reflexivity.
  - intros s sc name x Hs Hx. simpl. rewrite lookup_insert.
    destruct (decide (symbol = x)); [eauto|]. eapply Hsym; eassumption.
Qed.

(** Lookup finds the innermost declaration.  In a well-formed heap
    [Lookup] returns from every scope as soon as the bound covers the
    chain of its ancestors.  It returns the entry for the name in the
    first scope of the chain that has one, with that symbol marked used
    and nothing else changed; and nil, with the heap unchanged, when no
    scope of the chain has an entry. *)
Theorem Lookup_innermost hp s l fuel name :
  wf hp -> ancestors hp s l -> (length l <= fuel)%nat ->
  exists result hp',
    Lookup fuel hp s name = Some (result, hp') /\ wf hp' /\
    result = declared hp l name /\
    scopes hp' = scopes hp /\
    match result with
    | Some symbol =>
        exists sym, symbols hp !! symbol = Some sym /\
                    symbols hp' = <[symbol := set_Used true sym]> (symbols hp)
    | None => hp' = hp
    end /\
    (forall symbol,
        result = Some symbol <->
        exists l1 s' sc l2,
          l = l1 ++ s' :: l2 /\ scopes hp !! s' = Some sc /\
          Symbols sc !! name = Some symbol /\
          forall a, In a l1 ->
            exists sa, scopes hp !! a = Some sa /\ Symbols sa !! name = None).
Proof.
  intros Hwf Hl Hfuel. rewrite (Lookup_chain hp s l Hl fuel name Hfuel).
  destruct (declared hp l name) as [symbol|] eqn:Hd.
  - destruct (declared_valid hp s l name symbol Hwf Hl Hd) as [sym Hsym].
    pose proof (MarkUsed_wf hp symbol) as Hm. unfold MarkUsed in *. rewrite Hsym in *.
    eexists _, _. split; [reflexivity|]. split; [apply Hm; [exact Hwf|reflexivity]|].
    split; [reflexivity|]. split; [reflexivity|]. split; [eauto|].
    intros x. rewrite <- declared_first, Hd. reflexivity.
  - exists None, hp. split; [reflexivity|]. split; [exact Hwf|].
    split; [reflexivity|]. split; [reflexivity|]. split; [reflexivity|].
    intros x. rewrite <- declared_first, Hd. reflexivity.
Qed.

(** *** The enclosing function, loop or switch *)

Lemma findEnclosing_chain test hp s l : ancestors hp s l ->
  forall fuel, (length l <= fuel)%nat ->
    findEnclosing test fuel hp s = Some (nearest test hp l).
Proof.
  induction 1 as [s sc Hs Hp|s sc p l Hs Hp _ IH]; intros fuel Hfuel;
    (destruct fuel as [|fuel]; [simpl in Hfuel; lia|]); simpl; rewrite Hs.
  - destruct (test sc); [reflexivity|]. rewrite Hp. reflexivity.
  - destruct (test sc); [reflexivity|]. rewrite Hp. apply IH. simpl in Hfuel. lia.
Qed.

Lemma nearest_first test hp l s :
  nearest test hp l = Some s <->
  exists l1 sc l2,
    l = l1 ++ s :: l2 /\ scopes hp !! s = Some sc /\ test sc = true /\
    forall a, In a l1 -> exists sa, scopes hp !! a = Some sa /\ test sa = false.
Proof.
  revert s. induction l as [|a l IH]; intros s; simpl.
  - split; [discriminate|]. intros (l1 & sc & l2 & E & _). destruct l1; discriminate.
  - destruct (scopes hp !! a) as [sa|] eqn:Ha.
    + destruct (test sa) eqn:Ht.
      * split.
        -- intros H. injection H as <-. exists [], sa, l.
           split; [reflexivity|]. split; [exact Ha|]. split; [exact Ht|]. intros ? [].
        -- intros (l1 & sc & l2 & E & Hs & Hn & Hbefore).
           destruct l1 as [|b l1]; simpl in E; injection E as -> ->; [reflexivity|].
           destruct (Hbefore b (or_introl eq_refl)) as (sb & Hb & Hfalse). congruence.
      * rewrite IH. split.
        -- intros (l1 & sc & l2 & -> & Hs & Hn & Hbefore).
           exists (a :: l1), sc, l2. split; [reflexivity|].
           split; [exact Hs|]. split; [exact Hn|].
           intros b [<-|Hb]; [eauto|auto].
        -- intros (l1 & sc & l2 & E & Hs & Hn & Hbefore).
           destruct l1 as [|b l1]; simpl in E; injection E as -> ->; [congruence|].
           exists l1, sc, l2. split; [reflexivity|].
           split; [exact Hs|]. split; [exact Hn|].
           intros c Hc. apply Hbefore. right. exact Hc.
    + split; [discriminate|].
      intros (l1 & sc & l2 & E & Hs & Hn & Hbefore).
      destruct l1 as [|b l1]; simpl in E; injection E as -> ->; [congruence|].
      destruct (Hbefore b (or_introl eq_refl)) as (sb & Hb & _). congruence.
Qed.

(** The three searches for an enclosing scope return, as soon as the
    bound covers the chain of ancestors, the first scope of the chain of
    the kind they look for, or nil when the chain has none: the scope
    itself when it is of that kind, else the nearest such ancestor.
    [FindEnclosingLoop] does not stop at a function scope. *)
Theorem FindEnclosing_nearest hp s l fuel :
  ancestors hp s l -> (length l <= fuel)%nat ->
  FindEnclosingFunction fuel hp s = Some (nearest IsFunction hp l) /\
  FindEnclosingLoop fuel hp s = Some (nearest IsLoop hp l) /\
  FindEnclosingLoopOrSwitch fuel hp s =
    Some (nearest (fun sc => IsLoop sc || IsSwitch sc) hp l) /\
  forall test found,
    nearest test hp l = Some found <->
    exists l1 sc l2,
      l = l1 ++ found :: l2 /\ scopes hp !! found = Some sc /\ test sc = true /\
      forall a, In a l1 -> exists sa, scopes hp !! a = Some sa /\ test sa = false.
Proof.
  intros Hl Hfuel.
  split; [apply findEnclosing_chain; assumption|].
  split; [apply findEnclosing_chain; assumption|].
  split; [apply findEnclosing_chain; assumption|].
  intros test found. apply nearest_first.
Qed.

(** *** New scopes *)

Lemma ancestors_fresh hp s l fresh :
  scopes hp !! fresh = None -> ancestors hp s l -> ~ In fresh l.
Proof.
  intros Hfresh. induction 1 as [s sc Hs Hp|s sc p l Hs Hp _ IH].
  - intros [<-|[]]. congruence.
  - intros [<-|Hin]; [congruence|auto].
Qed.

(** [NewScope] keeps the heap well-formed.  With a fresh address it
    always returns for the global scope, and for a parent of the heap;
    the new scope is empty and its chain of ancestors is the parent's
    chain with the scope in front; the chains of all other scopes, all
    tables and all symbols are as before; so a lookup from the new scope
    finds what a lookup from the parent finds. *)
Theorem NewScope_chain hp fresh kind parent :
  wf hp -> scopes hp !! fresh = None ->
  (forall p, parent = Some p -> is_Some (scopes hp !! p)) ->
  exists hp',
    NewScope hp fresh kind parent = Some (fresh, hp') /\ wf hp' /\
    symbols hp' = symbols hp /\
    (exists sc, scopes hp' !! fresh = Some sc /\
                ScopeKind_ sc = kind /\ Parent sc = parent /\ Symbols sc = ∅) /\
    (forall s sc, scopes hp !! s = Some sc ->
       exists sc', scopes hp' !! s = Some sc' /\
                   Symbols sc' = Symbols sc /\ Parent sc' = Parent sc /\
                   ScopeKind_ sc' = ScopeKind_ sc) /\
    (forall s l, ancestors hp s l -> ancestors hp' s l) /\
    match parent with
    | None => ancestors hp' fresh [fresh]
    | Some p =>
        forall l, ancestors hp p l ->
          ancestors hp' fresh (fresh :: l) /\
          forall name, declared hp' (fresh :: l) name = declared hp l name
    end.
Proof.
  intros [Hchain Hsym] Hfresh Hparent. unfold NewScope.
  destruct parent as [p|].
  - destruct (Hparent p eq_refl) as [ps Hps]. rewrite Hps. cbv zeta.
    assert (p <> fresh) as Hne by congruence.
    set (scope := mkScope kind (Some p) ∅ []
                    (if ScopeKind_eqb kind ScopeFunction then None else Function ps)
                    (optimizer.wrap64 (Depth ps + 1))).
    set (hp' := mkHeap (<[fresh := scope]>
                          (<[p := set_Children (Children ps ++ [fresh]) ps]> (scopes hp)))
                  (symbols hp)).
    assert (forall s sc, scopes hp !! s = Some sc ->
              exists sc', scopes hp' !! s = Some sc' /\
                          Symbols sc' = Symbols sc /\ Parent sc' = Parent sc /\
                          ScopeKind_ sc' = ScopeKind_ sc) as Hold.
    { intros s sc Hs. subst hp'. simpl.
      rewrite lookup_insert, decide_False by congruence. rewrite lookup_insert.
      destruct (decide (p = s)) as [<-|]; [|eauto].
      eexists. split; [reflexivity|]. rewrite Hps in Hs. injection Hs as <-. auto. }
    assert (forall s l, ancestors hp s l -> ancestors hp' s l) as Hanc.
    { intros s l. induction 1 as [s sc Hs Hp|s sc q l Hs Hp _ IH].
      - destruct (Hold s sc Hs) as (sc' & Hs' & _ & HP & _).
        apply (ancestors_root hp' s sc' Hs'). congruence.
      - destruct (Hold s sc Hs) as (sc' & Hs' & _ & HP & _).
        apply (ancestors_parent hp' s sc' q l Hs'); [congruence|exact IH]. }
    assert (scopes hp' !! fresh = Some scope) as Hnew.
    { subst hp'. simpl. rewrite lookup_insert, decide_True by reflexivity. reflexivity. }
    exists hp'. split; [reflexivity|]. split; [|split; [reflexivity|split; [|split; [|split]]]].
    + split.
      * intros s sc Hs. destruct (decide (s = fresh)) as [->|Hsf].
        -- destruct (Hchain p ps Hps) as [l Hl]. exists (fresh :: l).
           apply (ancestors_parent hp' fresh scope p l Hnew eq_refl). apply Hanc, Hl.
        -- assert (is_Some (scopes hp !! s)) as [sc0 Hs0].
           { subst hp'. simpl in Hs.
             rewrite lookup_insert, decide_False in Hs by congruence.
             rewrite lookup_insert in Hs.
             destruct (decide (p = s)) as [<-|]; eauto. }
           destruct (Hchain s sc0 Hs0) as [l Hl]. exists l. apply Hanc, Hl.
      * intros s sc name x Hs Hx. simpl.
        destruct (decide (s = fresh)) as [->|Hsf].
        -- rewrite Hnew in Hs. injection Hs as <-. simpl in Hx.
           rewrite lookup_empty in Hx. discriminate.
        -- assert (exists sc0, scopes hp !! s = Some sc0 /\ Symbols sc0 = Symbols sc)
             as (sc0 & Hs0 & E).
           { subst hp'. simpl in Hs.
             rewrite lookup_insert, decide_False in Hs by congruence.
             rewrite lookup_insert in Hs.
             destruct (decide (p = s)) as [<-|]; [|eauto].
             injection Hs as <-. eauto. }
           rewrite <- E in Hx. eapply Hsym; eassumption.
    + exists scope. auto.
    + exact Hold.
    + exact Hanc.
    + intros l Hl. split.
      * apply (ancestors_parent hp' fresh scope p l Hnew eq_refl). apply Hanc, Hl.
      * intros name. cbn [declared]. rewrite Hnew. unfold scope at 1. cbn [Symbols].
        rewrite lookup_empty.
        assert (forall s l0, ancestors hp s l0 ->
                  declared hp' l0 name = declared hp l0 name) as Hdecl; [|eauto].
        clear - Hold. intros s l0 Hl0.
        induction Hl0 as [s sc Hs Hp|s sc q l0 Hs Hp _ IH]; cbn [declared];
          destruct (Hold s sc Hs) as (sc' & Hs' & HS & _); rewrite Hs, Hs', HS.
        -- reflexivity.
        -- rewrite IH. reflexivity.
  - set (scope := mkScope kind None ∅ [] None 0).
    set (hp' := mkHeap (<[fresh := scope]> (scopes hp)) (symbols hp)).
    assert (forall s sc, scopes hp !! s = Some sc -> scopes hp' !! s = Some sc) as Hold.
    { intros s sc Hs. subst hp'. simpl.
      rewrite lookup_insert, decide_False by congruence. exact Hs. }
    assert (forall s l, ancestors hp s l -> ancestors hp' s l) as Hanc.
    { intros s l. induction 1 as [s sc Hs Hp|s sc q l Hs Hp _ IH].
      - apply (ancestors_root hp' s sc (Hold s sc Hs) Hp).
      - apply (ancestors_parent hp' s sc q l (Hold s sc Hs) Hp IH). }
    assert (scopes hp' !! fresh = Some scope) as Hnew.
    { subst hp'. simpl. rewrite lookup_insert, decide_True by reflexivity. reflexivity. }
    exists hp'. split; [reflexivity|]. split; [|split; [reflexivity|split; [|split; [|split]]]].
    + split.
      * intros s sc Hs. destruct (decide (s = fresh)) as [->|Hsf].
        -- exists [fresh]. apply (ancestors_root hp' fresh scope Hnew eq_refl).
        -- subst hp'. simpl in Hs. rewrite lookup_insert, decide_False in Hs by congruence.
           destruct (Hchain s sc Hs) as [l Hl]. exists l. apply Hanc, Hl.
      * intros s sc name x Hs Hx. simpl.
        destruct (decide (s = fresh)) as [->|Hsf].
        -- rewrite Hnew in Hs. injection Hs as <-. simpl in Hx.
           rewrite lookup_empty in Hx. discriminate.
        -- subst hp'. simpl in Hs. rewrite lookup_insert, decide_False in Hs by congruence.
           eapply Hsym; eassumption.
    + exists scope. auto.
    + intros s sc Hs. exists sc. auto.
    + exact Hanc.
    + apply (ancestors_root hp' fresh scope Hnew eq_refl).
Qed.


(** *** Definitions *)

Lemma size_insert_new (m : gmap string nat) k v :
  m !! k = None -> Z.of_nat (size (<[k := v]> m)) - 1 = Z.of_nat (size m).
Proof. intros H. rewrite map_size_insert_None by exact H. lia. Qed.

(** [Define] declares, and [Lookup] finds.  In a well-formed heap
    [Define] returns.  When the scope has an entry for the symbol's name
    it returns the error with the position of that entry's symbol and
    changes nothing.  Otherwise it enters the symbol under its name, sets
    the symbol's scope and gives it as [Index] the number of symbols the
    scope had before; the heap stays well-formed and nothing else
    changes.  Then [LookupLocal] in the scope returns the symbol, and so
    does [Lookup] from every scope below, unless a scope in between has
    an entry for the name. *)
Theorem Define_declares hp s symbol sc sym :
  wf hp -> scopes hp !! s = Some sc -> symbols hp !! symbol = Some sym ->
  match Symbols sc !! Name sym with
  | Some existing =>
      exists ex,
        symbols hp !! existing = Some ex /\
        Define hp s symbol = Some (Some (AlreadyDeclared (Name sym) (Pos ex)), hp)
  | None =>
      exists hp',
        Define hp s symbol = Some (None, hp') /\ wf hp' /\
        LookupLocal hp' s (Name sym) = Some (Some symbol) /\
        (forall name, name <> Name sym -> LookupLocal hp' s name = LookupLocal hp s name) /\
        (forall s', s' <> s -> scopes hp' !! s' = scopes hp !! s') /\
        symbols hp' !! symbol =
          Some (set_Scope_Index (Some s) (Z.of_nat (size (Symbols sc))) sym) /\
        (forall a, a <> symbol -> symbols hp' !! a = symbols hp !! a) /\
        (forall s' l, ancestors hp s' l -> ancestors hp' s' l) /\
        (forall s' l1 l2 fuel,
            ancestors hp s' (l1 ++ s :: l2) ->
            (forall a sa, In a l1 -> scopes hp !! a = Some sa ->
                          Symbols sa !! Name sym = None) ->
            (length (l1 ++ s :: l2) <= fuel)%nat ->
            exists hp'', Lookup fuel hp' s' (Name sym) = Some (Some symbol, hp''))
  end.
Proof.
  intros [Hchain Hsym] Hs Hsy. unfold Define. rewrite Hs, Hsy.
  destruct (Symbols sc !! Name sym) as [existing|] eqn:Hex.
  - destruct (Hsym s sc (Name sym) existing Hs Hex) as [ex Hexs].
    exists ex. rewrite Hexs. auto.
  - cbv zeta. rewrite size_insert_new by exact Hex.
    set (sc1 := set_Symbols (<[Name sym := symbol]> (Symbols sc)) sc).
    set (sym1 := set_Scope_Index (Some s) (Z.of_nat (size (Symbols sc))) sym).
    set (hp' := mkHeap (<[s := sc1]> (scopes hp)) (<[symbol := sym1]> (symbols hp))).
    assert (scopes hp' !! s = Some sc1) as Hs1.
    { subst hp'. simpl. rewrite lookup_insert, decide_True by reflexivity. reflexivity. }
    assert (forall s', s' <> s -> scopes hp' !! s' = scopes hp !! s') as Hother.
    { intros s' Hne. subst hp'. simpl. rewrite lookup_insert, decide_False by congruence.
      reflexivity. }
    assert (forall a, Parent <$> scopes hp' !! a = Parent <$> scopes hp !! a) as Hparents.
    { intros a. destruct (decide (a = s)) as [->|Hne]; [|rewrite Hother by exact Hne; auto].
      rewrite Hs1, Hs. reflexivity. }
    assert (forall s' l, ancestors hp s' l -> ancestors hp' s' l) as Hanc.
    { intros s' l. apply ancestors_scopes. exact Hparents. }
    assert (symbols hp' !! symbol = Some sym1) as Hsy1.
    { subst hp'. simpl. rewrite lookup_insert, decide_True by reflexivity. reflexivity. }
    assert (forall a, a <> symbol -> symbols hp' !! a = symbols hp !! a) as Hsyo.
    { intros a Hne. subst hp'. simpl. rewrite lookup_insert, decide_False by congruence.
      reflexivity. }
    assert (forall a, is_Some (symbols hp !! a) -> is_Some (symbols hp' !! a)) as Hkeep.
    { intros a Ha. destruct (decide (a = symbol)) as [->|Hne]; [eauto|].
      rewrite Hsyo by exact Hne. exact Ha. }
    exists hp'. split; [reflexivity|].
    split; [|split; [|split; [|split; [exact Hother|split; [exact Hsy1|split;
      [exact Hsyo|split; [exact Hanc|]]]]]]].
    + split.
      * intros a sa Ha. destruct (decide (a = s)) as [->|Hne].
        -- destruct (Hchain s sc Hs) as [l Hl]. exists l. apply Hanc, Hl.
        -- rewrite Hother in Ha by exact Hne.
           destruct (Hchain a sa Ha) as [l Hl]. exists l. apply Hanc, Hl.
      * intros a sa name x Ha Hx. destruct (decide (a = s)) as [->|Hne].
        -- rewrite Hs1 in Ha. injection Ha as <-. simpl in Hx.
           rewrite lookup_insert in Hx. destruct (decide (Name sym = name)).
           ++ injection Hx as <-. eauto.
           ++ apply Hkeep. eapply Hsym; eassumption.
        -- rewrite Hother in Ha by exact Hne. apply Hkeep. eapply Hsym; eassumption.
    + unfold LookupLocal. rewrite Hs1. simpl.
      rewrite lookup_insert, decide_True by reflexivity. reflexivity.
    + intros name Hne. unfold LookupLocal. rewrite Hs1, Hs. simpl.
      rewrite lookup_insert, decide_False by congruence. reflexivity.
    + intros s' l1 l2 fuel Hl Hbefore Hfuel.
      rewrite (Lookup_chain hp' s' _ (Hanc _ _ Hl) fuel (Name sym) Hfuel).
      assert (declared hp' (l1 ++ s :: l2) (Name sym) = Some symbol) as ->.
      { assert (forall l, (forall a, In a l -> is_Some (scopes hp !! a)) ->
                  (forall a sa, In a l -> scopes hp !! a = Some sa ->
                                Symbols sa !! Name sym = None) ->
                  declared hp' (l ++ s :: l2) (Name sym) = Some symbol) as Hdecl.
        { assert (Symbols sc1 !! Name sym = Some symbol) as Hentry.
          { simpl. rewrite lookup_insert, decide_True by reflexivity. reflexivity. }
          induction l as [|a l IH]; intros Hin Hnone; cbn [declared app].
          - rewrite Hs1, Hentry. reflexivity.
          - destruct (decide (a = s)) as [->|Hne].
            + rewrite Hs1, Hentry. reflexivity.
            + rewrite Hother by exact Hne.
              destruct (Hin a (or_introl eq_refl)) as [sa Ha]. rewrite Ha.
              rewrite (Hnone a sa (or_introl eq_refl) Ha).
              apply IH; [intros b Hb; apply Hin; right; exact Hb|].
              intros b sb Hb. apply Hnone. right. exact Hb. }
        apply Hdecl; [|exact Hbefore].
        clear - Hl. intros a Ha.
        assert (forall s0 l, ancestors hp s0 l ->
                  forall a, In a l -> is_Some (scopes hp !! a)) as Hall.
        { intros s0 l. induction 1 as [x sx Hx Hp|x sx p l Hx Hp _ IH]; intros b Hb.
          - destruct Hb as [<-|[]]. eauto.
          - destruct Hb as [<-|Hb]; [eauto|auto]. }
        apply (Hall _ _ Hl). apply in_or_app. left. exact Ha. }
      unfold MarkUsed. rewrite Hsy1. eauto.
Qed.


(** *** The bookkeeping of scopes and symbols *)

(** The heaps whose bookkeeping is in order: the depth of a scope is the
    number of its proper ancestors (as a 64-bit integer); a table's entry
    for a name is a symbol with that name that points back to the scope;
    the indexes of the symbols of a table with [n] entries are in
    [0 .. n-1] and differ from each other. *)
Definition tidy (hp : Heap) : Prop :=
  (forall s sc l, scopes hp !! s = Some sc -> ancestors hp s l ->
     Depth sc = optimizer.wrap64 (Z.of_nat (length l) - 1)) /\
  (forall s sc name symbol,
     scopes hp !! s = Some sc -> Symbols sc !! name = Some symbol ->
     exists sym, symbols hp !! symbol = Some sym /\ Name sym = name /\
                 Scope_ sym = Some s /\
                 0 <= Index sym < Z.of_nat (size (Symbols sc))) /\
  (forall s sc n1 n2 x1 x2 y1 y2,
     scopes hp !! s = Some sc ->
     Symbols sc !! n1 = Some x1 -> Symbols sc !! n2 = Some x2 ->
     symbols hp !! x1 = Some y1 -> symbols hp !! x2 = Some y2 ->
     Index y1 = Index y2 -> n1 = n2).

Lemma wrap64_succ a : optimizer.wrap64 (optimizer.wrap64 a + 1) = optimizer.wrap64 (a + 1).
Proof.
  unfold optimizer.wrap64. f_equal.
  replace ((a + 2 ^ 63) mod 2 ^ 64 - 2 ^ 63 + 1 + 2 ^ 63)
    with ((a + 2 ^ 63) mod 2 ^ 64 + 1) by lia.
  rewrite Zplus_mod_idemp_l. f_equal. lia.
Qed.

Lemma ancestors_mono hp hp' s l :
  (forall a sa, scopes hp !! a = Some sa ->
     exists sa', scopes hp' !! a = Some sa' /\ Parent sa' = Parent sa) ->
  ancestors hp s l -> ancestors hp' s l.
Proof.
  intros Hsame. induction 1 as [s sc Hs Hp|s sc p l Hs Hp _ IH];
    destruct (Hsame s sc Hs) as (sc' & Hs' & E).
  - apply (ancestors_root hp' s sc' Hs'). rewrite E. exact Hp.
  - apply (ancestors_parent hp' s sc' p l Hs'); [rewrite E; exact Hp|exact IH].
Qed.

Lemma MarkUsed_tidy hp symbol hp' : tidy hp -> MarkUsed hp symbol = Some hp' -> tidy hp'.
Proof.
  intros (Hdepth & Hentry & Hindex) H. unfold MarkUsed in H.
  destruct (symbols hp !! symbol) as [o|] eqn:Ho; [|discriminate].
  injection H as <-. split; [|split]; simpl.
  - intros s sc l Hs Hl. apply (Hdepth s sc l Hs).
    eapply ancestors_scopes; [|exact Hl]. reflexivity.
  - intros s sc name x Hs Hx.
    destruct (Hentry s sc name x Hs Hx) as (sym & Hsym & Hn & Hsc & Hi).
    rewrite lookup_insert. destruct (decide (symbol = x)) as [->|]; [|eauto].
    rewrite Ho in Hsym. injection Hsym as ->. eexists. split; [reflexivity|]. auto.
  - intros s sc n1 n2 x1 x2 y1 y2 Hs H1 H2 Hy1 Hy2.
    rewrite lookup_insert in Hy1. rewrite lookup_insert in Hy2.
    assert (forall x y, (if decide (symbol = x) then Some (set_Used true o)
                         else symbols hp !! x) = Some y ->
              exists y0, symbols hp !! x = Some y0 /\ Index y = Index y0) as Hold.
    { intros x y E. destruct (decide (symbol = x)) as [->|]; [|eauto].
      injection E as <-. eauto. }
    destruct (Hold _ _ Hy1) as (z1 & Hz1 & ->). destruct (Hold _ _ Hy2) as (z2 & Hz2 & ->).
    eapply Hindex; eassumption.
Qed.

Lemma Lookup_heap fuel : forall hp s name result hp',
  Lookup fuel hp s name = Some (result, hp') ->
  hp' = hp \/ exists symbol, MarkUsed hp symbol = Some hp'.
Proof.
  induction fuel as [|k IH]; intros hp s name result hp' H; simpl in H; [discriminate|].
  destruct (scopes hp !! s) as [sc|]; [|discriminate].
  destruct (Symbols sc !! name) as [symbol|].
  - destruct (MarkUsed hp symbol) as [hp1|] eqn:Hm; [|discriminate].
    injection H as _ <-. eauto.
  - destruct (Parent sc) as [p|]; [eapply IH; exact H|].
    injection H as _ <-. auto.
Qed.

(** The bookkeeping stays in order.  The empty heap is tidy, and
    [NewScope] at a fresh address, [Define] of a symbol that is in no
    scope yet, and [Lookup] keep a heap tidy: depths count the
    ancestors, and the symbols of every scope are numbered from 0 in the
    order they were defined, without gaps or repetitions. *)
Theorem tidy_kept :
  tidy (mkHeap ∅ ∅) /\
  (forall hp fresh kind parent hp',
      wf hp -> tidy hp -> scopes hp !! fresh = None ->
      NewScope hp fresh kind parent = Some (fresh, hp') -> tidy hp') /\
  (forall hp s symbol sym hp',
      tidy hp -> symbols hp !! symbol = Some sym -> Scope_ sym = None ->
      Define hp s symbol = Some (None, hp') ->
      tidy hp' /\
      exists sc sc' sym',
        scopes hp !! s = Some sc /\ scopes hp' !! s = Some sc' /\
        symbols hp' !! symbol = Some sym' /\
        size (Symbols sc') = S (size (Symbols sc)) /\
        Index sym' = Z.of_nat (size (Symbols sc))) /\
  (forall fuel hp s name result hp',
      tidy hp -> Lookup fuel hp s name = Some (result, hp') -> tidy hp').
Proof.
  split; [|split; [|split]].
  - split; [|split]; simpl.
    + intros s sc l Hs. rewrite lookup_empty in Hs. discriminate.
    + intros s sc name x Hs. rewrite lookup_empty in Hs. discriminate.
    + intros s sc n1 n2 x1 x2 y1 y2 Hs. rewrite lookup_empty in Hs. discriminate.
  - intros hp fresh kind parent hp' [Hchain Hsym] (Hdepth & Hentry & Hindex) Hfresh H.
    assert (exists scope,
              scopes hp' !! fresh = Some scope /\ Symbols scope = ∅ /\
              Parent scope = parent /\
              (forall p ps, parent = Some p -> scopes hp !! p = Some ps ->
                            Depth scope = optimizer.wrap64 (Depth ps + 1)) /\
              (parent = None -> Depth scope = 0) /\
              (forall p, parent = Some p -> is_Some (scopes hp !! p)) /\
              symbols hp' = symbols hp /\
              (forall s sc, scopes hp !! s = Some sc ->
                 exists sc', scopes hp' !! s = Some sc' /\ Symbols sc' = Symbols sc /\
                             Parent sc' = Parent sc /\ Depth sc' = Depth sc) /\
              (forall s sc', s <> fresh -> scopes hp' !! s = Some sc' ->
                 is_Some (scopes hp !! s)))
      as (scope & Hnew & Hempty & Hparent & Hd1 & Hd0 & Hp & Hsyms & Hold & Hback).
    { unfold NewScope in H. destruct parent as [p|].
      - destruct (scopes hp !! p) as [ps|] eqn:Hps; [|discriminate].
        injection H as <-. eexists. simpl.
        split; [rewrite lookup_insert, decide_True by reflexivity; reflexivity|].
        simpl. split; [reflexivity|]. split; [reflexivity|].
        split; [intros p0 ps0 E Hp0; injection E as <-; congruence|].
        split; [discriminate|]. split; [intros p0 E; injection E as <-; eauto|].
        split; [reflexivity|]. split.
        + intros s sc Hs. rewrite lookup_insert, decide_False by congruence.
          rewrite lookup_insert. destruct (decide (p = s)) as [<-|]; [|eauto].
          rewrite Hps in Hs. injection Hs as <-. eexists. split; [reflexivity|]. auto.
        + intros s sc' Hne Hs. rewrite lookup_insert, decide_False in Hs by congruence.
          rewrite lookup_insert in Hs. destruct (decide (p = s)) as [<-|]; eauto.
      - injection H as <-. eexists. simpl.
        split; [rewrite lookup_insert, decide_True by reflexivity; reflexivity|].
        simpl. split; [reflexivity|]. split; [reflexivity|].
        split; [discriminate|]. split; [reflexivity|]. split; [discriminate|].
        split; [reflexivity|]. split.
        + intros s sc Hs. rewrite lookup_insert, decide_False by congruence. eauto.
        + intros s sc' Hne Hs. rewrite lookup_insert, decide_False in Hs by congruence.
          eauto. }
    assert (forall s l, ancestors hp s l -> ancestors hp' s l) as Hanc.
    { intros s l. apply ancestors_mono. intros a sa Ha.
      destruct (Hold a sa Ha) as (sa' & Ha' & _ & E & _). eauto. }
    assert (forall s sc' l, s <> fresh -> scopes hp' !! s = Some sc' -> ancestors hp' s l ->
              exists sc, scopes hp !! s = Some sc /\ Symbols sc' = Symbols sc /\
                         Depth sc' = Depth sc /\ ancestors hp s l) as Hsame.
    { intros s sc' l Hne Hs' Hl. destruct (Hback s sc' Hne Hs') as [sc Hs].
      destruct (Hold s sc Hs) as (sc0 & Hs0 & E1 & _ & E2).
      rewrite Hs' in Hs0. injection Hs0 as <-. exists sc.
      split; [exact Hs|]. split; [exact E1|]. split; [exact E2|].
      destruct (Hchain s sc Hs) as [l0 Hl0].
      rewrite (ancestors_unique hp' s l0 (Hanc s l0 Hl0) l Hl). exact Hl0. }
    split; [|split].
    + intros s sc' l Hs' Hl. destruct (decide (s = fresh)) as [->|Hne].
      * rewrite Hnew in Hs'. injection Hs' as <-.
        inversion Hl as [s0 sc0 Hs0 Hp0|s0 sc0 p l0 Hs0 Hp0 Hl0]; subst;
          rewrite Hnew in Hs0; injection Hs0 as <-.
        -- rewrite Hd0 by exact Hp0. reflexivity.
        -- destruct (Hp p Hp0) as [ps Hps]. rewrite (Hd1 p ps Hp0 Hps).
           assert (p <> fresh) as Hne by congruence.
           destruct (Hold p ps Hps) as (ps' & Hps' & _).
           destruct (Hsame p ps' l0 Hne Hps' Hl0) as (ps0 & Hps0 & _ & _ & Hl0').
           rewrite Hps in Hps0. injection Hps0 as <-.
           rewrite (Hdepth p ps l0 Hps Hl0'), wrap64_succ. f_equal. simpl length. lia.
      * destruct (Hsame s sc' l Hne Hs' Hl) as (sc & Hs & _ & -> & Hl0).
        apply (Hdepth s sc l Hs Hl0).
    + intros s sc' name x Hs' Hx. destruct (decide (s = fresh)) as [->|Hne].
      * rewrite Hnew in Hs'. injection Hs' as <-. rewrite Hempty, lookup_empty in Hx.
        discriminate.
      * destruct (Hback s sc' Hne Hs') as [sc Hs].
        destruct (Hold s sc Hs) as (sc0 & Hs0 & E1 & _).
        rewrite Hs' in Hs0. injection Hs0 as <-. rewrite E1 in *. rewrite Hsyms.
        eapply Hentry; eassumption.
    + intros s sc' n1 n2 x1 x2 y1 y2 Hs' H1 H2. destruct (decide (s = fresh)) as [->|Hne].
      * rewrite Hnew in Hs'. injection Hs' as <-. rewrite Hempty, lookup_empty in H1.
        discriminate.
      * destruct (Hback s sc' Hne Hs') as [sc Hs].
        destruct (Hold s sc Hs) as (sc0 & Hs0 & E1 & _).
        rewrite Hs' in Hs0. injection Hs0 as <-. rewrite E1 in *. rewrite Hsyms.
        eapply Hindex; eassumption.
  - intros hp s symbol sym hp' (Hdepth & Hentry & Hindex) Hsy Hfree H.
    unfold Define in H. destruct (scopes hp !! s) as [sc|] eqn:Hs; [|discriminate].
    rewrite Hsy in H. destruct (Symbols sc !! Name sym) as [existing|] eqn:Hex.
    { destruct (symbols hp !! existing); discriminate. }
    cbv zeta in H. rewrite size_insert_new in H by exact Hex. injection H as <-.
    assert (forall a sa name x, scopes hp !! a = Some sa -> Symbols sa !! name = Some x ->
              x <> symbol) as Hnot.
    { intros a sa name x Ha Hx ->.
      destruct (Hentry a sa name symbol Ha Hx) as (sym0 & Hsym0 & _ & E & _). congruence. }
    split.
    + split; [|split]; simpl.
      * intros a sa l Ha Hl.
        assert (exists sa0, scopes hp !! a = Some sa0 /\ Depth sa = Depth sa0)
          as (sa0 & Ha0 & ->).
        { rewrite lookup_insert in Ha. destruct (decide (s = a)) as [<-|]; [|eauto].
          injection Ha as <-. eauto. }
        apply (Hdepth a sa0 l Ha0). eapply ancestors_scopes; [|exact Hl].
        intros b. simpl. rewrite lookup_insert. destruct (decide (s = b)) as [<-|]; [|auto].
        rewrite Hs. reflexivity.
      * intros a sa name x Ha Hx. rewrite lookup_insert in Ha.
        destruct (decide (s = a)) as [<-|Hne].
        -- injection Ha as <-. simpl in *. rewrite map_size_insert_None by exact Hex.
           rewrite lookup_insert in Hx. destruct (decide (Name sym = name)) as [<-|Hn].
           ++ injection Hx as <-. rewrite lookup_insert, decide_True by reflexivity.
              eexists. split; [reflexivity|]. simpl. repeat split; lia.
           ++ rewrite lookup_insert, decide_False
                by (intros Heq; exact (Hnot s sc name _ Hs Hx (eq_sym Heq))).
              destruct (Hentry s sc name x Hs Hx) as (y & Hy & ? & ? & ?).
              exists y. repeat split; auto; lia.
        -- rewrite lookup_insert, decide_False
             by (intros Heq; exact (Hnot a sa name _ Ha Hx (eq_sym Heq))).
           eapply Hentry; eassumption.
      * intros a sa n1 n2 x1 x2 y1 y2 Ha H1 H2 Hy1 Hy2 E. rewrite lookup_insert in Ha.
        destruct (decide (s = a)) as [<-|Hne].
        -- injection Ha as <-. simpl in H1, H2. rewrite lookup_insert in H1. rewrite lookup_insert in H2.
           rewrite lookup_insert in Hy1. rewrite lookup_insert in Hy2.
           destruct (decide (Name sym = n1)) as [<-|Hn1];
             destruct (decide (Name sym = n2)) as [<-|Hn2]; [reflexivity| | |].
           ++ injection H1 as <-. rewrite decide_True in Hy1 by reflexivity.
              injection Hy1 as <-. simpl in E.
              rewrite decide_False in Hy2
                by (intros Heq; exact (Hnot s sc n2 _ Hs H2 (eq_sym Heq))).
              destruct (Hentry s sc n2 x2 Hs H2) as (y & Hy & _ & _ & Hr).
              rewrite Hy2 in Hy. injection Hy as <-. lia.
           ++ injection H2 as <-. rewrite decide_True in Hy2 by reflexivity.
              injection Hy2 as <-. simpl in E.
              rewrite decide_False in Hy1
                by (intros Heq; exact (Hnot s sc n1 _ Hs H1 (eq_sym Heq))).
              destruct (Hentry s sc n1 x1 Hs H1) as (y & Hy & _ & _ & Hr).
              rewrite Hy1 in Hy. injection Hy as <-. lia.
           ++ rewrite decide_False in Hy1
                by (intros Heq; exact (Hnot s sc n1 _ Hs H1 (eq_sym Heq))).
              rewrite decide_False in Hy2
                by (intros Heq; exact (Hnot s sc n2 _ Hs H2 (eq_sym Heq))).
              eapply Hindex; eassumption.
        -- rewrite lookup_insert in Hy1. rewrite lookup_insert in Hy2.
           rewrite decide_False in Hy1
             by (intros Heq; exact (Hnot a sa n1 _ Ha H1 (eq_sym Heq))).
           rewrite decide_False in Hy2
             by (intros Heq; exact (Hnot a sa n2 _ Ha H2 (eq_sym Heq))).
           eapply Hindex; eassumption.
    + eexists sc, _, _. split; [reflexivity|]. simpl.
      split; [rewrite lookup_insert, decide_True by reflexivity; reflexivity|].
      split; [rewrite lookup_insert, decide_True by reflexivity; reflexivity|].
      simpl. split; [apply map_size_insert_None; exact Hex|reflexivity].
  - intros fuel hp s name result hp' Htidy H.
    destruct (Lookup_heap fuel hp s name result hp' H) as [->|[symbol Hm]]; [exact Htidy|].
    eapply MarkUsed_tidy; eassumption.
Qed.


(** *** A heap with three nested scopes

    The global scope declares [x]; a function scope and, inside it, a
    loop scope declare nothing; the symbol [y] is in no scope yet. *)
Definition nested_x : Symbol :=
  mkSymbol "x" builder.SymbolVariable types.Int (lexer.mkPosition "a.src" 1 5 4)
    (Some 0%nat) false false ir.PayloadNone ∅ 0.

Definition nested_y : Symbol :=
  mkSymbol "y" builder.SymbolVariable types.Int (lexer.mkPosition "a.src" 3 9 30)
    None false false ir.PayloadNone ∅ 0.

Definition nested_global : Scope :=
  mkScope ScopeGlobal None {["x" := 0%nat]} [1%nat] None 0.

Definition nested_function : Scope :=
  mkScope ScopeFunction (Some 0%nat) ∅ [2%nat] None 1.

Definition nested_loop : Scope :=
  mkScope ScopeLoop (Some 1%nat) ∅ [] None 2.

Definition nested_heap : Heap :=
  mkHeap (<[2%nat := nested_loop]> (<[1%nat := nested_function]> {[0%nat := nested_global]}))
    (<[1%nat := nested_y]> {[0%nat := nested_x]}).

Lemma nested_cases s sc :
  scopes nested_heap !! s = Some sc ->
  (s = 0%nat /\ sc = nested_global) \/ (s = 1%nat /\ sc = nested_function) \/
  (s = 2%nat /\ sc = nested_loop).
Proof.
  intros Hs. unfold nested_heap in Hs. cbn [scopes] in Hs.
  apply lookup_insert_Some in Hs as [[<- <-]|[_ Hs]]; [auto|].
  apply lookup_insert_Some in Hs as [[<- <-]|[_ Hs]]; [auto|].
  apply lookup_singleton_Some in Hs as [<- <-]. auto.
Qed.

Lemma nested_chain : ancestors nested_heap 2 [2%nat; 1%nat; 0%nat].
Proof.
  apply (ancestors_parent nested_heap 2 nested_loop 1); [reflexivity|reflexivity|].
  apply (ancestors_parent nested_heap 1 nested_function 0); [reflexivity|reflexivity|].
  apply (ancestors_root nested_heap 0 nested_global); reflexivity.
Qed.

Lemma nested_wf : wf nested_heap.
Proof.
  split.
  - intros s sc Hs.
    assert (ancestors nested_heap 0 [0%nat]) as H0
      by (apply (ancestors_root nested_heap 0 nested_global); reflexivity).
    assert (ancestors nested_heap 1 [1%nat; 0%nat]) as H1
      by (apply (ancestors_parent nested_heap 1 nested_function 0);
          [reflexivity|reflexivity|exact H0]).
    destruct (nested_cases s sc Hs) as [[-> ->]|[[-> ->]|[-> ->]]];
      [exists [0%nat]; exact H0|exists [1%nat; 0%nat]; exact H1|].
    exists [2%nat; 1%nat; 0%nat]. exact nested_chain.
  - intros s sc name symbol Hs Hx.
    destruct (nested_cases s sc Hs) as [[-> ->]|[[-> ->]|[-> ->]]];
      cbn [Symbols nested_global nested_function nested_loop] in Hx.
    + apply lookup_singleton_Some in Hx as [_ <-]. exists nested_x. reflexivity.
    + rewrite lookup_empty in Hx. discriminate.
    + rewrite lookup_empty in Hx. discriminate.
Qed.

Lemma Lookup_innermost_witness :
  wf nested_heap /\ ancestors nested_heap 2 [2%nat; 1%nat; 0%nat] /\
  exists hp', Lookup 3 nested_heap 2 "x" = Some (Some 0%nat, hp').
Proof.
  split; [exact nested_wf|]. split; [exact nested_chain|].
  destruct (Lookup_innermost nested_heap 2 _ 3 "x" nested_wf nested_chain (le_n 3))
    as (result & hp' & HL & _ & Hr & _).
  exists hp'. rewrite HL, Hr. reflexivity.
Defined.

Lemma FindEnclosing_nearest_witness :
  ancestors nested_heap 2 [2%nat; 1%nat; 0%nat] /\
  FindEnclosingFunction 3 nested_heap 2 = Some (Some 1%nat) /\
  FindEnclosingLoop 3 nested_heap 2 = Some (Some 2%nat).
Proof.
  split; [exact nested_chain|].
  destruct (FindEnclosing_nearest nested_heap 2 _ 3 nested_chain (le_n 3))
    as (Hf & Hl & _).
  split; [rewrite Hf|rewrite Hl]; reflexivity.
Defined.

Lemma NewScope_chain_witness :
  wf nested_heap /\ scopes nested_heap !! 3%nat = None /\
  exists hp',
    NewScope nested_heap 3 ScopeBlock (Some 2%nat) = Some (3%nat, hp') /\
    ancestors hp' 3 [3%nat; 2%nat; 1%nat; 0%nat].
Proof.
  split; [exact nested_wf|]. split; [reflexivity|].
  destruct (NewScope_chain nested_heap 3 ScopeBlock (Some 2%nat) nested_wf eq_refl)
    as (hp' & Hnew & _ & _ & _ & _ & _ & Hl).
  - intros p E. injection E as <-. exists nested_loop. reflexivity.
  - exists hp'. split; [exact Hnew|]. apply Hl, nested_chain.
Defined.

Lemma Define_declares_witness :
  wf nested_heap /\
  scopes nested_heap !! 1%nat = Some nested_function /\
  symbols nested_heap !! 1%nat = Some nested_y /\
  exists hp' hp'',
    Define nested_heap 1 1 = Some (None, hp') /\
    Lookup 3 hp' 2 "y" = Some (Some 1%nat, hp'').
Proof.
  split; [exact nested_wf|]. split; [reflexivity|]. split; [reflexivity|].
  pose proof (Define_declares nested_heap 1 1 nested_function nested_y
                nested_wf eq_refl eq_refl) as H.
  cbn [Symbols nested_function] in H. rewrite lookup_empty in H.
  destruct H as (hp' & Hdef & _ & _ & _ & _ & _ & _ & _ & Hlook).
  destruct (Hlook 2%nat [2%nat] [0%nat] 3%nat nested_chain) as [hp'' Hl].
  - intros a sa _ Ha.
    destruct (nested_cases a sa Ha) as [[-> ->]|[[-> ->]|[-> ->]]]; reflexivity.
  - apply le_n.
  - exists hp', hp''. split; [exact Hdef|exact Hl].
Defined.


End symtab_spec.

(** ** Properties of the parser *)

Module parsing_spec.
Import lexer parser ast parsing.
Local Open Scope Z_scope.

Lemma sameType_eq a b : sameType a b = true <-> a = b.
Proof.
  unfold sameType. rewrite Z.eqb_eq. split; [|intros ->; reflexivity].
  destruct a; destruct b; intros H; try reflexivity; discriminate H.
Qed.

Lemma sameType_neq a b : sameType a b = false <-> a <> b.
Proof.
  rewrite <- sameType_eq. destruct (sameType a b); split; congruence.
Qed.

(** The tokens at which [synchronize] stops. *)
Definition restarts (t : TokenType) : bool :=
  match t with
  | TokenFunc | TokenVar | TokenFor | TokenIf | TokenWhile | TokenReturn
  | TokenStruct | TokenTypeKeyword => true
  | _ => false
  end.

(** The tokens a declaration starts with. *)
Definition declares (t : TokenType) : bool :=
  match t with
  | TokenVar | TokenFunc | TokenTypeKeyword | TokenStruct => true
  | _ => false
  end.

(** [same_place p p']: the two states are at the same place of the
    input. *)
Definition same_place (p p' : Parser) : Prop :=
  lex p' = lex p /\ current p' = current p /\ previous p' = previous p.

Lemma bind_ok {A B : Type} (m : P A) (f : A -> P B) p a p' :
  m p = Ok a p' -> bind m f p = f a p'.
Proof. intros H. unfold bind. rewrite H. reflexivity. Qed.

Lemma bind_panic {A B : Type} (m : P A) (f : A -> P B) p p' :
  m p = Panic p' -> bind m f p = Panic p'.
Proof. intros H. unfold bind. rewrite H. reflexivity. Qed.

Lemma bind_fuel {A B : Type} (m : P A) (f : A -> P B) p :
  m p = OutOfFuel -> bind m f p = OutOfFuel.
Proof. intros H. unfold bind. rewrite H. reflexivity. Qed.

Ltac step tac := erewrite bind_ok by tac; cbv beta iota.

Section with_library.

Variable IsLetter : Z -> bool.
Variable ParseInt : string -> option Z.
Variable ParseFloat : string -> option Z.

Local Abbreviation parseDecl := (parseDecl IsLetter ParseInt ParseFloat).
Local Abbreviation declarations := (declarations IsLetter ParseInt ParseFloat).
Local Abbreviation ParseFile := (ParseFile IsLetter ParseInt ParseFloat).
Local Abbreviation synchronize := (synchronize IsLetter).
Local Abbreviation match_ := (match_ IsLetter).

Lemma match_miss t p : sameType (Type_ (current p)) t = false -> match_ [t] p = Ok false p.
Proof. intros H. unfold match_, parsing.match_, bind, check. rewrite H. reflexivity. Qed.

Lemma error_same m p : exists p', error m p = Ok tt p' /\ same_place p p'.
Proof.
  unfold error. destruct (panicMode p); eexists; (split; [reflexivity|]);
    repeat split.
Qed.

(** [synchronize] returns at once after a semicolon and at a token that
    starts a statement. *)
Lemma synchronize_stays fuel p :
  Type_ (previous p) = TokenSemicolon \/ restarts (Type_ (current p)) = true ->
  synchronize (S fuel) p = Ok tt (set_panicMode false p).
Proof.
  intros H. unfold synchronize, parsing.synchronize. cbn [loopP].
  cbv [bind isAtEnd get ret]. cbn [current previous set_panicMode].
  destruct (sameType (Type_ (current p)) TokenEOF); [reflexivity|].
  cbn [current previous set_panicMode].
  destruct H as [->|H]; [reflexivity|].
  destruct (sameType (Type_ (previous p)) TokenSemicolon); [reflexivity|].
  destruct (Type_ (current p)); try discriminate H; reflexivity.
Qed.

(** A declaration that starts with no declaration keyword fails without
    reading a token when [synchronize] returns at once. *)
Lemma parseDecl_stays fuel p :
  declares (Type_ (current p)) = false ->
  Type_ (previous p) = TokenSemicolon \/ restarts (Type_ (current p)) = true ->
  parseDecl fuel p = OutOfFuel \/
  exists p', parseDecl fuel p = Ok None p' /\ same_place p p'.
Proof.
  intros Hd Hs. unfold parseDecl, parsing.parseDecl, recover.
  assert (forall t, declares t = true -> sameType (Type_ (current p)) t = false) as Hmiss.
  { intros t Ht. apply sameType_neq. intros E. rewrite E in Hd. congruence. }
  destruct (error_same (ExpectedDeclaration (Type_ (current p))) p)
    as (p1 & He & Hl & Hc & Hp).
  rewrite (bind_ok _ _ _ _ _ (match_miss TokenVar p (Hmiss TokenVar eq_refl))).
  rewrite (bind_ok _ _ _ _ _ (match_miss TokenFunc p (Hmiss TokenFunc eq_refl))).
  rewrite (bind_ok _ _ _ _ _ (match_miss TokenTypeKeyword p (Hmiss TokenTypeKeyword eq_refl))).
  rewrite (bind_ok _ _ _ _ _ (match_miss TokenStruct p (Hmiss TokenStruct eq_refl))).
  rewrite (bind_ok get _ p p p eq_refl).
  rewrite (bind_ok _ _ _ _ _ He). unfold panic.
  destruct fuel as [|fuel]; [left; reflexivity|].
  rewrite (bind_ok _ _ _ _ _ (synchronize_stays fuel p1 ltac:(rewrite Hc, Hp; exact Hs))).
  right. eexists. split; [reflexivity|]. repeat split; assumption.
Qed.

(** Error recovery that does not end.  [ParseFile] never returns when,
    among the top-level declarations, the current token is no
    declaration keyword, comment or end of file and either follows a
    semicolon or is [for], [if], [while] or [return]: [parseDecl] reports
    the error and panics, [synchronize] returns without reading a token,
    and the loop of [ParseFile] calls [parseDecl] again in the same
    state, one error later.  So it is for a file that starts with [for],
    [if], [while] or [return].  In the model the bound is exceeded
    whatever it is. *)
Theorem ParseFile_stuck :
  (forall fuel file p,
      Type_ (current p) <> TokenEOF -> Type_ (current p) <> TokenComment ->
      declares (Type_ (current p)) = false ->
      Type_ (previous p) = TokenSemicolon \/ restarts (Type_ (current p)) = true ->
      declarations fuel file p = OutOfFuel) /\
  (forall fuel filename p,
      In (Type_ (current p)) [TokenFor; TokenIf; TokenWhile; TokenReturn] ->
      ParseFile fuel filename p = OutOfFuel).
Proof.
  assert (forall fuel file p,
      Type_ (current p) <> TokenEOF -> Type_ (current p) <> TokenComment ->
      declares (Type_ (current p)) = false ->
      Type_ (previous p) = TokenSemicolon \/ restarts (Type_ (current p)) = true ->
      declarations fuel file p = OutOfFuel) as Hloop.
  { intros fuel. unfold declarations, parsing.declarations.
    generalize fuel at 1. intros n.
    induction n as [|n IH]; intros file p He Hc Hd Hs; [reflexivity|].
    cbn [loopP]. apply sameType_neq in He, Hc.
    destruct (parseDecl_stays fuel p Hd Hs) as [E|(p' & E & Hl & Hcur & Hprev)].
    - apply bind_fuel. cbv beta.
      step ltac:(unfold isAtEnd; rewrite He; reflexivity).
      step ltac:(apply match_miss; exact Hc).
      apply bind_fuel. exact E.
    - erewrite bind_ok.
      2: { cbv beta. step ltac:(unfold isAtEnd; rewrite He; reflexivity).
           step ltac:(apply match_miss; exact Hc).
           step ltac:(exact E). reflexivity. }
      apply IH; rewrite ?Hcur, ?Hprev; try assumption; apply sameType_neq; assumption. }
  split; [exact Hloop|].
  intros fuel filename p Hin. unfold ParseFile, parsing.ParseFile.
  assert (sameType (Type_ (current p)) TokenComment = false /\
          sameType (Type_ (current p)) TokenPackage = false /\
          sameType (Type_ (current p)) TokenImport = false /\
          Type_ (current p) <> TokenEOF /\ Type_ (current p) <> TokenComment /\
          declares (Type_ (current p)) = false /\ restarts (Type_ (current p)) = true)
    as (Hc & Hpk & Hi & He & Hc' & Hd & Hr).
  { simpl in Hin. destruct Hin as [<-|[<-|[<-|[<-|[]]]]]; repeat split; discriminate. }
  destruct fuel as [|fuel]; [reflexivity|].
  destruct (error_same (Plain "expected 'package' declaration at start of file") p)
    as (p1 & E & Hl & Hcur & Hprev).
  erewrite bind_ok.
  2: { cbn [loopP].
       erewrite bind_ok;
         [|cbv beta; step ltac:(apply match_miss; exact Hc); reflexivity].
       reflexivity. }
  cbv beta iota.
  step ltac:(apply match_miss; exact Hpk).
  step ltac:(erewrite bind_ok by exact E; reflexivity).
  erewrite bind_ok.
  2: { cbn [loopP].
       erewrite bind_ok;
         [|cbv beta; step ltac:(apply match_miss; rewrite Hcur; exact Hi); reflexivity].
       reflexivity. }
  cbv beta iota.
  apply bind_fuel. apply Hloop; rewrite ?Hcur; auto.
Qed.

(** The tokens a statement can start with: the statement keywords, an
    opening brace, the tokens [parsePrefix] has a case for, and the
    semicolon that ends an empty expression statement. *)
Definition statement (t : TokenType) : bool :=
  match t with
  | TokenLeftBrace | TokenIf | TokenWhile | TokenFor | TokenReturn | TokenBreak
  | TokenContinue | TokenSwitch | TokenVar | TokenSemicolon
  | TokenNumber | TokenString | TokenChar | TokenTrue | TokenFalse | TokenNil
  | TokenIdentifier | TokenLeftParen | TokenLeftBracket
  | TokenMinus | TokenNot | TokenBitNot | TokenPlusPlus | TokenMinusMinus => true
  | _ => false
  end.

Local Abbreviation parsePrecedence := (parsePrecedence IsLetter ParseInt ParseFloat).
Local Abbreviation parseStmt := (parseStmt IsLetter ParseInt ParseFloat).
Local Abbreviation parseExprStmt := (parseExprStmt IsLetter ParseInt ParseFloat).
Local Abbreviation statementList := (statementList).
Local Abbreviation parseBlockStmt := (parseBlockStmt IsLetter).
Local Abbreviation parseCaseClause := (parseCaseClause IsLetter ParseInt ParseFloat).
Local Abbreviation caseClauses := (caseClauses IsLetter ParseInt ParseFloat).
Local Abbreviation consume := (consume IsLetter).
Local Abbreviation advance := (advance IsLetter).

Lemma check_miss t p : check t p = Ok (sameType (Type_ (current p)) t) p.
Proof. reflexivity. Qed.

Lemma same_place_trans p1 p2 p3 : same_place p1 p2 -> same_place p2 p3 -> same_place p1 p3.
Proof. intros (? & ? & ?) (? & ? & ?). repeat split; congruence. Qed.

Lemma consume_miss t m p :
  sameType (Type_ (current p)) t = false ->
  exists p', consume t m p = Panic p' /\ same_place p p'.
Proof.
  intros H. unfold consume, parsing.consume.
  destruct (error_same (Plain m) p) as (p1 & E & Hp).
  exists p1. split; [|exact Hp].
  step ltac:(apply check_miss). rewrite H. step ltac:(exact E). reflexivity.
Qed.

(** An expression statement at a token that starts no expression and is
    no semicolon fails without reading a token. *)
Lemma parseExprStmt_stays fuel p :
  statement (Type_ (current p)) = false ->
  parseExprStmt fuel p = OutOfFuel \/
  exists p', parseExprStmt fuel p = Panic p' /\ same_place p p'.
Proof.
  intros Hs. unfold parseExprStmt, parsing.parseExprStmt, parseExpression.
  destruct fuel as [|fuel]; [left; reflexivity|]. right.
  destruct (error_same (ExpectedExpression (Type_ (current p))) p) as (p1 & E & Hp).
  assert (sameType (Type_ (current p1)) TokenSemicolon = false) as Hsemi.
  { destruct Hp as (_ & -> & _). apply sameType_neq. intros E'. rewrite E' in Hs.
    discriminate. }
  destruct (consume_miss TokenSemicolon "expected ';' after expression" p1 Hsemi)
    as (p2 & E2 & Hp2).
  exists p2. split; [|eapply same_place_trans; eassumption].
  erewrite bind_ok.
  2: { cbn [parsing.parsePrecedence]. unfold parsePrecedenceBody.
       erewrite bind_ok.
       2: { unfold parsePrefix. step ltac:(reflexivity).
            destruct (Type_ (current p)); try discriminate Hs; reflexivity. }
       cbv beta iota. step ltac:(reflexivity). step ltac:(exact E). reflexivity. }
  cbv beta. apply bind_panic. exact E2.
Qed.

(** A statement at such a token fails without reading a token when
    [synchronize] returns at once. *)
Lemma parseStmt_stays fuel p :
  statement (Type_ (current p)) = false ->
  Type_ (previous p) = TokenSemicolon \/ restarts (Type_ (current p)) = true ->
  parseStmt fuel p = OutOfFuel \/
  exists p', parseStmt fuel p = Ok NilStmt p' /\ same_place p p'.
Proof.
  intros Hs Hr. destruct fuel as [|fuel]; [left; reflexivity|].
  cbn [parsing.parseStmt]. unfold parseStmtBody, recover.
  assert (forall t, statement t = true -> sameType (Type_ (current p)) t = false) as Hmiss.
  { intros t Ht. apply sameType_neq. intros E. rewrite E in Hs. congruence. }
  step ltac:(apply check_miss). rewrite (Hmiss TokenLeftBrace eq_refl).
  step ltac:(apply (match_miss TokenIf p (Hmiss TokenIf eq_refl))).
  step ltac:(apply (match_miss TokenWhile p (Hmiss TokenWhile eq_refl))).
  step ltac:(apply (match_miss TokenFor p (Hmiss TokenFor eq_refl))).
  step ltac:(apply (match_miss TokenReturn p (Hmiss TokenReturn eq_refl))).
  step ltac:(apply (match_miss TokenBreak p (Hmiss TokenBreak eq_refl))).
  step ltac:(apply (match_miss TokenContinue p (Hmiss TokenContinue eq_refl))).
  step ltac:(apply (match_miss TokenSwitch p (Hmiss TokenSwitch eq_refl))).
  step ltac:(apply (match_miss TokenVar p (Hmiss TokenVar eq_refl))).
  destruct (parseExprStmt_stays fuel p Hs) as [->|(p1 & -> & Hl & Hc & Hp)];
    [left; reflexivity|].
  destruct fuel as [|fuel]; [left; reflexivity|].
  rewrite (bind_ok _ _ _ _ _ (synchronize_stays fuel p1 ltac:(rewrite Hc, Hp; exact Hr))).
  right. eexists. split; [reflexivity|]. repeat split; assumption.
Qed.

(** Statements that are never finished.  In a block, in the body of a
    case and in the body of a switch the parser can go round for ever:
    at a token that starts no statement (such as a comment or [func]),
    [parseStmt] reports the error and panics, and when the token follows
    a semicolon or is one at which [synchronize] stops, it returns nil
    without having read a token, and the loop calls it again; so a block
    that begins with [func], [struct] or [type] is never parsed.
    [parseCaseClause] returns nil without reading a token at every token
    other than [case] and [default], so the loop of [parseSwitchStmt]
    does not end at a body that begins with anything else.  In the model
    the bound is exceeded whatever it is. *)
Theorem statements_stuck :
  (forall fuel n closing p,
      statement (Type_ (current p)) = false ->
      Type_ (previous p) = TokenSemicolon \/ restarts (Type_ (current p)) = true ->
      Type_ (current p) <> TokenEOF -> ~ In (Type_ (current p)) closing ->
      statementList n (parseStmt fuel) closing p = OutOfFuel) /\
  (forall fuel n p p1,
      Type_ (current p) = TokenLeftBrace -> advance p = Ok tt p1 ->
      In (Type_ (current p1)) [TokenFunc; TokenStruct; TokenTypeKeyword] ->
      parseBlockStmt n (parseStmt fuel) p = OutOfFuel) /\
  (forall fuel parseStmt p,
      ~ In (Type_ (current p)) [TokenCase; TokenDefault; TokenRightBrace; TokenEOF] ->
      caseClauses fuel parseStmt p = OutOfFuel).
Proof.
  assert (forall fuel n closing p,
      statement (Type_ (current p)) = false ->
      Type_ (previous p) = TokenSemicolon \/ restarts (Type_ (current p)) = true ->
      Type_ (current p) <> TokenEOF -> ~ In (Type_ (current p)) closing ->
      statementList n (parseStmt fuel) closing p = OutOfFuel) as Hloop.
  { intros fuel n closing p. unfold statementList, parsing.statementList.
    match goal with |- context [loopP n ?b [] p] => set (body := b) end.
    revert p. generalize (@nil Stmt) as statements.
    induction n as [|n IH]; intros statements p Hs Hr He Hc; [reflexivity|].
    cbn [loopP].
    assert (existsb (sameType (Type_ (current p))) closing
            || sameType (Type_ (current p)) TokenEOF = false) as Hopen.
    { apply orb_false_iff. split; [|apply sameType_neq; exact He].
      apply not_true_is_false. intros H. apply existsb_exists in H as (t & Ht & E).
      apply sameType_eq in E. subst t. exact (Hc Ht). }
    destruct (parseStmt_stays fuel p Hs Hr) as [E|(p' & E & Hl & Hcur & Hprev)].
    - apply bind_fuel. unfold body. step ltac:(reflexivity). rewrite Hopen.
      apply bind_fuel. exact E.
    - erewrite bind_ok.
      2: { unfold body. step ltac:(reflexivity). rewrite Hopen.
           step ltac:(exact E). reflexivity. }
      apply IH; rewrite ?Hcur, ?Hprev; assumption. }
  split; [exact Hloop|]. split.
  - intros fuel n p p1 Hb Ha Hin. unfold parseBlockStmt, parsing.parseBlockStmt.
    erewrite bind_ok.
    2: { unfold parsing.consume. step ltac:(apply check_miss).
         rewrite Hb. cbn. exact Ha. }
    step ltac:(reflexivity). apply bind_fuel.
    apply Hloop.
    + simpl in Hin. destruct Hin as [<-|[<-|[<-|[]]]]; reflexivity.
    + right. simpl in Hin. destruct Hin as [<-|[<-|[<-|[]]]]; reflexivity.
    + simpl in Hin. destruct Hin as [<-|[<-|[<-|[]]]]; discriminate.
    + simpl in Hin. intros [E|[]].
      destruct Hin as [H|[H|[H|[]]]]; rewrite <- H in E; discriminate.
  - intros fuel parseStmt p Hin. unfold caseClauses, parsing.caseClauses.
    match goal with |- context [loopP fuel ?b [] p] => set (body := b) end.
    generalize (@nil (option CaseClause)) as cases. generalize fuel as n.
    intros n cases.
    assert (sameType (Type_ (current p)) TokenCase = false /\
            sameType (Type_ (current p)) TokenDefault = false /\
            sameType (Type_ (current p)) TokenRightBrace
            || sameType (Type_ (current p)) TokenEOF = false) as Hp.
    { simpl in Hin. split; [|split]; [| |apply orb_false_iff; split];
        apply sameType_neq; intros E; apply Hin; rewrite E; auto. }
    revert p Hin Hp cases.
    induction n as [|n IH]; intros p Hin (Hcase & Hdefault & Hopen) cases; [reflexivity|].
    cbn [loopP].
    destruct (error_same (Plain "expected 'case' or 'default'") p)
      as (p1 & E & Hl & Hcur & Hprev).
    erewrite bind_ok.
    2: { unfold body. step ltac:(reflexivity). rewrite Hopen.
         erewrite bind_ok; [reflexivity|].
         unfold parsing.parseCaseClause.
         step ltac:(apply match_miss; exact Hcase).
         erewrite bind_ok.
         2: { step ltac:(apply match_miss; exact Hdefault).
              step ltac:(exact E). reflexivity. }
         reflexivity. }
    cbv beta iota. apply IH; rewrite ?Hcur; auto.
Qed.

(** *** The shape of a parsed expression *)

Definition binary (t : TokenType) : bool :=
  match t with
  | TokenPlus | TokenMinus | TokenStar | TokenSlash | TokenPercent | TokenStarStar
  | TokenEqual | TokenNotEqual | TokenLess | TokenLessEqual | TokenGreater
  | TokenGreaterEqual | TokenBitAnd | TokenBitOr | TokenBitXor | TokenShl
  | TokenShr => true
  | _ => false
  end.

Definition logical (t : TokenType) : bool :=
  match t with
  | TokenAnd | TokenOr => true
  | _ => false
  end.

Definition assigns (t : TokenType) : bool :=
  match t with
  | TokenAssign | TokenPlusEq | TokenMinusEq | TokenStarEq | TokenSlashEq
  | TokenPercentEq | TokenAndEq | TokenOrEq | TokenXorEq | TokenShlEq
  | TokenShrEq => true
  | _ => false
  end.

Definition prefixes (t : TokenType) : bool :=
  match t with
  | TokenMinus | TokenNot | TokenBitNot | TokenPlusPlus | TokenMinusMinus => true
  | _ => false
  end.

Definition literal (t : TokenType) : bool :=
  match t with
  | TokenNumber | TokenString | TokenChar | TokenTrue | TokenFalse | TokenNil => true
  | _ => false
  end.

(** The level of a token as an infix operator. *)
Definition binds (t : Token) : Z := level (getPrecedence (Type_ t)).

(** An identifier node made from an identifier token. *)
Definition named (id : Ident) : bool :=
  sameType (Type_ (IdToken id)) TokenIdentifier
  && String.eqb (IdName id) (Lexeme (IdToken id)).

(** How tightly an expression is held together at its top: the level of
    its infix operator, [PrecUnary] for a prefix operator, [PrecCall] for
    a call, an index and a member, [PrecPrimary] otherwise. *)
Definition top (e : Expr) : Z :=
  match e with
  | BinaryExpr _ op _ | LogicalExpr _ op _ | AssignmentExpr _ op _ => binds op
  | UnaryExpr _ _ _ => level PrecUnary
  | CallExpr _ _ _ _ | IndexExpr _ _ _ _ | MemberExpr _ _ _ => level PrecCall
  | _ => level PrecPrimary
  end.

(** The highest level of an infix operator that can take the expression
    as its left operand: an operator of the level of a left-associative
    operator at the top, of a lower level than a right-associative one
    and than a prefix operator, and none after an assignment. *)
Definition follow (e : Expr) : Z :=
  match e with
  | BinaryExpr _ op _ =>
      if isRightAssociative (Type_ op) then binds op - 1 else binds op
  | LogicalExpr _ op _ => binds op
  | AssignmentExpr _ _ _ => level PrecNone
  | UnaryExpr _ _ _ => level PrecUnary - 1
  | _ => level PrecCall
  end.

(** The trees in which the operators are nested by precedence and
    associativity: the right operand of an infix operator is held
    together more tightly than the operator binds (as tightly, for the
    right-associative power operator), the left operand can be followed
    by the operator, the operand of a prefix operator is a primary
    expression with calls, indexes and members, and no part is nil.
    Every token has the type of its place. *)
Fixpoint nested (e : Expr) : bool :=
  match e with
  | NilExpr => false
  | BinaryExpr l op r =>
      binary (Type_ op) && nested l && nested r && (binds op <=? follow l)
      && ((if isRightAssociative (Type_ op) then binds op else binds op + 1) <=? top r)
  | LogicalExpr l op r =>
      logical (Type_ op) && nested l && nested r && (binds op <=? follow l)
      && (binds op + 1 <=? top r)
  | AssignmentExpr target op value =>
      assigns (Type_ op) && nested target && nested value && (binds op <=? follow target)
  | UnaryExpr op operand postfix =>
      negb postfix && prefixes (Type_ op) && nested operand
      && (level PrecUnary <=? top operand)
  | LiteralExpr t _ => literal (Type_ t)
  | IdentifierExpr id => named id
  | CallExpr callee lp args rp =>
      sameType (Type_ lp) TokenLeftParen && sameType (Type_ rp) TokenRightParen
      && nested callee && (level PrecCall <=? follow callee) && forallb nested args
  | IndexExpr object lb index rb =>
      sameType (Type_ lb) TokenLeftBracket && sameType (Type_ rb) TokenRightBracket
      && nested object && (level PrecCall <=? follow object) && nested index
  | MemberExpr object dot member =>
      sameType (Type_ dot) TokenDot && named member
      && nested object && (level PrecCall <=? follow object)
  | GroupingExpr lp e rp =>
      sameType (Type_ lp) TokenLeftParen && sameType (Type_ rp) TokenRightParen
      && nested e
  | ArrayLiteralExpr lb elementType elements rb =>
      sameType (Type_ lb) TokenLeftBracket && sameType (Type_ rb) TokenRightBracket
      && match elementType with NilExpr => true | _ => false end
      && forallb nested elements
  | StructLiteralExpr name lb fields rb =>
      named name
      && sameType (Type_ lb) TokenLeftBrace && sameType (Type_ rb) TokenRightBrace
      && forallb (fun f : Ident * Token * Expr =>
                    named f.1.1 && sameType (Type_ f.1.2) TokenColon && nested f.2)
           fields
  end.

(** The parts of a list with [None] between them. *)
Fixpoint separated {A : Type} (parts : list (list (option A))) : list (option A) :=
  match parts with
  | [] => []
  | [part] => part
  | part :: rest => part ++ None :: separated rest
  end.

(** The tokens of an expression from left to right; [None] stands for a
    comma, which the tree does not keep. *)
Fixpoint yield (e : Expr) : list (option Token) :=
  match e with
  | NilExpr => []
  | BinaryExpr l op r | LogicalExpr l op r | AssignmentExpr l op r =>
      yield l ++ Some op :: yield r
  | UnaryExpr op operand postfix =>
      if postfix then yield operand ++ [Some op] else Some op :: yield operand
  | LiteralExpr t _ => [Some t]
  | IdentifierExpr id => [Some (IdToken id)]
  | CallExpr callee lp args rp =>
      yield callee ++ Some lp :: separated (map yield args) ++ [Some rp]
  | IndexExpr object lb index rb => yield object ++ Some lb :: yield index ++ [Some rb]
  | MemberExpr object dot member => yield object ++ [Some dot; Some (IdToken member)]
  | GroupingExpr lp e rp => Some lp :: yield e ++ [Some rp]
  | ArrayLiteralExpr lb _ elements rb =>
      Some lb :: separated (map yield elements) ++ [Some rb]
  | StructLiteralExpr name lb fields rb =>
      Some (IdToken name) :: Some lb
      :: separated (map (fun f : Ident * Token * Expr =>
                           Some (IdToken f.1.1) :: Some f.1.2 :: yield f.2) fields)
      ++ [Some rb]
  end.

(** A token read is the token kept in the tree, or a comma. *)
Definition spelled (t : Token) (kept : option Token) : Prop :=
  match kept with
  | Some t' => t = t'
  | None => Type_ t = TokenComma
  end.

(** [next p p']: the lexer gives its next token without an error and
    [advance] makes it the current token. *)
Definition next (p p' : Parser) : Prop :=
  exists token l,
    NextToken IsLetter (lex p) = Some (token, None, l) /\
    p' = mkParser l token (current p) (errors p) (panicMode p).

(** [reads p tokens p']: from [p] to [p'] the parser reads [tokens], the
    current token first, and does nothing else. *)
Inductive reads : Parser -> list Token -> Parser -> Prop :=
| reads_nil p : reads p [] p
| reads_cons p p1 p' tokens :
    next p p1 -> reads p1 tokens p' -> reads p (current p :: tokens) p'.

Lemma reads_one p p' : next p p' -> reads p [current p] p'.
Proof. intros H. eapply reads_cons; [exact H|apply reads_nil]. Qed.

Lemma reads_app p1 p2 p3 t1 t2 :
  reads p1 t1 p2 -> reads p2 t2 p3 -> reads p1 (t1 ++ t2) p3.
Proof.
  induction 1 as [|p p1 p' tokens Hn _ IH]; intros H; [exact H|].
  simpl. eapply reads_cons; [exact Hn|]. apply IH, H.
Qed.

Lemma next_previous p p' : next p p' -> previous p' = current p.
Proof. intros (token & l & _ & ->). reflexivity. Qed.

Lemma reads_same p tokens p' :
  reads p tokens p' -> panicMode p' = panicMode p /\ errors p' = errors p.
Proof.
  induction 1 as [|p p1 p' tokens (token & l & _ & ->) _ IH]; [auto|].
  simpl in IH. exact IH.
Qed.

(** *** Steps that leave the parser out of panic mode *)

(** [quietly m G]: when [m] returns and the parser is not in panic mode
    afterwards, it was not before, and [G] holds of the result and the
    two states. *)
Definition quietly {A : Type} (m : P A) (G : A -> Parser -> Parser -> Prop) : Prop :=
  forall p a p', m p = Ok a p' -> panicMode p' = false -> panicMode p = false /\ G a p p'.

Lemma bind_Ok {A B : Type} (m : P A) (f : A -> P B) p b p'' :
  bind m f p = Ok b p'' -> exists a p', m p = Ok a p' /\ f a p' = Ok b p''.
Proof.
  unfold bind. destruct (m p) as [a p'| |]; [eauto|discriminate|discriminate].
Qed.

Lemma error_loud m p a p' : error m p = Ok a p' -> panicMode p' = true.
Proof.
  unfold error. destruct (panicMode p) eqn:E; intros H; injection H as _ <-; auto.
Qed.

Lemma advance_clean p a p' :
  advance p = Ok a p' -> panicMode p' = false -> panicMode p = false /\ next p p'.
Proof.
  unfold advance, parsing.advance. cbn [lex set_previous].
  destruct (NextToken IsLetter (lex p)) as [[[token err] l]|] eqn:E; [|discriminate].
  destruct err as [e|].
  - cbn zeta.
    destruct (error (FromLexer e) (set_lex l (set_previous (current p) p)))
      as [u p1| |] eqn:E1; [|discriminate|discriminate].
    apply error_loud in E1. intros H. injection H as _ <-. simpl. congruence.
  - intros H. injection H as _ <-. simpl. intros Hq. split; [exact Hq|].
    exists token, l. split; [exact E|reflexivity].
Qed.

Lemma consume_quiet t m p a p' :
  consume t m p = Ok a p' -> panicMode p' = false ->
  panicMode p = false /\ next p p' /\ Type_ (current p) = t.
Proof.
  unfold consume, parsing.consume. intros H Hq. apply bind_Ok in H as (b & p1 & Hc & H).
  unfold check in Hc. injection Hc as <- <-.
  destruct (sameType (Type_ (current p)) t) eqn:E.
  - apply sameType_eq in E. destruct (advance_clean _ _ _ H Hq). auto.
  - apply bind_Ok in H as (u & p1 & He & H). discriminate H.
Qed.

Lemma match_quiet t p b p' :
  match_ [t] p = Ok b p' -> panicMode p' = false ->
  panicMode p = false /\
  if b then next p p' /\ Type_ (current p) = t
  else p' = p /\ Type_ (current p) <> t.
Proof.
  unfold match_, parsing.match_. intros H Hq. apply bind_Ok in H as (c & p1 & Hc & H).
  unfold check in Hc. injection Hc as <- <-.
  destruct (sameType (Type_ (current p)) t) eqn:E.
  - apply sameType_eq in E. apply bind_Ok in H as (u & p1 & Ha & H).
    injection H as <- <-. destruct (advance_clean _ _ _ Ha Hq). auto.
  - apply sameType_neq in E. injection H as <- <-. auto.
Qed.

(** The rule for a loop: an invariant that each round keeps. *)
Lemma loopP_quietly {S R : Type} (Inv : S -> Parser -> Prop) (Post : R -> Parser -> Prop)
    (body : S -> P (S + R)) :
  (forall s,
      quietly (body s)
        (fun x p p' =>
           Inv s p -> match x with inl s' => Inv s' p' | inr r => Post r p' end)) ->
  forall n s, quietly (loopP n body s) (fun r p p' => Inv s p -> Post r p').
Proof.
  intros Hbody n. induction n as [|n IH]; intros s p r p' H Hq; [discriminate|].
  cbn [loopP] in H. apply bind_Ok in H as (x & p1 & Hb & H).
  destruct x as [s'|r'].
  - destruct (IH s' p1 r p' H Hq) as [Hq1 Hpost].
    destruct (Hbody s p (inl s') p1 Hb Hq1) as [Hq0 Hinv]. auto.
  - injection H as <- <-. destruct (Hbody s p (inr r') p1 Hb Hq) as [Hq0 Hinv]. auto.
Qed.

(** [parsed e p p']: from [p] to [p'] the parser reads the tokens of
    [e]. *)
Definition parsed (e : Expr) (p p' : Parser) : Prop :=
  exists tokens, reads p tokens p' /\ Forall2 spelled tokens (yield e).

(** What [parsePrecedence(precedence)] returns: a nested tree held
    together at least as tightly as [precedence], made of the tokens
    read, up to a token that is no infix operator of that level. *)
Definition good (precedence : Z) (e : Expr) (p p' : Parser) : Prop :=
  nested e = true /\
  (precedence <= level PrecUnary -> precedence <= top e) /\
  binds (current p') < precedence /\
  parsed e p p'.

Definition commas {A : Type} (parts : list (list (option A))) : list (option A) :=
  flat_map (fun part => part ++ [None]) parts.

Lemma separated_snoc {A : Type} (parts : list (list (option A))) part :
  separated (parts ++ [part]) = commas parts ++ part.
Proof.
  induction parts as [|x parts IH]; [reflexivity|].
  cbn [app commas flat_map]. fold (commas parts).
  rewrite <- !app_assoc. cbn [app]. rewrite <- IH.
  destruct parts; reflexivity.
Qed.

Lemma commas_snoc {A : Type} (parts : list (list (option A))) part :
  commas (parts ++ [part]) = commas parts ++ part ++ [None].
Proof. unfold commas. rewrite flat_map_app. simpl. rewrite app_nil_r. reflexivity. Qed.

Lemma binds_range t : 0 <= binds t <= level PrecCall.
Proof. unfold binds. destruct (Type_ t); simpl; lia. Qed.

Lemma spelled_one t : Forall2 spelled [t] [Some t].
Proof. repeat constructor. Qed.

Ltac loud H :=
  let He := fresh "He" in
  apply bind_Ok in H as (? & ? & He & H); apply error_loud in He;
  injection H as <- <-; congruence.

Lemma literal_quiet (m : P Expr) :
  (forall p e p', m p = Ok e p' ->
     panicMode p' = true \/
     exists v p1, advance p = Ok tt p1 /\ p' = p1 /\ e = LiteralExpr (current p) v) ->
  quietly m
    (fun e p p' => exists v, e = LiteralExpr (current p) v /\ next p p').
Proof.
  intros Hm p e p' H Hq. destruct (Hm p e p' H) as [Hl|(v & p1 & Ha & -> & ->)];
    [congruence|].
  destruct (advance_clean _ _ _ Ha Hq). eauto.
Qed.

Lemma parseNumberLiteral_spec :
  quietly (parseNumberLiteral IsLetter ParseInt ParseFloat)
    (fun e p p' => exists v, e = LiteralExpr (current p) v /\ next p p').
Proof.
  apply literal_quiet. intros p e p' H. unfold parseNumberLiteral in H.
  apply bind_Ok in H as (a & p0 & Hg & H). injection Hg as <- <-.
  apply bind_Ok in H as ([] & p1 & Ha & H).
  destruct (ParseInt (Lexeme (current p))).
  { injection H as <- <-. right. eauto 8. }
  destruct (ParseFloat (Lexeme (current p))).
  { injection H as <- <-. right. eauto 8. }
  apply bind_Ok in H as (? & ? & He & H). apply error_loud in He.
  injection H as _ <-. auto.
Qed.

Lemma parseStringLiteralExpr_spec :
  quietly (parseStringLiteralExpr IsLetter)
    (fun e p p' => exists v, e = LiteralExpr (current p) v /\ next p p').
Proof.
  apply literal_quiet. intros p e p' H. unfold parseStringLiteralExpr in H.
  apply bind_Ok in H as (a & p0 & Hg & H). injection Hg as <- <-.
  apply bind_Ok in H as ([] & p1 & Ha & H).
  apply bind_Ok in H as (s & p2 & Hu & H). unfold unquote in Hu.
  destruct (parseStringLiteral (Lexeme (current p))); [|discriminate].
  injection Hu as <- <-. injection H as <- <-. right. eauto 8.
Qed.

Lemma parseCharLiteral_spec :
  quietly (parseCharLiteral IsLetter)
    (fun e p p' => exists v, e = LiteralExpr (current p) v /\ next p p').
Proof.
  apply literal_quiet. intros p e p' H. unfold parseCharLiteral in H.
  apply bind_Ok in H as (a & p0 & Hg & H). injection Hg as <- <-.
  apply bind_Ok in H as ([] & p1 & Ha & H).
  repeat match type of H with
         | (if ?c then _ else _) _ = _ => destruct c
         | bind (error _) _ _ = _ =>
             left; apply bind_Ok in H as (? & ? & He & H); apply error_loud in He;
             injection H as _ <-; exact He
         | ret _ _ = _ => injection H as <- <-; right; eauto 8
         end.
Qed.

Lemma parseBoolLiteral_spec :
  quietly (parseBoolLiteral IsLetter)
    (fun e p p' => exists v, e = LiteralExpr (current p) v /\ next p p').
Proof.
  apply literal_quiet. intros p e p' H. unfold parseBoolLiteral in H.
  apply bind_Ok in H as (a & p0 & Hg & H). injection Hg as <- <-.
  apply bind_Ok in H as ([] & p1 & Ha & H). injection H as <- <-. right. eauto 8.
Qed.

Lemma parseNilLiteral_spec :
  quietly (parseNilLiteral IsLetter)
    (fun e p p' => exists v, e = LiteralExpr (current p) v /\ next p p').
Proof.
  apply literal_quiet. intros p e p' H. unfold parseNilLiteral in H.
  apply bind_Ok in H as (a & p0 & Hg & H). injection Hg as <- <-.
  apply bind_Ok in H as ([] & p1 & Ha & H). injection H as <- <-. right. eauto 8.
Qed.

Section expression_specs.

Variable fuel : nat.
Variable rec : Z -> P Expr.
Hypothesis Hrec :
  forall precedence, 1 <= precedence -> quietly (rec precedence) (good precedence).

Lemma parseExpression_spec : quietly (parseExpression rec) (good 1).
Proof. apply Hrec. lia. Qed.

Lemma expressionList_spec elements :
  quietly (expressionList IsLetter fuel rec elements)
    (fun result p p' =>
       exists new tokens,
         result = elements ++ new /\ forallb nested new = true /\
         reads p tokens p' /\ Forall2 spelled tokens (separated (map yield new))).
Proof.
  intros p result p' H Hq. unfold expressionList in H.
  pose (Inv := fun (s : list Expr) (q : Parser) =>
          exists new tokens,
            s = elements ++ new /\ forallb nested new = true /\
            reads p tokens q /\ Forall2 spelled tokens (commas (map yield new))).
  pose (Post := fun (s : list Expr) (q : Parser) =>
          exists new tokens,
            s = elements ++ new /\ forallb nested new = true /\
            reads p tokens q /\ Forall2 spelled tokens (separated (map yield new))).
  eassert (Hbody : forall s, quietly (_ s) (fun x q q' =>
             Inv s q -> match x with inl s' => Inv s' q' | inr r => Post r q' end)).
  2: { destruct (loopP_quietly Inv Post _ Hbody fuel elements p result p' H Hq)
         as [Hq0 Hpost].
       split; [exact Hq0|]. apply Hpost. exists [], [].
       rewrite app_nil_r. repeat split; constructor. }
  intros s q x q' Hb Hq'. cbv beta in Hb.
  apply bind_Ok in Hb as (e & q1 & He & Hb).
  apply bind_Ok in Hb as (more & q2 & Hm & Hb).
  assert (q' = q2 /\ x = if more then inl (s ++ [e]) else inr (s ++ [e])) as [-> ->]
    by (destruct more; injection Hb as <- <-; auto).
  destruct (match_quiet _ _ _ _ Hm Hq') as [Hq1 Hmore].
  destruct (parseExpression_spec q e q1 He Hq1) as [Hq0 (Hnest & _ & _ & toks & Hr & Hs)].
  split; [exact Hq0|]. intros (new & tokens & -> & Hall & Hreads & Hsp).
  destruct more.
  - destruct Hmore as [Hn Ht].
    exists (new ++ [e]), (tokens ++ toks ++ [current q1]).
    split; [rewrite app_assoc; reflexivity|].
    split; [rewrite forallb_app; simpl; rewrite Hall, Hnest; reflexivity|].
    split; [eapply reads_app; [exact Hreads|];
            eapply reads_app; [exact Hr|apply reads_one, Hn]|].
    rewrite map_app. simpl map. rewrite commas_snoc.
    apply Forall2_app; [exact Hsp|]. apply Forall2_app; [exact Hs|].
    constructor; [exact Ht|constructor].
  - destruct Hmore as [-> _].
    exists (new ++ [e]), (tokens ++ toks).
    split; [rewrite app_assoc; reflexivity|].
    split; [rewrite forallb_app; simpl; rewrite Hall, Hnest; reflexivity|].
    split; [eapply reads_app; eassumption|].
    rewrite map_app. simpl map. rewrite separated_snoc.
    apply Forall2_app; assumption.
Qed.

(** What a prefix expression is: nested, primary or a prefix operator
    with its operand, and followed by a token that can take it as left
    operand. *)
Definition prefix_good (e : Expr) (p p' : Parser) : Prop :=
  nested e = true /\ level PrecUnary <= top e /\
  binds (current p') <= follow e /\ parsed e p p'.

Definition field_ok (f : Ident * Token * Expr) : bool :=
  named f.1.1 && sameType (Type_ f.1.2) TokenColon && nested f.2.

Definition field_yield (f : Ident * Token * Expr) : list (option Token) :=
  Some (IdToken f.1.1) :: Some f.1.2 :: yield f.2.

Lemma named_ident t : Type_ t = TokenIdentifier -> named (ident t) = true.
Proof.
  intros H. unfold named, ident. simpl. rewrite H, String.eqb_refl. reflexivity.
Qed.

Lemma parseStructLiteral_spec typeName :
  quietly (parseStructLiteral IsLetter fuel rec typeName)
    (fun e p p' =>
       exists lb fields rb,
         e = StructLiteralExpr typeName lb fields rb /\
         (named typeName = true -> nested e = true) /\
         exists tokens,
           reads p tokens p' /\
           Forall2 spelled tokens
             (Some lb :: separated (map field_yield fields) ++ [Some rb])).
Proof.
  intros p e p' H Hq. unfold parseStructLiteral in H.
  apply bind_Ok in H as (a & p0 & Hg & H). injection Hg as <- <-.
  apply bind_Ok in H as ([] & p1 & Hc1 & H).
  apply bind_Ok in H as (closed & p1' & Hck & H). unfold check in Hck.
  injection Hck as <- <-.
  apply bind_Ok in H as (fields & p2 & Hf & H).
  apply bind_Ok in H as ([] & p3 & Hc3 & H).
  apply bind_Ok in H as (a & p3' & Hg & H). injection Hg as <- <-.
  injection H as <- <-.
  destruct (consume_quiet _ _ _ _ _ Hc3 Hq) as (Hq2 & Hn3 & Ht3).
  assert (panicMode p1 = false /\
          forallb field_ok fields = true /\
          exists tokens, reads p1 tokens p2 /\
                         Forall2 spelled tokens (separated (map field_yield fields)))
    as (Hq1 & Hok & tokens & Hr & Hs).
  { destruct (sameType (Type_ (current p1)) TokenRightBrace).
    { injection Hf as <- <-. split; [exact Hq2|]. split; [reflexivity|].
      exists []. split; constructor. }
    pose (Inv := fun (s : list (Ident * Token * Expr)) (q : Parser) =>
            forallb field_ok s = true /\
            exists tokens, reads p1 tokens q /\
                           Forall2 spelled tokens (commas (map field_yield s))).
    pose (Post := fun (s : list (Ident * Token * Expr)) (q : Parser) =>
            forallb field_ok s = true /\
            exists tokens, reads p1 tokens q /\
                           Forall2 spelled tokens (separated (map field_yield s))).
    eassert (Hbody : forall s, quietly (_ s) (fun x q q' =>
               Inv s q -> match x with inl s' => Inv s' q' | inr r => Post r q' end)).
    2: { destruct (loopP_quietly Inv Post _ Hbody fuel [] p1 fields p2 Hf Hq2)
           as [Hq1 Hpost].
         split; [exact Hq1|]. apply Hpost. split; [reflexivity|].
         exists []. split; constructor. }
    intros s q x q' Hb Hq'. cbv beta in Hb.
    apply bind_Ok in Hb as (isName & q0 & Hck & Hb). unfold check in Hck.
    injection Hck as <- <-.
    destruct (sameType (Type_ (current q)) TokenIdentifier) eqn:Hname; cbn [negb] in Hb;
      [|loud Hb].
    apply sameType_eq in Hname.
    apply bind_Ok in Hb as (a & q0 & Hg & Hb). injection Hg as <- <-.
    apply bind_Ok in Hb as ([] & q1 & Ha & Hb).
    apply bind_Ok in Hb as ([] & q2 & Hcolon & Hb).
    apply bind_Ok in Hb as (a & q0 & Hg & Hb). injection Hg as <- <-.
    apply bind_Ok in Hb as (value & q3 & Hv & Hb).
    apply bind_Ok in Hb as (more & q4 & Hm & Hb).
    set (field := (ident (current q), previous q2, value)) in Hb.
    assert (q' = q4 /\ x = if more then inl (s ++ [field]) else inr (s ++ [field]))
      as [-> ->] by (destruct more; injection Hb as <- <-; auto).
    destruct (match_quiet _ _ _ _ Hm Hq') as [Hq3 Hmore].
    destruct (parseExpression_spec q2 value q3 Hv Hq3)
      as [Hq2' (Hnest & _ & _ & toks & Hrv & Hsv)].
    destruct (consume_quiet _ _ _ _ _ Hcolon Hq2') as (Hq1' & Hn2 & Ht2).
    destruct (advance_clean _ _ _ Ha Hq1') as [Hq0 Hn1].
    split; [exact Hq0|]. intros (Hall & tokens & Hreads & Hsp).
    assert (field_ok field = true) as Hfield.
    { unfold field_ok, field. simpl. rewrite (named_ident _ Hname), Hnest.
      rewrite (next_previous _ _ Hn2), Ht2. reflexivity. }
    assert (reads q ([current q; current q1] ++ toks) q3) as Hrf.
    { eapply reads_cons; [exact Hn1|]. eapply reads_cons; [exact Hn2|exact Hrv]. }
    assert (Forall2 spelled ([current q; current q1] ++ toks) (field_yield field)) as Hsf.
    { unfold field_yield, field. simpl. rewrite (next_previous _ _ Hn2).
      constructor; [reflexivity|]. constructor; [reflexivity|exact Hsv]. }
    destruct more.
    - destruct Hmore as [Hn Ht]. split.
      + rewrite forallb_app. simpl. rewrite Hall, Hfield. reflexivity.
      + exists (tokens ++ ([current q; current q1] ++ toks) ++ [current q3]).
        split; [eapply reads_app; [exact Hreads|];
                eapply reads_app; [exact Hrf|apply reads_one, Hn]|].
        rewrite map_app. simpl map. rewrite commas_snoc.
        apply Forall2_app; [exact Hsp|]. apply Forall2_app; [exact Hsf|].
        constructor; [exact Ht|constructor].
    - destruct Hmore as [-> _]. split.
      + rewrite forallb_app. simpl. rewrite Hall, Hfield. reflexivity.
      + exists (tokens ++ [current q; current q1] ++ toks).
        split; [eapply reads_app; eassumption|].
        rewrite map_app. simpl map. rewrite separated_snoc.
        apply Forall2_app; assumption. }
  destruct (consume_quiet _ _ _ _ _ Hc1 Hq1) as (Hq0 & Hn1 & Ht1).
  split; [exact Hq0|]. exists (current p), fields, (previous p3).
  split; [reflexivity|]. split.
  - intros Hnamed. cbn [nested]. rewrite Hnamed, Ht1, (next_previous _ _ Hn3), Ht3.
    exact Hok.
  - exists (current p :: tokens ++ [current p2]). split.
    + eapply reads_cons; [exact Hn1|]. eapply reads_app; [exact Hr|].
      apply reads_one, Hn3.
    + constructor; [reflexivity|]. apply Forall2_app; [exact Hs|].
      rewrite (next_previous _ _ Hn3). apply spelled_one.
Qed.

Lemma parseIdentifier_spec :
  quietly (parseIdentifier IsLetter fuel rec)
    (fun e p p' => Type_ (current p) = TokenIdentifier -> prefix_good e p p').
Proof.
  intros p e p' H Hq. unfold parseIdentifier in H.
  apply bind_Ok in H as (a & p0 & Hg & H). injection Hg as <- <-.
  apply bind_Ok in H as ([] & p1 & Ha & H).
  apply bind_Ok in H as (isLiteral & p1' & Hck & H). unfold check in Hck.
  injection Hck as <- <-.
  destruct (sameType (Type_ (current p1)) TokenLeftBrace).
  - destruct (parseStructLiteral_spec _ _ _ _ H Hq)
      as (Hq1 & lb & fields & rb & -> & Hnest & tokens & Hr & Hs).
    destruct (advance_clean _ _ _ Ha Hq1) as [Hq0 Hn].
    split; [exact Hq0|]. intros Ht. split; [apply Hnest, named_ident, Ht|].
    split; [simpl; lia|]. split; [apply binds_range|].
    exists (current p :: tokens). split; [eapply reads_cons; eassumption|].
    cbn [yield]. constructor; [reflexivity|exact Hs].
  - injection H as <- <-. destruct (advance_clean _ _ _ Ha Hq) as [Hq0 Hn].
    split; [exact Hq0|]. intros Ht. split; [apply named_ident, Ht|].
    split; [simpl; lia|]. split; [apply binds_range|].
    exists [current p]. split; [apply reads_one, Hn|apply spelled_one].
Qed.

Lemma parseGrouping_spec :
  quietly (parseGrouping IsLetter rec)
    (fun e p p' => Type_ (current p) = TokenLeftParen -> prefix_good e p p').
Proof.
  intros p e p' H Hq. unfold parseGrouping in H.
  apply bind_Ok in H as (a & p0 & Hg & H). injection Hg as <- <-.
  apply bind_Ok in H as ([] & p1 & Ha & H).
  apply bind_Ok in H as (expr & p2 & He & H).
  apply bind_Ok in H as ([] & p3 & Hc & H).
  apply bind_Ok in H as (a & p0 & Hg & H). injection Hg as <- <-.
  injection H as <- <-.
  destruct (consume_quiet _ _ _ _ _ Hc Hq) as (Hq2 & Hn3 & Ht3).
  destruct (parseExpression_spec _ _ _ He Hq2) as [Hq1 (Hnest & _ & _ & toks & Hr & Hs)].
  destruct (advance_clean _ _ _ Ha Hq1) as [Hq0 Hn].
  split; [exact Hq0|]. intros Ht. split.
  { cbn [nested]. rewrite Ht, (next_previous _ _ Hn3), Ht3, Hnest. reflexivity. }
  split; [simpl; lia|]. split; [apply binds_range|].
  exists (current p :: toks ++ [current p2]). split.
  - eapply reads_cons; [exact Hn|]. eapply reads_app; [exact Hr|apply reads_one, Hn3].
  - cbn [yield]. constructor; [reflexivity|]. apply Forall2_app; [exact Hs|].
    rewrite (next_previous _ _ Hn3). apply spelled_one.
Qed.

Lemma parseArrayLiteral_spec :
  quietly (parseArrayLiteral IsLetter fuel rec)
    (fun e p p' => Type_ (current p) = TokenLeftBracket -> prefix_good e p p').
Proof.
  intros p e p' H Hq. unfold parseArrayLiteral in H.
  apply bind_Ok in H as (a & p0 & Hg & H). injection Hg as <- <-.
  apply bind_Ok in H as ([] & p1 & Ha & H).
  apply bind_Ok in H as (closed & p1' & Hck & H). unfold check in Hck.
  injection Hck as <- <-.
  apply bind_Ok in H as (elements & p2 & He & H).
  apply bind_Ok in H as ([] & p3 & Hc & H).
  apply bind_Ok in H as (a & p0 & Hg & H). injection Hg as <- <-.
  injection H as <- <-.
  destruct (consume_quiet _ _ _ _ _ Hc Hq) as (Hq2 & Hn3 & Ht3).
  assert (panicMode p1 = false /\ forallb nested elements = true /\
          exists tokens, reads p1 tokens p2 /\
                         Forall2 spelled tokens (separated (map yield elements)))
    as (Hq1 & Hall & toks & Hr & Hs).
  { destruct (sameType (Type_ (current p1)) TokenRightBracket).
    - injection He as <- <-. split; [exact Hq2|]. split; [reflexivity|].
      exists []. split; constructor.
    - destruct (expressionList_spec [] _ _ _ He Hq2)
        as (Hq1 & new & tokens & -> & Hall & Hr & Hs). eauto 8. }
  destruct (advance_clean _ _ _ Ha Hq1) as [Hq0 Hn].
  split; [exact Hq0|]. intros Ht. split.
  { cbn [nested]. rewrite Ht, (next_previous _ _ Hn3), Ht3, Hall. reflexivity. }
  split; [simpl; lia|]. split; [apply binds_range|].
  exists (current p :: toks ++ [current p2]). split.
  - eapply reads_cons; [exact Hn|]. eapply reads_app; [exact Hr|apply reads_one, Hn3].
  - cbn [yield]. constructor; [reflexivity|]. apply Forall2_app; [exact Hs|].
    rewrite (next_previous _ _ Hn3). apply spelled_one.
Qed.

Lemma parseUnary_spec :
  quietly (parseUnary IsLetter rec)
    (fun e p p' => prefixes (Type_ (current p)) = true -> prefix_good e p p').
Proof.
  intros p e p' H Hq. unfold parseUnary in H.
  apply bind_Ok in H as (a & p0 & Hg & H). injection Hg as <- <-.
  apply bind_Ok in H as ([] & p1 & Ha & H).
  apply bind_Ok in H as (operand & p2 & He & H).
  injection H as <- <-.
  destruct (Hrec (level PrecUnary) ltac:(simpl; lia) _ _ _ He Hq)
    as [Hq1 (Hnest & Htop & Hstop & toks & Hr & Hs)].
  destruct (advance_clean _ _ _ Ha Hq1) as [Hq0 Hn].
  split; [exact Hq0|]. intros Ht. split.
  { cbn [nested negb]. rewrite Ht, Hnest. simpl.
    apply Z.leb_le. apply Htop. simpl. lia. }
  split; [simpl; lia|]. split; [simpl in *; lia|].
  exists (current p :: toks). split; [eapply reads_cons; eassumption|].
  cbn [yield]. constructor; [reflexivity|exact Hs].
Qed.

Lemma parsePrefix_spec :
  quietly (parsePrefix IsLetter ParseInt ParseFloat fuel rec)
    (fun e p p' => (e = NilExpr /\ p' = p) \/ prefix_good e p p').
Proof.
  intros p e p' H Hq. unfold parsePrefix in H.
  apply bind_Ok in H as (a & p0 & Hg & H). injection Hg as <- <-.
  assert (forall m : P Expr,
            quietly m (fun e p p' => exists v, e = LiteralExpr (current p) v /\ next p p') ->
            m p = Ok e p' -> literal (Type_ (current p)) = true ->
            panicMode p = false /\ prefix_good e p p') as Hliteral.
  { intros m Hm Hrun Hl. destruct (Hm p e p' Hrun Hq) as (Hq0 & v & -> & Hn).
    split; [exact Hq0|]. split; [exact Hl|]. split; [simpl; lia|].
    split; [apply binds_range|].
    exists [current p]. split; [apply reads_one, Hn|apply spelled_one]. }
  assert (forall (m : P Expr) (c : bool),
            quietly m (fun e p p' => c = true -> prefix_good e p p') ->
            m p = Ok e p' -> c = true ->
            panicMode p = false /\ ((e = NilExpr /\ p' = p) \/ prefix_good e p p'))
    as Hother.
  { intros m c Hm Hrun Hc. destruct (Hm p e p' Hrun Hq) as (Hq0 & Hg). auto. }
  destruct (Type_ (current p)) eqn:Ht;
    try (injection H as <- <-; split; [exact Hq|left; auto]);
    try (edestruct Hliteral as [Hq0 Hg]; [|exact H|reflexivity|split; [exact Hq0|right; exact Hg]];
         first [apply parseNumberLiteral_spec | apply parseStringLiteralExpr_spec
               | apply parseCharLiteral_spec | apply parseBoolLiteral_spec
               | apply parseNilLiteral_spec]).
  - destruct (parseIdentifier_spec _ _ _ H Hq) as [Hq0 Hg]. auto.
  - destruct (parseUnary_spec _ _ _ H Hq) as [Hq0 Hg].
    split; [exact Hq0|]. right. apply Hg. rewrite Ht. reflexivity.
  - destruct (parseUnary_spec _ _ _ H Hq) as [Hq0 Hg].
    split; [exact Hq0|]. right. apply Hg. rewrite Ht. reflexivity.
  - destruct (parseUnary_spec _ _ _ H Hq) as [Hq0 Hg].
    split; [exact Hq0|]. right. apply Hg. rewrite Ht. reflexivity.
  - destruct (parseUnary_spec _ _ _ H Hq) as [Hq0 Hg].
    split; [exact Hq0|]. right. apply Hg. rewrite Ht. reflexivity.
  - destruct (parseUnary_spec _ _ _ H Hq) as [Hq0 Hg].
    split; [exact Hq0|]. right. apply Hg. rewrite Ht. reflexivity.
  - destruct (parseGrouping_spec _ _ _ H Hq) as [Hq0 Hg]. auto.
  - destruct (parseArrayLiteral_spec _ _ _ H Hq) as [Hq0 Hg]. auto.
Qed.

(** What an infix expression is, given its left operand: nested, with
    the operator just read at its top, followed by a token that can take
    it as left operand, and made of the left operand and the tokens
    read. *)
Definition infix_good (left e : Expr) (p p' : Parser) : Prop :=
  nested e = true /\ binds (current p) <= top e /\
  binds (current p') <= follow e /\
  exists tokens more,
    reads p tokens p' /\ yield e = yield left ++ more /\ Forall2 spelled tokens more.

Lemma binary_binds t :
  binary (Type_ t) = true ->
  4 <= binds t <= 12 /\ (isRightAssociative (Type_ t) = true -> binds t = 12).
Proof.
  unfold binds. destruct (Type_ t); try discriminate; simpl; intros _;
    (split; [lia|]); first [discriminate | reflexivity].
Qed.

Lemma parseBinary_spec left :
  quietly (parseBinary IsLetter rec left)
    (fun e p p' =>
       binary (Type_ (current p)) = true -> nested left = true ->
       binds (current p) <= follow left -> infix_good left e p p').
Proof.
  intros p e p' H Hq. unfold parseBinary in H.
  apply bind_Ok in H as (a & p0 & Hg & H). injection Hg as <- <-.
  apply bind_Ok in H as ([] & p1 & Ha & H).
  apply bind_Ok in H as (right & p2 & He & H).
  injection H as <- <-. fold (binds (current p)) in He.
  assert (binary (Type_ (current p)) = true -> panicMode p = false /\
          (nested left = true -> binds (current p) <= follow left ->
           infix_good left (BinaryExpr left (current p) right) p p2)) as Hmain.
  { intros Hb. destruct (binary_binds _ Hb) as [Hrange Hra].
    set (precedence := if isRightAssociative (Type_ (current p))
                       then binds (current p) - 1 else binds (current p)) in *.
    assert (3 <= precedence <= 12) as Hp
      by (subst precedence; destruct (isRightAssociative (Type_ (current p))); lia).
    destruct (Hrec (precedence + 1) ltac:(lia) _ _ _ He Hq)
      as [Hq1 (Hnest & Htop & Hstop & toks & Hr & Hs)].
    destruct (advance_clean _ _ _ Ha Hq1) as [Hq0 Hn].
    split; [exact Hq0|]. intros Hl Hf. split.
    { cbn [nested]. rewrite Hb, Hl, Hnest. simpl.
      apply andb_true_intro. split; [apply Z.leb_le; exact Hf|].
      apply Z.leb_le. specialize (Htop ltac:(simpl; lia)). subst precedence.
      destruct (isRightAssociative (Type_ (current p))); lia. }
    split; [simpl; lia|]. split; [simpl; fold precedence; lia|].
    exists (current p :: toks), (Some (current p) :: yield right).
    split; [eapply reads_cons; eassumption|]. split; [reflexivity|].
    constructor; [reflexivity|exact Hs]. }
  destruct (binary (Type_ (current p))) eqn:Hb.
  - destruct (Hmain eq_refl) as [Hq0 Hg]. split; [exact Hq0|]. intros _. exact Hg.
  - (* the state is quiet whatever the operator is *)
    assert (panicMode p = false) as Hq0.
    { destruct (isRightAssociative (Type_ (current p))) eqn:Hra.
      - destruct (Hrec (binds (current p) - 1 + 1)) with (2 := He) as [Hq1 _];
          [|exact Hq|exact (proj1 (advance_clean _ _ _ Ha Hq1))].
        unfold binds. destruct (Type_ (current p)); try discriminate; simpl; lia.
      - destruct (Hrec (binds (current p) + 1)) with (2 := He) as [Hq1 _];
          [|exact Hq|exact (proj1 (advance_clean _ _ _ Ha Hq1))].
        pose proof (binds_range (current p)). lia. }
    split; [exact Hq0|]. discriminate.
Qed.

Lemma parseLogical_spec left :
  quietly (parseLogical IsLetter rec left)
    (fun e p p' =>
       logical (Type_ (current p)) = true -> nested left = true ->
       binds (current p) <= follow left -> infix_good left e p p').
Proof.
  intros p e p' H Hq. unfold parseLogical in H.
  apply bind_Ok in H as (a & p0 & Hg & H). injection Hg as <- <-.
  apply bind_Ok in H as ([] & p1 & Ha & H).
  apply bind_Ok in H as (right & p2 & He & H).
  injection H as <- <-. fold (binds (current p)) in He.
  pose proof (binds_range (current p)) as Hrange.
  destruct (Hrec (binds (current p) + 1) ltac:(lia) _ _ _ He Hq)
    as [Hq1 (Hnest & Htop & Hstop & toks & Hr & Hs)].
  destruct (advance_clean _ _ _ Ha Hq1) as [Hq0 Hn].
  split; [exact Hq0|]. intros Hb Hl Hf.
  assert (binds (current p) <= 3) as Hsmall
    by (unfold binds; destruct (Type_ (current p)); try discriminate; simpl; lia).
  split.
  { cbn [nested]. rewrite Hb, Hl, Hnest. simpl.
    apply andb_true_intro. split; apply Z.leb_le; [exact Hf|].
    apply Htop. simpl. lia. }
  split; [simpl; lia|]. split; [simpl; lia|].
  exists (current p :: toks), (Some (current p) :: yield right).
  split; [eapply reads_cons; eassumption|]. split; [reflexivity|].
  constructor; [reflexivity|exact Hs].
Qed.

Lemma parseAssignment_spec left :
  quietly (parseAssignment IsLetter rec left)
    (fun e p p' =>
       assigns (Type_ (current p)) = true -> nested left = true ->
       binds (current p) <= follow left -> infix_good left e p p').
Proof.
  intros p e p' H Hq. unfold parseAssignment in H.
  apply bind_Ok in H as (a & p0 & Hg & H). injection Hg as <- <-.
  apply bind_Ok in H as ([] & p1 & Ha & H).
  apply bind_Ok in H as (right & p2 & He & H).
  injection H as <- <-.
  destruct (Hrec (level PrecAssignment) ltac:(simpl; lia) _ _ _ He Hq)
    as [Hq1 (Hnest & Htop & Hstop & toks & Hr & Hs)].
  destruct (advance_clean _ _ _ Ha Hq1) as [Hq0 Hn].
  split; [exact Hq0|]. intros Hb Hl Hf. split.
  { cbn [nested]. rewrite Hb, Hl, Hnest. simpl. apply Z.leb_le. exact Hf. }
  split; [simpl; lia|]. split; [simpl in *; lia|].
  exists (current p :: toks), (Some (current p) :: yield right).
  split; [eapply reads_cons; eassumption|]. split; [reflexivity|].
  constructor; [reflexivity|exact Hs].
Qed.

Lemma parseMember_spec left :
  quietly (parseMember IsLetter left)
    (fun e p p' =>
       Type_ (current p) = TokenDot -> nested left = true ->
       binds (current p) <= follow left -> infix_good left e p p').
Proof.
  intros p e p' H Hq. unfold parseMember in H.
  apply bind_Ok in H as (a & p0 & Hg & H). injection Hg as <- <-.
  apply bind_Ok in H as ([] & p1 & Ha & H).
  apply bind_Ok in H as (isName & p1' & Hck & H). unfold check in Hck.
  injection Hck as <- <-.
  destruct (sameType (Type_ (current p1)) TokenIdentifier) eqn:Hname; cbn [negb] in H;
    [|loud H].
  apply sameType_eq in Hname.
  apply bind_Ok in H as (a & p0 & Hg & H). injection Hg as <- <-.
  apply bind_Ok in H as ([] & p2 & Ha2 & H).
  injection H as <- <-.
  destruct (advance_clean _ _ _ Ha2 Hq) as [Hq1 Hn2].
  destruct (advance_clean _ _ _ Ha Hq1) as [Hq0 Hn].
  split; [exact Hq0|]. intros Hb Hl Hf.
  assert (binds (current p) = 14) as Hdot by (unfold binds; rewrite Hb; reflexivity).
  split.
  { cbn [nested]. rewrite Hb, Hl, (named_ident _ Hname). simpl.
    apply Z.leb_le. lia. }
  split; [simpl; lia|]. split; [apply binds_range|].
  exists [current p; current p1], [Some (current p); Some (current p1)].
  split; [eapply reads_cons; [exact Hn|apply reads_one, Hn2]|].
  split; [reflexivity|]. repeat constructor.
Qed.

Lemma parseCall_spec left :
  quietly (parseCall IsLetter fuel rec left)
    (fun e p p' =>
       Type_ (current p) = TokenLeftParen -> nested left = true ->
       binds (current p) <= follow left -> infix_good left e p p').
Proof.
  intros p e p' H Hq. unfold parseCall in H.
  apply bind_Ok in H as (a & p0 & Hg & H). injection Hg as <- <-.
  apply bind_Ok in H as ([] & p1 & Ha & H).
  apply bind_Ok in H as (closed & p1' & Hck & H). unfold check in Hck.
  injection Hck as <- <-.
  apply bind_Ok in H as (elements & p2 & He & H).
  apply bind_Ok in H as ([] & p3 & Hc & H).
  apply bind_Ok in H as (a & p0 & Hg & H). injection Hg as <- <-.
  injection H as <- <-.
  destruct (consume_quiet _ _ _ _ _ Hc Hq) as (Hq2 & Hn3 & Ht3).
  assert (panicMode p1 = false /\ forallb nested elements = true /\
          exists tokens, reads p1 tokens p2 /\
                         Forall2 spelled tokens (separated (map yield elements)))
    as (Hq1 & Hall & toks & Hr & Hs).
  { destruct (sameType (Type_ (current p1)) TokenRightParen).
    - injection He as <- <-. split; [exact Hq2|]. split; [reflexivity|].
      exists []. split; constructor.
    - destruct (expressionList_spec [] _ _ _ He Hq2)
        as (Hq1 & new & tokens & -> & Hall & Hr & Hs). eauto 8. }
  destruct (advance_clean _ _ _ Ha Hq1) as [Hq0 Hn].
  split; [exact Hq0|]. intros Hb Hl Hf.
  assert (binds (current p) = 14) as Hparen by (unfold binds; rewrite Hb; reflexivity).
  split.
  { cbn [nested]. rewrite Hb, (next_previous _ _ Hn3), Ht3, Hl, Hall. simpl.
    rewrite andb_true_r. apply Z.leb_le. lia. }
  split; [simpl; lia|]. split; [apply binds_range|].
  exists (current p :: toks ++ [current p2]),
         (Some (current p) :: separated (map yield elements) ++ [Some (previous p3)]).
  split; [eapply reads_cons; [exact Hn|];
          eapply reads_app; [exact Hr|apply reads_one, Hn3]|].
  split; [reflexivity|]. constructor; [reflexivity|].
  apply Forall2_app; [exact Hs|]. rewrite (next_previous _ _ Hn3). apply spelled_one.
Qed.

Lemma parseIndex_spec left :
  quietly (parseIndex IsLetter rec left)
    (fun e p p' =>
       Type_ (current p) = TokenLeftBracket -> nested left = true ->
       binds (current p) <= follow left -> infix_good left e p p').
Proof.
  intros p e p' H Hq. unfold parseIndex in H.
  apply bind_Ok in H as (a & p0 & Hg & H). injection Hg as <- <-.
  apply bind_Ok in H as ([] & p1 & Ha & H).
  apply bind_Ok in H as (index & p2 & He & H).
  apply bind_Ok in H as ([] & p3 & Hc & H).
  apply bind_Ok in H as (a & p0 & Hg & H). injection Hg as <- <-.
  injection H as <- <-.
  destruct (consume_quiet _ _ _ _ _ Hc Hq) as (Hq2 & Hn3 & Ht3).
  destruct (parseExpression_spec _ _ _ He Hq2) as [Hq1 (Hnest & _ & _ & toks & Hr & Hs)].
  destruct (advance_clean _ _ _ Ha Hq1) as [Hq0 Hn].
  split; [exact Hq0|]. intros Hb Hl Hf.
  assert (binds (current p) = 14) as Hbracket by (unfold binds; rewrite Hb; reflexivity).
  split.
  { cbn [nested]. rewrite Hb, (next_previous _ _ Hn3), Ht3, Hl, Hnest. simpl.
    rewrite andb_true_r. apply Z.leb_le. lia. }
  split; [simpl; lia|]. split; [apply binds_range|].
  exists (current p :: toks ++ [current p2]),
         (Some (current p) :: yield index ++ [Some (previous p3)]).
  split; [eapply reads_cons; [exact Hn|];
          eapply reads_app; [exact Hr|apply reads_one, Hn3]|].
  split; [reflexivity|]. constructor; [reflexivity|].
  apply Forall2_app; [exact Hs|]. rewrite (next_previous _ _ Hn3). apply spelled_one.
Qed.

Lemma parseInfix_spec left :
  quietly (parseInfix IsLetter fuel rec left)
    (fun e p p' =>
       nested left = true -> binds (current p) <= follow left ->
       1 <= binds (current p) -> infix_good left e p p').
Proof.
  intros p e p' H Hq. unfold parseInfix in H.
  apply bind_Ok in H as (a & p0 & Hg & H). injection Hg as <- <-.
  destruct (Type_ (current p)) eqn:Ht;
    try (injection H as <- <-; split; [exact Hq|];
         intros _ _ Hb; unfold binds in Hb; rewrite Ht in Hb; simpl in Hb; lia);
    try (destruct (parseBinary_spec _ _ _ _ H Hq) as [Hq0 Hg];
         split; [exact Hq0|]; intros Hl Hf _; apply Hg; [rewrite Ht; reflexivity|exact Hl|exact Hf]);
    try (destruct (parseLogical_spec _ _ _ _ H Hq) as [Hq0 Hg];
         split; [exact Hq0|]; intros Hl Hf _; apply Hg; [rewrite Ht; reflexivity|exact Hl|exact Hf]);
    try (destruct (parseAssignment_spec _ _ _ _ H Hq) as [Hq0 Hg];
         split; [exact Hq0|]; intros Hl Hf _; apply Hg; [rewrite Ht; reflexivity|exact Hl|exact Hf]).
  - (* ++ *)
    apply bind_Ok in H as ([] & p1 & Ha & H). injection H as <- <-.
    split; [exact (proj1 (advance_clean _ _ _ Ha Hq))|].
    intros _ _ Hb. unfold binds in Hb. rewrite Ht in Hb. simpl in Hb. lia.
  - apply bind_Ok in H as ([] & p1 & Ha & H). injection H as <- <-.
    split; [exact (proj1 (advance_clean _ _ _ Ha Hq))|].
    intros _ _ Hb. unfold binds in Hb. rewrite Ht in Hb. simpl in Hb. lia.
  - destruct (parseMember_spec _ _ _ _ H Hq) as [Hq0 Hg].
    split; [exact Hq0|]. intros Hl Hf _. apply Hg; auto.
  - destruct (parseCall_spec _ _ _ _ H Hq) as [Hq0 Hg].
    split; [exact Hq0|]. intros Hl Hf _. apply Hg; auto.
  - destruct (parseIndex_spec _ _ _ _ H Hq) as [Hq0 Hg].
    split; [exact Hq0|]. intros Hl Hf _. apply Hg; auto.
Qed.

Lemma nested_not_nil e : nested e = true -> e <> NilExpr.
Proof. intros H ->. discriminate. Qed.

Lemma parsePrecedenceBody_spec precedence :
  1 <= precedence ->
  quietly (parsePrecedenceBody IsLetter ParseInt ParseFloat fuel rec precedence)
    (good precedence).
Proof.
  intros Hprec p e p' H Hq. unfold parsePrecedenceBody in H.
  apply bind_Ok in H as (left & p1 & Hp & H).
  assert (left <> NilExpr /\
          loopP fuel
            (fun left : Expr =>
               bind get (fun p : Parser =>
               if precedence <=? level (getPrecedence (Type_ (current p)))
               then bind (parseInfix IsLetter fuel rec left) (fun left => ret (inl left))
               else ret (inr left)))
            left p1 = Ok e p' \/ panicMode p' = true) as [[Hleft Hloop]|Hloud];
    [| |congruence].
  { destruct left; try (left; split; [discriminate|exact H]). right.
    apply bind_Ok in H as (a & p0 & Hg & H). injection Hg as <- <-.
    apply bind_Ok in H as (? & ? & He & H). apply error_loud in He.
    injection H as _ <-. exact He. }
  clear H.
  pose (Inv := fun (left : Expr) (q : Parser) =>
          nested left = true /\ (precedence <= level PrecUnary -> precedence <= top left) /\
          binds (current q) <= follow left /\ parsed left p q).
  pose (Post := fun (e : Expr) (q : Parser) => good precedence e p q).
  eassert (Hbody : forall s, quietly (_ s) (fun x q q' =>
             Inv s q -> match x with inl s' => Inv s' q' | inr r => Post r q' end)).
  2: { destruct (loopP_quietly Inv Post _ Hbody fuel left p1 e p' Hloop Hq)
         as [Hq1 Hpost].
       destruct (parsePrefix_spec _ _ _ Hp Hq1) as [Hq0 Hg].
       split; [exact Hq0|]. destruct Hg as [[-> ->]|(Hnest & Htop & Hf & Hparsed)].
       - exfalso. apply Hleft. reflexivity.
       - apply Hpost. split; [exact Hnest|]. split; [intros Hle; simpl in *; lia|].
         split; [exact Hf|exact Hparsed]. }
  intros s q x q' Hb Hq'. cbv beta in Hb.
  apply bind_Ok in Hb as (a & q0 & Hg & Hb). injection Hg as <- <-.
  fold (binds (current q)) in Hb.
  destruct (precedence <=? binds (current q)) eqn:Hc.
  - apply Z.leb_le in Hc.
    apply bind_Ok in Hb as (left' & q1 & Hi & Hb). injection Hb as <- <-.
    destruct (parseInfix_spec _ _ _ _ Hi Hq') as [Hq0 Hg].
    split; [exact Hq0|]. intros (Hnest & Htop & Hf & tokens & Hr & Hs).
    destruct (Hg Hnest Hf ltac:(lia)) as (Hnest' & Htop' & Hf' & toks & more & Hr' & Hy & Hs').
    split; [exact Hnest'|]. split; [intros _; lia|]. split; [exact Hf'|].
    exists (tokens ++ toks). split; [eapply reads_app; eassumption|].
    rewrite Hy. apply Forall2_app; assumption.
  - apply Z.leb_gt in Hc. injection Hb as <- <-.
    split; [exact Hq'|]. intros (Hnest & Htop & Hf & Hparsed).
    repeat split; auto.
Qed.

End expression_specs.

(** Expressions are nested by precedence.  When [parsePrecedence]
    returns at a level of 1 or more and the parser is not in panic mode
    afterwards, it was not before and no error was added; the tokens
    read from the lexer are, in their order, the tokens of the tree
    returned (the commas apart, which the tree does not keep); the tree
    has no nil part and no postfix operator, and in it the right operand of every infix
    operator is held together more tightly than the operator binds (as
    tightly for [**], which is right-associative; anything for an
    assignment), the left operand at least as tightly (more tightly for
    [**] and the assignments), the operand of a prefix operator is a
    primary expression with its calls, indexes and members, and the tree
    as a whole is held together at least as tightly as the level asked
    for; and the token after it is no infix operator of that level or
    above. *)
Theorem parsePrecedence_nested fuel precedence p e p' :
  1 <= precedence ->
  parsePrecedence fuel precedence p = Ok e p' ->
  panicMode p' = false ->
  panicMode p = false /\ errors p' = errors p /\
  nested e = true /\
  (precedence <= level PrecUnary -> precedence <= top e) /\
  binds (current p') < precedence /\
  exists tokens, reads p tokens p' /\ Forall2 spelled tokens (yield e).
Proof.
  intros Hprec H Hq.
  assert (forall fuel precedence,
             1 <= precedence -> quietly (parsePrecedence fuel precedence) (good precedence))
    as Hall.
  { clear. intros fuel. induction fuel as [|fuel IH]; intros precedence Hprec.
    - intros p e p' H. discriminate H.
    - cbn [parsing.parsePrecedence]. apply parsePrecedenceBody_spec; assumption. }
  destruct (Hall fuel precedence Hprec p e p' H Hq)
    as [Hq0 (Hnest & Htop & Hstop & tokens & Hr & Hs)].
  split; [exact Hq0|]. split; [exact (proj2 (reads_same _ _ _ Hr))|].
  split; [exact Hnest|]. split; [exact Htop|]. split; [exact Hstop|].
  exists tokens. split; assumption.
Qed.

End with_library.

(** [a = b = 1 + 2 * -c ** d ** 2 < f(x, y).z[0] && !ok;] *)
Definition sample_expression : string :=
  "a = b = 1 + 2 * -c ** d ** 2 < f(x, y).z[0] && !ok;".

Definition sample_parser : Parser :=
  match New lexer_spec.IsLetter_ascii (lexer.New sample_expression "a.src") with
  | Ok p _ => p
  | _ => mkParser (lexer.New "" "") zeroToken zeroToken [] false
  end.

Lemma parsePrecedence_nested_witness :
  exists e p',
    parsePrecedence lexer_spec.IsLetter_ascii (fun _ => Some 0) (fun _ => None) 12 1
      sample_parser = Ok e p' /\
    panicMode p' = false /\
    nested e = true /\ Type_ (current p') = TokenSemicolon /\
    length (yield e) = 29%nat.
Proof.
  eexists _, _. split; [vm_compute; reflexivity|]. split; [reflexivity|].
  split; [|split; reflexivity].
  eapply (parsePrecedence_nested lexer_spec.IsLetter_ascii (fun _ => Some 0)
            (fun _ => None) 12 1 sample_parser);
    [lia|vm_compute; reflexivity|reflexivity].
Defined.

(** *** Expression parsing returns *)

(** The lexer of the parser stands within its source. *)
Definition sane (p : Parser) : Prop := lexer_spec.in_source (lex p).

(** What is left to read: the bytes the lexer has not read, counted
    twice, and the current token unless it is the end of the input. *)
Definition measure (p : Parser) : nat :=
  2 * Z.to_nat (len (source (lex p)) - lexer.current (lex p))
  + (if sameType (Type_ (current p)) TokenEOF then 0 else 1).

(** [ends m p Q]: from [p], [m] returns within its bound; when it does
    not panic, the state is sane and [Q] holds. *)
Definition ends {A : Type} (m : P A) (p : Parser) (Q : A -> Parser -> Prop) : Prop :=
  match m p with
  | Ok a p' => sane p' /\ Q a p'
  | Panic _ => True
  | OutOfFuel => False
  end.

Lemma ends_bind {A B : Type} (m : P A) (f : A -> P B) p Q Q' :
  ends m p Q -> (forall a p', sane p' -> Q a p' -> ends (f a) p' Q') ->
  ends (bind m f) p Q'.
Proof.
  unfold ends, bind. destruct (m p) as [a p1| |]; [|auto|auto].
  intros [Hs HQ] Hf. exact (Hf a p1 Hs HQ).
Qed.

Lemma ends_weaken {A : Type} (m : P A) p (Q Q' : A -> Parser -> Prop) :
  ends m p Q -> (forall a p', sane p' -> Q a p' -> Q' a p') -> ends m p Q'.
Proof.
  unfold ends. destruct (m p) as [a p1| |]; [|auto|auto].
  intros [Hs HQ] H. split; [exact Hs|apply H; assumption].
Qed.

Lemma ends_ret {A : Type} (a : A) p (Q : A -> Parser -> Prop) :
  sane p -> Q a p -> ends (ret a) p Q.
Proof. intros Hs HQ. split; assumption. Qed.

Lemma ends_get p : sane p -> ends get p (fun a p' => a = p /\ p' = p).
Proof. intros Hs. split; auto. Qed.

Lemma ends_check t p :
  sane p ->
  ends (check t) p (fun b p' => b = sameType (Type_ (current p)) t /\ p' = p).
Proof. intros Hs. split; auto. Qed.

Lemma same_place_measure p p' : same_place p p' -> measure p' = measure p /\ (sane p -> sane p').
Proof.
  intros (Hl & Hc & _). unfold measure, sane. rewrite Hl, Hc. auto.
Qed.

Lemma ends_error m p : sane p -> ends (error m) p (fun _ p' => same_place p p').
Proof.
  intros Hs. destruct (error_same m p) as (p1 & E & Hp). unfold ends. rewrite E.
  split; [apply (same_place_measure _ _ Hp), Hs|exact Hp].
Qed.

Lemma ends_panic {A : Type} p (Q : A -> Parser -> Prop) : ends panic p Q.
Proof. exact I. Qed.

Section with_library_returns.

Variable IsLetter : Z -> bool.
Variable ParseInt : string -> option Z.
Variable ParseFloat : string -> option Z.

Local Abbreviation advance := (advance IsLetter).
Local Abbreviation consume := (consume IsLetter).
Local Abbreviation match_ := (match_ IsLetter).
Local Abbreviation parsePrecedence := (parsePrecedence IsLetter ParseInt ParseFloat).

(** [advance] at a token other than the end of the input leaves less to
    read. *)
Lemma ends_advance p :
  sane p -> Type_ (current p) <> TokenEOF ->
  ends advance p (fun _ p' => measure p' < measure p)%nat.
Proof.
  intros Hs Ht. unfold ends, advance, parsing.advance. cbn [lex set_previous].
  destruct (lexer_spec.NextToken_progress IsLetter (lex p) Hs)
    as (tok & err & l' & -> & (Hsrc & Hle & Hin) & Hcase).
  apply sameType_neq in Ht.
  assert (0 <= lexer.current (lex p)) as H0 by apply Hs.
  destruct err as [e|].
  - destruct Hcase as [(_ & _ & Hne & _)|Hlt]; [discriminate|].
    cbn zeta.
    destruct (error_same (FromLexer e) (set_lex l' (set_previous (current p) p)))
      as (p1 & -> & Hl & _ & _).
    simpl in Hl. unfold sane, lexer_spec.in_source, measure. simpl. rewrite Hl, Hsrc, Ht.
    split; [lia|]. simpl. lia.
  - unfold sane, lexer_spec.in_source, measure. simpl. rewrite Hsrc, Ht.
    split; [lia|].
    destruct Hcase as [(Heof & _)|Hlt].
    + rewrite Heof. simpl. lia.
    + destruct (sameType (Type_ tok) TokenEOF); lia.
Qed.

Lemma ends_consume t m p :
  sane p -> t <> TokenEOF ->
  ends (consume t m) p (fun _ p' => measure p' < measure p)%nat.
Proof.
  intros Hs Ht. unfold consume, parsing.consume.
  eapply ends_bind; [apply ends_check; exact Hs|].
  intros b p1 Hs1 [-> ->].
  destruct (sameType (Type_ (current p)) t) eqn:E.
  - apply sameType_eq in E. apply ends_advance; [exact Hs|congruence].
  - eapply ends_bind; [apply ends_error; exact Hs|]. intros. apply ends_panic.
Qed.

Lemma ends_match t p :
  sane p -> t <> TokenEOF ->
  ends (match_ [t]) p
    (fun b p' => if b then (measure p' < measure p)%nat else p' = p).
Proof.
  intros Hs Ht. unfold match_, parsing.match_.
  eapply ends_bind; [apply ends_check; exact Hs|].
  intros b p1 Hs1 [-> ->].
  destruct (sameType (Type_ (current p)) t) eqn:E.
  - apply sameType_eq in E.
    eapply ends_bind; [apply ends_advance; [exact Hs|congruence]|].
    intros [] p2 Hs2 Hlt. apply ends_ret; assumption.
  - apply ends_ret; [exact Hs|reflexivity].
Qed.

(** A loop that leaves less to read in every round ends within as many
    rounds as there is to read. *)
Lemma loopP_ends {S R : Type} (body : S -> P (S + R)) (N : nat) :
  (forall s p, sane p -> (measure p < N)%nat ->
     ends (body s) p
       (fun x p' =>
          match x with
          | inl _ => (measure p' < measure p)%nat
          | inr _ => (measure p' <= measure p)%nat
          end)) ->
  forall n s p, sane p -> (measure p < n)%nat -> (n <= N)%nat ->
    ends (loopP n body s) p (fun _ p' => (measure p' <= measure p)%nat).
Proof.
  intros Hbody n. induction n as [|n IH]; intros s p Hs Hm Hn; [lia|].
  cbn [loopP]. eapply ends_bind; [apply Hbody; [exact Hs|lia]|].
  intros [s'|r] p1 Hs1 H1.
  - eapply ends_weaken; [apply IH; [exact Hs1|lia|lia]|].
    intros r p2 _ H2. simpl in H2. lia.
  - apply ends_ret; assumption.
Qed.

Lemma loop_ends {S R : Type} (mu : S -> nat) (body : S -> S + R) :
  (forall s s', body s = inl s' -> (mu s' < mu s)%nat) ->
  forall n s, (mu s < n)%nat -> is_Some (loop n body s).
Proof.
  intros Hbody n. induction n as [|n IH]; intros s Hn; [lia|].
  cbn [loop]. destruct (body s) as [s'|r] eqn:E; [|eauto].
  apply IH. specialize (Hbody s s' E). lia.
Qed.

Lemma parseStringLiteral_returns lexeme : is_Some (parseStringLiteral lexeme).
Proof.
  unfold parseStringLiteral. destruct (len lexeme <? 2); [eauto|].
  set (s := slice lexeme 1 (len lexeme - 1)).
  apply (loop_ends (fun st : Z * string => Z.to_nat (len s - st.1))).
  - intros [i result] [i' result'] H. simpl.
    destruct (i <? len s) eqn:Hi; [|discriminate]. apply Z.ltb_lt in Hi.
    destruct ((byteAt s i =? rune "\") && (i + 1 <? len s)); injection H as <- _; lia.
  - simpl. unfold len. lia.
Qed.

Lemma ends_unquote lexeme p : sane p -> ends (unquote lexeme) p (fun _ p' => p' = p).
Proof.
  intros Hs. unfold ends, unquote.
  destruct (parseStringLiteral_returns lexeme) as [s ->]. auto.
Qed.

Ltac getp :=
  eapply ends_bind; [apply ends_get; assumption|]; intros ? ? _ [-> ->].

Ltac checkp :=
  eapply ends_bind; [apply ends_check; assumption|]; intros ? ? _ [-> ->].

(** What a parsing step that reads a token leaves: a tree, and less to
    read. *)
Definition moved (p : Parser) (e : Expr) (p' : Parser) : Prop :=
  e <> NilExpr /\ (measure p' < measure p)%nat.

Lemma ends_literal (rest : Token -> P Expr) p :
  sane p -> Type_ (current p) <> TokenEOF ->
  (forall p1, sane p1 ->
     ends (rest (current p)) p1 (fun e p' => e <> NilExpr /\ same_place p1 p')) ->
  ends (bind get (fun p => bind advance (fun _ => rest (current p)))) p (moved p).
Proof.
  intros Hs Ht Hrest. getp.
  eapply ends_bind; [apply ends_advance; assumption|]. intros [] p1 Hs1 Hlt.
  eapply ends_weaken; [apply Hrest; exact Hs1|].
  intros e p2 _ [He Hp]. split; [exact He|].
  rewrite (proj1 (same_place_measure _ _ Hp)). exact Hlt.
Qed.

Lemma same_place_refl p : same_place p p.
Proof. repeat split. Qed.

Lemma ends_literal_ret t v p :
  sane p -> ends (ret (LiteralExpr t v)) p (fun e p' => e <> NilExpr /\ same_place p p').
Proof.
  intros Hs. apply ends_ret; [exact Hs|]. split; [discriminate|apply same_place_refl].
Qed.

Lemma ends_literal_error m t v p :
  sane p ->
  ends (bind (error m) (fun _ => ret (LiteralExpr t v))) p
    (fun e p' => e <> NilExpr /\ same_place p p').
Proof.
  intros Hs. eapply ends_bind; [apply ends_error; exact Hs|].
  intros [] p1 Hs1 Hp. apply ends_ret; [exact Hs1|]. split; [discriminate|exact Hp].
Qed.

Lemma parseNumberLiteral_ends p :
  sane p -> Type_ (current p) <> TokenEOF ->
  ends (parseNumberLiteral IsLetter ParseInt ParseFloat) p (moved p).
Proof.
  intros Hs Ht. unfold parseNumberLiteral.
  apply (ends_literal
           (fun token =>
              match ParseInt (Lexeme token) with
              | Some value => ret (LiteralExpr token (ir.PayloadInt64 value))
              | None =>
                  match ParseFloat (Lexeme token) with
                  | None =>
                      bind (error (InvalidNumberLiteral (Lexeme token)))
                        (fun _ => ret (LiteralExpr token (ir.PayloadFloat64 0)))
                  | Some value => ret (LiteralExpr token (ir.PayloadFloat64 value))
                  end
              end)); [exact Hs|exact Ht|].
  intros p1 Hs1. destruct (ParseInt _); [apply ends_literal_ret, Hs1|].
  destruct (ParseFloat _); [apply ends_literal_ret, Hs1|apply ends_literal_error, Hs1].
Qed.

Lemma parseStringLiteralExpr_ends p :
  sane p -> Type_ (current p) <> TokenEOF ->
  ends (parseStringLiteralExpr IsLetter) p (moved p).
Proof.
  intros Hs Ht. unfold parseStringLiteralExpr.
  apply (ends_literal
           (fun token =>
              bind (unquote (Lexeme token))
                (fun value => ret (LiteralExpr token (ir.PayloadString value)))));
    [exact Hs|exact Ht|].
  intros p1 Hs1. eapply ends_bind; [apply ends_unquote, Hs1|].
  intros v p2 _ ->. apply ends_literal_ret, Hs1.
Qed.

Lemma parseCharLiteral_ends p :
  sane p -> Type_ (current p) <> TokenEOF ->
  ends (parseCharLiteral IsLetter) p (moved p).
Proof.
  intros Hs Ht. unfold parseCharLiteral.
  match goal with
  | |- ends (bind get (fun p => bind _ (fun _ => @?rest p))) _ _ =>
      apply (ends_literal (fun token =>
               ltac:(let r := eval cbv beta in (rest (mkParser (lex p) token token [] false)) in
                     exact r)))
  end; [exact Hs|exact Ht|].
  intros p1 Hs1. cbn [current].
  repeat match goal with
         | |- ends (if ?c then _ else _) _ _ => destruct c
         | |- ends (ret _) _ _ => apply ends_literal_ret, Hs1
         | |- ends (bind (error _) _) _ _ => apply ends_literal_error, Hs1
         end.
Qed.

Lemma parseBoolLiteral_ends p :
  sane p -> Type_ (current p) <> TokenEOF ->
  ends (parseBoolLiteral IsLetter) p (moved p).
Proof.
  intros Hs Ht. unfold parseBoolLiteral.
  apply (ends_literal
           (fun token =>
              ret (LiteralExpr token
                     (ir.PayloadBool (sameType (Type_ token) TokenTrue)))));
    [exact Hs|exact Ht|].
  intros p1 Hs1. apply ends_literal_ret, Hs1.
Qed.

Lemma parseNilLiteral_ends p :
  sane p -> Type_ (current p) <> TokenEOF ->
  ends (parseNilLiteral IsLetter) p (moved p).
Proof.
  intros Hs Ht. unfold parseNilLiteral.
  apply (ends_literal (fun token => ret (LiteralExpr token ir.PayloadNone)));
    [exact Hs|exact Ht|].
  intros p1 Hs1. apply ends_literal_ret, Hs1.
Qed.

Ltac mlia := cbv beta iota in *; simpl in *; lia.

Section expression_returns.

Variable fuel : nat.
Variable rec : Z -> P Expr.
Hypothesis Hrec :
  forall precedence p,
    1 <= precedence -> sane p -> (measure p < fuel)%nat ->
    ends (rec precedence) p (fun _ p' => (measure p' <= measure p)%nat).

Lemma parseExpression_ends p :
  sane p -> (measure p < fuel)%nat ->
  ends (parseExpression rec) p (fun _ p' => (measure p' <= measure p)%nat).
Proof. intros Hs Hm. apply Hrec; [simpl; mlia|exact Hs|exact Hm]. Qed.

Lemma expressionList_ends elements p :
  sane p -> (measure p < fuel)%nat ->
  ends (expressionList IsLetter fuel rec elements) p
    (fun _ p' => (measure p' <= measure p)%nat).
Proof.
  intros Hs Hm. unfold expressionList.
  apply (loopP_ends _ fuel); [|exact Hs|exact Hm|mlia].
  clear p Hs Hm. intros s p Hs Hm.
  eapply ends_bind; [apply parseExpression_ends; assumption|].
  intros e p1 Hs1 H1.
  eapply ends_bind; [apply ends_match; [exact Hs1|discriminate]|].
  intros more p2 Hs2 H2. destruct more.
  - apply ends_ret; [exact Hs2|]. simpl. mlia.
  - subst p2. apply ends_ret; [exact Hs1|]. simpl. mlia.
Qed.

Lemma parseStructLiteral_ends typeName p :
  sane p -> (measure p < fuel)%nat ->
  ends (parseStructLiteral IsLetter fuel rec typeName) p
    (fun e p' => e <> NilExpr /\ (measure p' <= measure p)%nat).
Proof.
  intros Hs Hm. unfold parseStructLiteral. getp.
  eapply ends_bind; [apply ends_consume; [exact Hs|discriminate]|].
  intros [] p1 Hs1 H1. checkp.
  eapply ends_bind with (Q := fun _ p' => (measure p' <= measure p1)%nat).
  { destruct (sameType (Type_ (current p1)) TokenRightBrace).
    - apply ends_ret; [exact Hs1|mlia].
    - apply (loopP_ends _ fuel); [|exact Hs1|mlia|mlia].
      intros s q Hsq Hmq. checkp.
      destruct (sameType (Type_ (current q)) TokenIdentifier) eqn:Hname; cbn [negb].
      + apply sameType_eq in Hname. getp.
        eapply ends_bind; [apply ends_advance; [exact Hsq|congruence]|].
        intros [] q1 Hsq1 Hq1.
        eapply ends_bind; [apply ends_consume; [exact Hsq1|discriminate]|].
        intros [] q2 Hsq2 Hq2. getp.
        eapply ends_bind; [apply parseExpression_ends; [exact Hsq2|mlia]|].
        intros value q3 Hsq3 Hq3.
        eapply ends_bind; [apply ends_match; [exact Hsq3|discriminate]|].
        intros more q4 Hsq4 Hq4. destruct more.
        * apply ends_ret; [exact Hsq4|]. simpl. mlia.
        * subst q4. apply ends_ret; [exact Hsq3|]. simpl. mlia.
      + eapply ends_bind; [apply ends_error; exact Hsq|].
        intros [] q1 Hsq1 Hp. apply ends_ret; [exact Hsq1|]. simpl.
        rewrite (proj1 (same_place_measure _ _ Hp)). mlia. }
  intros fields p2 Hs2 H2.
  eapply ends_bind; [apply ends_consume; [exact Hs2|discriminate]|].
  intros [] p3 Hs3 H3. getp. apply ends_ret; [exact Hs3|].
  split; [discriminate|mlia].
Qed.

Lemma parseIdentifier_ends p :
  sane p -> (measure p <= fuel)%nat -> Type_ (current p) <> TokenEOF ->
  ends (parseIdentifier IsLetter fuel rec) p (moved p).
Proof.
  intros Hs Hm Ht. unfold parseIdentifier. getp.
  eapply ends_bind; [apply ends_advance; assumption|]. intros [] p1 Hs1 H1. checkp.
  destruct (sameType (Type_ (current p1)) TokenLeftBrace).
  - eapply ends_weaken; [apply parseStructLiteral_ends; [exact Hs1|mlia]|].
    intros e p2 _ [He H2]. split; [exact He|mlia].
  - apply ends_ret; [exact Hs1|]. split; [discriminate|exact H1].
Qed.

Lemma parseGrouping_ends p :
  sane p -> (measure p <= fuel)%nat -> Type_ (current p) <> TokenEOF ->
  ends (parseGrouping IsLetter rec) p (moved p).
Proof.
  intros Hs Hm Ht. unfold parseGrouping. getp.
  eapply ends_bind; [apply ends_advance; assumption|]. intros [] p1 Hs1 H1.
  eapply ends_bind; [apply parseExpression_ends; [exact Hs1|mlia]|].
  intros e p2 Hs2 H2.
  eapply ends_bind; [apply ends_consume; [exact Hs2|discriminate]|].
  intros [] p3 Hs3 H3. getp. apply ends_ret; [exact Hs3|].
  split; [discriminate|mlia].
Qed.

Lemma parseArrayLiteral_ends p :
  sane p -> (measure p <= fuel)%nat -> Type_ (current p) <> TokenEOF ->
  ends (parseArrayLiteral IsLetter fuel rec) p (moved p).
Proof.
  intros Hs Hm Ht. unfold parseArrayLiteral. getp.
  eapply ends_bind; [apply ends_advance; assumption|]. intros [] p1 Hs1 H1. checkp.
  eapply ends_bind with (Q := fun _ p' => (measure p' <= measure p1)%nat).
  { destruct (sameType (Type_ (current p1)) TokenRightBracket).
    - apply ends_ret; [exact Hs1|mlia].
    - apply expressionList_ends; [exact Hs1|mlia]. }
  intros elements p2 Hs2 H2.
  eapply ends_bind; [apply ends_consume; [exact Hs2|discriminate]|].
  intros [] p3 Hs3 H3. getp. apply ends_ret; [exact Hs3|].
  split; [discriminate|mlia].
Qed.

Lemma parseUnary_ends p :
  sane p -> (measure p <= fuel)%nat -> Type_ (current p) <> TokenEOF ->
  ends (parseUnary IsLetter rec) p (moved p).
Proof.
  intros Hs Hm Ht. unfold parseUnary. getp.
  eapply ends_bind; [apply ends_advance; assumption|]. intros [] p1 Hs1 H1.
  eapply ends_bind; [apply Hrec; [simpl; mlia|exact Hs1|mlia]|].
  intros e p2 Hs2 H2. apply ends_ret; [exact Hs2|].
  split; [discriminate|mlia].
Qed.

Lemma parsePrefix_ends p :
  sane p -> (measure p <= fuel)%nat ->
  ends (parsePrefix IsLetter ParseInt ParseFloat fuel rec) p
    (fun e p' => (e = NilExpr /\ p' = p) \/ moved p e p').
Proof.
  intros Hs Hm. unfold parsePrefix. getp.
  destruct (Type_ (current p)) eqn:Ht;
    try (apply ends_ret; [exact Hs|left; auto]);
    (eapply ends_weaken; [|intros e p' _ H; right; exact H]);
    first [ apply parseNumberLiteral_ends | apply parseStringLiteralExpr_ends
          | apply parseCharLiteral_ends | apply parseBoolLiteral_ends
          | apply parseNilLiteral_ends | apply parseIdentifier_ends
          | apply parseGrouping_ends | apply parseArrayLiteral_ends
          | apply parseUnary_ends ];
    first [exact Hs | exact Hm | congruence].
Qed.

Lemma binds_operator t : 1 <= binds t -> Type_ t <> TokenEOF.
Proof. unfold binds. intros H E. rewrite E in H. simpl in H. mlia. Qed.

Lemma ends_operator (right : Token -> P Expr) p :
  sane p -> (measure p <= fuel)%nat -> Type_ (current p) <> TokenEOF ->
  (forall p1, sane p1 -> (measure p1 < fuel)%nat ->
     ends (right (current p)) p1 (fun _ p' => (measure p' <= measure p1)%nat)) ->
  ends (bind get (fun p => bind advance (fun _ => right (current p)))) p
    (fun _ p' => (measure p' < measure p)%nat).
Proof.
  intros Hs Hm Ht Hright. getp.
  eapply ends_bind; [apply ends_advance; assumption|]. intros [] p1 Hs1 H1.
  eapply ends_weaken; [apply Hright; [exact Hs1|mlia]|].
  intros e p2 _ H2. simpl in H2. mlia.
Qed.

Lemma ends_operand precedence (make : Expr -> Expr) p :
  1 <= precedence -> sane p -> (measure p < fuel)%nat ->
  ends (bind (rec precedence) (fun right => ret (make right))) p
    (fun _ p' => (measure p' <= measure p)%nat).
Proof.
  intros Hp Hs Hm. eapply ends_bind; [apply Hrec; assumption|].
  intros e p1 Hs1 H1. apply ends_ret; assumption.
Qed.

Lemma parseInfix_ends left p :
  sane p -> (measure p <= fuel)%nat -> 1 <= binds (current p) ->
  ends (parseInfix IsLetter fuel rec left) p
    (fun _ p' => (measure p' < measure p)%nat).
Proof.
  intros Hs Hm Hb. pose proof (binds_operator _ Hb) as Ht.
  unfold parseInfix. getp. unfold binds in Hb.
  destruct (Type_ (current p)) eqn:E; try (simpl in Hb; mlia).
  all: try (apply (ends_operator
                     (fun operator =>
                        bind (rec ((if isRightAssociative (Type_ operator)
                                    then level (getPrecedence (Type_ operator)) - 1
                                    else level (getPrecedence (Type_ operator))) + 1))
                          (fun right => ret (BinaryExpr left operator right))));
            [exact Hs|exact Hm|congruence|];
            intros p1 Hs1 Hm1; apply ends_operand;
            [rewrite E; simpl; lia|exact Hs1|exact Hm1]).
  all: try (apply (ends_operator
                     (fun operator =>
                        bind (rec (level (getPrecedence (Type_ operator)) + 1))
                          (fun right => ret (LogicalExpr left operator right))));
            [exact Hs|exact Hm|congruence|];
            intros p1 Hs1 Hm1; apply ends_operand;
            [rewrite E; simpl; lia|exact Hs1|exact Hm1]).
  all: try (apply (ends_operator
                     (fun operator =>
                        bind (rec (level PrecAssignment))
                          (fun right => ret (AssignmentExpr left operator right))));
            [exact Hs|exact Hm|congruence|];
            intros p1 Hs1 Hm1; apply ends_operand;
            [simpl; lia|exact Hs1|exact Hm1]).
  - (* member *)
    unfold parseMember. getp.
    eapply ends_bind; [apply ends_advance; [exact Hs|congruence]|].
    intros [] p1 Hs1 H1. checkp.
    destruct (sameType (Type_ (current p1)) TokenIdentifier) eqn:Hname; cbn [negb].
    + apply sameType_eq in Hname. getp.
      eapply ends_bind; [apply ends_advance; [exact Hs1|congruence]|].
      intros [] p2 Hs2 H2. apply ends_ret; [exact Hs2|mlia].
    + eapply ends_bind; [apply ends_error; exact Hs1|].
      intros [] p2 Hs2 Hp. apply ends_ret; [exact Hs2|].
      rewrite (proj1 (same_place_measure _ _ Hp)). exact H1.
  - (* call *)
    unfold parseCall. getp.
    eapply ends_bind; [apply ends_advance; [exact Hs|congruence]|].
    intros [] p1 Hs1 H1. checkp.
    eapply ends_bind with (Q := fun _ p' => (measure p' <= measure p1)%nat).
    { destruct (sameType (Type_ (current p1)) TokenRightParen).
      - apply ends_ret; [exact Hs1|mlia].
      - apply expressionList_ends; [exact Hs1|mlia]. }
    intros args p2 Hs2 H2.
    eapply ends_bind; [apply ends_consume; [exact Hs2|discriminate]|].
    intros [] p3 Hs3 H3. getp. apply ends_ret; [exact Hs3|mlia].
  - (* index *)
    unfold parseIndex. getp.
    eapply ends_bind; [apply ends_advance; [exact Hs|congruence]|].
    intros [] p1 Hs1 H1.
    eapply ends_bind; [apply parseExpression_ends; [exact Hs1|mlia]|].
    intros index p2 Hs2 H2.
    eapply ends_bind; [apply ends_consume; [exact Hs2|discriminate]|].
    intros [] p3 Hs3 H3. getp. apply ends_ret; [exact Hs3|mlia].
Qed.

Lemma parsePrecedenceBody_ends precedence p :
  1 <= precedence -> sane p -> (measure p <= fuel)%nat ->
  ends (parsePrecedenceBody IsLetter ParseInt ParseFloat fuel rec precedence) p
    (fun _ p' => (measure p' <= measure p)%nat).
Proof.
  intros Hprec Hs Hm. unfold parsePrecedenceBody.
  eapply ends_bind; [apply parsePrefix_ends; assumption|].
  intros left p1 Hs1 [[-> ->]|[Hleft H1]].
  - getp. eapply ends_bind; [apply ends_error; exact Hs|].
    intros [] p2 Hs2 Hp. apply ends_ret; [exact Hs2|].
    rewrite (proj1 (same_place_measure _ _ Hp)). mlia.
  - assert (ends
              (loopP fuel
                 (fun left : Expr =>
                    bind get (fun p : Parser =>
                    if precedence <=? level (getPrecedence (Type_ (current p)))
                    then bind (parseInfix IsLetter fuel rec left)
                           (fun left => ret (inl left))
                    else ret (inr left)))
                 left) p1 (fun _ p' => (measure p' <= measure p1)%nat)) as Hloop.
    { apply (loopP_ends _ fuel); [|exact Hs1|mlia|mlia].
      intros s q Hsq Hmq. getp. fold (binds (current q)).
      destruct (precedence <=? binds (current q)) eqn:Hc.
      - apply Z.leb_le in Hc.
        eapply ends_bind; [apply parseInfix_ends; [exact Hsq|mlia|mlia]|].
        intros e q1 Hsq1 Hq1. apply ends_ret; assumption.
      - apply ends_ret; [exact Hsq|]. simpl. mlia. }
    destruct left; [congruence| | | | | | | | | | | |];
      (eapply ends_weaken; [exact Hloop|]; intros e p2 _ H2; simpl in H2; mlia).
Qed.

End expression_returns.

(** Expression parsing returns.  With the lexer within its source,
    [parsePrecedence] at a level of 1 or more returns or panics as soon
    as the bound is more than what is left to read (twice the bytes the
    lexer has not read, and one for a current token other than the end
    of the input), and leaves the lexer within its source with no more
    to read; a bound of twice the length of the source and two is
    enough. *)
Theorem parsePrecedence_returns fuel precedence p :
  1 <= precedence -> sane p -> (measure p < fuel)%nat ->
  (measure p <= 2 * String.length (source (lex p)) + 1)%nat /\
  match parsePrecedence fuel precedence p with
  | Ok e p' => sane p' /\ (measure p' <= measure p)%nat
  | Panic p' => True
  | OutOfFuel => False
  end.
Proof.
  intros Hprec Hs Hm. split.
  - unfold measure. assert (0 <= lexer.current (lex p)) by apply Hs.
    unfold len. destruct (sameType (Type_ (current p)) TokenEOF); lia.
  - revert precedence p Hprec Hs Hm.
    induction fuel as [|fuel IH]; intros precedence p Hprec Hs Hm; [lia|].
    cbn [parsing.parsePrecedence].
    apply (parsePrecedenceBody_ends fuel (parsePrecedence fuel) IH precedence p Hprec Hs).
    lia.
Qed.

End with_library_returns.

Lemma parsePrecedence_returns_witness :
  sane sample_parser /\ (measure sample_parser < 120)%nat /\
  parsePrecedence lexer_spec.IsLetter_ascii (fun _ => Some 0) (fun _ => None) 120 1
    sample_parser <> OutOfFuel.
Proof.
  assert (sane sample_parser) as Hs by (vm_compute; split; discriminate).
  assert (measure sample_parser < 120)%nat as Hm by (vm_compute; lia).
  split; [exact Hs|]. split; [exact Hm|].
  pose proof (parsePrecedence_returns lexer_spec.IsLetter_ascii (fun _ => Some 0)
                (fun _ => None) 120 1 sample_parser ltac:(lia) Hs Hm) as [_ H].
  intros E. rewrite E in H. exact H.
Defined.


End parsing_spec.
